(** * Verification of the glyph font core: TrueType table parsing, codepoint
    mapping, glyph location, outline decoding, rasterization and bitmap
    sizing, rendering into an image, distance fields and the BMP / PNG
    writers.

    The C sources are [include/glyph_util.h], [include/glyph/glyph_truetype.h]
    and [include/glyph/glyph_image.h].  The embedding is shallow: every C
    function becomes a Rocq function of the same name.

    Conventions of the embedding.
    - Target: x86-64, LP64, little-endian ([unsigned int] and [int] are 32
      bits, [size_t] is 64 bits, [memcpy] into a [uint16_t] reads the low
      byte first).
    - Unsigned arithmetic wraps and the wrap is written out ([uint32],
      [size_t]); an [int] operand of an [unsigned int] operation is converted
      first.  Conversions to a signed type are the two's complement ones
      ([int16], [int32]).  Signed [int] arithmetic is written in [Z]: signed
      overflow is undefined in C, and theorems that depend on it carry the
      range hypothesis that keeps the computation inside [int]; the glyph
      index of a format-12 character map, an [int] sum that is returned as
      it is, is wrapped into [int] in addition.
    - The conversion of a [float] to [int] truncates; where C leaves it
      undefined (a value outside [int], an infinity, a NaN) it gives what
      the conversion instruction of the target gives, [INT_MIN].
    - A font buffer is a [const unsigned char*] without a length, so it is
      modelled as the memory it points to: a function from byte offsets to
      byte values.
    - [float] is IEEE binary32, through the standard library's [SpecFloat]
      at precision 24 and maximal exponent 128.
    - Allocation is assumed to succeed. *)

From Stdlib Require Import ZArith List Bool Lia String Ascii SpecFloat.
Import ListNotations.
Local Open Scope Z_scope.

(** ** Machine integers *)

Module Mach.

Definition uint8 (z : Z) : Z := z mod 2 ^ 8.
Definition uint16 (z : Z) : Z := z mod 2 ^ 16.
Definition uint32 (z : Z) : Z := z mod 2 ^ 32.
Definition size_t (z : Z) : Z := z mod 2 ^ 64.

(** Conversion of an unsigned value to the signed type of the same width. *)
Definition int16 (z : Z) : Z := (z + 2 ^ 15) mod 2 ^ 16 - 2 ^ 15.
Definition int32 (z : Z) : Z := (z + 2 ^ 31) mod 2 ^ 32 - 2 ^ 31.

Definition INT_MAX : Z := 2 ^ 31 - 1.
Definition INT_MIN : Z := - 2 ^ 31.

(** [a + b] in [unsigned int], both operands converted to it. *)
Definition unsigned_add (a b : Z) : Z := uint32 (uint32 a + uint32 b).

(** A C condition: any non-zero value is true. *)
Definition truthy (z : Z) : bool := negb (z =? 0).

End Mach.

(** ** glyph_util.h *)

Module Util.
Import Mach.

(** [return (val << 8) | (val >> 8);] converted back to [uint16_t]. *)
Definition glyph__bswap16 (val : Z) : Z :=
  uint16 (Z.lor (Z.shiftl val 8) (Z.shiftr val 8)).

Definition glyph__bswap32 (val : Z) : Z :=
  uint32
    (Z.lor
       (Z.lor
          (Z.lor (uint32 (Z.shiftl (Z.land val 255) 24))
                 (uint32 (Z.shiftl (Z.land val 65280) 8)))
          (Z.shiftr (Z.land val 16711680) 8))
       (Z.shiftr (Z.land val 4278190080) 24)).

End Util.

(** ** glyph_truetype.h: tables, character map, glyph location *)

Module TrueType.
Import Mach Util.

(** The memory a [const unsigned char*] points to. *)
Definition bytes := Z -> Z.

(** [data + offset] *)
Definition advance_ptr (data : bytes) (offset : Z) : bytes :=
  fun i => data (offset + i).

(** A buffer given by its first bytes; the model reads 0 past them. *)
Definition bytes_of_list (l : list Z) : bytes :=
  fun i => if i <? 0 then 0 else nth (Z.to_nat i) l 0.

Record glyph_font_t := mk_font {
  data : bytes;
  fontstart : Z;
  numGlyphs : Z;
  loca : Z; head : Z; glyf : Z; hhea : Z; hmtx : Z; kern : Z; gpos : Z; cmap : Z;
  index_map : Z;
  indexToLocFormat : Z;
  scale : spec_float
}.

Record glyph_bbox_t := mk_bbox {
  x0 : Z; y0 : Z; x1 : Z; y1 : Z;
  advance : Z; left_side_bearing : Z
}.

(** [memcpy(&val, data + offset, 2)] on a little-endian host. *)
Definition load16 (data : bytes) (offset : Z) : Z :=
  Z.lor (data offset) (Z.shiftl (data (offset + 1)) 8).

Definition load32 (data : bytes) (offset : Z) : Z :=
  Z.lor (Z.lor (data offset) (Z.shiftl (data (offset + 1)) 8))
        (Z.lor (Z.shiftl (data (offset + 2)) 16) (Z.shiftl (data (offset + 3)) 24)).

Definition glyph_ttf__get16 (data : bytes) (offset : Z) : Z :=
  int16 (glyph__bswap16 (load16 data offset)).

Definition glyph_ttf__get16u (data : bytes) (offset : Z) : Z :=
  glyph__bswap16 (load16 data offset).

Definition glyph_ttf__get32 (data : bytes) (offset : Z) : Z :=
  int32 (glyph__bswap32 (load32 data offset)).

(** The character code of the [k]-th character of a tag. *)
Definition tag_byte (tag : string) (k : nat) : Z :=
  match String.get k tag with
  | Some c => Z.of_nat (nat_of_ascii c)
  | None => 0
  end.

Definition tag_at (data : bytes) (loc : Z) (tag : string) : bool :=
  (data loc =? tag_byte tag 0) && (data (loc + 1) =? tag_byte tag 1)
  && (data (loc + 2) =? tag_byte tag 2) && (data (loc + 3) =? tag_byte tag 3).

Definition glyph_ttf__isfont (font : bytes) : bool :=
  tag_at font 0 "ttcf"
  || ((font 0 =? 0) && (font 1 =? 1) && (font 2 =? 0) && (font 3 =? 0))
  || tag_at font 0 "OTTO"
  || tag_at font 0 "true".

(** The directory loop of [glyph_ttf__find_table]: [n] entries are left,
    the next one is entry [i]. *)
Fixpoint find_table_loop (data : bytes) (tabledir : Z) (tag : string)
         (n : nat) (i : Z) : Z :=
  match n with
  | O => 0
  | S n' =>
      let loc := tabledir + 16 * i in
      if tag_at data loc tag then glyph_ttf__get32 data (loc + 8)
      else find_table_loop data tabledir tag n' (i + 1)
  end.

Definition glyph_ttf__find_table (data : bytes) (fontstart : Z) (tag : string) : Z :=
  let num_tables := glyph_ttf__get16u data (fontstart + 4) in
  let tabledir := fontstart + 12 in
  find_table_loop data tabledir tag (Z.to_nat num_tables) 0.

(** The test of the cmap subtable loop in [glyph_ttf_init]. *)
Definition unicode_encoding (platformID platformSpecificID : Z) : bool :=
  (platformID =? 0)
  || ((platformID =? 3) && ((platformSpecificID =? 1) || (platformSpecificID =? 10))).

(** The cmap subtable loop of [glyph_ttf_init]; the result is the value of
    [index_map] after the loop (0 when no subtable was accepted). *)
Fixpoint cmap_scan (data : bytes) (cmap_offset : Z) (n : nat) (i : Z) : Z :=
  match n with
  | O => 0
  | S n' =>
      let platformID := glyph_ttf__get16u data (cmap_offset + 4 + 8 * i) in
      let platformSpecificID := glyph_ttf__get16u data (cmap_offset + 4 + 8 * i + 2) in
      let offset_sub := glyph_ttf__get32 data (cmap_offset + 4 + 8 * i + 4) in
      if unicode_encoding platformID platformSpecificID
      then cmap_offset + offset_sub
      else cmap_scan data cmap_offset n' (i + 1)
  end.

(** Field assignments [font->f = v]. *)
Definition set_source (f : glyph_font_t) (d : bytes) (start : Z) : glyph_font_t :=
  mk_font d start (numGlyphs f) (loca f) (head f) (glyf f) (hhea f) (hmtx f)
          (kern f) (gpos f) (cmap f) (index_map f) (indexToLocFormat f) (scale f).

Definition set_tables (f : glyph_font_t)
           (vcmap vloca vhead vglyf vhhea vhmtx vkern vgpos : Z) : glyph_font_t :=
  mk_font (data f) (fontstart f) (numGlyphs f) vloca vhead vglyf vhhea vhmtx
          vkern vgpos vcmap (index_map f) (indexToLocFormat f) (scale f).

Definition set_indexToLocFormat (f : glyph_font_t) (v : Z) : glyph_font_t :=
  mk_font (data f) (fontstart f) (numGlyphs f) (loca f) (head f) (glyf f) (hhea f)
          (hmtx f) (kern f) (gpos f) (cmap f) (index_map f) v (scale f).

Definition set_index_map (f : glyph_font_t) (v : Z) : glyph_font_t :=
  mk_font (data f) (fontstart f) (numGlyphs f) (loca f) (head f) (glyf f) (hhea f)
          (hmtx f) (kern f) (gpos f) (cmap f) v (indexToLocFormat f) (scale f).

Definition set_numGlyphs (f : glyph_font_t) (v : Z) : glyph_font_t :=
  mk_font (data f) (fontstart f) v (loca f) (head f) (glyf f) (hhea f)
          (hmtx f) (kern f) (gpos f) (cmap f) (index_map f) (indexToLocFormat f) (scale f).

(** [glyph_ttf_init]: the returned pair is the [int] result and the
    contents of [*font] when the function returns. *)
Definition glyph_ttf_init (font : glyph_font_t) (data : bytes) (offset : Z)
  : Z * glyph_font_t :=
  let font := set_source font data offset in
  if negb (glyph_ttf__isfont (advance_ptr data offset)) then (0, font) else
  let font :=
    set_tables font
      (glyph_ttf__find_table data offset "cmap")
      (glyph_ttf__find_table data offset "loca")
      (glyph_ttf__find_table data offset "head")
      (glyph_ttf__find_table data offset "glyf")
      (glyph_ttf__find_table data offset "hhea")
      (glyph_ttf__find_table data offset "hmtx")
      (glyph_ttf__find_table data offset "kern")
      (glyph_ttf__find_table data offset "GPOS") in
  if negb (truthy (cmap font)) || negb (truthy (head font))
     || negb (truthy (hhea font)) || negb (truthy (hmtx font))
  then (0, font) else
  if truthy (glyf font) && negb (truthy (loca font)) then (0, font) else
  let indexToLocFormat := glyph_ttf__get16 data (head font + 50) in
  let font := set_indexToLocFormat font indexToLocFormat in
  let cmap_offset := cmap font in
  let numTables := glyph_ttf__get16u data (cmap_offset + 2) in
  let index_map := cmap_scan data cmap_offset (Z.to_nat numTables) 0 in
  if negb (truthy index_map) then (0, font) else
  let font := set_index_map font index_map in
  let font := set_numGlyphs font (glyph_ttf__get16u data (hhea font + 34)) in
  (1, font).

(** The segment loop of format 4. *)
Fixpoint format4_loop (data : bytes) (codepoint : Z)
         (endCount startCount idDelta idRangeOffset : Z) (n : nat) (i : Z) : Z :=
  match n with
  | O => 0
  | S n' =>
      let end_ := glyph_ttf__get16u data (endCount + i * 2) in
      let next := format4_loop data codepoint endCount startCount idDelta
                               idRangeOffset n' (i + 1) in
      if codepoint <=? end_ then
        let start := glyph_ttf__get16u data (startCount + i * 2) in
        if codepoint >=? start then
          let delta := glyph_ttf__get16 data (idDelta + i * 2) in
          let rangeOffset := glyph_ttf__get16u data (idRangeOffset + i * 2) in
          if rangeOffset =? 0 then Z.land (codepoint + delta) 65535
          else
            let glyphIndex :=
              glyph_ttf__get16u data
                (idRangeOffset + i * 2 + rangeOffset + (codepoint - start) * 2) in
            if truthy glyphIndex then Z.land (glyphIndex + delta) 65535 else 0
        else next
      else next
  end.

(** The group loop of formats 12 and 13.  The difference and the sum of
    format 12 are [int] operations and the result is returned as an [int]:
    the model wraps both into [int], as the subtraction and the addition of
    the target do.  Their overflow is undefined in C, so the statements
    about the result carry the hypothesis that both fit [int]. *)
Fixpoint format12_loop (data : bytes) (codepoint index_map format : Z)
         (n : nat) (i : Z) : Z :=
  match n with
  | O => 0
  | S n' =>
      let startCharCode := glyph_ttf__get32 data (index_map + 16 + i * 12) in
      let endCharCode := glyph_ttf__get32 data (index_map + 16 + i * 12 + 4) in
      if (codepoint >=? startCharCode) && (codepoint <=? endCharCode) then
        if format =? 12
        then int32 (glyph_ttf__get32 data (index_map + 16 + i * 12 + 8)
                    + int32 (codepoint - startCharCode))
        else glyph_ttf__get32 data (index_map + 16 + i * 12 + 8)
      else format12_loop data codepoint index_map format n' (i + 1)
  end.

Definition glyph_ttf_find_glyph_index (font : glyph_font_t) (codepoint : Z) : Z :=
  let data := data font in
  let index_map := index_map font in
  let format := glyph_ttf__get16u data index_map in
  if format =? 0 then
    let bytes := glyph_ttf__get16u data (index_map + 2) in
    if codepoint <? bytes - 6 then data (index_map + 6 + codepoint) else 0
  else if format =? 6 then
    let first := glyph_ttf__get16u data (index_map + 6) in
    let count := glyph_ttf__get16u data (index_map + 8) in
    if (codepoint >=? first) && (codepoint <? first + count)
    then glyph_ttf__get16u data (index_map + 10 + (codepoint - first) * 2)
    else 0
  else if format =? 4 then
    let segcount := Z.shiftr (glyph_ttf__get16u data (index_map + 6)) 1 in
    let endCount := index_map + 14 in
    let startCount := endCount + segcount * 2 + 2 in
    let idDelta := startCount + segcount * 2 in
    let idRangeOffset := idDelta + segcount * 2 in
    format4_loop data codepoint endCount startCount idDelta idRangeOffset
                 (Z.to_nat segcount) 0
  else if (format =? 12) || (format =? 13) then
    let nGroups := glyph_ttf__get32 data (index_map + 12) in
    format12_loop data codepoint index_map format (Z.to_nat nGroups) 0
  else 0.

(** In [font->glyf + (c ? get32 (..) : get16u (..) * 2)] the second branch
    of the conditional is an [unsigned int], so the conditional and the sum
    are [unsigned int]; the initialisation of [int g1] converts the sum back
    to [int]. *)
Definition glyph_ttf__get_glyph_offset (font : glyph_font_t) (glyph_index : Z) : Z :=
  let data := data font in
  let offset :=
    loca font + glyph_index * (if truthy (indexToLocFormat font) then 4 else 2) in
  let g1 :=
    int32 (unsigned_add (glyf font)
             (if truthy (indexToLocFormat font)
              then glyph_ttf__get32 data offset
              else uint32 (glyph_ttf__get16u data offset * 2))) in
  let g2 :=
    int32 (unsigned_add (glyf font)
             (if truthy (indexToLocFormat font)
              then glyph_ttf__get32 data (offset + 4)
              else uint32 (glyph_ttf__get16u data (offset + 2) * 2))) in
  if g1 =? g2 then -1 else g1.

Definition zero_box (bbox : glyph_bbox_t) : glyph_bbox_t :=
  mk_bbox 0 0 0 0 (advance bbox) (left_side_bearing bbox).

(** [glyph_ttf_get_glyph_bbox]: the result is [*bbox] on return. *)
Definition glyph_ttf_get_glyph_bbox (font : glyph_font_t) (glyph_index : Z)
           (bbox : glyph_bbox_t) : glyph_bbox_t :=
  if glyph_index >=? numGlyphs font then zero_box bbox else
  let data := data font in
  let g := glyph_ttf__get_glyph_offset font glyph_index in
  if g <? 0 then zero_box bbox else
  mk_bbox (glyph_ttf__get16 data (g + 2)) (glyph_ttf__get16 data (g + 4))
          (glyph_ttf__get16 data (g + 6)) (glyph_ttf__get16 data (g + 8))
          (advance bbox) (left_side_bearing bbox).

Definition glyph_ttf_get_glyph_advance (font : glyph_font_t) (glyph_index : Z) : Z :=
  let data := data font in
  let numOfLongHorMetrics := glyph_ttf__get16u data (hhea font + 34) in
  if glyph_index <? numOfLongHorMetrics
  then glyph_ttf__get16u data (hmtx font + 4 * glyph_index)
  else glyph_ttf__get16u data (hmtx font + 4 * (numOfLongHorMetrics - 1)).

End TrueType.

(** ** IEEE binary32, the C type [float] *)

Module F32.

Definition prec : Z := 24.
Definition emax : Z := 128.

Definition add : spec_float -> spec_float -> spec_float := SFadd prec emax.
Definition sub : spec_float -> spec_float -> spec_float := SFsub prec emax.
Definition mul : spec_float -> spec_float -> spec_float := SFmul prec emax.
Definition div : spec_float -> spec_float -> spec_float := SFdiv prec emax.

(** Conversion of an [int] to [float] (round to nearest even). *)
Definition of_int (z : Z) : spec_float := binary_normalize prec emax z 0 false.

Definition zero : spec_float := S754_zero false.
Definition one : spec_float := of_int 1.
Definition half : spec_float := div (of_int 1) (of_int 2).

(** [a < b] and [a > b]; both are false when an operand is a NaN. *)
Definition ltb (a b : spec_float) : bool := SFltb a b.
Definition gtb (a b : spec_float) : bool := SFltb b a.

(** The integer below (or equal to) [m * 2^e], and the one above. *)
Definition floor_scaled (m e : Z) : Z :=
  if 0 <=? e then m * 2 ^ e else m / 2 ^ (- e).
Definition ceil_scaled (m e : Z) : Z := - floor_scaled (- m) e.

(** The signed mantissa of a finite number. *)
Definition signed (s : bool) (m : positive) : Z := if s then Zneg m else Zpos m.

(** [floorf] and [ceilf]: a number with a non-negative exponent is already
    an integer; a zero result keeps the sign of the argument. *)
Definition floorf (x : spec_float) : spec_float :=
  match x with
  | S754_finite s m e =>
      if 0 <=? e then x else
      let z := floor_scaled (signed s m) e in
      if z =? 0 then S754_zero s else of_int z
  | _ => x
  end.

Definition ceilf (x : spec_float) : spec_float :=
  match x with
  | S754_finite s m e =>
      if 0 <=? e then x else
      let z := ceil_scaled (signed s m) e in
      if z =? 0 then S754_zero s else of_int z
  | _ => x
  end.

(** The integer part of a finite number. *)
Definition truncate (s : bool) (m : positive) (e : Z) : Z :=
  if s then ceil_scaled (Zneg m) e else floor_scaled (Zpos m) e.

(** [(int)x]: truncation toward zero.  The conversion is undefined in C
    when the integer part does not fit [int] or [x] is not finite; the
    conversion instruction of the target (cvttss2si) then gives
    [INT_MIN]. *)
Definition to_int (x : spec_float) : Z :=
  match x with
  | S754_zero _ => 0
  | S754_finite s m e =>
      let z := truncate s m e in
      if (Mach.INT_MIN <=? z) && (z <=? Mach.INT_MAX) then z else Mach.INT_MIN
  | _ => Mach.INT_MIN
  end.

(** [(unsigned char)x]: the conversion to [int], of which the low byte is
    kept. *)
Definition to_uchar (x : spec_float) : Z := Mach.uint8 (to_int x).

(** [fminf]: the smaller operand, the other operand when one is a NaN. *)
Definition fminf (a b : spec_float) : spec_float :=
  match a, b with
  | S754_nan, _ => b
  | _, S754_nan => a
  | _, _ => if SFltb b a then b else a
  end.

End F32.

(** ** Arrays *)

Module Arr.

Definition get {A} (d : A) (l : list A) (i : Z) : A :=
  if i <? 0 then d else nth (Z.to_nat i) l d.

Fixpoint set_nat {A} (l : list A) (n : nat) (v : A) : list A :=
  match l, n with
  | [], _ => []
  | _ :: t, O => v :: t
  | a :: t, S n' => a :: set_nat t n' v
  end.

(** [l[i] = v]; the model leaves the array alone outside its bounds. *)
Definition set {A} (l : list A) (i : Z) (v : A) : list A :=
  if i <? 0 then l else set_nat l (Z.to_nat i) v.

(** The integers [lo, lo+1, ..., hi-1] of a counting [for] loop. *)
Definition range (lo hi : Z) : list Z :=
  map (fun k => lo + Z.of_nat k) (seq 0 (Z.to_nat (hi - lo))).

End Arr.

(** ** glyph_truetype.h: outline decoding and rasterization *)

Module Outline.
Import Mach TrueType F32.

Record glyph_point_t := mk_point {
  px : spec_float;
  py : spec_float;
  on_curve : Z
}.

Definition origin : glyph_point_t := mk_point zero zero 0.

(** One row of the accumulation loop of [glyph_ttf__add_edge]. *)
Definition add_edge_row (w : Z) (x0 y0 y1 dx dy : spec_float) (dir : Z)
           (accum : list spec_float) (y : Z) : list spec_float :=
  let sy0 := of_int y in
  let sy1 := of_int (y + 1) in
  let sy0 := if ltb sy0 y0 then y0 else sy0 in
  let sy1 := if gtb sy1 y1 then y1 else sy1 in
  let coverage := sub sy1 sy0 in
  let y_mid := mul (add sy0 sy1) half in
  let x_mid := add x0 (div (mul dx (sub y_mid y0)) dy) in
  let x_int := to_int (floorf x_mid) in
  if (x_int >=? 0) && (x_int <? w)
  then Arr.set accum (y * w + x_int)
               (add (Arr.get zero accum (y * w + x_int)) (mul coverage (of_int dir)))
  else accum.

Definition glyph_ttf__add_edge (accum : list spec_float) (w h : Z)
           (x0 y0 x1 y1 : spec_float) : list spec_float :=
  if ltb (SFabs (sub y1 y0)) (div (of_int 1) (of_int 1000)) then accum else
  let swap := gtb y0 y1 in
  let dir := if swap then -1 else 1 in
  let '(x0, y0, x1, y1) := if swap then (x1, y1, x0, y0) else (x0, y0, x1, y1) in
  let y_start := to_int (floorf y0) in
  let y_end := to_int (ceilf y1) in
  if (y_end <=? 0) || (y_start >=? h) then accum else
  let y_start := if y_start <? 0 then 0 else y_start in
  let y_end := if y_end >? h then h else y_end in
  let dx := sub x1 x0 in
  let dy := sub y1 y0 in
  fold_left (add_edge_row w x0 y0 y1 dx dy dir) (Arr.range y_start y_end) accum.

(** One step [t] of the curve flattening loop; the state is the
    accumulator and the previous point. *)
Definition flatten_step (w h : Z) (p0 p1 p2 : glyph_point_t)
           (st : list spec_float * spec_float * spec_float) (t : Z)
  : list spec_float * spec_float * spec_float :=
  let '(accum, prev_x, prev_y) := st in
  let u := div (of_int t) (of_int 32) in
  let b0 := mul (sub (of_int 1) u) (sub (of_int 1) u) in
  let b1 := mul (mul (of_int 2) (sub (of_int 1) u)) u in
  let b2 := mul u u in
  let x := add (add (mul b0 (px p0)) (mul b1 (px p1))) (mul b2 (px p2)) in
  let y := add (add (mul b0 (py p0)) (mul b1 (py p1))) (mul b2 (py p2)) in
  (glyph_ttf__add_edge accum w h prev_x prev_y x y, x, y).

(** The [while (i < n_points)] loop over one contour. *)
Fixpoint contour_loop (w h : Z) (points : list glyph_point_t) (n_points : Z)
         (fuel : nat) (i : Z) (accum : list spec_float) : list spec_float :=
  match fuel with
  | O => accum
  | S fuel' =>
      if negb (i <? n_points) then accum else
      let p0 := Arr.get origin points i in
      let next := Z.rem (i + 1) n_points in
      let p1 := Arr.get origin points next in
      if truthy (on_curve p0) && truthy (on_curve p1) then
        contour_loop w h points n_points fuel' (i + 1)
          (glyph_ttf__add_edge accum w h (px p0) (py p0) (px p1) (py p1))
      else if truthy (on_curve p0) && negb (truthy (on_curve p1)) then
        let next2 := Z.rem (i + 2) n_points in
        let q := Arr.get origin points next2 in
        let p2 :=
          if negb (truthy (on_curve q))
          then mk_point (mul (add (px p1) (px q)) half)
                        (mul (add (py p1) (py q)) half) (on_curve q)
          else q in
        let '(accum, _, _) :=
          fold_left (flatten_step w h p0 p1 p2) (Arr.range 1 33)
                    (accum, px p0, py p0) in
        contour_loop w h points n_points fuel'
          (if negb (truthy (on_curve q)) then i + 1 else i + 2) accum
      else contour_loop w h points n_points fuel' (i + 1) accum
  end.

(** The left-to-right sweep of one bitmap row. *)
Fixpoint sweep_row (cells : list spec_float) (winding : spec_float) : list Z :=
  match cells with
  | [] => []
  | a :: rest =>
      let winding := add winding a in
      let alpha := SFabs winding in
      let alpha := if gtb alpha one then one else alpha in
      to_uchar (mul alpha (of_int 255)) :: sweep_row rest winding
  end.

(** [glyph_ttf__rasterize_shape]: the result is the content of [bitmap]
    on return; every cell of the [w * h] bitmap is written by the sweep. *)
Definition glyph_ttf__rasterize_shape (w h : Z)
           (contours : list (list glyph_point_t)) : list Z :=
  let accum := repeat zero (Z.to_nat (w * h)) in
  let accum :=
    fold_left
      (fun accum points =>
         let n_points := Z.of_nat (List.length points) in
         if n_points <? 2 then accum
         else contour_loop w h points n_points (List.length points) 0 accum)
      contours accum in
  flat_map
    (fun y => sweep_row (firstn (Z.to_nat w) (skipn (Z.to_nat (y * w)) accum)) zero)
    (Arr.range 0 h).

(** The inner [for] loop that repeats a flag. *)
Fixpoint repeat_flag (flag n_points : Z) (count : nat) (r repeat_count : Z)
         (point_flags : list Z) : list Z :=
  match count with
  | O => point_flags
  | S count' =>
      if (r <? repeat_count) && (Z.of_nat (List.length point_flags) <? n_points)
      then repeat_flag flag n_points count' (r + 1) repeat_count (point_flags ++ [flag])
      else point_flags
  end.

(** The flag loop: [flag_index] is the length of [point_flags]. *)
Fixpoint read_flags (data : bytes) (n_points : Z) (fuel : nat)
         (point_flags : list Z) (data_index : Z) : list Z * Z :=
  match fuel with
  | O => (point_flags, data_index)
  | S fuel' =>
      if negb (Z.of_nat (List.length point_flags) <? n_points)
      then (point_flags, data_index) else
      let flag := data data_index in
      let data_index := data_index + 1 in
      let point_flags := point_flags ++ [flag] in
      if truthy (Z.land flag 8) then
        let repeat_count := data data_index in
        let data_index := data_index + 1 in
        read_flags data n_points fuel'
          (repeat_flag flag n_points (Z.to_nat repeat_count) 0 repeat_count point_flags)
          data_index
      else read_flags data n_points fuel' point_flags data_index
  end.

(** The coordinate loops: [short] is the flag bit of a one-byte delta and
    [same] the bit that gives its sign or repeats the previous value. *)
Fixpoint read_coords (data : bytes) (short same : Z) (point_flags : list Z)
         (v data_index : Z) : list Z * Z :=
  match point_flags with
  | [] => ([], data_index)
  | flag :: rest =>
      let '(v, data_index) :=
        if truthy (Z.land flag short) then
          let d := data data_index in
          let d := if negb (truthy (Z.land flag same)) then - d else d in
          (v + d, data_index + 1)
        else if negb (truthy (Z.land flag same)) then
          (v + glyph_ttf__get16 data data_index, data_index + 2)
        else (v, data_index) in
      let '(coords, data_index) := read_coords data short same rest v data_index in
      (v :: coords, data_index)
  end.

(** The points of one contour, with the midpoints between consecutive
    off-curve points. *)
Definition contour_points (point_flags x_coords y_coords : list Z)
           (xMin yMax : Z) (scale_x scale_y : spec_float)
           (start_pt end_pt : Z) : list glyph_point_t :=
  flat_map
    (fun p =>
       let next_p := if p =? end_pt then start_pt else p + 1 in
       let xp := Arr.get 0 x_coords p in
       let yp := Arr.get 0 y_coords p in
       let pt := mk_point (mul (of_int (xp - xMin)) scale_x)
                          (mul (of_int (yMax - yp)) scale_y)
                          (Z.land (Arr.get 0 point_flags p) 1) in
       if negb (truthy (Z.land (Arr.get 0 point_flags p) 1))
          && negb (truthy (Z.land (Arr.get 0 point_flags next_p) 1))
       then
         [pt;
          mk_point
            (mul (sub (mul (of_int (xp + Arr.get 0 x_coords next_p)) half) (of_int xMin))
                 scale_x)
            (mul (sub (of_int yMax) (mul (of_int (yp + Arr.get 0 y_coords next_p)) half))
                 scale_y)
            1]
       else [pt])
    (Arr.range start_pt (end_pt + 1)).

(** What [glyph_ttf_get_glyph_bitmap] hands back: the returned pointer
    ([None] for [NULL]) and the four output parameters. *)
Record glyph_bitmap_t := mk_bitmap {
  bitmap : option (list Z);
  width : Z;
  height : Z;
  xoff : Z;
  yoff : Z
}.

Definition no_bitmap : glyph_bitmap_t := mk_bitmap None 0 0 0 0.

(** [glyph_ttf_get_glyph_bitmap].  The bitmap is [calloc(w * h, 1)], with
    the [int] product [w * h] as the count: the statements about a returned
    bitmap carry the hypothesis that the product fits [int]. *)
Definition glyph_ttf_get_glyph_bitmap (font : glyph_font_t) (glyph_index : Z)
           (scale_x scale_y : spec_float) : glyph_bitmap_t :=
  let data := data font in
  let g := glyph_ttf__get_glyph_offset font glyph_index in
  if g <? 0 then no_bitmap else
  let numberOfContours := glyph_ttf__get16 data g in
  if numberOfContours >? 0 then
    let xMin := glyph_ttf__get16 data (g + 2) in
    let yMin := glyph_ttf__get16 data (g + 4) in
    let xMax := glyph_ttf__get16 data (g + 6) in
    let yMax := glyph_ttf__get16 data (g + 8) in
    let w := to_int (ceilf (mul (of_int (xMax - xMin)) scale_x)) + 1 in
    let h := to_int (ceilf (mul (of_int (yMax - yMin)) scale_y)) + 1 in
    if (w <=? 0) || (h <=? 0) then no_bitmap else
    let endPtsOfContours := g + 10 in
    let instructionLength :=
      glyph_ttf__get16u data (endPtsOfContours + numberOfContours * 2) in
    let instructions := endPtsOfContours + numberOfContours * 2 + 2 in
    let flags_start := instructions + instructionLength in
    let lastEndPt :=
      glyph_ttf__get16u data (endPtsOfContours + (numberOfContours - 1) * 2) in
    let n_points := lastEndPt + 1 in
    let '(point_flags, data_index) :=
      read_flags data n_points (Z.to_nat n_points) [] flags_start in
    let '(x_coords, data_index) := read_coords data 2 16 point_flags 0 data_index in
    let '(y_coords, data_index) := read_coords data 4 32 point_flags 0 data_index in
    let contours :=
      map
        (fun c =>
           let start_pt :=
             if c =? 0 then 0
             else glyph_ttf__get16u data (endPtsOfContours + (c - 1) * 2) + 1 in
           let end_pt := glyph_ttf__get16u data (endPtsOfContours + c * 2) in
           contour_points point_flags x_coords y_coords xMin yMax scale_x scale_y
                          start_pt end_pt)
        (Arr.range 0 numberOfContours) in
    mk_bitmap (Some (glyph_ttf__rasterize_shape w h contours)) w h
              (to_int (mul (of_int xMin) scale_x))
              (to_int (mul (of_int yMax) scale_y))
  else no_bitmap.

Definition glyph_ttf_scale_for_pixel_height (font : glyph_font_t)
           (pixels : spec_float) : spec_float :=
  let data := data font in
  let unitsPerEm := glyph_ttf__get16u data (head font + 18) in
  div pixels (of_int unitsPerEm).

End Outline.

(** ** A synthetic font

    Three glyphs: glyph 0 is a simple square with bounding box
    (0,0)-(1000,1000), glyph 1 is empty (two equal [loca] entries), glyph 2
    is a composite glyph ([numberOfContours = -1]).  [unitsPerEm] is 1000.
    The character map is one format-4 subtable with a single segment 65-66,
    [idDelta = 0] and [idRangeOffset = 0]. *)

Module Sample.
Import TrueType.

Definition be16 (v : Z) : list Z := [Z.land (Z.shiftr v 8) 255; Z.land v 255].
Definition be32 (v : Z) : list Z :=
  [Z.land (Z.shiftr v 24) 255; Z.land (Z.shiftr v 16) 255;
   Z.land (Z.shiftr v 8) 255; Z.land v 255].

Definition tag_bytes (tag : string) : list Z :=
  map (fun c => Z.of_nat (nat_of_ascii c)) (list_ascii_of_string tag).

Definition dir_entry (tag : string) (offset len : Z) : list Z :=
  tag_bytes tag ++ be32 0 ++ be32 offset ++ be32 len.

Definition zeros (n : nat) : list Z := repeat 0 n.

(** A cmap table with one encoding record [(platform, encoding)] whose
    subtable is the format-4 table described above. *)
Definition cmap_table (platform encoding : Z) : list Z :=
  be16 0 ++ be16 1 ++ be16 platform ++ be16 encoding ++ be32 12
  ++ be16 4 ++ be16 24 ++ be16 0 ++ be16 2 ++ be16 2 ++ be16 0 ++ be16 0
  ++ be16 66 ++ be16 0 ++ be16 65 ++ be16 0 ++ be16 0.

Definition head_table : list Z :=
  zeros 18 ++ be16 1000 ++ zeros 30 ++ be16 0 ++ zeros 2.

Definition hhea_table : list Z := zeros 34 ++ be16 3.

Definition hmtx_table : list Z :=
  be16 1000 ++ be16 0 ++ be16 500 ++ be16 0 ++ be16 1000 ++ be16 0.

Definition loca_table : list Z := be16 0 ++ be16 17 ++ be16 17 ++ be16 25.

Definition square_glyph : list Z :=
  be16 1 ++ be16 0 ++ be16 0 ++ be16 1000 ++ be16 1000
  ++ be16 3 ++ be16 0
  ++ [1; 1; 1; 1]
  ++ be16 0 ++ be16 1000 ++ be16 0 ++ be16 (-1000)
  ++ be16 0 ++ be16 0 ++ be16 1000 ++ be16 0.

Definition composite_glyph : list Z :=
  be16 (-1) ++ be16 0 ++ be16 0 ++ be16 1000 ++ be16 1000
  ++ be16 0 ++ be16 0 ++ be16 0.

Definition glyf_table : list Z := square_glyph ++ composite_glyph.

(** Layout: offset table and directory in [0, 108), then cmap at 108,
    head at 144, hhea at 198, hmtx at 234, loca at 246, glyf at 254. *)
Definition font_file (signature : list Z) (platform encoding : Z) : list Z :=
  signature ++ be16 6 ++ zeros 6
  ++ dir_entry "cmap" 108 36
  ++ dir_entry "glyf" 254 50
  ++ dir_entry "head" 144 54
  ++ dir_entry "hhea" 198 36
  ++ dir_entry "hmtx" 234 12
  ++ dir_entry "loca" 246 8
  ++ cmap_table platform encoding
  ++ head_table ++ hhea_table ++ hmtx_table ++ loca_table ++ glyf_table.

Definition truetype_signature : list Z := [0; 1; 0; 0].

(** The font with a Windows Unicode BMP character map. *)
Definition unicode_font : bytes :=
  bytes_of_list (font_file truetype_signature 3 1).

(** The same font, its only character map declared for platform 1. *)
Definition macintosh_font : bytes :=
  bytes_of_list (font_file truetype_signature 1 0).

(** The same bytes behind a signature that is none of the accepted ones. *)
Definition unsigned_font : bytes :=
  bytes_of_list (font_file [119; 79; 70; 70] 3 1).

(** A handle before [glyph_ttf_init]: every field zero. *)
Definition blank_handle : glyph_font_t :=
  mk_font (fun _ => 0) 0 0 0 0 0 0 0 0 0 0 0 0 (S754_zero false).

Definition loaded_font : glyph_font_t :=
  snd (glyph_ttf_init blank_handle unicode_font 0).

End Sample.

(** ** glyph_truetype.h: signed distance field *)

Module DistanceField.
Import Mach F32.

(** [dt[idx] = fminf(dt[idx], dt[nidx] + 1.0f)] *)
Definition relax (dt : list spec_float) (idx nidx : Z) : list spec_float :=
  Arr.set dt idx (fminf (Arr.get zero dt idx) (add (Arr.get zero dt nidx) one)).

(** The two row sweeps followed by the two column sweeps. *)
Definition distance_passes (w h : Z) (dt : list spec_float) : list spec_float :=
  let dt :=
    fold_left
      (fun dt y =>
         let dt :=
           fold_left
             (fun dt x => if x >? 0 then relax dt (y * w + x) (y * w + x - 1) else dt)
             (Arr.range 0 w) dt in
         fold_left
           (fun dt x => if x <? w - 1 then relax dt (y * w + x) (y * w + x + 1) else dt)
           (rev (Arr.range 0 w)) dt)
      (Arr.range 0 h) dt in
  fold_left
    (fun dt x =>
       let dt :=
         fold_left
           (fun dt y => if y >? 0 then relax dt (y * w + x) ((y - 1) * w + x) else dt)
           (Arr.range 0 h) dt in
       fold_left
         (fun dt y => if y <? h - 1 then relax dt (y * w + x) ((y + 1) * w + x) else dt)
         (rev (Arr.range 0 h)) dt)
    (Arr.range 0 w) dt.

Definition far : spec_float := of_int 1000000000.

(** The clamp of the final loop. *)
Definition clamp_distance (dist : spec_float) (spread : Z) : spec_float :=
  let dist := if ltb dist (of_int (- spread)) then of_int (- spread) else dist in
  if gtb dist (of_int spread) then of_int spread else dist.

(** [(unsigned char)((dist / spread + 1.0f) * 0.5f * 255.0f)] *)
Definition remap_distance (dist : spec_float) (spread : Z) : Z :=
  to_uchar (mul (mul (add (div dist (of_int spread)) one) half) (of_int 255)).

(** The body of the final loop for one cell. *)
Definition sdf_pixel (mask : Z) (dt0 dt1 : spec_float) (spread : Z) : Z :=
  let dist := if truthy mask then SFopp dt0 else dt1 in
  remap_distance (clamp_distance dist spread) spread.

Definition threshold_mask (bitmap : list Z) (w h : Z) : list Z :=
  map (fun i => if Arr.get 0 bitmap i >? 127 then 1 else 0) (Arr.range 0 (w * h)).

Definition outside_field (mask : list Z) (w h : Z) : list spec_float :=
  distance_passes w h (map (fun m => if truthy m then zero else far) mask).

Definition inside_field (mask : list Z) (w h : Z) : list spec_float :=
  distance_passes w h (map (fun m => if truthy m then far else zero) mask).

Definition glyph_ttf_get_glyph_sdf_bitmap (bitmap : list Z) (w h spread : Z) : list Z :=
  let mask := threshold_mask bitmap w h in
  let dt1 := outside_field mask w h in
  let dt0 := inside_field mask w h in
  map (fun i => sdf_pixel (Arr.get 0 mask i) (Arr.get zero dt0 i) (Arr.get zero dt1 i) spread)
      (Arr.range 0 (w * h)).

End DistanceField.

(** ** glyph_image.h: checksums and the BMP and PNG writers *)

Module Image.
Import Mach.

Record glyph_image_t := mk_image {
  width : Z;          (* unsigned int *)
  height : Z;         (* unsigned int *)
  data : list Z       (* width * height * 3 bytes, rows from top to bottom *)
}.

(** [memcpy(dst, src + pos, n)]: the [n] bytes of [src] from [pos] on. *)
Definition slice (src : list Z) (pos n : Z) : list Z :=
  map (fun i => Arr.get 0 src (pos + i)) (Arr.range 0 n).

Definition poly : Z := 3988292384.  (* 0xEDB88320 *)

(** One round of the bit loop of [crc32_init_table]. *)
Definition crc_shift (crc : Z) : Z :=
  if truthy (Z.land crc 1) then Z.lxor (Z.shiftr crc 1) poly else Z.shiftr crc 1.

(** The table once [crc32_init_table] has run. *)
Definition crc32_table : list Z :=
  map (fun i => Nat.iter 8 crc_shift i) (Arr.range 0 256).

Definition crc32 (data : list Z) : Z :=
  let crc :=
    fold_left
      (fun crc byte =>
         let idx := uint8 (Z.lxor crc byte) in
         Z.lxor (Z.shiftr crc 8) (Arr.get 0 crc32_table idx))
      data 4294967295 in
  Z.lxor crc 4294967295.

Definition MOD_ADLER : Z := 65521.

Definition adler32 (data : list Z) : Z :=
  let '(a, b) :=
    fold_left
      (fun '(a, b) byte =>
         let a := (a + byte) mod MOD_ADLER in
         let b := (b + a) mod MOD_ADLER in
         (a, b))
      data (1, 0) in
  Z.lor (uint32 (Z.shiftl b 16)) a.

(** The four bytes [write_u32_be] sends to the file. *)
Definition write_u32_be (v : Z) : list Z :=
  [Z.land (Z.shiftr v 24) 255; Z.land (Z.shiftr v 16) 255;
   Z.land (Z.shiftr v 8) 255; Z.land v 255].

(** The four bytes [v & 0xFF], [(v >> 8) & 0xFF], ... of the BMP headers. *)
Definition le32_bytes (v : Z) : list Z :=
  [Z.land v 255; Z.land (Z.shiftr v 8) 255;
   Z.land (Z.shiftr v 16) 255; Z.land (Z.shiftr v 24) 255].

(** One pixel row of the BMP file: the pixels in BGR order, then the
    padding. *)
Definition bmp_row (img : glyph_image_t) (width y : Z) : list Z :=
  flat_map
    (fun x =>
       let r := Arr.get 0 (data img) ((y * width + x) * 3 + 0) in
       let g := Arr.get 0 (data img) ((y * width + x) * 3 + 1) in
       let b := Arr.get 0 (data img) ((y * width + x) * 3 + 2) in
       [b; g; r])
    (Arr.range 0 width)
  ++ (let padding := Z.rem (4 - Z.rem (width * 3) 4) 4 in
      map (fun _ => 0) (Arr.range 0 padding)).

Definition bmp_rows (img : glyph_image_t) (width height : Z) : list (list Z) :=
  map (bmp_row img width) (rev (Arr.range 0 height)).

(** [glyph_write_bmp]: the bytes written to the file when the image and
    the file are there (the function then returns 0). *)
Definition glyph_write_bmp (img : glyph_image_t) : list Z :=
  let width := int32 (width img) in
  let height := int32 (height img) in
  let row_size := Z.quot (width * 3 + 3) 4 * 4 in
  let data_size := row_size * height in
  let file_size := 54 + data_size in
  let fileheader := [66; 77] ++ le32_bytes file_size ++ [0; 0; 0; 0] ++ [54; 0; 0; 0] in
  let infoheader :=
    [40; 0; 0; 0] ++ le32_bytes width ++ le32_bytes height
    ++ [1; 0; 24; 0] ++ [0; 0; 0; 0] ++ le32_bytes data_size ++ repeat 0 16 in
  fileheader ++ infoheader ++ List.concat (bmp_rows img width height).

Definition png_sig : list Z := [137; 80; 78; 71; 13; 10; 26; 10].

Definition tag_IHDR : list Z := [73; 72; 68; 82].
Definition tag_IDAT : list Z := [73; 68; 65; 84].
Definition tag_IEND : list Z := [73; 69; 78; 68].

Definition ihdr_data (img : glyph_image_t) : list Z :=
  write_u32_be (width img) ++ write_u32_be (height img) ++ [8; 2; 0; 0; 0].

(** The Sub filter loop over one copied row. *)
Definition sub_filter (row_data : list Z) (n : Z) : list Z :=
  map (fun i =>
         if i <? 3 then Arr.get 0 row_data i
         else uint8 (Arr.get 0 row_data i - Arr.get 0 row_data (i - 3)))
      (Arr.range 0 n).

(** The bytes of [raw] for row [y]: the filter type, then the filtered
    row. *)
Definition raw_row (img : glyph_image_t) (y : Z) : list Z :=
  let n := size_t (width img * 3) in
  let row_data := slice (data img) (uint32 (uint32 (y * width img) * 3)) n in
  1 :: sub_filter row_data n.

(** The content of [raw] after the filter loop.  The rows are laid out one
    after the other; the C buffer holds them when
    [raw_row_bytes * height] does not wrap in [size_t]. *)
Definition raw_stream (img : glyph_image_t) : list Z :=
  flat_map (raw_row img) (Arr.range 0 (height img)).

(** The stored-block loop; the result is what the loop appends to [comp]. *)
Fixpoint stored_blocks (fuel : nat) (raw : list Z) (remaining raw_pos : Z) : list Z :=
  match fuel with
  | O => []
  | S fuel' =>
      if remaining >? 0 then
        let block_len := uint16 (if remaining >? 65535 then 65535 else remaining) in
        let bfinal := if remaining <=? 65535 then 1 else 0 in
        let block_hdr := uint8 (Z.lor (Z.land bfinal 1) (Z.shiftl 0 1)) in
        let nlen := uint16 (Z.lnot block_len) in
        [block_hdr;
         uint8 (Z.land block_len 255); uint8 (Z.land (Z.shiftr block_len 8) 255);
         uint8 (Z.land nlen 255); uint8 (Z.land (Z.shiftr nlen 8) 255)]
        ++ slice raw raw_pos block_len
        ++ stored_blocks fuel' raw (size_t (remaining - block_len))
                         (size_t (raw_pos + block_len))
      else []
  end.

(** The content of [comp] when it is written: zlib header, stored blocks,
    Adler-32 of [raw].  The loop runs at most [max_blocks] times. *)
Definition zlib_stream (img : glyph_image_t) : list Z :=
  let raw_row_bytes := size_t (size_t (width img * 3) + 1) in
  let raw_size := size_t (raw_row_bytes * height img) in
  let raw := raw_stream img in
  let max_blocks := size_t (raw_size + 65534) / 65535 in
  [120; 1]
  ++ stored_blocks (Z.to_nat max_blocks) raw raw_size 0
  ++ write_u32_be (adler32 (slice raw 0 raw_size)).

(** [glyph_write_png]: the bytes written to the file when the image and
    the file are there (the function then returns 0). *)
Definition glyph_write_png (img : glyph_image_t) : list Z :=
  let comp := zlib_stream img in
  let comp_len := uint32 (Z.of_nat (List.length comp)) in
  png_sig
  ++ (write_u32_be 13 ++ tag_IHDR ++ ihdr_data img
      ++ write_u32_be (crc32 (tag_IHDR ++ ihdr_data img)))
  ++ (write_u32_be comp_len ++ tag_IDAT ++ slice comp 0 comp_len
      ++ write_u32_be (crc32 (tag_IDAT ++ slice comp 0 comp_len)))
  ++ (write_u32_be 0 ++ tag_IEND ++ write_u32_be (crc32 tag_IEND)).

End Image.

(** ** A reference PNG decoder

    This is not code of the repository: it is the reading side of the PNG,
    zlib and DEFLATE standards, written from the standards, against which
    the writer is checked.  It covers what the writer can produce: 8-bit RGB,
    no interlace, any of the five row filters, stored DEFLATE blocks.  It
    gives [None] on every stream that the standards reject and on the parts
    of the standards it does not cover (compressed blocks, other colour
    types). *)

Module PngFormat.

Definition take (n : Z) (l : list Z) : list Z := firstn (Z.to_nat n) l.
Definition drop (n : Z) (l : list Z) : list Z := skipn (Z.to_nat n) l.
Definition len (l : list Z) : Z := Z.of_nat (List.length l).

Definition list_eqb (a b : list Z) : bool :=
  if list_eq_dec Z.eq_dec a b then true else false.

(** A PNG four-byte integer, most significant byte first. *)
Definition be32_value (l : list Z) : Z :=
  fold_left (fun acc b => acc * 256 + b) l 0.

(** A two-byte integer of DEFLATE, least significant byte first. *)
Definition le16_value (l : list Z) : Z :=
  match l with
  | [lo; hi] => lo + 256 * hi
  | _ => 0
  end.

(** CRC of the PNG standard, bit by bit: polynomial 0xEDB88320, register
    preset to all ones, result complemented. *)
Definition crc_bit (c : Z) : Z :=
  if Z.odd c then Z.lxor (Z.shiftr c 1) 3988292384 else Z.shiftr c 1.

Definition crc_byte (c b : Z) : Z := Nat.iter 8 crc_bit (Z.lxor c b).

Definition crc (l : list Z) : Z :=
  Z.lxor (fold_left crc_byte l 4294967295) 4294967295.

(** Adler-32 of the zlib standard: [s1] is one plus the sum of the bytes,
    [s2] the sum of the successive values of [s1], both modulo 65521. *)
Fixpoint adler_sums (l : list Z) (s1 s2 : Z) : Z * Z :=
  match l with
  | [] => (s1, s2)
  | b :: l' =>
      let s1 := (s1 + b) mod 65521 in
      adler_sums l' s1 ((s2 + s1) mod 65521)
  end.

Definition adler (l : list Z) : Z :=
  let '(s1, s2) := adler_sums l 1 0 in s2 * 65536 + s1.

(** One chunk: length, type, data, CRC over type and data. *)
Definition read_chunk (bs : list Z) : option (list Z * list Z * list Z) :=
  let n := be32_value (take 4 bs) in
  if (len bs <? 12 + n) || (n >? 2 ^ 31 - 1) then None else
  let ty := take 4 (drop 4 bs) in
  let body := take n (drop 8 bs) in
  if be32_value (take 4 (drop (8 + n) bs)) =? crc (ty ++ body)
  then Some (ty, body, drop (12 + n) bs)
  else None.

(** The chunks after IHDR: IDAT data is concatenated, IEND must be empty
    and last, other ancillary chunks (bit 5 of the first type byte set) are
    skipped, other critical chunks are refused. *)
Fixpoint read_chunks (fuel : nat) (bs idat : list Z) : option (list Z) :=
  match fuel with
  | O => None
  | S fuel' =>
      match read_chunk bs with
      | None => None
      | Some (ty, body, rest) =>
          if list_eqb ty [73; 68; 65; 84] then read_chunks fuel' rest (idat ++ body)
          else if list_eqb ty [73; 69; 78; 68] then
            match body, rest with
            | [], [] => Some idat
            | _, _ => None
            end
          else if Z.testbit (hd 0 ty) 5 then read_chunks fuel' rest idat
          else None
      end
  end.

(** A sequence of stored blocks, each starting on a byte boundary: a
    header byte with BFINAL in bit 0 and BTYPE = 00 in bits 1-2, LEN, NLEN
    (the one's complement of LEN), then LEN bytes.  The result is the data
    and the bytes after the final block. *)
Fixpoint inflate_stored (fuel : nat) (bs : list Z) : option (list Z * list Z) :=
  match fuel with
  | O => None
  | S fuel' =>
      match bs with
      | hdr :: rest =>
          if negb (Z.land (Z.shiftr hdr 1) 3 =? 0) then None else
          let n := le16_value (take 2 rest) in
          let nn := le16_value (take 2 (drop 2 rest)) in
          if (len rest <? 4 + n) || negb (nn =? 65535 - n) then None else
          let block := take n (drop 4 rest) in
          if Z.odd hdr then Some (block, drop (4 + n) rest)
          else
            match inflate_stored fuel' (drop (4 + n) rest) with
            | Some (more, after) => Some (block ++ more, after)
            | None => None
            end
      | [] => None
      end
  end.

(** A zlib stream: CMF (method 8, window at most 32K), FLG (check bits, no
    preset dictionary), the DEFLATE data, Adler-32 of the result. *)
Definition zlib_decompress (bs : list Z) : option (list Z) :=
  match bs with
  | cmf :: flg :: rest =>
      if (Z.land cmf 15 =? 8) && (Z.shiftr cmf 4 <=? 7)
         && ((cmf * 256 + flg) mod 31 =? 0) && negb (Z.testbit flg 5)
      then
        match inflate_stored (List.length rest) rest with
        | Some (out, trailer) =>
            if (len trailer =? 4) && (be32_value trailer =? adler out)
            then Some out else None
        | None => None
        end
      else None
  | _ => None
  end.

Definition paeth (a b c : Z) : Z :=
  let p := a + b - c in
  let pa := Z.abs (p - a) in
  let pb := Z.abs (p - b) in
  let pc := Z.abs (p - c) in
  if (pa <=? pb) && (pa <=? pc) then a
  else if pb <=? pc then b else c.

(** Reconstruction of one byte: [x] is the filtered byte, [a] the byte of
    the pixel to the left, [b] the byte above, [c] the byte above left. *)
Definition reconstruct (ft x a b c : Z) : option Z :=
  if ft =? 0 then Some x
  else if ft =? 1 then Some ((x + a) mod 256)
  else if ft =? 2 then Some ((x + b) mod 256)
  else if ft =? 3 then Some ((x + (a + b) / 2) mod 256)
  else if ft =? 4 then Some ((x + paeth a b c) mod 256)
  else None.

(** One scanline.  [left] holds the last three reconstructed bytes and
    [upleft] the three bytes above them, zero before the first pixel. *)
Fixpoint unfilter_line (ft : Z) (line prior left upleft : list Z)
  : option (list Z) :=
  match line with
  | [] => Some []
  | x :: line' =>
      let b := hd 0 prior in
      match reconstruct ft x (hd 0 left) b (hd 0 upleft) with
      | None => None
      | Some r =>
          match unfilter_line ft line' (tl prior) (tl left ++ [r]) (tl upleft ++ [b]) with
          | Some rs => Some (r :: rs)
          | None => None
          end
      end
  end.

(** All scanlines: each is a filter-type byte and [stride] bytes; the
    scanline above the first one is all zero. *)
Fixpoint unfilter_rows (rows : nat) (stride : nat) (raw prior : list Z)
  : option (list Z) :=
  match rows with
  | O => match raw with [] => Some [] | _ => None end
  | S rows' =>
      match raw with
      | [] => None
      | ft :: rest =>
          let line := firstn stride rest in
          if negb (Nat.eqb (List.length line) stride) then None else
          match unfilter_line ft line prior [0; 0; 0] [0; 0; 0] with
          | None => None
          | Some r =>
              match unfilter_rows rows' stride (skipn stride rest) r with
              | Some rs => Some (r ++ rs)
              | None => None
              end
          end
      end
  end.

(** The header of an 8-bit RGB image without interlace: the dimensions,
    each between 1 and 2^31 - 1. *)
Definition read_ihdr (body : list Z) : option (Z * Z) :=
  let w := be32_value (take 4 body) in
  let h := be32_value (take 4 (drop 4 body)) in
  if (len body =? 13) && (1 <=? w) && (w <=? 2 ^ 31 - 1)
     && (1 <=? h) && (h <=? 2 ^ 31 - 1)
     && list_eqb (drop 8 body) [8; 2; 0; 0; 0]
  then Some (w, h) else None.

(** The decoder: width, height and the RGB bytes, rows from top to
    bottom. *)
Definition png_decode (bs : list Z) : option (Z * Z * list Z) :=
  if negb (list_eqb (take 8 bs) [137; 80; 78; 71; 13; 10; 26; 10]) then None else
  match read_chunk (drop 8 bs) with
  | None => None
  | Some (ty, body, rest) =>
      if negb (list_eqb ty [73; 72; 68; 82]) then None else
      match read_ihdr body with
      | None => None
      | Some (w, h) =>
          match read_chunks (List.length rest) rest [] with
          | None => None
          | Some idat =>
              match zlib_decompress idat with
              | None => None
              | Some raw =>
                  match unfilter_rows (Z.to_nat h) (Z.to_nat (3 * w)) raw
                                      (repeat 0 (Z.to_nat (3 * w))) with
                  | None => None
                  | Some rgb => Some (w, h, rgb)
                  end
              end
          end
      end
  end.

End PngFormat.

(** ** Vocabulary of the statements about fonts *)

Module FontSpec.
Import Mach TrueType.

(** The table directory of the font that starts at [offset]. *)
Definition num_tables (data : bytes) (offset : Z) : Z :=
  glyph_ttf__get16u data (offset + 4).

(** The directory has an entry with this tag. *)
Definition table_listed (data : bytes) (offset : Z) (tag : string) : Prop :=
  exists i, 0 <= i < num_tables data offset
            /\ tag_at data (offset + 12 + 16 * i) tag = true.

(** The encoding records of the cmap table at [cm]. *)
Definition subtable_count (data : bytes) (cm : Z) : Z :=
  glyph_ttf__get16u data (cm + 2).

Definition subtable_unicode (data : bytes) (cm i : Z) : bool :=
  unicode_encoding (glyph_ttf__get16u data (cm + 4 + 8 * i))
                   (glyph_ttf__get16u data (cm + 4 + 8 * i + 2)).

Definition subtable_offset (data : bytes) (cm i : Z) : Z :=
  glyph_ttf__get32 data (cm + 4 + 8 * i + 4).

(** The checks of [glyph_ttf_init] that come before the cmap scan. *)
Definition tables_accepted (data : bytes) (offset : Z) : Prop :=
  glyph_ttf__isfont (advance_ptr data offset) = true
  /\ glyph_ttf__find_table data offset "cmap" <> 0
  /\ glyph_ttf__find_table data offset "head" <> 0
  /\ glyph_ttf__find_table data offset "hhea" <> 0
  /\ glyph_ttf__find_table data offset "hmtx" <> 0
  /\ (glyph_ttf__find_table data offset "glyf" <> 0 ->
      glyph_ttf__find_table data offset "loca" <> 0).

(** The segments of the format-4 subtable selected in the handle. *)
Definition cmap_format (font : glyph_font_t) : Z :=
  glyph_ttf__get16u (data font) (index_map font).

Definition segcount (font : glyph_font_t) : Z :=
  Z.shiftr (glyph_ttf__get16u (data font) (index_map font + 6)) 1.

Definition seg_end (font : glyph_font_t) (i : Z) : Z :=
  glyph_ttf__get16u (data font) (index_map font + 14 + i * 2).

Definition seg_start (font : glyph_font_t) (i : Z) : Z :=
  glyph_ttf__get16u (data font)
    (index_map font + 14 + segcount font * 2 + 2 + i * 2).

Definition seg_delta (font : glyph_font_t) (i : Z) : Z :=
  glyph_ttf__get16 (data font)
    (index_map font + 14 + segcount font * 2 + 2 + segcount font * 2 + i * 2).

Definition seg_range_offset (font : glyph_font_t) (i : Z) : Z :=
  glyph_ttf__get16u (data font)
    (index_map font + 14 + segcount font * 2 + 2 + segcount font * 2
     + segcount font * 2 + i * 2).

Definition covers (font : glyph_font_t) (i codepoint : Z) : Prop :=
  seg_start font i <= codepoint <= seg_end font i.

(** Entry [k] of the loca table, as a byte offset into glyf: a 2-byte
    entry doubled or a 4-byte entry as it is. *)
Definition loca_entry (font : glyph_font_t) (k : Z) : Z :=
  if truthy (indexToLocFormat font)
  then glyph_ttf__get32 (data font) (loca font + k * 4)
  else glyph_ttf__get16u (data font) (loca font + k * 2) * 2.

Definition empty_glyph (font : glyph_font_t) (glyph_index : Z) : Prop :=
  loca_entry font glyph_index = loca_entry font (glyph_index + 1).

(** The header fields of the glyph stored at [g]. *)
Definition numberOfContours (font : glyph_font_t) (g : Z) : Z :=
  glyph_ttf__get16 (data font) g.
Definition xMin (font : glyph_font_t) (g : Z) : Z := glyph_ttf__get16 (data font) (g + 2).
Definition yMin (font : glyph_font_t) (g : Z) : Z := glyph_ttf__get16 (data font) (g + 4).
Definition xMax (font : glyph_font_t) (g : Z) : Z := glyph_ttf__get16 (data font) (g + 6).
Definition yMax (font : glyph_font_t) (g : Z) : Z := glyph_ttf__get16 (data font) (g + 8).

Definition unitsPerEm (font : glyph_font_t) : Z :=
  glyph_ttf__get16u (data font) (head font + 18).

(** A handle that was never initialised and holds stale values. *)
Definition stale_handle : glyph_font_t :=
  mk_font (fun _ => 255) 7 7 7 7 7 7 7 7 7 7 7 7 (S754_zero false).

End FontSpec.

(** ** Vocabulary of the statements about images *)

Module ImageSpec.
Import Image PngFormat.

Definition byte (z : Z) : Prop := 0 <= z < 256.

(** An RGB image: 32-bit dimensions and [width * height * 3] bytes. *)
Definition rgb_image (img : glyph_image_t) : Prop :=
  0 <= width img < 2 ^ 32 /\ 0 <= height img < 2 ^ 32
  /\ len (data img) = width img * height img * 3
  /\ Forall byte (data img).

(** Size of the filtered row stream, and of the zlib stream that holds it
    in stored blocks of at most 65535 bytes. *)
Definition raw_size (img : glyph_image_t) : Z :=
  (3 * width img + 1) * height img.

Definition zlib_size (img : glyph_image_t) : Z :=
  2 + raw_size img + 5 * ((raw_size img + 65534) / 65535) + 4.

(** A chunk as the PNG standard lays it out. *)
Definition chunk (ty body : list Z) : list Z :=
  write_u32_be (len body) ++ ty ++ body ++ write_u32_be (crc (ty ++ body)).

(** A stored block as DEFLATE lays it out, and a sequence of them in which
    only the last one is marked final. *)
Definition stored_block (final : bool) (block : list Z) : list Z :=
  [if final then 1 else 0;
   len block mod 256; len block / 256;
   (65535 - len block) mod 256; (65535 - len block) / 256]
  ++ block.

Fixpoint stored_stream (blocks : list (list Z)) : list Z :=
  match blocks with
  | [] => []
  | [b] => stored_block true b
  | b :: more => stored_block false b ++ stored_stream more
  end.

(** The PNG Sub filter on one row of 3-byte pixels: [left] holds the three
    bytes before the current one. *)
Fixpoint sub_line (left row : list Z) : list Z :=
  match row with
  | [] => []
  | x :: row' => (x - hd 0 left) mod 256 :: sub_line (tl left ++ [x]) row'
  end.

(** Row [y] of the image. *)
Definition image_row (img : glyph_image_t) (y : Z) : list Z :=
  take (3 * width img) (drop (3 * width img * y) (data img)).

(** The stream the PNG standard compresses: for each row, from top to
    bottom, the filter type 1 and the Sub-filtered row. *)
Definition filtered_rows (img : glyph_image_t) : list Z :=
  flat_map (fun y => 1 :: sub_line [0; 0; 0] (image_row img y))
           (Arr.range 0 (height img)).

(** An image 2^31 pixels wide and one pixel high, all black. *)
Definition wide_image : glyph_image_t :=
  mk_image (2 ^ 31) 1 (repeat 0 (Z.to_nat (3 * 2 ^ 31))).

(** An image 2^32 - 1 pixels wide and one pixel high, all black. *)
Definition widest_image : glyph_image_t :=
  mk_image (2 ^ 32 - 1) 1 (repeat 0 (Z.to_nat (3 * (2 ^ 32 - 1)))).

(** An image 715827883 pixels wide and one pixel high, all black: its row
    of 3 * 715827883 + 1 filtered bytes is longer than 2^31 - 1. *)
Definition long_image : glyph_image_t :=
  mk_image 715827883 1 (repeat 0 (Z.to_nat (3 * 715827883))).

Definition small_image : glyph_image_t :=
  mk_image 2 2 [10; 20; 30; 40; 50; 60; 1; 2; 3; 250; 251; 252].

(** The window of the three bytes that precede position [length pre] of a
    row, zero before the first pixel. *)
Definition window (pre : list Z) : list Z :=
  skipn (List.length pre) ([0; 0; 0] ++ pre).

(** The number of padding bytes the BMP writer appends to a row. *)
Definition bmp_padding (W : Z) : Z := Z.rem (4 - Z.rem (W * 3) 4) 4.

(** A 3x2 RGB file written by zlib at level 0, not by this writer: a text
    chunk, the data split over two IDAT chunks, a Paeth-filtered and an
    Average-filtered row. *)
Definition foreign_png : list Z :=
  [137; 80; 78; 71; 13; 10; 26; 10; 0; 0; 0; 13; 73; 72; 68; 82; 0; 0; 0;
   3; 0; 0; 0; 2; 8; 2; 0; 0; 0; 18; 22; 241; 77; 0; 0; 0; 10; 116; 69; 88;
   116; 67; 111; 109; 109; 101; 110; 116; 0; 104; 105; 162; 162; 88; 102;
   0; 0; 0; 7; 73; 68; 65; 84; 120; 1; 1; 20; 0; 235; 255; 47; 30; 186; 31;
   0; 0; 0; 24; 73; 68; 65; 84; 4; 12; 200; 7; 238; 59; 92; 6; 252; 29; 3;
   255; 162; 4; 229; 86; 27; 205; 82; 149; 77; 226; 8; 54; 241; 129; 132;
   178; 0; 0; 0; 0; 73; 69; 78; 68; 174; 66; 96; 130].

Definition foreign_pixels : list Z :=
  [12; 200; 7; 250; 3; 99; 0; 255; 128; 5; 6; 7; 100; 90; 80; 255; 254; 253].

End ImageSpec.

(** ** Vocabulary of the statements about the other character-map formats
    and the horizontal metrics *)

Module CmapSpec.
Import Mach TrueType FontSpec.

(** Format 4: the address of the glyph id that segment [i] gives for a
    codepoint through its [idRangeOffset]: the offset counts from the
    segment's own [idRangeOffset] field. *)
Definition glyph_id_slot (font : glyph_font_t) (i codepoint : Z) : Z :=
  index_map font + 14 + segcount font * 2 + 2 + segcount font * 2
  + segcount font * 2 + i * 2
  + seg_range_offset font i + (codepoint - seg_start font i) * 2.

(** Format 0: the length field of the byte table. *)
Definition byte_table_length (font : glyph_font_t) : Z :=
  glyph_ttf__get16u (data font) (index_map font + 2).

(** Format 6: the first code and the number of entries of the trimmed
    table. *)
Definition first_code (font : glyph_font_t) : Z :=
  glyph_ttf__get16u (data font) (index_map font + 6).

Definition entry_count (font : glyph_font_t) : Z :=
  glyph_ttf__get16u (data font) (index_map font + 8).

(** Formats 12 and 13: the groups [(startCharCode, endCharCode, glyph)]. *)
Definition group_count (font : glyph_font_t) : Z :=
  glyph_ttf__get32 (data font) (index_map font + 12).

Definition group_start (font : glyph_font_t) (i : Z) : Z :=
  glyph_ttf__get32 (data font) (index_map font + 16 + i * 12).

Definition group_end (font : glyph_font_t) (i : Z) : Z :=
  glyph_ttf__get32 (data font) (index_map font + 16 + i * 12 + 4).

Definition group_glyph (font : glyph_font_t) (i : Z) : Z :=
  glyph_ttf__get32 (data font) (index_map font + 16 + i * 12 + 8).

Definition in_group (font : glyph_font_t) (i codepoint : Z) : Prop :=
  group_start font i <= codepoint <= group_end font i.

(** [numOfLongHorMetrics] of the hhea table. *)
Definition long_metrics (font : glyph_font_t) : Z :=
  glyph_ttf__get16u (data font) (hhea font + 34).

(** A handle on a buffer that starts with the given cmap subtable. *)
Definition font_of_subtable (table : list Z) : glyph_font_t :=
  mk_font (bytes_of_list table) 0 0 0 0 0 0 0 0 0 0 0 0 (S754_zero false).

(** A format-4 subtable with the segments 65-66 (glyph ids through the
    glyph id array: 7 and 0) and 0xFFFF. *)
Definition indirect_table : list Z :=
  Sample.be16 4 ++ Sample.be16 36 ++ Sample.be16 0 ++ Sample.be16 4
  ++ Sample.be16 4 ++ Sample.be16 1 ++ Sample.be16 0
  ++ Sample.be16 66 ++ Sample.be16 65535 ++ Sample.be16 0
  ++ Sample.be16 65 ++ Sample.be16 65535
  ++ Sample.be16 3 ++ Sample.be16 1
  ++ Sample.be16 4 ++ Sample.be16 0
  ++ Sample.be16 7 ++ Sample.be16 0.

(** A format-6 subtable: codes 32 to 34 map to glyphs 5, 6 and 7. *)
Definition trimmed_table : list Z :=
  Sample.be16 6 ++ Sample.be16 16 ++ Sample.be16 0 ++ Sample.be16 32
  ++ Sample.be16 3 ++ Sample.be16 5 ++ Sample.be16 6 ++ Sample.be16 7.

(** A format-12 subtable with the groups 65-90 from glyph 10 and
    128512-128520 from glyph 40. *)
Definition grouped_table (format : Z) : list Z :=
  Sample.be16 format ++ Sample.be16 0 ++ Sample.be32 40 ++ Sample.be32 0
  ++ Sample.be32 2
  ++ Sample.be32 65 ++ Sample.be32 90 ++ Sample.be32 10
  ++ Sample.be32 128512 ++ Sample.be32 128520 ++ Sample.be32 40.

End CmapSpec.

(** ** Vocabulary of the statements about outlines *)

Module OutlineSpec.
Import Mach TrueType Outline.

(** Every byte of the buffer is a byte. *)
Definition byte_memory (data : bytes) : Prop := forall i, 0 <= data i < 256.

(** Each point of the list is on the curve or followed by a point on the
    curve; the last point is followed by [closing]. *)
Fixpoint no_off_pair (points : list glyph_point_t) (closing : glyph_point_t) : bool :=
  match points with
  | [] => true
  | a :: rest =>
      (truthy (on_curve a) || truthy (on_curve (hd closing rest)))
      && no_off_pair rest closing
  end.

(** The same for a closed contour: the last point is followed by the
    first. *)
Definition closed_without_off_pair (points : list glyph_point_t) : bool :=
  no_off_pair points (hd origin points).

(** A value of the C type [int]. *)
Definition fits_int (z : Z) : Prop := - 2 ^ 31 <= z <= 2 ^ 31 - 1.

(** A glyph description with five points whose flags are stored as one
    flag repeated three times and one plain flag: the bytes at 0 are the
    flags, then the x deltas, then the y deltas. *)
Definition packed_outline : bytes :=
  bytes_of_list [9; 3; 1; 10; 20; 30; 40; 0; 5; 1; 2; 3; 4; 255; 251].

(** Flags 0 (off), 1 (on), 0, 0, 1 for a contour of five points. *)
Definition mixed_flags : list Z := [0; 1; 0; 0; 1].

(** An infinity or a NaN. *)
Definition not_finite (x : spec_float) : bool :=
  match x with
  | S754_infinity _ | S754_nan => true
  | _ => false
  end.

(** A handle with one glyph, a glyf table at 254 and a loca table of 4-byte
    entries at 0 whose first entry is 0x7FFFFFFF. *)
Definition distant_glyph_handle : glyph_font_t :=
  mk_font (bytes_of_list (Sample.be32 2147483647 ++ Sample.be32 0))
          0 1 0 0 254 0 0 0 0 0 0 1 (S754_zero false).

End OutlineSpec.

(** ** glyph_image.h and glyph_truetype.h: image values, rendering into an
    image, and the entry checks of the writers *)

Module Render.
Import Mach TrueType Outline.

(** A [glyph_image_t] value whose [data] pointer may be [NULL]. *)
Record glyph_image_value := mk_value {
  value_width : Z;
  value_height : Z;
  value_data : option (list Z)
}.

(** [glyph_image_t img = {0};] *)
Definition zero_image : glyph_image_value := mk_value 0 0 None.

(** [glyph_image_create].  The block that [malloc] returns holds
    indeterminate bytes: [fresh] gives the byte found at each position. *)
Definition glyph_image_create (width height : Z) (fresh : Z -> Z) : glyph_image_value :=
  mk_value width height
           (Some (map fresh (Arr.range 0 (size_t (size_t (width * height) * 3))))).

(** [glyph_image_free] on a pointer that is not [NULL]. *)
Definition glyph_image_free (img : glyph_image_value) : glyph_image_value :=
  mk_value (value_width img) (value_height img) None.

(** [(unsigned char)((c * alpha) / 255)] *)
Definition shade (c alpha : Z) : Z := uint8 (Z.quot (c * alpha) 255).

(** The body of the pixel loop of [glyph_ttf_render_glyph_to_image]. *)
Definition paint (cells : list Z) (width r g b y : Z) (data : list Z) (x : Z) : list Z :=
  let alpha := Arr.get 0 cells (y * width + x) in
  let index := (y * width + x) * 3 in
  let data := Arr.set data (index + 0) (shade r alpha) in
  let data := Arr.set data (index + 1) (shade g alpha) in
  Arr.set data (index + 2) (shade b alpha).

Definition glyph_ttf_render_glyph_to_image (font : glyph_font_t) (glyph_index : Z)
           (scale_x scale_y : spec_float) (r g b : Z) (fresh : Z -> Z)
  : glyph_image_value :=
  let res := glyph_ttf_get_glyph_bitmap font glyph_index scale_x scale_y in
  match bitmap res with
  | None => zero_image
  | Some cells =>
      let width := width res in
      let height := height res in
      let img := glyph_image_create (uint32 width) (uint32 height) fresh in
      mk_value (value_width img) (value_height img)
        (option_map
           (fun data =>
              fold_left
                (fun data y => fold_left (paint cells width r g b y) (Arr.range 0 width) data)
                (Arr.range 0 height) data)
           (value_data img))
  end.

(** The image behind a value whose data is there. *)
Definition image_of (v : glyph_image_value) : option Image.glyph_image_t :=
  match value_data v with
  | None => None
  | Some data => Some (Image.mk_image (value_width v) (value_height v) data)
  end.

(** A call of a writer: [img] is the pointer argument ([None] for [NULL])
    and [opened] tells whether [fopen] gives a file.  The result is the
    returned [int] and the content of the file when it was opened. *)
Definition writer_call (write : Image.glyph_image_t -> list Z)
           (img : option glyph_image_value) (opened : bool) : Z * option (list Z) :=
  match img with
  | None => (-1, None)
  | Some v =>
      match image_of v with
      | None => (-1, None)
      | Some i => if opened then (0, Some (write i)) else (-1, None)
      end
  end.

Definition glyph_write_bmp_call : option glyph_image_value -> bool -> Z * option (list Z) :=
  writer_call Image.glyph_write_bmp.

Definition glyph_write_png_call : option glyph_image_value -> bool -> Z * option (list Z) :=
  writer_call Image.glyph_write_png.

(** [write_u32_le]: the first four bytes of [buf] are overwritten. *)
Definition write_u32_le (buf : list Z) (v : Z) : list Z :=
  let buf := Arr.set buf 0 (Z.land v 255) in
  let buf := Arr.set buf 1 (Z.land (Z.shiftr v 8) 255) in
  let buf := Arr.set buf 2 (Z.land (Z.shiftr v 16) 255) in
  Arr.set buf 3 (Z.land (Z.shiftr v 24) 255).

End Render.

(** ** A reference BMP reader

    This is not code of the repository: it is the reading side of the BMP
    format for the files the writer can produce, a BITMAPINFOHEADER with 24
    bits per pixel, no compression and a positive height (rows stored from
    the bottom up, each padded to a multiple of four bytes). *)

Module BmpFormat.
Import PngFormat.

Definition le16_at (bs : list Z) (o : Z) : Z :=
  Arr.get 0 bs o + 256 * Arr.get 0 bs (o + 1).

Definition le32_at (bs : list Z) (o : Z) : Z :=
  Arr.get 0 bs o + 256 * Arr.get 0 bs (o + 1)
  + 65536 * Arr.get 0 bs (o + 2) + 16777216 * Arr.get 0 bs (o + 3).

(** The bytes one row takes in the file. *)
Definition stride (w : Z) : Z := (3 * w + 3) / 4 * 4.

(** The pixel stored at [o]: blue, green, red in the file. *)
Definition pixel_at (bs : list Z) (o : Z) : list Z :=
  [Arr.get 0 bs (o + 2); Arr.get 0 bs (o + 1); Arr.get 0 bs o].

(** The reader: width, height and the RGB bytes, rows from top to
    bottom. *)
Definition bmp_decode (bs : list Z) : option (Z * Z * list Z) :=
  let off := le32_at bs 10 in
  let w := le32_at bs 18 in
  let h := le32_at bs 22 in
  if (Arr.get 0 bs 0 =? 66) && (Arr.get 0 bs 1 =? 77)
     && (le32_at bs 2 =? len bs)
     && (54 <=? off) && (le32_at bs 14 =? 40)
     && (w <? 2 ^ 31) && (h <? 2 ^ 31)
     && (le16_at bs 26 =? 1) && (le16_at bs 28 =? 24) && (le32_at bs 30 =? 0)
     && (off + stride w * h <=? len bs)
  then
    Some (w, h,
          flat_map
            (fun y =>
               flat_map (fun x => pixel_at bs (off + (h - 1 - y) * stride w + 3 * x))
                        (Arr.range 0 w))
            (Arr.range 0 h))
  else None.

End BmpFormat.

(** ** Vocabulary of the statements about checksums and rendering *)

Module ChecksumSpec.
Import PngFormat.

(** The sum of the bytes, and the sum in which a byte counts once for its
    own position and once for every position after it. *)
Fixpoint byte_sum (l : list Z) : Z :=
  match l with
  | [] => 0
  | b :: l' => b + byte_sum l'
  end.

Fixpoint weighted_sum (l : list Z) : Z :=
  match l with
  | [] => 0
  | b :: l' => len l * b + weighted_sum l'
  end.

(** The nine ASCII digits 1 to 9, the usual check input. *)
Definition check_input : list Z := [49; 50; 51; 52; 53; 54; 55; 56; 57].

(** The pixels a bitmap gives in a colour. *)
Definition shaded (cells : list Z) (r g b : Z) : list Z :=
  flat_map (fun a => [Render.shade r a; Render.shade g a; Render.shade b a]) cells.

End ChecksumSpec.

(** ** Vocabulary of the statements about binary32 numbers *)

Module FloatSpec.
Import Mach F32.

(** [z = m * 2^e] with a mantissa of exactly 24 digits and an exponent of
    at least -23: the integer [z] is a binary32 number.  The equation is
    written with both sides multiplied by 2^23. *)
Definition exact24 (z : Z) (m : positive) (e : Z) : Prop :=
  2 ^ 23 <= Zpos m < 2 ^ 24 /\ -23 <= e <= 104
  /\ z * 2 ^ 23 = Zpos m * 2 ^ (e + 23).

(** The mantissa of a finite number has at most 24 digits. *)
Definition canonical (x : spec_float) : Prop :=
  match x with
  | S754_finite _ m _ => Zpos m < 2 ^ 24
  | _ => True
  end.

(** [x <= n] for a number [x] and an integer [n]; an infinity or a NaN is
    below no integer. *)
Definition le_int (x : spec_float) (n : Z) : Prop :=
  match x with
  | S754_zero _ => 0 <= n
  | S754_finite s m e =>
      if 0 <=? e then signed s m * 2 ^ e <= n else signed s m <= n * 2 ^ (- e)
  | _ => False
  end.

(** [n] is the ceiling of [x]: the least integer that is not below [x]. *)
Definition ceiling (x : spec_float) (n : Z) : Prop :=
  le_int x n /\ ~ le_int x (n - 1).

(** The distance that stands for "no cell": 1e9. *)
Definition FAR : Z := 1000000000.

(** An integer that the distance passes can hold: a count below 2^24 or
    the distance 1e9. *)
Definition held (v : Z) : Prop := 0 <= v < 2 ^ 24 \/ v = FAR.

End FloatSpec.

(** ** Vocabulary of the statements about distance fields *)

Module DistanceSpec.
Import Mach F32 FloatSpec.

(** A cell is inside the glyph when its coverage is above 127. *)
Definition inside (bitmap : list Z) (i : Z) : bool := Arr.get 0 bitmap i >? 127.

(** The number of steps along rows and columns between the cells [i] and
    [j] of a grid of width [w]. *)
Definition steps (w i j : Z) : Z :=
  Z.abs (i mod w - j mod w) + Z.abs (i / w - j / w).

(** The least member of a list, 1e9 for the empty list. *)
Definition least (l : list Z) : Z := fold_right Z.min FAR l.

(** The distance in steps from cell [i] to the nearest cell that is inside
    ([kind = true]) or outside ([kind = false]); 1e9 when the bitmap has no
    such cell. *)
Definition nearest (bitmap : list Z) (w h : Z) (kind : bool) (i : Z) : Z :=
  least (map (steps w i)
             (filter (fun j => Bool.eqb (inside bitmap j) kind) (Arr.range 0 (w * h)))).

(** The signed distance of a cell: minus the distance to the nearest
    outside cell for an inside cell, the distance to the nearest inside
    cell for an outside cell. *)
Definition signed_distance (bitmap : list Z) (w h i : Z) : Z :=
  if inside bitmap i then - nearest bitmap w h false i else nearest bitmap w h true i.

(** The clamp to [-spread, +spread]. *)
Definition clamp (spread d : Z) : Z := Z.max (- spread) (Z.min spread d).

(** The linear map of [-spread, +spread] onto [0, 255] takes [d] to
    [255 * (d + spread) / (2 * spread)]; [v] is at most this number and
    at most 1 below it. *)
Definition linear_within_one (spread d v : Z) : bool :=
  (2 * spread * v <=? 255 * (d + spread))
  && (255 * (d + spread) <=? 2 * spread * (v + 1)).

(** The check of [linear_within_one] for every spread from 1 to [N] and
    every whole distance from [-spread] to [+spread]. *)
Definition remap_checked (N : Z) : bool :=
  forallb
    (fun spread =>
       forallb
         (fun d =>
            linear_within_one spread d
              (DistanceField.remap_distance (of_int d) spread))
         (Arr.range (- spread) (spread + 1)))
    (Arr.range 1 (N + 1)).

(** A distance carried [c] steps further; 1e9 stays 1e9. *)
Definition carried (v c : Z) : Z := Z.min FAR (v + c).

(** [D] is the least of 1e9 and the values [f j] for [lo <= j < hi]. *)
Definition least_of (f : Z -> Z) (lo hi : Z) (D : Z) : Prop :=
  D <= FAR
  /\ (forall j, lo <= j < hi -> D <= f j)
  /\ (D = FAR \/ exists j, lo <= j < hi /\ D = f j).

(** The field [dt] of [L] cells holds the distances [A]. *)
Definition holds (L : Z) (A : Z -> Z) (dt : list spec_float) : Prop :=
  Z.of_nat (List.length dt) = L
  /\ forall i, 0 <= i < L ->
       Arr.get zero dt i = of_int (A i)
       /\ (A i = FAR \/ 0 <= A i <= 2 ^ 24 - 2).

End DistanceSpec.

(** * Proofs *)

(** * Table directory and font loading *)

Section FontLoading.
Import Mach TrueType FontSpec.

Lemma truthy_false (z : Z) : truthy z = false <-> z = 0.
Proof. unfold truthy. destruct (Z.eqb_spec z 0); simpl; split; congruence. Qed.

Lemma truthy_true (z : Z) : truthy z = true <-> z <> 0.
Proof. unfold truthy. destruct (Z.eqb_spec z 0); simpl; split; congruence. Qed.

Lemma get16u_range (data : bytes) (o : Z) : 0 <= glyph_ttf__get16u data o < 2 ^ 16.
Proof. unfold glyph_ttf__get16u, Util.glyph__bswap16, uint16. apply Z.mod_pos_bound. lia. Qed.

(** The directory loop gives 0 when none of the entries it visits carries
    the tag. *)
Lemma find_table_loop_absent (data : bytes) (tabledir : Z) (tag : string) :
  forall (n : nat) (i : Z),
    (forall k, i <= k < i + Z.of_nat n -> tag_at data (tabledir + 16 * k) tag = false) ->
    find_table_loop data tabledir tag n i = 0.
Proof.
  induction n as [|n IH]; intros i H; cbn [find_table_loop]; [reflexivity|].
  rewrite (H i) by lia. apply IH. intros k Hk. apply H. lia.
Qed.

Lemma find_table_absent (data : bytes) (offset : Z) (tag : string) :
  ~ table_listed data offset tag -> glyph_ttf__find_table data offset tag = 0.
Proof.
  intros Habs. unfold glyph_ttf__find_table.
  apply find_table_loop_absent. intros k Hk.
  destruct (tag_at data (offset + 12 + 16 * k) tag) eqn:E; [|reflexivity].
  exfalso. apply Habs. exists k. split; [|exact E].
  unfold num_tables. pose proof (get16u_range data (offset + 4)). lia.
Qed.

(** The cmap loop gives 0 when none of the records it visits is a Unicode
    one, and the offset of the first Unicode record otherwise. *)
Lemma cmap_scan_none (data : bytes) (cm : Z) :
  forall (n : nat) (i : Z),
    (forall k, i <= k < i + Z.of_nat n -> subtable_unicode data cm k = false) ->
    cmap_scan data cm n i = 0.
Proof.
  induction n as [|n IH]; intros i H; cbn [cmap_scan]; [reflexivity|].
  pose proof (H i ltac:(lia)) as Hi. unfold subtable_unicode in Hi. rewrite Hi.
  apply IH. intros k Hk. apply H. lia.
Qed.

Lemma cmap_scan_first (data : bytes) (cm : Z) :
  forall (n : nat) (i k : Z),
    i <= k < i + Z.of_nat n ->
    subtable_unicode data cm k = true ->
    (forall j, i <= j < k -> subtable_unicode data cm j = false) ->
    cmap_scan data cm n i = cm + subtable_offset data cm k.
Proof.
  induction n as [|n IH]; intros i k Hk Hu Hfirst; [lia|].
  cbn [cmap_scan]. destruct (Z.eq_dec i k) as [->|Hne].
  - unfold subtable_unicode in Hu. rewrite Hu. reflexivity.
  - pose proof (Hfirst i ltac:(lia)) as Hi. unfold subtable_unicode in Hi. rewrite Hi.
    apply IH; [lia|assumption|]. intros j Hj. apply Hfirst. lia.
Qed.

(** What every failing run of [glyph_ttf_init] leaves in the handle. *)
Lemma init_failure_fields (font : glyph_font_t) (d : bytes) (offset : Z) :
  fst (glyph_ttf_init font d offset) = 0 ->
  let font' := snd (glyph_ttf_init font d offset) in
  data font' = d /\ fontstart font' = offset
  /\ numGlyphs font' = numGlyphs font
  /\ index_map font' = index_map font
  /\ scale font' = scale font.
Proof.
  unfold glyph_ttf_init.
  repeat match goal with
         | |- context [if ?c then _ else _] => destruct c
         end; simpl; intros H; try discriminate; repeat split; reflexivity.
Qed.

Lemma init_rejects_signature (font : glyph_font_t) (d : bytes) (offset : Z) :
  glyph_ttf__isfont (advance_ptr d offset) = false ->
  glyph_ttf_init font d offset = (0, set_source font d offset).
Proof. intros H. unfold glyph_ttf_init. rewrite H. reflexivity. Qed.

Lemma init_requires_table (font : glyph_font_t) (d : bytes) (offset : Z) :
  glyph_ttf__find_table d offset "cmap" = 0
  \/ glyph_ttf__find_table d offset "head" = 0
  \/ glyph_ttf__find_table d offset "hhea" = 0
  \/ glyph_ttf__find_table d offset "hmtx" = 0
  \/ (glyph_ttf__find_table d offset "glyf" <> 0
      /\ glyph_ttf__find_table d offset "loca" = 0) ->
  fst (glyph_ttf_init font d offset) = 0.
Proof.
  intros H. unfold glyph_ttf_init.
  destruct (negb (glyph_ttf__isfont (advance_ptr d offset))); [reflexivity|].
  cbn [cmap head hhea hmtx glyf loca set_tables set_source].
  destruct H as [H|[H|[H|[H|[Hg Hl]]]]].
  1-4: rewrite H; cbn [truthy Z.eqb negb orb];
       rewrite ?orb_true_r; reflexivity.
  rewrite Hl. apply truthy_true in Hg. rewrite Hg.
  cbn [truthy Z.eqb negb andb].
  destruct (_ || _); reflexivity.
Qed.

Lemma init_without_unicode_cmap (font : glyph_font_t) (d : bytes) (offset : Z) :
  let cm := glyph_ttf__find_table d offset "cmap" in
  (forall i, 0 <= i < subtable_count d cm -> subtable_unicode d cm i = false) ->
  fst (glyph_ttf_init font d offset) = 0.
Proof.
  intros cm H. unfold glyph_ttf_init.
  cbn [cmap head hhea hmtx glyf loca set_tables set_source set_indexToLocFormat].
  fold cm. rewrite cmap_scan_none.
  - cbn [truthy Z.eqb negb].
    repeat match goal with
           | |- context [if ?c then _ else _] => destruct c
           end; reflexivity.
  - intros k Hk. apply H. unfold subtable_count.
    pose proof (get16u_range d (cm + 2)). lia.
Qed.

Lemma init_with_unicode_cmap (font : glyph_font_t) (d : bytes) (offset i : Z) :
  let cm := glyph_ttf__find_table d offset "cmap" in
  tables_accepted d offset ->
  0 <= i < subtable_count d cm ->
  subtable_unicode d cm i = true ->
  (forall j, 0 <= j < i -> subtable_unicode d cm j = false) ->
  cm + subtable_offset d cm i <> 0 ->
  fst (glyph_ttf_init font d offset) = 1
  /\ index_map (snd (glyph_ttf_init font d offset)) = cm + subtable_offset d cm i
  /\ numGlyphs (snd (glyph_ttf_init font d offset))
     = glyph_ttf__get16u d (glyph_ttf__find_table d offset "hhea" + 34).
Proof.
  intros cm (Hsig & Hc & Hh & Hhh & Hm & Hgl) Hi Hu Hfirst Hnz.
  unfold glyph_ttf_init. rewrite Hsig.
  cbn [negb cmap head hhea hmtx glyf loca set_tables set_source set_indexToLocFormat].
  apply truthy_true in Hc, Hh, Hhh, Hm. rewrite Hc, Hh, Hhh, Hm.
  cbn [negb orb].
  assert (Hg : truthy (glyph_ttf__find_table d offset "glyf")
               && negb (truthy (glyph_ttf__find_table d offset "loca")) = false).
  { destruct (truthy (glyph_ttf__find_table d offset "glyf")) eqn:E; [|reflexivity].
    apply truthy_true in E. apply Hgl in E. apply truthy_true in E. rewrite E. reflexivity. }
  rewrite Hg. fold cm.
  rewrite (cmap_scan_first d cm _ 0 i); try assumption.
  - apply truthy_true in Hnz. rewrite Hnz. cbn. repeat split; reflexivity.
  - unfold subtable_count in Hi. lia.
Qed.

End FontLoading.

(** * Codepoint mapping, format 4 *)

Section CodepointMapping.
Import Mach TrueType FontSpec.

Lemma land_65535 (z : Z) : Z.land z 65535 = z mod 65536.
Proof. change 65535 with (Z.ones 16). rewrite Z.land_ones by lia. reflexivity. Qed.

Variable font : glyph_font_t.
Variable codepoint : Z.

Let endCount := index_map font + 14.
Let startCount := endCount + segcount font * 2 + 2.
Let idDelta := startCount + segcount font * 2.
Let idRangeOffset := idDelta + segcount font * 2.

(** The segment loop started at segment [i] with [n] segments left. *)
Let scan (n : nat) (i : Z) : Z :=
  format4_loop (data font) codepoint endCount startCount idDelta idRangeOffset n i.

Lemma format4_loop_uncovered :
  forall (n : nat) (i : Z),
    (forall k, i <= k < i + Z.of_nat n -> ~ covers font k codepoint) ->
    scan n i = 0.
Proof.
  induction n as [|n IH]; intros i H; [reflexivity|].
  unfold scan in *. cbn [format4_loop].
  rewrite IH by (intros k Hk; apply H; lia).
  pose proof (H i ltac:(lia)) as Hi. unfold covers, seg_start, seg_end in Hi.
  fold endCount startCount in Hi.
  destruct (Z.leb_spec codepoint (glyph_ttf__get16u (data font) (endCount + i * 2)));
    [|reflexivity].
  destruct (Z.geb_spec codepoint (glyph_ttf__get16u (data font) (startCount + i * 2)));
    [|reflexivity].
  exfalso. apply Hi. lia.
Qed.

Lemma format4_loop_direct :
  forall (n : nat) (i k : Z),
    i <= k < i + Z.of_nat n ->
    covers font k codepoint ->
    (forall j, i <= j < k -> ~ covers font j codepoint) ->
    seg_range_offset font k = 0 ->
    scan n i = (codepoint + seg_delta font k) mod 65536.
Proof.
  induction n as [|n IH]; intros i k Hk Hcov Hfirst Hro; [lia|].
  unfold scan in *. cbn [format4_loop].
  destruct (Z.eq_dec i k) as [->|Hne].
  - unfold covers, seg_start, seg_end in Hcov. fold endCount startCount in Hcov.
    destruct (Z.leb_spec codepoint (glyph_ttf__get16u (data font) (endCount + k * 2)));
      [|lia].
    destruct (Z.geb_spec codepoint (glyph_ttf__get16u (data font) (startCount + k * 2)));
      [|lia].
    unfold seg_range_offset in Hro. fold endCount startCount idDelta idRangeOffset in Hro.
    rewrite Hro. cbn [Z.eqb]. rewrite land_65535. reflexivity.
  - rewrite (IH (i + 1) k) by (try assumption; try lia; intros j Hj; apply Hfirst; lia).
    pose proof (Hfirst i ltac:(lia)) as Hi. unfold covers, seg_start, seg_end in Hi.
    fold endCount startCount in Hi.
    destruct (Z.leb_spec codepoint (glyph_ttf__get16u (data font) (endCount + i * 2)));
      [|reflexivity].
    destruct (Z.geb_spec codepoint (glyph_ttf__get16u (data font) (startCount + i * 2)));
      [|reflexivity].
    exfalso. apply Hi. lia.
Qed.

Lemma find_glyph_index_format4 :
  cmap_format font = 4 ->
  glyph_ttf_find_glyph_index font codepoint = scan (Z.to_nat (segcount font)) 0.
Proof.
  intros Hf. unfold glyph_ttf_find_glyph_index, cmap_format in *.
  rewrite Hf. reflexivity.
Qed.

Lemma segcount_nonneg : 0 <= segcount font.
Proof.
  unfold segcount. apply Z.shiftr_nonneg.
  pose proof (get16u_range (data font) (index_map font + 6)). lia.
Qed.

End CodepointMapping.

(** C2: in a format-4 character map, a codepoint whose first covering segment
    (in the order of the scan) has [idRangeOffset = 0] maps to
    [(codepoint + idDelta) mod 65536], and a codepoint that no segment covers
    maps to 0.  In an ordered table at most one segment covers a codepoint,
    so the first covering segment is the covering segment.  In the sample
    font, whose only segment is 65-66 with [idDelta = 0] and
    [idRangeOffset = 0], codepoint 65 maps to glyph 65 and codepoint 67 to
    glyph 0. *)
Theorem find_glyph_index_segmented :
  (forall (font : TrueType.glyph_font_t) (codepoint i : Z),
      FontSpec.cmap_format font = 4 ->
      0 <= i < FontSpec.segcount font ->
      FontSpec.covers font i codepoint ->
      (forall j, 0 <= j < i -> ~ FontSpec.covers font j codepoint) ->
      FontSpec.seg_range_offset font i = 0 ->
      TrueType.glyph_ttf_find_glyph_index font codepoint
      = (codepoint + FontSpec.seg_delta font i) mod 65536)
  /\ (forall (font : TrueType.glyph_font_t) (codepoint : Z),
         FontSpec.cmap_format font = 4 ->
         (forall i, 0 <= i < FontSpec.segcount font ->
                    ~ FontSpec.covers font i codepoint) ->
         TrueType.glyph_ttf_find_glyph_index font codepoint = 0)
  /\ (FontSpec.cmap_format Sample.loaded_font = 4
      /\ FontSpec.segcount Sample.loaded_font = 1
      /\ FontSpec.seg_start Sample.loaded_font 0 = 65
      /\ FontSpec.seg_end Sample.loaded_font 0 = 66
      /\ FontSpec.seg_delta Sample.loaded_font 0 = 0
      /\ FontSpec.seg_range_offset Sample.loaded_font 0 = 0
      /\ TrueType.glyph_ttf_find_glyph_index Sample.loaded_font 65 = 65
      /\ TrueType.glyph_ttf_find_glyph_index Sample.loaded_font 67 = 0).
Proof.
  split; [|split].
  - intros font codepoint i Hf Hi Hcov Hfirst Hro.
    rewrite find_glyph_index_format4 by assumption.
    apply format4_loop_direct with (k := i); try assumption.
    rewrite Z2Nat.id by apply segcount_nonneg. lia.
  - intros font codepoint Hf Hnone.
    rewrite find_glyph_index_format4 by assumption.
    apply format4_loop_uncovered. intros k Hk. apply Hnone.
    rewrite Z2Nat.id in Hk by apply segcount_nonneg. lia.
  - vm_compute. repeat split; reflexivity.
Qed.

Lemma find_glyph_index_segmented_witness :
  TrueType.glyph_ttf_find_glyph_index Sample.loaded_font 66
  = (66 + FontSpec.seg_delta Sample.loaded_font 0) mod 65536.
Proof.
  refine (proj1 find_glyph_index_segmented Sample.loaded_font 66 0 _ _ _ _ _).
  - vm_compute. reflexivity.
  - vm_compute. split; [discriminate | reflexivity].
  - vm_compute. split; discriminate.
  - intros j Hj. lia.
  - vm_compute. reflexivity.
Defined.

(** * Glyph location and bounding box *)

Section GlyphLocation.
Import Mach TrueType FontSpec Outline.

(** The sum in [unsigned int], converted to [int], is the sum wrapped into
    [int]. *)
Lemma int32_unsigned_add (a b : Z) : int32 (unsigned_add a b) = int32 (a + b).
Proof.
  unfold int32, unsigned_add, uint32.
  rewrite <- Zplus_mod. rewrite Zplus_mod_idemp_l. reflexivity.
Qed.

Lemma int32_fits (z : Z) : - 2 ^ 31 <= z <= INT_MAX -> int32 z = z.
Proof.
  unfold int32, INT_MAX. change (2 ^ 31) with 2147483648.
  change (2 ^ 32) with 4294967296. intros H.
  rewrite Z.mod_small by lia. lia.
Qed.

Lemma int32_range (z : Z) : - 2 ^ 31 <= int32 z <= INT_MAX.
Proof.
  unfold int32, INT_MAX. change (2 ^ 31) with 2147483648.
  change (2 ^ 32) with 4294967296.
  pose proof (Z.mod_pos_bound (z + 2147483648) 4294967296 ltac:(lia)). lia.
Qed.

(** Two sums that wrap to the same [int] have terms that differ by a
    multiple of 2^32. *)
Lemma int32_add_cancel (g a b : Z) :
  Z.abs (a - b) < 2 ^ 32 -> int32 (g + a) = int32 (g + b) -> a = b.
Proof.
  unfold int32. change (2 ^ 31) with 2147483648. change (2 ^ 32) with 4294967296.
  intros Hab H.
  pose proof (Z.div_mod (g + a + 2147483648) 4294967296 ltac:(lia)) as Ha.
  pose proof (Z.div_mod (g + b + 2147483648) 4294967296 ltac:(lia)) as Hb.
  lia.
Qed.

Lemma glyph_offset_empty (font : glyph_font_t) (glyph_index : Z) :
  empty_glyph font glyph_index ->
  glyph_ttf__get_glyph_offset font glyph_index = -1.
Proof.
  unfold empty_glyph, loca_entry, glyph_ttf__get_glyph_offset.
  destruct (truthy (indexToLocFormat font)); intros H.
  - replace (loca font + glyph_index * 4 + 4) with (loca font + (glyph_index + 1) * 4) by lia.
    rewrite H, Z.eqb_refl. reflexivity.
  - replace (loca font + glyph_index * 2 + 2) with (loca font + (glyph_index + 1) * 2) by lia.
    rewrite H, Z.eqb_refl. reflexivity.
Qed.

Lemma bitmap_of_sentinel (font : glyph_font_t) (glyph_index : Z)
      (scale_x scale_y : spec_float) :
  glyph_ttf__get_glyph_offset font glyph_index < 0 ->
  glyph_ttf_get_glyph_bitmap font glyph_index scale_x scale_y = no_bitmap.
Proof.
  intros H. unfold glyph_ttf_get_glyph_bitmap.
  destruct (Z.ltb_spec (glyph_ttf__get_glyph_offset font glyph_index) 0); [reflexivity|lia].
Qed.

Lemma bitmap_without_contours (font : glyph_font_t) (glyph_index : Z)
      (scale_x scale_y : spec_float) :
  numberOfContours font (glyph_ttf__get_glyph_offset font glyph_index) <= 0 ->
  glyph_ttf_get_glyph_bitmap font glyph_index scale_x scale_y = no_bitmap.
Proof.
  intros H. unfold glyph_ttf_get_glyph_bitmap, numberOfContours in *.
  destruct (_ <? 0); [reflexivity|].
  destruct (Z.gtb_spec (glyph_ttf__get16 (data font)
                          (glyph_ttf__get_glyph_offset font glyph_index)) 0);
    [lia|reflexivity].
Qed.

(** A returned bitmap has the size computed from the glyph header. *)
Lemma bitmap_size (font : glyph_font_t) (glyph_index : Z)
      (scale_x scale_y : spec_float) :
  let g := glyph_ttf__get_glyph_offset font glyph_index in
  let r := glyph_ttf_get_glyph_bitmap font glyph_index scale_x scale_y in
  bitmap r <> None ->
  width r = F32.to_int (F32.ceilf (F32.mul (F32.of_int (xMax font g - xMin font g)) scale_x)) + 1
  /\ height r = F32.to_int (F32.ceilf (F32.mul (F32.of_int (yMax font g - yMin font g)) scale_y)) + 1.
Proof.
  intros g r. subst r. unfold glyph_ttf_get_glyph_bitmap. fold g.
  destruct (g <? 0); [intros H; exfalso; apply H; reflexivity|].
  destruct (_ >? 0); [|intros H; exfalso; apply H; reflexivity].
  fold (xMin font g) (yMin font g) (xMax font g) (yMax font g).
  destruct (_ || _); [intros H; exfalso; apply H; reflexivity|].
  repeat match goal with
         | |- context [let '(_, _) := ?e in _] => destruct e
         end.
  intros _. split; reflexivity.
Qed.

End GlyphLocation.

(** C6: when the two adjacent loca entries of a glyph are equal (2-byte
    entries doubled, 4-byte entries as they are, by [indexToLocFormat]),
    [glyph_ttf__get_glyph_offset] gives the empty-glyph sentinel -1, and the
    bitmap request answers normally with no bitmap and a size of 0 by 0. *)
Theorem empty_glyph_has_no_bitmap (font : TrueType.glyph_font_t) (glyph_index : Z)
        (scale_x scale_y : spec_float) :
  FontSpec.empty_glyph font glyph_index ->
  TrueType.glyph_ttf__get_glyph_offset font glyph_index = -1
  /\ Outline.glyph_ttf_get_glyph_bitmap font glyph_index scale_x scale_y
     = Outline.no_bitmap
  /\ Outline.width (Outline.glyph_ttf_get_glyph_bitmap font glyph_index scale_x scale_y) = 0
  /\ Outline.height (Outline.glyph_ttf_get_glyph_bitmap font glyph_index scale_x scale_y) = 0.
Proof.
  intros He. pose proof (glyph_offset_empty font glyph_index He) as Hg.
  assert (Hb : Outline.glyph_ttf_get_glyph_bitmap font glyph_index scale_x scale_y
               = Outline.no_bitmap) by (apply bitmap_of_sentinel; lia).
  rewrite Hb. repeat split; assumption || reflexivity.
Qed.

Lemma empty_glyph_has_no_bitmap_witness :
  FontSpec.empty_glyph Sample.loaded_font 1
  /\ Outline.glyph_ttf_get_glyph_bitmap Sample.loaded_font 1
       (F32.of_int 1) (F32.of_int 1) = Outline.no_bitmap.
Proof.
  assert (He : FontSpec.empty_glyph Sample.loaded_font 1) by (vm_compute; reflexivity).
  split; [exact He|].
  exact (proj1 (proj2 (empty_glyph_has_no_bitmap Sample.loaded_font 1
                         (F32.of_int 1) (F32.of_int 1) He))).
Defined.

(** C10: for a glyph index at or past the glyph count, and for an empty
    glyph, the bounding-box query sets [x0], [y0], [x1] and [y1] to 0. *)
Theorem bbox_zero_without_outline (font : TrueType.glyph_font_t) (glyph_index : Z)
        (bbox : TrueType.glyph_bbox_t) :
  glyph_index >= TrueType.numGlyphs font \/ FontSpec.empty_glyph font glyph_index ->
  let bbox' := TrueType.glyph_ttf_get_glyph_bbox font glyph_index bbox in
  TrueType.x0 bbox' = 0 /\ TrueType.y0 bbox' = 0
  /\ TrueType.x1 bbox' = 0 /\ TrueType.y1 bbox' = 0.
Proof.
  intros H. unfold TrueType.glyph_ttf_get_glyph_bbox.
  destruct (Z.geb_spec glyph_index (TrueType.numGlyphs font)) as [Hge|Hlt].
  - cbn. repeat split; reflexivity.
  - destruct H as [H|H]; [lia|].
    rewrite (glyph_offset_empty font glyph_index H).
    cbn. repeat split; reflexivity.
Qed.

Lemma bbox_zero_without_outline_witness :
  let bbox' := TrueType.glyph_ttf_get_glyph_bbox Sample.loaded_font 1
                 (TrueType.mk_bbox 1 2 3 4 5 6) in
  TrueType.x0 bbox' = 0 /\ TrueType.y0 bbox' = 0
  /\ TrueType.x1 bbox' = 0 /\ TrueType.y1 bbox' = 0.
Proof.
  apply (bbox_zero_without_outline Sample.loaded_font 1 (TrueType.mk_bbox 1 2 3 4 5 6)).
  right. vm_compute. reflexivity.
Defined.

(** C4 (as amended): a glyph with a negative [numberOfContours] gets the
    same answer as an empty glyph: no bitmap, size 0 by 0, offsets 0. *)
Theorem composite_glyph_has_no_bitmap (font : TrueType.glyph_font_t) (glyph_index : Z)
        (scale_x scale_y : spec_float) :
  FontSpec.numberOfContours font
    (TrueType.glyph_ttf__get_glyph_offset font glyph_index) < 0 ->
  Outline.glyph_ttf_get_glyph_bitmap font glyph_index scale_x scale_y
  = Outline.no_bitmap
  /\ forall empty_index,
       FontSpec.empty_glyph font empty_index ->
       Outline.glyph_ttf_get_glyph_bitmap font glyph_index scale_x scale_y
       = Outline.glyph_ttf_get_glyph_bitmap font empty_index scale_x scale_y.
Proof.
  intros Hn.
  assert (Hb : Outline.glyph_ttf_get_glyph_bitmap font glyph_index scale_x scale_y
               = Outline.no_bitmap) by (apply bitmap_without_contours; lia).
  split; [exact Hb|].
  intros e He. rewrite Hb.
  symmetry. apply bitmap_of_sentinel.
  rewrite (glyph_offset_empty font e He). lia.
Qed.

Lemma composite_glyph_has_no_bitmap_witness :
  Outline.glyph_ttf_get_glyph_bitmap Sample.loaded_font 2 (F32.of_int 1) (F32.of_int 1)
  = Outline.no_bitmap.
Proof.
  refine (proj1 (composite_glyph_has_no_bitmap Sample.loaded_font 2
                   (F32.of_int 1) (F32.of_int 1) _)).
  vm_compute. reflexivity.
Defined.

(** C4, as stated, fails: in the sample font the composite glyph 2 and the
    empty glyph 1 give the same answer, a NULL bitmap of size 0 by 0. *)
Lemma composite_glyph_not_distinguished :
  FontSpec.numberOfContours Sample.loaded_font
    (TrueType.glyph_ttf__get_glyph_offset Sample.loaded_font 2) = -1
  /\ FontSpec.empty_glyph Sample.loaded_font 1
  /\ Outline.glyph_ttf_get_glyph_bitmap Sample.loaded_font 2 (F32.of_int 1) (F32.of_int 1)
     = Outline.glyph_ttf_get_glyph_bitmap Sample.loaded_font 1 (F32.of_int 1) (F32.of_int 1)
  /\ Outline.bitmap
       (Outline.glyph_ttf_get_glyph_bitmap Sample.loaded_font 2 (F32.of_int 1) (F32.of_int 1))
     = None.
Proof. vm_compute. repeat split; reflexivity. Qed.

(** C3 (as amended): [glyph_ttf_init] returns 0 when the signature is none of
    the four accepted ones, when the directory lists no cmap, head, hhea or
    hmtx table, and when glyf is found but loca is not listed.  A failing
    call has already stored the buffer and the start offset in the handle;
    it leaves [numGlyphs], [index_map] and [scale] as they were. *)
Theorem init_failure_paths (font : TrueType.glyph_font_t) (data : TrueType.bytes)
        (offset : Z) :
  (TrueType.glyph_ttf__isfont (TrueType.advance_ptr data offset) = false
   \/ ~ FontSpec.table_listed data offset "cmap"
   \/ ~ FontSpec.table_listed data offset "head"
   \/ ~ FontSpec.table_listed data offset "hhea"
   \/ ~ FontSpec.table_listed data offset "hmtx"
   \/ (TrueType.glyph_ttf__find_table data offset "glyf" <> 0
       /\ ~ FontSpec.table_listed data offset "loca") ->
   fst (TrueType.glyph_ttf_init font data offset) = 0)
  /\ (fst (TrueType.glyph_ttf_init font data offset) = 0 ->
      let font' := snd (TrueType.glyph_ttf_init font data offset) in
      TrueType.data font' = data
      /\ TrueType.fontstart font' = offset
      /\ TrueType.numGlyphs font' = TrueType.numGlyphs font
      /\ TrueType.index_map font' = TrueType.index_map font
      /\ TrueType.scale font' = TrueType.scale font).
Proof.
  split.
  - intros [Hsig|H].
    + rewrite init_rejects_signature by assumption. reflexivity.
    + apply init_requires_table.
      destruct H as [H|[H|[H|[H|[Hg Hl]]]]];
        [ left | right; left | right; right; left | right; right; right; left
          | right; right; right; right; split; [exact Hg|] ];
        apply find_table_absent; assumption.
  - apply init_failure_fields.
Qed.

Lemma init_failure_paths_witness :
  fst (TrueType.glyph_ttf_init FontSpec.stale_handle Sample.unsigned_font 0) = 0
  /\ TrueType.numGlyphs
       (snd (TrueType.glyph_ttf_init FontSpec.stale_handle Sample.unsigned_font 0)) = 7.
Proof.
  pose proof (init_failure_paths FontSpec.stale_handle Sample.unsigned_font 0) as [Hfail Hkeep].
  assert (H0 : fst (TrueType.glyph_ttf_init FontSpec.stale_handle Sample.unsigned_font 0) = 0).
  { apply Hfail. left. vm_compute. reflexivity. }
  split; [exact H0|].
  destruct (Hkeep H0) as (_ & _ & Hn & _). exact Hn.
Defined.

(** C3, as stated, fails: on a buffer with a foreign signature the call
    returns 0 and the handle, whose [fontstart] was 7, now holds 0. *)
Lemma init_failure_overwrites_handle :
  fst (TrueType.glyph_ttf_init FontSpec.stale_handle Sample.unsigned_font 0) = 0
  /\ TrueType.fontstart FontSpec.stale_handle = 7
  /\ TrueType.fontstart
       (snd (TrueType.glyph_ttf_init FontSpec.stale_handle Sample.unsigned_font 0)) = 0
  /\ snd (TrueType.glyph_ttf_init FontSpec.stale_handle Sample.unsigned_font 0)
     <> FontSpec.stale_handle.
Proof.
  split; [vm_compute; reflexivity|].
  split; [reflexivity|].
  split; [vm_compute; reflexivity|].
  intros H. apply (f_equal TrueType.fontstart) in H. vm_compute in H. discriminate.
Qed.




(** * Arrays and slices *)

Section Arrays.
Import PngFormat.

Lemma range_length (lo hi : Z) : List.length (Arr.range lo hi) = Z.to_nat (hi - lo).
Proof. unfold Arr.range. rewrite length_map, length_seq. reflexivity. Qed.

Lemma range_empty (lo hi : Z) : hi <= lo -> Arr.range lo hi = [].
Proof.
  intros H. unfold Arr.range. replace (Z.to_nat (hi - lo)) with 0%nat by lia. reflexivity.
Qed.

Lemma range_cons (lo hi : Z) : lo < hi -> Arr.range lo hi = lo :: Arr.range (lo + 1) hi.
Proof.
  intros H. unfold Arr.range.
  replace (Z.to_nat (hi - lo)) with (S (Z.to_nat (hi - (lo + 1)))) by lia.
  cbn [seq map]. f_equal; [lia|].
  rewrite <- seq_shift, map_map. apply map_ext. intros k. lia.
Qed.

Lemma range_snoc (lo hi : Z) : lo <= hi -> Arr.range lo (hi + 1) = Arr.range lo hi ++ [hi].
Proof.
  intros H. unfold Arr.range.
  replace (Z.to_nat (hi + 1 - lo)) with (Z.to_nat (hi - lo) + 1)%nat by lia.
  rewrite seq_app, map_app. cbn [seq map Nat.add]. do 2 f_equal. lia.
Qed.

Lemma range_map_ext {A} (f g : Z -> A) (lo hi : Z) :
  (forall i, lo <= i < hi -> f i = g i) ->
  map f (Arr.range lo hi) = map g (Arr.range lo hi).
Proof.
  intros H. unfold Arr.range. rewrite !map_map. apply map_ext_in.
  intros k Hk. apply in_seq in Hk. apply H. lia.
Qed.

Lemma range_shift {A} (f : Z -> A) (lo hi d : Z) :
  map f (Arr.range (lo + d) (hi + d)) = map (fun i => f (i + d)) (Arr.range lo hi).
Proof.
  unfold Arr.range. replace (hi + d - (lo + d)) with (hi - lo) by lia.
  rewrite !map_map. apply map_ext. intros k. f_equal. lia.
Qed.

Lemma get_nth {A} (d : A) (l : list A) (i : Z) :
  0 <= i -> Arr.get d l i = nth (Z.to_nat i) l d.
Proof. intros H. unfold Arr.get. destruct (Z.ltb_spec i 0); [lia|reflexivity]. Qed.

Lemma len_app (a b : list Z) : len (a ++ b) = len a + len b.
Proof. unfold len. rewrite length_app. lia. Qed.

Lemma len_nonneg (a : list Z) : 0 <= len a.
Proof. unfold len. lia. Qed.

Lemma len_cons (x : Z) (a : list Z) : len (x :: a) = 1 + len a.
Proof. unfold len. cbn [List.length]. lia. Qed.

(** A slice inside the list is what [firstn] and [skipn] cut out. *)
Lemma slice_firstn_skipn (l : list Z) (pos n : Z) :
  0 <= pos -> 0 <= n -> pos + n <= len l ->
  Image.slice l pos n = take n (drop pos l).
Proof.
  intros Hp Hn Hl. unfold Image.slice, take, drop, len in *.
  apply nth_ext with (d := 0) (d' := 0).
  - rewrite length_map, range_length, length_firstn, length_skipn. lia.
  - intros k Hk. rewrite length_map, range_length in Hk.
    unfold Arr.range. rewrite map_map.
    rewrite (nth_indep _ 0 (Arr.get 0 l (pos + (0 + Z.of_nat 0))))
      by (rewrite length_map, length_seq; lia).
    rewrite (map_nth (fun x => Arr.get 0 l (pos + (0 + Z.of_nat x)))).
    rewrite seq_nth by lia.
    rewrite get_nth by lia. rewrite nth_firstn.
    destruct (Nat.ltb_spec k (Z.to_nat n)); [|lia].
    rewrite nth_skipn. f_equal. lia.
Qed.

Lemma slice_all (l : list Z) : Image.slice l 0 (len l) = l.
Proof.
  rewrite slice_firstn_skipn by (pose proof (len_nonneg l); lia).
  unfold take, drop, len. rewrite Nat2Z.id. cbn [Z.to_nat skipn]. apply firstn_all.
Qed.

Lemma slice_length (l : list Z) (pos n : Z) : len (Image.slice l pos n) = Z.max 0 n.
Proof. unfold Image.slice, len. rewrite length_map, range_length. lia. Qed.

Lemma take_app (a b : list Z) : take (len a) (a ++ b) = a.
Proof.
  unfold take, len. rewrite Nat2Z.id.
  rewrite firstn_app, Nat.sub_diag, firstn_all. cbn. apply app_nil_r.
Qed.

Lemma drop_app (a b : list Z) : drop (len a) (a ++ b) = b.
Proof.
  unfold drop, len. rewrite Nat2Z.id.
  rewrite skipn_app, Nat.sub_diag, skipn_all. reflexivity.
Qed.

Lemma take_app_n (n : Z) (a b : list Z) : n = len a -> take n (a ++ b) = a.
Proof. intros ->. apply take_app. Qed.

Lemma drop_app_n (n : Z) (a b : list Z) : n = len a -> drop n (a ++ b) = b.
Proof. intros ->. apply drop_app. Qed.

Lemma list_eqb_refl (a : list Z) : list_eqb a a = true.
Proof. unfold list_eqb. destruct (list_eq_dec Z.eq_dec a a); congruence. Qed.

End Arrays.

(** * Bytes and four-byte integers *)

Section Bytes.
Import Image PngFormat ImageSpec.

Lemma land_255 (z : Z) : Z.land z 255 = z mod 256.
Proof. change 255 with (Z.ones 8). rewrite Z.land_ones by lia. reflexivity. Qed.

Lemma write_u32_be_bytes (v : Z) : Forall byte (write_u32_be v).
Proof.
  unfold write_u32_be, byte. rewrite !land_255.
  repeat constructor; apply Z.mod_pos_bound; lia.
Qed.

Lemma write_u32_be_length (v : Z) : len (write_u32_be v) = 4.
Proof. reflexivity. Qed.

Lemma be32_value_write (v : Z) : 0 <= v < 2 ^ 32 -> be32_value (write_u32_be v) = v.
Proof.
  intros H. unfold write_u32_be, be32_value. cbn [fold_left].
  rewrite !land_255, !Z.shiftr_div_pow2 by lia.
  change (2 ^ 24) with (256 * 256 * 256). change (2 ^ 16) with (256 * 256).
  change (2 ^ 8) with 256. change (2 ^ 32) with 4294967296 in H.
  rewrite <- !Z.div_div by lia.
  pose proof (Z.div_mod v 256 ltac:(lia)).
  pose proof (Z.div_mod (v / 256) 256 ltac:(lia)).
  pose proof (Z.div_mod (v / 256 / 256) 256 ltac:(lia)).
  assert (0 <= v / 256 / 256 / 256 < 256).
  { split; [repeat apply Z.div_pos; lia|].
    repeat (apply Z.div_lt_upper_bound; [lia|]). lia. }
  rewrite (Z.mod_small (v / 256 / 256 / 256) 256) by lia.
  lia.
Qed.

Lemma lxor_bound (n a b : Z) :
  0 <= n -> 0 <= a < 2 ^ n -> 0 <= b < 2 ^ n -> 0 <= Z.lxor a b < 2 ^ n.
Proof.
  intros Hn Ha Hb. split; [apply Z.lxor_nonneg; lia|].
  destruct (Z.eq_dec (Z.lxor a b) 0) as [->|Hne]; [apply Z.pow_pos_nonneg; lia|].
  assert (0 < n).
  { destruct (Z.eq_dec n 0) as [->|]; [|lia].
    change (2 ^ 0) with 1 in *. replace a with 0 in Hne by lia.
    replace b with 0 in Hne by lia. cbn in Hne. congruence. }
  apply Z.log2_lt_pow2; [pose proof (Z.lxor_nonneg a b); lia|].
  eapply Z.le_lt_trans; [apply Z.log2_lxor; lia|].
  apply Z.max_lub_lt.
  - destruct (Z.eq_dec a 0) as [->|]; [cbn; lia|]. apply Z.log2_lt_pow2; lia.
  - destruct (Z.eq_dec b 0) as [->|]; [cbn; lia|]. apply Z.log2_lt_pow2; lia.
Qed.

Lemma shiftr_bound (n k a : Z) :
  0 <= k -> 0 <= a < 2 ^ n -> 0 <= Z.shiftr a k < 2 ^ n.
Proof.
  intros Hk Ha. rewrite Z.shiftr_div_pow2 by lia. split.
  - apply Z.div_pos; [lia|]. apply Z.pow_pos_nonneg; lia.
  - apply Z.le_lt_trans with a; [|lia].
    apply Z.div_le_upper_bound; [apply Z.pow_pos_nonneg; lia|].
    assert (1 <= 2 ^ k) by (pose proof (Z.pow_pos_nonneg 2 k); lia). nia.
Qed.

End Bytes.

(** * The table-driven CRC is the CRC of the standard *)

Section Checksums.
Import Mach Image PngFormat ImageSpec.

Lemma crc_shift_bit (c : Z) : crc_shift c = crc_bit c.
Proof.
  unfold crc_shift, crc_bit, truthy, poly.
  change 1 with (Z.ones 1) at 1. rewrite Z.land_ones by lia.
  change (2 ^ 1) with 2. rewrite Zmod_odd.
  destruct (Z.odd c); reflexivity.
Qed.

Lemma iter_crc_shift (k : nat) (c : Z) : Nat.iter k crc_shift c = Nat.iter k crc_bit c.
Proof.
  induction k as [|k IH]; [reflexivity|].
  rewrite !Nat.iter_succ, IH. apply crc_shift_bit.
Qed.

Lemma odd_lxor (u v : Z) : Z.odd (Z.lxor u v) = xorb (Z.odd u) (Z.odd v).
Proof. rewrite <- !Z.bit0_odd. apply Z.lxor_spec. Qed.

Lemma lxor_cancel (a b p : Z) : Z.lxor (Z.lxor a p) (Z.lxor b p) = Z.lxor a b.
Proof.
  rewrite Z.lxor_assoc, (Z.lxor_comm b p), <- (Z.lxor_assoc p p b).
  rewrite Z.lxor_nilpotent, Z.lxor_0_l. reflexivity.
Qed.

(** One round is linear over exclusive or. *)
Lemma crc_bit_lxor (u v : Z) : crc_bit (Z.lxor u v) = Z.lxor (crc_bit u) (crc_bit v).
Proof.
  unfold crc_bit. rewrite odd_lxor, Z.shiftr_lxor.
  destruct (Z.odd u), (Z.odd v); cbn [xorb].
  - symmetry. apply lxor_cancel.
  - rewrite !Z.lxor_assoc. f_equal. apply Z.lxor_comm.
  - rewrite !Z.lxor_assoc. reflexivity.
  - reflexivity.
Qed.

Lemma iter_crc_bit_lxor (k : nat) (u v : Z) :
  Nat.iter k crc_bit (Z.lxor u v)
  = Z.lxor (Nat.iter k crc_bit u) (Nat.iter k crc_bit v).
Proof.
  induction k as [|k IH]; [reflexivity|].
  rewrite !Nat.iter_succ, IH. apply crc_bit_lxor.
Qed.

(** Rounds only shift a register whose low bits are clear. *)
Lemma iter_crc_bit_shiftl (k : nat) (h j : Z) :
  0 <= j ->
  Nat.iter k crc_bit (Z.shiftl h (Z.of_nat k + j)) = Z.shiftl h j.
Proof.
  revert j. induction k as [|k IH]; intros j Hj.
  - cbn. reflexivity.
  - rewrite Nat.iter_succ.
    replace (Z.of_nat (S k) + j) with (Z.of_nat k + (j + 1)) by lia.
    rewrite IH by lia. unfold crc_bit.
    replace (Z.odd (Z.shiftl h (j + 1))) with false.
    + rewrite Z.shiftr_shiftl_l by lia. f_equal. lia.
    + rewrite <- Z.bit0_odd. rewrite Z.shiftl_spec_low by lia. reflexivity.
Qed.

Lemma split_low_bits (x k : Z) :
  0 <= k -> x = Z.lxor (Z.shiftl (Z.shiftr x k) k) (x mod 2 ^ k).
Proof.
  intros Hk. apply Z.bits_inj'. intros n Hn.
  rewrite Z.lxor_spec.
  destruct (Z.lt_ge_cases n k).
  - rewrite Z.shiftl_spec_low by lia.
    rewrite Z.mod_pow2_bits_low by lia. reflexivity.
  - rewrite Z.shiftl_spec by lia. rewrite Z.shiftr_spec by lia.
    rewrite Z.mod_pow2_bits_high by lia.
    replace (n - k + k) with n by lia. symmetry. apply xorb_false_r.
Qed.

Lemma crc_rounds_by_table (x : Z) :
  Nat.iter 8 crc_bit x
  = Z.lxor (Z.shiftr x 8) (Nat.iter 8 crc_bit (x mod 2 ^ 8)).
Proof.
  rewrite (split_low_bits x 8) at 1 by lia.
  rewrite iter_crc_bit_lxor. f_equal.
  rewrite <- (Z.shiftl_0_r (Z.shiftr x 8)) at 2.
  apply (iter_crc_bit_shiftl 8 (Z.shiftr x 8) 0). lia.
Qed.

Lemma get_map_range {A} (d : A) (f : Z -> A) (n i : Z) :
  0 <= i < n -> Arr.get d (map f (Arr.range 0 n)) i = f i.
Proof.
  intros H. rewrite get_nth by lia. unfold Arr.range. rewrite map_map.
  rewrite (nth_indep _ d (f (0 + Z.of_nat 0)))
    by (rewrite length_map, length_seq; lia).
  rewrite (map_nth (fun k => f (0 + Z.of_nat k))). rewrite seq_nth by lia.
  f_equal. lia.
Qed.

Lemma crc_table_step (c b : Z) :
  byte b ->
  Z.lxor (Z.shiftr c 8) (Arr.get 0 crc32_table (uint8 (Z.lxor c b))) = crc_byte c b.
Proof.
  intros Hb. unfold crc_byte, crc32_table, uint8.
  rewrite get_map_range by (apply Z.mod_pos_bound; lia).
  rewrite iter_crc_shift. rewrite (crc_rounds_by_table (Z.lxor c b)).
  f_equal. rewrite Z.shiftr_lxor.
  replace (Z.shiftr b 8) with 0; [symmetry; apply Z.lxor_0_r|].
  symmetry. apply Z.shiftr_eq_0; [unfold byte in Hb; lia|].
  destruct (Z.eq_dec b 0) as [->|]; [cbn; lia|].
  apply Z.log2_lt_pow2; unfold byte in Hb; lia.
Qed.

Lemma crc32_is_crc (l : list Z) : Forall byte l -> crc32 l = crc l.
Proof.
  intros Hl. unfold crc32, crc. f_equal.
  generalize 4294967295 as c. induction Hl as [|b l Hb Hl IH]; intros c; cbn [fold_left].
  - reflexivity.
  - rewrite crc_table_step by assumption. apply IH.
Qed.

Lemma crc_bit_range (c : Z) : 0 <= c < 2 ^ 32 -> 0 <= crc_bit c < 2 ^ 32.
Proof.
  intros H. unfold crc_bit.
  pose proof (shiftr_bound 32 1 c ltac:(lia) H).
  destruct (Z.odd c); [|assumption].
  apply lxor_bound; lia.
Qed.

Lemma crc_range (l : list Z) : Forall byte l -> 0 <= crc l < 2 ^ 32.
Proof.
  intros Hl. unfold crc. apply lxor_bound; [lia| |lia].
  assert (H0 : 0 <= 4294967295 < 2 ^ 32) by lia. revert H0.
  generalize 4294967295 as c. induction Hl as [|b l Hb Hl IH]; intros c Hc; cbn [fold_left].
  - assumption.
  - apply IH. unfold crc_byte. apply Nat.iter_invariant; [apply crc_bit_range|]. apply lxor_bound; [lia|assumption|].
    unfold byte in Hb. lia.
Qed.

(** The checksum of zlib and the one computed by [adler32] agree. *)
Lemma adler_sums_range (l : list Z) (s1 s2 : Z) :
  0 <= s1 < 65521 -> 0 <= s2 < 65521 ->
  0 <= fst (adler_sums l s1 s2) < 65521 /\ 0 <= snd (adler_sums l s1 s2) < 65521.
Proof.
  revert s1 s2. induction l as [|b l IH]; intros s1 s2 H1 H2; cbn [adler_sums fst snd].
  - split; assumption.
  - apply IH; apply Z.mod_pos_bound; lia.
Qed.

Lemma adler32_fold (l : list Z) (a b : Z) :
  fold_left
    (fun '(a, b) byte =>
       let a := (a + byte) mod MOD_ADLER in
       let b := (b + a) mod MOD_ADLER in (a, b)) l (a, b)
  = adler_sums l a b.
Proof.
  revert a b. induction l as [|x l IH]; intros a b; cbn [fold_left adler_sums].
  - reflexivity.
  - apply IH.
Qed.

Lemma lor_high_low (hi lo : Z) :
  0 <= lo < 2 ^ 16 -> Z.lor (Z.shiftl hi 16) lo = hi * 65536 + lo.
Proof.
  intros Hlo. rewrite Z.shiftl_mul_pow2 by lia. change (2 ^ 16) with 65536.
  rewrite <- Z.lxor_lor.
  - symmetry. apply Z.add_nocarry_lxor.
    apply Z.bits_inj'. intros n Hn. rewrite Z.land_spec, Z.bits_0.
    destruct (Z.lt_ge_cases n 16).
    + change 65536 with (2 ^ 16). rewrite Z.mul_pow2_bits_low by lia. reflexivity.
    + replace (Z.testbit lo n) with false; [apply andb_false_r|].
      symmetry. destruct (Z.eq_dec lo 0) as [->|]; [apply Z.bits_0|].
      apply Z.bits_above_log2; [lia|].
      apply Z.lt_le_trans with 16; [apply Z.log2_lt_pow2; lia|lia].
  - apply Z.bits_inj'. intros n Hn. rewrite Z.land_spec, Z.bits_0.
    destruct (Z.lt_ge_cases n 16).
    + change 65536 with (2 ^ 16). rewrite Z.mul_pow2_bits_low by lia. reflexivity.
    + replace (Z.testbit lo n) with false; [apply andb_false_r|].
      symmetry. destruct (Z.eq_dec lo 0) as [->|]; [apply Z.bits_0|].
      apply Z.bits_above_log2; [lia|].
      apply Z.lt_le_trans with 16; [apply Z.log2_lt_pow2; lia|lia].
Qed.

Lemma adler32_is_adler (l : list Z) : adler32 l = adler l.
Proof.
  unfold adler32, adler. rewrite adler32_fold.
  pose proof (adler_sums_range l 1 0 ltac:(lia) ltac:(lia)) as [H1 H2].
  destruct (adler_sums l 1 0) as [s1 s2]. cbn [fst snd] in *.
  unfold uint32. rewrite Z.shiftl_mul_pow2 by lia.
  rewrite Z.mod_small by lia.
  rewrite <- Z.shiftl_mul_pow2 by lia. apply lor_high_low. lia.
Qed.

Lemma adler_range (l : list Z) : 0 <= adler l < 2 ^ 32.
Proof.
  unfold adler.
  pose proof (adler_sums_range l 1 0 ltac:(lia) ltac:(lia)) as [H1 H2].
  destruct (adler_sums l 1 0) as [s1 s2]. cbn [fst snd] in *. lia.
Qed.

End Checksums.

(** * The BMP writer *)

Section BmpWriter.
Import Mach Image PngFormat ImageSpec.

Lemma int32_small (z : Z) : 0 <= z <= INT_MAX -> int32 z = z.
Proof.
  unfold int32, INT_MAX. intros H. rewrite Z.mod_small by lia. lia.
Qed.

(** Three bytes per element: where element [x] lands in the flattened
    list. *)
Lemma flat_map_triple (f0 f1 f2 : Z -> Z) (n : nat) :
  forall (lo x : Z),
    lo <= x < lo + Z.of_nat n ->
    let l := flat_map (fun x => [f0 x; f1 x; f2 x]) (Arr.range lo (lo + Z.of_nat n)) in
    Arr.get 0 l (3 * (x - lo)) = f0 x
    /\ Arr.get 0 l (3 * (x - lo) + 1) = f1 x
    /\ Arr.get 0 l (3 * (x - lo) + 2) = f2 x.
Proof.
  induction n as [|n IH]; intros lo x Hx; [lia|].
  rewrite range_cons by lia. cbn [flat_map].
  destruct (Z.eq_dec x lo) as [->|Hne].
  - replace (3 * (lo - lo)) with 0 by lia. cbn. repeat split; reflexivity.
  - replace (lo + Z.of_nat (S n)) with ((lo + 1) + Z.of_nat n) by lia.
    specialize (IH (lo + 1) x ltac:(lia)). cbv zeta in IH.
    destruct IH as (I0 & I1 & I2).
    rewrite !get_nth in * by lia.
    replace (Z.to_nat (3 * (x - lo))) with (3 + Z.to_nat (3 * (x - (lo + 1))))%nat by lia.
    replace (Z.to_nat (3 * (x - lo) + 1))
      with (3 + Z.to_nat (3 * (x - (lo + 1)) + 1))%nat by lia.
    replace (Z.to_nat (3 * (x - lo) + 2))
      with (3 + Z.to_nat (3 * (x - (lo + 1)) + 2))%nat by lia.
    cbn [app nth Nat.add]. repeat split; assumption.
Qed.

Lemma flat_map_triple_length (f : Z -> list Z) (l : list Z) :
  (forall x, List.length (f x) = 3%nat) ->
  List.length (flat_map f l) = (3 * List.length l)%nat.
Proof.
  intros H. induction l as [|a l IH]; cbn [flat_map List.length]; [reflexivity|].
  rewrite length_app, H, IH. lia.
Qed.

Lemma bmp_padding_sum (W : Z) :
  0 <= W -> 0 <= bmp_padding W /\ W * 3 + bmp_padding W = (W * 3 + 3) / 4 * 4.
Proof.
  intros H. unfold bmp_padding.
  rewrite (Z.rem_mod_nonneg (W * 3) 4) by lia.
  pose proof (Z.mod_pos_bound (W * 3) 4 ltac:(lia)).
  rewrite Z.rem_mod_nonneg by lia.
  Z.div_mod_to_equations. lia.
Qed.

Lemma bmp_row_length (img : glyph_image_t) (W y : Z) :
  0 <= W -> len (bmp_row img W y) = (W * 3 + 3) / 4 * 4.
Proof.
  intros H. unfold bmp_row, len.
  rewrite length_app, length_map, range_length.
  rewrite flat_map_triple_length by reflexivity. rewrite range_length.
  fold (bmp_padding W). pose proof (bmp_padding_sum W H). lia.
Qed.

Lemma bmp_row_pixels (img : glyph_image_t) (W y x : Z) :
  0 <= x < W ->
  Arr.get 0 (bmp_row img W y) (3 * x) = Arr.get 0 (data img) ((y * W + x) * 3 + 2)
  /\ Arr.get 0 (bmp_row img W y) (3 * x + 1) = Arr.get 0 (data img) ((y * W + x) * 3 + 1)
  /\ Arr.get 0 (bmp_row img W y) (3 * x + 2) = Arr.get 0 (data img) ((y * W + x) * 3 + 0).
Proof.
  intros Hx. unfold bmp_row.
  pose proof (flat_map_triple
                (fun x => Arr.get 0 (data img) ((y * W + x) * 3 + 2))
                (fun x => Arr.get 0 (data img) ((y * W + x) * 3 + 1))
                (fun x => Arr.get 0 (data img) ((y * W + x) * 3 + 0))
                (Z.to_nat W) 0 x ltac:(lia)) as H.
  cbv zeta in H. replace (0 + Z.of_nat (Z.to_nat W)) with W in H by lia.
  replace (x - 0) with x in H by lia.
  destruct H as (H0 & H1 & H2).
  set (px := flat_map _ (Arr.range 0 W)) in *.
  assert (Hlen : List.length px = (3 * Z.to_nat W)%nat).
  { subst px. rewrite flat_map_triple_length by reflexivity.
    rewrite range_length. lia. }
  rewrite !(get_nth 0 px) in * by lia.
  rewrite !(get_nth 0 (px ++ _)) by lia.
  rewrite !app_nth1 by lia.
  repeat split; assumption.
Qed.

Lemma nth_all_zero {A} (l : list A) (k : nat) : nth k (map (fun _ => 0) l) 0 = 0.
Proof.
  revert k. induction l as [|a l IH]; intros [|k]; cbn [map nth]; auto.
Qed.

Lemma bmp_row_padding (img : glyph_image_t) (W y p : Z) :
  0 <= W -> 3 * W <= p -> Arr.get 0 (bmp_row img W y) p = 0.
Proof.
  intros HW Hp. unfold bmp_row. rewrite get_nth by lia.
  set (px := flat_map _ (Arr.range 0 W)).
  assert (Hlen : List.length px = (3 * Z.to_nat W)%nat).
  { subst px. rewrite flat_map_triple_length by reflexivity.
    rewrite range_length. lia. }
  rewrite app_nth2 by lia. apply nth_all_zero.
Qed.

Lemma rev_range_nth (H k : Z) :
  0 <= k < H -> nth (Z.to_nat k) (rev (Arr.range 0 H)) 0 = H - 1 - k.
Proof.
  intros Hk. rewrite rev_nth by (rewrite range_length; lia).
  rewrite range_length. unfold Arr.range.
  rewrite (nth_indep _ 0 (0 + Z.of_nat 0)) by (rewrite length_map, length_seq; lia).
  rewrite (map_nth (fun k => 0 + Z.of_nat k)). rewrite seq_nth by lia. lia.
Qed.

Lemma bmp_rows_nth (img : glyph_image_t) (W H k : Z) :
  0 <= k < H ->
  nth (Z.to_nat k) (bmp_rows img W H) [] = bmp_row img W (H - 1 - k).
Proof.
  intros Hk. unfold bmp_rows.
  rewrite (nth_indep _ [] (bmp_row img W 0))
    by (rewrite length_map, length_rev, range_length; lia).
  rewrite map_nth. rewrite rev_range_nth by assumption. reflexivity.
Qed.

Lemma concat_length_uniform (rows : list (list Z)) (n : Z) :
  (forall row, In row rows -> len row = n) ->
  len (List.concat rows) = n * Z.of_nat (List.length rows).
Proof.
  induction rows as [|r rows IH]; intros H; cbn [List.concat List.length].
  - unfold len. cbn. lia.
  - rewrite len_app, (H r) by (left; reflexivity).
    rewrite IH by (intros row Hr; apply H; right; assumption). lia.
Qed.

End BmpWriter.

(** C9 (as amended): when the width, the height and the file size fit the
    writer's [int] arithmetic, the file is 54 header bytes followed by the
    rows; each row is [((W*3+3)/4)*4] bytes long, a multiple of 4; the row
    written in position [k] is image row [H-1-k]; in a row each pixel is
    written blue, green, red, and the bytes after the pixels are 0. *)
Theorem bmp_row_layout (img : Image.glyph_image_t) :
  let W := Image.width img in
  let H := Image.height img in
  let row_size := (W * 3 + 3) / 4 * 4 in
  let rows := Image.bmp_rows img W H in
  0 <= W -> 0 <= H <= Mach.INT_MAX ->
  W * 3 + 3 <= Mach.INT_MAX ->
  54 + row_size * H <= Mach.INT_MAX ->
  Image.glyph_write_bmp img = firstn 54 (Image.glyph_write_bmp img) ++ List.concat rows
  /\ PngFormat.len (Image.glyph_write_bmp img) = 54 + row_size * H
  /\ (forall row, In row rows -> PngFormat.len row = row_size)
  /\ row_size mod 4 = 0
  /\ (forall k, 0 <= k < H ->
        let row := nth (Z.to_nat k) rows [] in
        let y := H - 1 - k in
        (forall x, 0 <= x < W ->
           Arr.get 0 row (3 * x) = Arr.get 0 (Image.data img) ((y * W + x) * 3 + 2)
           /\ Arr.get 0 row (3 * x + 1) = Arr.get 0 (Image.data img) ((y * W + x) * 3 + 1)
           /\ Arr.get 0 row (3 * x + 2) = Arr.get 0 (Image.data img) ((y * W + x) * 3 + 0))
        /\ (forall p, 3 * W <= p < row_size -> Arr.get 0 row p = 0)).
Proof.
  intros W H row_size rows HW HH HWmax Hsize.
  assert (Hrows : forall row, In row rows -> PngFormat.len row = row_size).
  { intros row Hin. unfold rows, Image.bmp_rows in Hin.
    apply in_map_iff in Hin. destruct Hin as (y & <- & _).
    apply bmp_row_length. assumption. }
  assert (Hcount : Z.of_nat (List.length rows) = H).
  { unfold rows, Image.bmp_rows. rewrite length_map, length_rev, range_length. lia. }
  assert (Hcat : PngFormat.len (List.concat rows) = row_size * H).
  { rewrite (concat_length_uniform rows row_size Hrows), Hcount. reflexivity. }
  assert (Hout : Image.glyph_write_bmp img
                 = firstn 54 (Image.glyph_write_bmp img) ++ List.concat rows).
  { unfold Image.glyph_write_bmp. fold W H.
    rewrite (int32_small W) by (unfold Mach.INT_MAX in *; lia).
    rewrite (int32_small H) by assumption.
    fold rows. reflexivity. }
  split; [exact Hout|].
  split.
  { rewrite Hout, len_app, Hcat.
    unfold Image.glyph_write_bmp, Image.le32_bytes, PngFormat.len.
    rewrite length_firstn, !length_app. cbn [List.length repeat]. lia. }
  split; [exact Hrows|].
  split.
  { unfold row_size. apply Z.mod_mul. lia. }
  intros k Hk row y. subst row. unfold rows. rewrite bmp_rows_nth by assumption. fold y.
  split.
  - intros x Hx. apply bmp_row_pixels. assumption.
  - intros p Hp. apply bmp_row_padding; lia.
Qed.

Lemma bmp_row_layout_witness :
  PngFormat.len (Image.glyph_write_bmp ImageSpec.small_image) = 54 + 8 * 2
  /\ (2 * 3 + 3) / 4 * 4 = 8.
Proof.
  split; [|reflexivity].
  refine (proj1 (proj2 (bmp_row_layout ImageSpec.small_image _ _ _ _)));
    vm_compute; try split; discriminate.
Defined.

(** C9, as stated, fails: for an image 2^32 - 1 pixels wide and one pixel
    high the writer's [int] width is -1 and the only row written is three
    padding bytes. *)
Lemma bmp_row_not_padded_to_four :
  ImageSpec.rgb_image ImageSpec.widest_image
  /\ Image.width ImageSpec.widest_image = 4294967295
  /\ Image.bmp_rows ImageSpec.widest_image
       (Mach.int32 (Image.width ImageSpec.widest_image))
       (Mach.int32 (Image.height ImageSpec.widest_image)) = [[0; 0; 0]]
  /\ Image.glyph_write_bmp ImageSpec.widest_image
     = firstn 54 (Image.glyph_write_bmp ImageSpec.widest_image) ++ [0; 0; 0]
  /\ PngFormat.len (Image.glyph_write_bmp ImageSpec.widest_image) = 57
  /\ 3 mod 4 <> 0
  /\ 3 <> (4294967295 * 3 + 3) / 4 * 4.
Proof.
  assert (Hd : forall d, Image.glyph_write_bmp (Image.mk_image (2 ^ 32 - 1) 1 d)
                         = firstn 54 (Image.glyph_write_bmp (Image.mk_image (2 ^ 32 - 1) 1 d))
                           ++ [0; 0; 0]
                         /\ PngFormat.len (Image.glyph_write_bmp (Image.mk_image (2 ^ 32 - 1) 1 d)) = 57
                         /\ Image.bmp_rows (Image.mk_image (2 ^ 32 - 1) 1 d)
                              (Mach.int32 (2 ^ 32 - 1)) (Mach.int32 1) = [[0; 0; 0]]).
  { intros d. vm_compute. repeat split; reflexivity. }
  unfold ImageSpec.widest_image.
  destruct (Hd (repeat 0 (Z.to_nat (3 * (2 ^ 32 - 1))))) as (H1 & H2 & H3).
  split.
  { unfold ImageSpec.rgb_image. cbn [Image.width Image.height Image.data].
    split; [lia|]. split; [lia|]. split.
    - unfold PngFormat.len. rewrite repeat_length. rewrite Z2Nat.id by lia. lia.
    - apply Forall_forall. intros x Hx. apply repeat_spec in Hx. subst x.
      unfold ImageSpec.byte. lia. }
  split; [reflexivity|].
  cbn [Image.width Image.height].
  split; [exact H3|]. split; [exact H1|]. split; [exact H2|].
  split; [discriminate|]. vm_compute. discriminate.
Qed.

(** * The Sub filter *)

Section SubFilter.
Import Mach Image PngFormat ImageSpec.

Lemma hd_skipn (l : list Z) (k : nat) : hd 0 (skipn k l) = nth k l 0.
Proof.
  revert l. induction k as [|k IH]; intros [|a l]; cbn [skipn hd nth]; auto.
Qed.

Lemma tl_skipn_snoc (l : list Z) (k : nat) (x : Z) :
  (k < List.length l)%nat ->
  tl (skipn k l) ++ [x] = skipn (S k) (l ++ [x]).
Proof.
  revert l. induction k as [|k IH]; intros [|a l] H; cbn [List.length] in H; try lia.
  - reflexivity.
  - cbn [skipn app]. rewrite IH by lia. reflexivity.
Qed.

Lemma window_snoc (pre : list Z) (x : Z) :
  tl (window pre) ++ [x] = window (pre ++ [x]).
Proof.
  unfold window. rewrite tl_skipn_snoc by (rewrite length_app; cbn; lia).
  rewrite length_app. cbn [List.length]. rewrite Nat.add_1_r.
  rewrite <- app_assoc. reflexivity.
Qed.

Lemma window_head (pre : list Z) :
  hd 0 (window pre)
  = if len pre <? 3 then 0 else nth (Z.to_nat (len pre - 3)) pre 0.
Proof.
  unfold window, len. rewrite hd_skipn.
  destruct (Z.ltb_spec (Z.of_nat (List.length pre)) 3) as [H|H].
  - rewrite app_nth1 by (cbn; lia).
    destruct (List.length pre) as [|[|[|k]]]; try reflexivity. lia.
  - rewrite app_nth2 by (cbn; lia). f_equal. cbn [List.length]. lia.
Qed.

(** The index loop of the writer and the recursive Sub filter agree. *)
Lemma sub_filter_from (suf : list Z) :
  forall pre : list Z,
    Forall byte suf ->
    map (fun i =>
           if i <? 3 then Arr.get 0 (pre ++ suf) i
           else uint8 (Arr.get 0 (pre ++ suf) i - Arr.get 0 (pre ++ suf) (i - 3)))
        (Arr.range (len pre) (len pre + len suf))
    = sub_line (window pre) suf.
Proof.
  induction suf as [|x suf IH]; intros pre Hb.
  - rewrite range_empty by (unfold len; cbn; lia). reflexivity.
  - inversion Hb as [|? ? Hx Hsuf]; subst.
    rewrite range_cons by (rewrite len_cons; pose proof (len_nonneg suf); lia).
    cbn [map sub_line]. f_equal.
    + rewrite window_head. pose proof (len_nonneg pre).
      rewrite !get_nth by lia.
      assert (Hn : nth (Z.to_nat (len pre)) (pre ++ x :: suf) 0 = x).
      { unfold len. rewrite Nat2Z.id, app_nth2, Nat.sub_diag by lia. reflexivity. }
      rewrite Hn.
      destruct (Z.ltb_spec (len pre) 3).
      * rewrite Z.sub_0_r. unfold byte in Hx. rewrite Z.mod_small by lia. reflexivity.
      * rewrite get_nth by lia. rewrite app_nth1 by (unfold len in *; lia).
        reflexivity.
    + specialize (IH (pre ++ [x]) Hsuf).
      rewrite <- app_assoc in IH. cbn [app] in IH.
      rewrite len_app in IH. change (len [x]) with 1 in IH.
      rewrite window_snoc, <- IH. rewrite len_cons.
      replace (len pre + (1 + len suf)) with (len pre + 1 + len suf) by lia.
      reflexivity.
Qed.

Lemma sub_filter_sub_line (row : list Z) :
  Forall byte row -> sub_filter row (len row) = sub_line [0; 0; 0] row.
Proof.
  intros H. unfold sub_filter. apply (sub_filter_from row [] H).
Qed.

Lemma sub_line_length (row : list Z) : forall left, len (sub_line left row) = len row.
Proof.
  induction row as [|x row IH]; intros left; [reflexivity|].
  cbn [sub_line]. rewrite !len_cons, IH. reflexivity.
Qed.

Lemma sub_line_bytes (row : list Z) : forall left, Forall byte (sub_line left row).
Proof.
  induction row as [|x row IH]; intros left; cbn [sub_line]; constructor.
  - apply Z.mod_pos_bound. lia.
  - apply IH.
Qed.

(** Reconstruction undoes the Sub filter. *)
Lemma unfilter_sub_line (row : list Z) :
  forall prior left upleft : list Z,
    Forall byte row ->
    unfilter_line 1 (sub_line left row) prior left upleft = Some row.
Proof.
  induction row as [|x row IH]; intros prior left upleft Hb; [reflexivity|].
  inversion Hb as [|? ? Hx Hrow]; subst.
  cbn [sub_line unfilter_line].
  change (reconstruct 1 ((x - hd 0 left) mod 256) (hd 0 left) (hd 0 prior) (hd 0 upleft))
    with (Some (((x - hd 0 left) mod 256 + hd 0 left) mod 256)).
  assert (E : ((x - hd 0 left) mod 256 + hd 0 left) mod 256 = x).
  { rewrite Zplus_mod_idemp_l. replace (x - hd 0 left + hd 0 left) with x by lia.
    unfold byte in Hx. apply Z.mod_small. lia. }
  rewrite E, IH by assumption. reflexivity.
Qed.

End SubFilter.

(** * The filtered row stream of the writer *)

Section RawStream.
Import Mach Image PngFormat ImageSpec.

Lemma Forall_take (n : Z) (l : list Z) : Forall byte l -> Forall byte (take n l).
Proof.
  intros H. unfold take. rewrite <- (firstn_skipn (Z.to_nat n) l) in H.
  apply Forall_app in H. tauto.
Qed.

Lemma Forall_drop (n : Z) (l : list Z) : Forall byte l -> Forall byte (drop n l).
Proof.
  intros H. unfold drop. rewrite <- (firstn_skipn (Z.to_nat n) l) in H.
  apply Forall_app in H. tauto.
Qed.

Lemma take_length (n : Z) (l : list Z) : 0 <= n <= len l -> len (take n l) = n.
Proof. intros H. unfold take, len in *. rewrite length_firstn. lia. Qed.

Lemma drop_length (n : Z) (l : list Z) : 0 <= n <= len l -> len (drop n l) = len l - n.
Proof. intros H. unfold drop, len in *. rewrite length_skipn. lia. Qed.

(** Cutting a list into consecutive rows of [stride] bytes and joining
    them again. *)
Lemma rows_concat (stride : Z) (n : nat) :
  forall (l : list Z) (y0 : Z),
    0 <= stride -> 0 <= y0 ->
    len l = stride * (y0 + Z.of_nat n) ->
    List.concat (map (fun y => take stride (drop (stride * y) l))
                     (Arr.range y0 (y0 + Z.of_nat n)))
    = drop (stride * y0) l.
Proof.
  induction n as [|n IH]; intros l y0 Hs Hy Hl.
  - rewrite range_empty by lia. cbn [map List.concat].
    unfold drop. rewrite skipn_all2; [reflexivity|]. unfold len in Hl. lia.
  - rewrite range_cons by lia. cbn [map List.concat].
    replace (y0 + Z.of_nat (S n)) with ((y0 + 1) + Z.of_nat n) in * by lia.
    rewrite IH by lia.
    unfold take, drop.
    replace (Z.to_nat (stride * (y0 + 1)))
      with (Z.to_nat stride + Z.to_nat (stride * y0))%nat by nia.
    rewrite <- skipn_skipn. apply firstn_skipn.
Qed.

Variable img : glyph_image_t.
Hypothesis Himg : rgb_image img.
Hypothesis Hwidth : 1 <= width img.
Hypothesis Hheight : 1 <= height img.
Hypothesis Hsize : zlib_size img <= 2 ^ 31 - 1.

Let W := width img.
Let H := height img.

Lemma raw_size_bound : 4 <= raw_size img <= 2 ^ 31 - 12.
Proof.
  unfold zlib_size in Hsize. unfold raw_size in *. fold W H in Hsize |- *.
  fold W in Hwidth. fold H in Hheight.
  assert (1 <= (((3 * W + 1) * H) + 65534) / 65535).
  { apply Z.div_le_lower_bound; nia. }
  split; nia.
Qed.

Lemma dimensions_bound : 3 * W * H < 2 ^ 31 /\ 3 * W + 1 < 2 ^ 31 /\ H < 2 ^ 31.
Proof.
  pose proof raw_size_bound as Hb. unfold raw_size in Hb. fold W H in Hb.
  fold W in Hwidth. fold H in Hheight. repeat split; nia.
Qed.

Lemma data_length : len (data img) = 3 * W * H.
Proof. destruct Himg as (_ & _ & Hl & _). fold W H in Hl. lia. Qed.

Lemma data_bytes : Forall byte (data img).
Proof. destruct Himg as (_ & _ & _ & Hb). exact Hb. Qed.

Lemma image_row_length (y : Z) : 0 <= y < H -> len (image_row img y) = 3 * W.
Proof.
  intros Hy. unfold image_row. fold W. fold W in Hwidth.
  rewrite take_length; [reflexivity|].
  rewrite drop_length by (rewrite data_length; nia).
  rewrite data_length. nia.
Qed.

Lemma image_row_bytes (y : Z) : Forall byte (image_row img y).
Proof. unfold image_row. apply Forall_take, Forall_drop, data_bytes. Qed.

Lemma raw_row_filtered (y : Z) :
  0 <= y < H -> raw_row img y = 1 :: sub_line [0; 0; 0] (image_row img y).
Proof.
  intros Hy. unfold raw_row. fold W. fold W in Hwidth.
  pose proof dimensions_bound as (Hb1 & Hb2 & Hb3).
  assert (E1 : size_t (W * 3) = 3 * W) by (unfold size_t; rewrite Z.mod_small; lia).
  assert (E2 : uint32 (uint32 (y * W) * 3) = 3 * W * y).
  { unfold uint32. rewrite (Z.mod_small (y * W)) by nia.
    rewrite Z.mod_small by nia. lia. }
  rewrite E1, E2.
  rewrite slice_firstn_skipn by (rewrite ?data_length; nia).
  unfold W. change (take (3 * width img) (drop (3 * width img * y) (data img)))
    with (image_row img y).
  fold W. rewrite <- (image_row_length y Hy).
  rewrite sub_filter_sub_line by apply image_row_bytes. reflexivity.
Qed.

Lemma raw_stream_filtered : raw_stream img = filtered_rows img.
Proof.
  unfold raw_stream, filtered_rows. fold H.
  rewrite !flat_map_concat_map. f_equal.
  apply range_map_ext. intros y Hy. apply raw_row_filtered. assumption.
Qed.

Lemma filtered_rows_as_rows :
  filtered_rows img
  = flat_map (fun r => 1 :: sub_line [0; 0; 0] r)
             (map (image_row img) (Arr.range 0 H)).
Proof.
  unfold filtered_rows. fold H. rewrite !flat_map_concat_map, map_map. reflexivity.
Qed.

Lemma image_rows_concat : List.concat (map (image_row img) (Arr.range 0 H)) = data img.
Proof.
  unfold image_row. fold W. fold W in Hwidth. fold H in Hheight.
  pose proof (rows_concat (3 * W) (Z.to_nat H) (data img) 0) as E.
  replace (0 + Z.of_nat (Z.to_nat H)) with H in E by lia.
  rewrite E by (rewrite ?data_length; lia).
  replace (3 * W * 0) with 0 by lia. reflexivity.
Qed.

Lemma raw_stream_length : len (raw_stream img) = raw_size img.
Proof.
  rewrite raw_stream_filtered. unfold filtered_rows, raw_size. fold W H.
  fold H in Hheight.
  assert (G : forall (n : nat) (y0 : Z),
             0 <= y0 -> y0 + Z.of_nat n <= H ->
             len (flat_map (fun y => 1 :: sub_line [0; 0; 0] (image_row img y))
                           (Arr.range y0 (y0 + Z.of_nat n)))
             = (3 * W + 1) * Z.of_nat n).
  { induction n as [|n IH]; intros y0 H0 H1.
    - rewrite range_empty by lia. cbn. lia.
    - rewrite range_cons by lia. cbn [flat_map].
      replace (y0 + Z.of_nat (S n)) with ((y0 + 1) + Z.of_nat n) in * by lia.
      change (?a :: ?l ++ ?m) with ((a :: l) ++ m).
      rewrite len_app, len_cons, sub_line_length, image_row_length by lia.
      rewrite IH by lia. lia. }
  specialize (G (Z.to_nat H) 0 ltac:(lia) ltac:(lia)).
  replace (0 + Z.of_nat (Z.to_nat H)) with H in G by lia.
  rewrite G. lia.
Qed.

Lemma raw_stream_bytes : Forall byte (raw_stream img).
Proof.
  rewrite raw_stream_filtered. unfold filtered_rows.
  apply Forall_flat_map. apply Forall_forall. intros y _.
  constructor; [unfold byte; lia|apply sub_line_bytes].
Qed.

(** Reconstruction of all the rows. *)
Lemma unfilter_sub_rows (stride : nat) (rows : list (list Z)) :
  forall prior : list Z,
    (forall r, In r rows -> List.length r = stride /\ Forall byte r) ->
    unfilter_rows (List.length rows) stride
                  (flat_map (fun r => 1 :: sub_line [0; 0; 0] r) rows) prior
    = Some (List.concat rows).
Proof.
  induction rows as [|r rows IH]; intros prior Hr; [reflexivity|].
  destruct (Hr r (or_introl eq_refl)) as [Hlen Hb].
  cbn [List.length flat_map unfilter_rows app].
  set (s := sub_line [0; 0; 0] r).
  set (rest := flat_map (fun r0 => 1 :: sub_line [0; 0; 0] r0) rows).
  assert (Hl : List.length s = stride).
  { pose proof (sub_line_length r [0; 0; 0]) as E. unfold len in E. subst s. lia. }
  assert (F : firstn stride (s ++ rest) = s).
  { rewrite <- Hl. rewrite firstn_app, Nat.sub_diag, firstn_all. cbn [firstn].
    apply app_nil_r. }
  assert (K : skipn stride (s ++ rest) = rest).
  { rewrite <- Hl. rewrite skipn_app, Nat.sub_diag, skipn_all. reflexivity. }
  rewrite F, K, Hl, Nat.eqb_refl. cbn [negb].
  subst s. rewrite unfilter_sub_line by assumption.
  subst rest. rewrite IH by (intros r' Hin; apply Hr; right; assumption).
  reflexivity.
Qed.

Lemma unfilter_raw_stream :
  unfilter_rows (Z.to_nat H) (Z.to_nat (3 * W)) (raw_stream img)
                (repeat 0 (Z.to_nat (3 * W)))
  = Some (data img).
Proof.
  rewrite raw_stream_filtered, filtered_rows_as_rows.
  replace (Z.to_nat H) with (List.length (map (image_row img) (Arr.range 0 H)))
    by (rewrite length_map, range_length; f_equal; lia).
  rewrite unfilter_sub_rows.
  - rewrite image_rows_concat. reflexivity.
  - intros r Hin. apply in_map_iff in Hin. destruct Hin as (y & <- & Hy).
    unfold Arr.range in Hy. apply in_map_iff in Hy. destruct Hy as (k & <- & Hk).
    apply in_seq in Hk.
    split; [|apply image_row_bytes].
    pose proof (image_row_length (0 + Z.of_nat k) ltac:(lia)) as E.
    unfold len in E. lia.
Qed.

End RawStream.

(** * Stored blocks *)

Section StoredBlocks.
Import Mach Image PngFormat ImageSpec.

Lemma drop_drop (a b : Z) (l : list Z) :
  0 <= a -> 0 <= b -> drop (a + b) l = drop b (drop a l).
Proof.
  intros Ha Hb. unfold drop. rewrite skipn_skipn. f_equal. lia.
Qed.

Lemma drop_app_plus (a b : Z) (x y : list Z) :
  len x = a -> 0 <= b -> drop (a + b) (x ++ y) = drop b y.
Proof.
  intros Hx Hb. rewrite drop_drop by (pose proof (len_nonneg x); lia).
  rewrite drop_app_n by (symmetry; assumption). reflexivity.
Qed.

Lemma drop_0 (l : list Z) : drop 0 l = l.
Proof. reflexivity. Qed.

Lemma le16_value_pair (n : Z) : le16_value [n mod 256; n / 256] = n.
Proof. cbn [le16_value]. pose proof (Z.div_mod n 256 ltac:(lia)). lia. Qed.

(** The five header bytes the writer computes for a block of [n] bytes. *)
Lemma block_header_bytes (n : Z) (final : bool) :
  1 <= n <= 65535 ->
  let block_len := uint16 n in
  let nlen := uint16 (Z.lnot block_len) in
  [uint8 (Z.lor (Z.land (if final then 1 else 0) 1) (Z.shiftl 0 1));
   uint8 (Z.land block_len 255); uint8 (Z.land (Z.shiftr block_len 8) 255);
   uint8 (Z.land nlen 255); uint8 (Z.land (Z.shiftr nlen 8) 255)]
  = [if final then 1 else 0; n mod 256; n / 256;
     (65535 - n) mod 256; (65535 - n) / 256].
Proof.
  intros Hn block_len nlen.
  assert (Eb : block_len = n) by (unfold block_len, uint16; apply Z.mod_small; lia).
  assert (En : nlen = 65535 - n).
  { unfold nlen. rewrite Eb. unfold uint16, Z.lnot.
    replace (Z.pred (- n)) with ((65535 - n) + (-1) * 2 ^ 16) by lia.
    rewrite Z.mod_add by lia. apply Z.mod_small. lia. }
  rewrite Eb, En. unfold uint8.
  rewrite !land_255, !Z.shiftr_div_pow2 by lia. change (2 ^ 8) with 256.
  assert (A : forall m, 0 <= m <= 65535 -> (m / 256) mod 256 mod 256 = m / 256).
  { intros m Hm. rewrite Z.mod_mod by lia. apply Z.mod_small.
    split; [apply Z.div_pos; lia|apply Z.div_lt_upper_bound; lia]. }
  rewrite !A by lia. rewrite !Z.mod_mod by lia.
  f_equal. destruct final; reflexivity.
Qed.

Lemma stored_block_length (final : bool) (b : list Z) :
  len (stored_block final b) = 5 + len b.
Proof. unfold stored_block. rewrite len_app. reflexivity. Qed.

Lemma stored_stream_cons (b : list Z) (more : list (list Z)) :
  stored_stream (b :: more)
  = stored_block (match more with [] => true | _ => false end) b ++ stored_stream more.
Proof. destruct more; cbn [stored_stream]; [rewrite app_nil_r|]; reflexivity. Qed.

Lemma stored_stream_length (blocks : list (list Z)) :
  len (stored_stream blocks)
  = 5 * Z.of_nat (List.length blocks) + len (List.concat blocks).
Proof.
  induction blocks as [|b more IH]; [reflexivity|].
  rewrite stored_stream_cons, len_app, stored_block_length, IH.
  cbn [List.concat List.length]. rewrite len_app. lia.
Qed.

Lemma stored_stream_bytes (blocks : list (list Z)) :
  Forall (fun b => len b <= 65535) blocks ->
  Forall (Forall byte) blocks ->
  Forall byte (stored_stream blocks).
Proof.
  induction blocks as [|b more IH]; intros Hl Hb; [constructor|].
  inversion Hl; inversion Hb; subst.
  rewrite stored_stream_cons. apply Forall_app. split; [|apply IH; assumption].
  unfold stored_block. apply Forall_app. split; [|assumption].
  pose proof (len_nonneg b).
  repeat (apply Forall_cons; [unfold byte|]); [| | | | |apply Forall_nil].
  - destruct more; lia.
  - apply Z.mod_pos_bound; lia.
  - split; [apply Z.div_pos; lia|apply Z.div_lt_upper_bound; lia].
  - apply Z.mod_pos_bound; lia.
  - split; [apply Z.div_pos; lia|apply Z.div_lt_upper_bound; lia].
Qed.

(** The block loop of the writer cuts [raw] from [raw_pos] on into blocks
    of at most 65535 bytes and marks the last one final. *)
Lemma stored_blocks_stream (raw : list Z) :
  forall (fuel : nat) (remaining raw_pos : Z),
    0 <= raw_pos -> 0 <= remaining ->
    raw_pos + remaining = len raw -> len raw < 2 ^ 31 ->
    remaining <= 65535 * Z.of_nat fuel ->
    exists blocks,
      stored_blocks fuel raw remaining raw_pos = stored_stream blocks
      /\ List.concat blocks = drop raw_pos raw
      /\ Forall (fun b => 1 <= len b <= 65535) blocks
      /\ (0 < remaining -> blocks <> [])
      /\ Z.of_nat (List.length blocks) = (remaining + 65534) / 65535.
Proof.
  induction fuel as [|fuel IH]; intros remaining raw_pos Hp Hr Hsum Hlen Hfuel.
  - assert (remaining = 0) by lia. subst remaining.
    exists []. cbn [stored_blocks stored_stream List.concat]. repeat split.
    + unfold drop. rewrite skipn_all2; [reflexivity|]. unfold len in Hsum. lia.
    + constructor.
    + lia.
  - cbn [stored_blocks].
    destruct (Z.gtb_spec remaining 0) as [Hpos|Hzero].
    2:{ assert (remaining = 0) by lia. subst remaining.
        exists []. cbn [stored_stream List.concat]. repeat split.
        - unfold drop. rewrite skipn_all2; [reflexivity|]. unfold len in Hsum. lia.
        - constructor.
        - lia. }
    set (n := if remaining >? 65535 then 65535 else remaining).
    assert (Hn : 1 <= n <= 65535 /\ n <= remaining).
    { unfold n. destruct (Z.gtb_spec remaining 65535); lia. }
    assert (En : uint16 n = n) by (unfold uint16; apply Z.mod_small; lia).
    set (final := remaining <=? 65535).
    change (if remaining <=? 65535 then 1 else 0) with (if final then 1 else 0).
    pose proof (block_header_bytes n final ltac:(lia)) as Hhdr. cbv zeta in Hhdr.
    rewrite Hhdr. rewrite En.
    assert (E1 : size_t (remaining - n) = remaining - n)
      by (unfold size_t; apply Z.mod_small; lia).
    assert (E2 : size_t (raw_pos + n) = raw_pos + n)
      by (unfold size_t; apply Z.mod_small; lia).
    rewrite E1, E2.
    destruct (IH (remaining - n) (raw_pos + n)) as (more & Hs & Hc & Hf & Hne & Hcount);
      try lia.
    { unfold n. destruct (Z.gtb_spec remaining 65535); lia. }
    set (b := slice raw raw_pos n).
    assert (Hb : len b = n) by (unfold b; rewrite slice_length; lia).
    exists (b :: more). repeat split.
    + rewrite stored_stream_cons, Hs. unfold stored_block. rewrite Hb.
      replace (match more with [] => true | _ :: _ => false end) with final.
      * rewrite <- app_assoc. reflexivity.
      * unfold final. destruct (Z.leb_spec remaining 65535) as [Hle|Hgt].
        -- assert (remaining - n = 0) by (unfold n; destruct (Z.gtb_spec remaining 65535); lia).
           destruct more as [|? ?]; [reflexivity|].
           cbn [List.length] in Hcount. rewrite H in Hcount. cbn in Hcount. lia.
        -- destruct more as [|? ?]; [|reflexivity].
           exfalso. apply Hne; [|reflexivity].
           unfold n. destruct (Z.gtb_spec remaining 65535); lia.
    + cbn [List.concat]. rewrite Hc. unfold b.
      rewrite slice_firstn_skipn by lia.
      rewrite drop_drop by lia. unfold take, drop. apply firstn_skipn.
    + constructor; [lia|assumption].
    + intros _. discriminate.
    + cbn [List.length]. rewrite Nat2Z.inj_succ, Hcount.
      unfold n. destruct (Z.gtb_spec remaining 65535).
      * replace (remaining + 65534) with (remaining - 65535 + 65534 + 1 * 65535) by lia.
        rewrite Z.div_add by lia. lia.
      * replace (remaining - remaining + 65534) with 65534 by lia.
        change (65534 / 65535) with 0.
        assert (1 <= (remaining + 65534) / 65535) by (apply Z.div_le_lower_bound; lia).
        assert ((remaining + 65534) / 65535 < 2) by (apply Z.div_lt_upper_bound; lia).
        lia.
Qed.

(** The length of what the block loop writes does not depend on the
    content of [raw]: five header bytes and the data for each block. *)
Lemma stored_blocks_length (raw : list Z) :
  forall (fuel : nat) (remaining raw_pos : Z),
    0 <= raw_pos -> 0 <= remaining ->
    raw_pos + remaining < 2 ^ 64 ->
    remaining <= 65535 * Z.of_nat fuel ->
    len (stored_blocks fuel raw remaining raw_pos)
    = remaining + 5 * ((remaining + 65534) / 65535).
Proof.
  induction fuel as [|fuel IH]; intros remaining raw_pos Hp Hr Hsum Hfuel.
  - assert (remaining = 0) by lia. subst remaining. reflexivity.
  - cbn [stored_blocks].
    destruct (Z.gtb_spec remaining 0) as [Hpos|Hzero].
    2:{ assert (remaining = 0) by lia. subst remaining. reflexivity. }
    set (n := if remaining >? 65535 then 65535 else remaining).
    assert (Hn : 1 <= n <= 65535 /\ n <= remaining).
    { unfold n. destruct (Z.gtb_spec remaining 65535); lia. }
    assert (En : uint16 n = n) by (unfold uint16; apply Z.mod_small; lia).
    rewrite En.
    assert (E1 : size_t (remaining - n) = remaining - n)
      by (unfold size_t; apply Z.mod_small; lia).
    assert (E2 : size_t (raw_pos + n) = raw_pos + n)
      by (unfold size_t; apply Z.mod_small; lia).
    rewrite E1, E2.
    rewrite !len_app, slice_length, IH by
      (try lia; unfold n; destruct (Z.gtb_spec remaining 65535); lia).
    replace (Z.max 0 n) with n by lia.
    match goal with
    | |- len ?hdr + _ = _ => change (len hdr) with 5
    end.
    unfold n. destruct (Z.gtb_spec remaining 65535).
    + replace (remaining + 65534) with (remaining - 65535 + 65534 + 1 * 65535) by lia.
      rewrite Z.div_add by lia. lia.
    + replace (remaining - remaining + 65534) with 65534 by lia.
      change (65534 / 65535) with 0.
      assert (1 <= (remaining + 65534) / 65535) by (apply Z.div_le_lower_bound; lia).
      assert ((remaining + 65534) / 65535 < 2) by (apply Z.div_lt_upper_bound; lia).
      lia.
Qed.

Lemma stored_stream_min_length (blocks : list (list Z)) :
  (List.length blocks <= List.length (stored_stream blocks))%nat.
Proof.
  pose proof (stored_stream_length blocks) as E.
  pose proof (len_nonneg (List.concat blocks)). unfold len in *. lia.
Qed.

(** A decoder reads the blocks back. *)
Lemma inflate_stored_stream (blocks : list (list Z)) :
  forall (fuel : nat) (trailer : list Z),
    blocks <> [] ->
    Forall (fun b => 1 <= len b <= 65535) blocks ->
    (List.length blocks <= fuel)%nat ->
    inflate_stored fuel (stored_stream blocks ++ trailer)
    = Some (List.concat blocks, trailer).
Proof.
  induction blocks as [|b more IH]; intros fuel trailer Hne Hl Hfuel; [congruence|].
  inversion Hl as [|? ? Hb Hmore]; subst.
  destruct fuel as [|fuel]; [cbn [List.length] in Hfuel; lia|].
  rewrite stored_stream_cons. unfold stored_block.
  rewrite <- !app_assoc. cbn [app inflate_stored].
  set (final := match more with [] => true | _ => false end).
  set (n := len b) in *.
  set (tail := stored_stream more ++ trailer).
  assert (Hhdr : (Z.land (Z.shiftr (if final then 1 else 0) 1) 3 =? 0) = true)
    by (destruct final; reflexivity).
  rewrite Hhdr. cbn [negb].
  assert (T2 : forall (x y : Z) (l : list Z), take 2 (x :: y :: l) = [x; y])
    by reflexivity.
  assert (D2 : forall (x y : Z) (l : list Z), drop 2 (x :: y :: l) = l)
    by reflexivity.
  rewrite !D2, !T2, !le16_value_pair.
  assert (Hlen : (len (n mod 256 :: n / 256 :: (65535 - n) mod 256
                       :: (65535 - n) / 256 :: b ++ tail) <? 4 + n) = false).
  { apply Z.ltb_ge. rewrite !len_cons, len_app. fold n.
    pose proof (len_nonneg tail). lia. }
  rewrite Hlen, Z.eqb_refl. cbn [orb negb].
  change (n mod 256 :: n / 256 :: (65535 - n) mod 256 :: (65535 - n) / 256 :: b ++ tail)
    with ([n mod 256; n / 256; (65535 - n) mod 256; (65535 - n) / 256] ++ (b ++ tail)).
  rewrite (drop_app_plus 4 n) by (try reflexivity; lia).
  rewrite (drop_app_n 4) by reflexivity.
  rewrite (take_app_n n b tail) by reflexivity.
  rewrite (drop_app_n n b tail) by reflexivity.
  destruct more as [|b' more'].
  - cbn [final Z.odd]. cbn [stored_stream List.concat app] in *.
    subst tail. cbn [app]. rewrite app_nil_r. reflexivity.
  - cbn [final Z.odd]. subst tail.
    rewrite IH; try assumption; try discriminate.
    + reflexivity.
    + cbn [List.length] in *. lia.
Qed.

End StoredBlocks.

(** * Chunks and the zlib container *)

Section Container.
Import Mach Image PngFormat ImageSpec.

Lemma read_chunk_chunk (ty body rest : list Z) :
  len ty = 4 -> len body <= 2 ^ 31 - 1 ->
  Forall byte ty -> Forall byte body ->
  read_chunk (chunk ty body ++ rest) = Some (ty, body, rest).
Proof.
  intros Hty Hlen Hbt Hbb. unfold read_chunk, chunk.
  pose proof (len_nonneg body) as Hn.
  set (n := len body) in *.
  set (c := crc (ty ++ body)).
  assert (Hc : 0 <= c < 2 ^ 32) by (apply crc_range, Forall_app; split; assumption).
  rewrite <- !app_assoc.
  rewrite (take_app_n 4 (write_u32_be n)) by reflexivity.
  rewrite be32_value_write by lia.
  assert (Hl : (len (write_u32_be n ++ ty ++ body ++ write_u32_be c ++ rest) <? 12 + n)
               = false).
  { apply Z.ltb_ge. rewrite !len_app, !write_u32_be_length, Hty. fold n.
    pose proof (len_nonneg rest). lia. }
  rewrite Hl.
  assert (Hg : (n >? 2 ^ 31 - 1) = false) by (rewrite Z.gtb_ltb; apply Z.ltb_ge; lia).
  rewrite Hg. cbn [orb].
  rewrite (drop_app_n 4 (write_u32_be n)) by reflexivity.
  rewrite (take_app_n 4 ty) by (symmetry; assumption).
  replace 8 with (4 + 4) by lia.
  rewrite (drop_app_plus 4 4 (write_u32_be n)) by (try reflexivity; lia).
  rewrite (drop_app_n 4 ty) by (symmetry; assumption).
  rewrite (take_app_n n body) by reflexivity.
  replace (4 + 4 + n) with (4 + (4 + n)) by lia.
  rewrite (drop_app_plus 4 (4 + n) (write_u32_be n)) by (try reflexivity; lia).
  rewrite (drop_app_plus 4 n ty) by (try assumption; lia).
  rewrite (drop_app_n n body) by reflexivity.
  rewrite (take_app_n 4 (write_u32_be c)) by reflexivity.
  rewrite be32_value_write by lia.
  fold c. rewrite Z.eqb_refl.
  replace (12 + n) with (4 + (4 + (n + 4))) by lia.
  rewrite (drop_app_plus 4 (4 + (n + 4)) (write_u32_be n)) by (try reflexivity; lia).
  rewrite (drop_app_plus 4 (n + 4) ty) by (try assumption; lia).
  rewrite (drop_app_plus n 4 body) by (try reflexivity; lia).
  rewrite (drop_app_n 4 (write_u32_be c)) by reflexivity.
  reflexivity.
Qed.

Lemma chunk_length (ty body : list Z) : len (chunk ty body) = 8 + len ty + len body.
Proof. unfold chunk. rewrite !len_app, !write_u32_be_length. lia. Qed.

(** The chunk the writer emits is the chunk of the standard. *)
Lemma written_chunk (ty body : list Z) :
  Forall byte ty -> Forall byte body ->
  write_u32_be (len body) ++ ty ++ body ++ write_u32_be (crc32 (ty ++ body))
  = chunk ty body.
Proof.
  intros Ht Hb. unfold chunk.
  rewrite crc32_is_crc by (apply Forall_app; split; assumption). reflexivity.
Qed.

Lemma zlib_decompress_stored (blocks : list (list Z)) :
  blocks <> [] ->
  Forall (fun b => 1 <= len b <= 65535) blocks ->
  zlib_decompress
    ([120; 1] ++ stored_stream blocks ++ write_u32_be (adler (List.concat blocks)))
  = Some (List.concat blocks).
Proof.
  intros Hne Hl. cbn [app zlib_decompress].
  change ((Z.land 120 15 =? 8) && (Z.shiftr 120 4 <=? 7)
          && ((120 * 256 + 1) mod 31 =? 0) && negb (Z.testbit 1 5)) with true.
  cbv iota.
  rewrite inflate_stored_stream; try assumption.
  - rewrite write_u32_be_length. cbn [Z.eqb Pos.eqb andb].
    rewrite be32_value_write by apply adler_range.
    rewrite Z.eqb_refl. reflexivity.
  - rewrite length_app. pose proof (stored_stream_min_length blocks). lia.
Qed.

Lemma tag_bytes_IHDR : Forall byte tag_IHDR.
Proof. repeat constructor; unfold byte; lia. Qed.

Lemma tag_bytes_IDAT : Forall byte tag_IDAT.
Proof. repeat (apply Forall_cons; [unfold byte; lia|]). apply Forall_nil. Qed.

Lemma ihdr_data_bytes (img : glyph_image_t) : Forall byte (ihdr_data img).
Proof.
  unfold ihdr_data. apply Forall_app. split; [apply write_u32_be_bytes|].
  apply Forall_app. split; [apply write_u32_be_bytes|].
  repeat (apply Forall_cons; [unfold byte; lia|]). apply Forall_nil.
Qed.

Lemma read_ihdr_data (img : glyph_image_t) :
  0 <= width img < 2 ^ 32 -> 0 <= height img < 2 ^ 32 ->
  read_ihdr (ihdr_data img)
  = if (1 <=? width img) && (width img <=? 2 ^ 31 - 1)
       && (1 <=? height img) && (height img <=? 2 ^ 31 - 1)
    then Some (width img, height img) else None.
Proof.
  intros Hw Hh. unfold read_ihdr, ihdr_data.
  rewrite (take_app_n 4 (write_u32_be (width img))) by reflexivity.
  rewrite (drop_app_n 4 (write_u32_be (width img))) by reflexivity.
  rewrite (take_app_n 4 (write_u32_be (height img))) by reflexivity.
  rewrite !be32_value_write by assumption.
  replace 8 with (4 + 4) by lia.
  rewrite (drop_app_plus 4 4 (write_u32_be (width img))) by (try reflexivity; lia).
  rewrite (drop_app_n 4 (write_u32_be (height img))) by reflexivity.
  rewrite list_eqb_refl.
  change (len (write_u32_be (width img) ++ write_u32_be (height img) ++ [8; 2; 0; 0; 0])
          =? 13) with true.
  cbn [andb]. rewrite andb_true_r. reflexivity.
Qed.

(** What the writer emits, chunk by chunk, for any image. *)
Lemma png_layout (img : glyph_image_t) :
  let comp := zlib_stream img in
  uint32 (len comp) = len comp ->
  Forall byte comp ->
  glyph_write_png img
  = png_sig ++ chunk tag_IHDR (ihdr_data img)
    ++ chunk tag_IDAT comp ++ chunk tag_IEND [].
Proof.
  intros comp Hlen Hb. unfold glyph_write_png. fold comp. fold (len comp).
  rewrite Hlen, slice_all.
  change 13 with (len (ihdr_data img)).
  rewrite (written_chunk tag_IHDR) by (apply tag_bytes_IHDR || apply ihdr_data_bytes).
  rewrite (written_chunk tag_IDAT) by (apply tag_bytes_IDAT || assumption).
  reflexivity.
Qed.

(** The start of the file does not depend on the pixels. *)
Lemma png_header (img : glyph_image_t) :
  exists rest,
    glyph_write_png img = png_sig ++ chunk tag_IHDR (ihdr_data img) ++ rest.
Proof.
  exists (let comp := zlib_stream img in
          let comp_len := uint32 (len comp) in
          (write_u32_be comp_len ++ tag_IDAT ++ slice comp 0 comp_len
           ++ write_u32_be (crc32 (tag_IDAT ++ slice comp 0 comp_len)))
          ++ (write_u32_be 0 ++ tag_IEND ++ write_u32_be (crc32 tag_IEND))).
  unfold glyph_write_png. cbv zeta. fold (len (zlib_stream img)).
  change 13 with (len (ihdr_data img)).
  rewrite (written_chunk tag_IHDR) by (apply tag_bytes_IHDR || apply ihdr_data_bytes).
  reflexivity.
Qed.

Lemma png_decode_refuses_width (img : glyph_image_t) (rest : list Z) :
  2 ^ 31 <= width img < 2 ^ 32 -> 0 <= height img < 2 ^ 32 ->
  png_decode (png_sig ++ chunk tag_IHDR (ihdr_data img) ++ rest) = None.
Proof.
  intros Hw Hh. unfold png_decode.
  rewrite (take_app_n 8 png_sig) by reflexivity.
  rewrite (drop_app_n 8 png_sig) by reflexivity.
  change (list_eqb png_sig [137; 80; 78; 71; 13; 10; 26; 10]) with true. cbn [negb].
  rewrite read_chunk_chunk;
    [|reflexivity|change (len (ihdr_data img)) with 13; lia
     |apply tag_bytes_IHDR|apply ihdr_data_bytes].
  change (list_eqb tag_IHDR [73; 72; 68; 82]) with true. cbn [negb].
  rewrite read_ihdr_data by lia.
  replace (width img <=? 2 ^ 31 - 1) with false by (symmetry; apply Z.leb_gt; lia).
  rewrite andb_false_r. reflexivity.
Qed.

(** The length of the zlib stream, whatever the pixels are. *)
Lemma zlib_stream_length (img : glyph_image_t) :
  0 <= width img < 2 ^ 31 -> 0 <= height img < 2 ^ 31 ->
  len (zlib_stream img) = zlib_size img.
Proof.
  intros Hw Hh. unfold zlib_stream, zlib_size, raw_size.
  set (R := (3 * width img + 1) * height img).
  assert (HR : 0 <= R < 2 ^ 64 - 65536).
  { unfold R. change (2 ^ 31) with 2147483648 in *.
    change (2 ^ 64 - 65536) with (4 * 2147483648 * 2147483648 - 65536). nia. }
  assert (E1 : size_t (size_t (size_t (width img * 3) + 1) * height img) = R).
  { unfold size_t.
    rewrite (Z.mod_small (width img * 3)) by lia.
    rewrite (Z.mod_small (width img * 3 + 1)) by lia.
    replace ((width img * 3 + 1) * height img) with R by (unfold R; lia).
    apply Z.mod_small. lia. }
  rewrite E1.
  assert (E2 : size_t (R + 65534) = R + 65534)
    by (unfold size_t; apply Z.mod_small; lia).
  rewrite E2. cbn [app]. rewrite !len_cons, len_app, write_u32_be_length.
  rewrite stored_blocks_length; try lia.
  rewrite Z2Nat.id by (apply Z.div_pos; lia).
  pose proof (Z.div_mod (R + 65534) 65535 ltac:(lia)).
  pose proof (Z.mod_pos_bound (R + 65534) 65535 ltac:(lia)). lia.
Qed.

(** A zlib stream too long for the length field of a chunk: the decoder
    stops at the IDAT chunk. *)
Lemma png_decode_refuses_length (img : glyph_image_t) :
  1 <= width img <= 2 ^ 31 - 1 -> 1 <= height img <= 2 ^ 31 - 1 ->
  2 ^ 31 - 1 < zlib_size img < 2 ^ 32 ->
  png_decode (glyph_write_png img) = None.
Proof.
  intros Hw Hh Hz.
  assert (Hlen : uint32 (len (zlib_stream img)) = zlib_size img).
  { rewrite zlib_stream_length by lia. unfold uint32. apply Z.mod_small. lia. }
  unfold glyph_write_png. fold (len (zlib_stream img)). rewrite Hlen.
  change 13 with (len (ihdr_data img)).
  rewrite (written_chunk tag_IHDR) by (apply tag_bytes_IHDR || apply ihdr_data_bytes).
  unfold png_decode.
  rewrite (take_app_n 8 png_sig) by reflexivity.
  rewrite (drop_app_n 8 png_sig) by reflexivity.
  change (list_eqb png_sig [137; 80; 78; 71; 13; 10; 26; 10]) with true. cbn [negb].
  rewrite read_chunk_chunk;
    [|reflexivity|change (len (ihdr_data img)) with 13; lia
     |apply tag_bytes_IHDR|apply ihdr_data_bytes].
  change (list_eqb tag_IHDR [73; 72; 68; 82]) with true. cbn [negb].
  rewrite read_ihdr_data by lia.
  replace ((1 <=? width img) && (width img <=? 2 ^ 31 - 1)
           && (1 <=? height img) && (height img <=? 2 ^ 31 - 1)) with true
    by (symmetry; repeat (apply andb_true_intro; split); apply Z.leb_le; lia).
  rewrite <- !app_assoc.
  set (rest := tag_IDAT ++ _).
  destruct (List.length (write_u32_be (zlib_size img) ++ rest)) as [|fuel] eqn:El;
    [reflexivity|].
  cbn [read_chunks]. unfold read_chunk.
  rewrite (take_app_n 4 (write_u32_be (zlib_size img))) by reflexivity.
  rewrite be32_value_write by lia.
  replace (zlib_size img >? 2 ^ 31 - 1) with true
    by (symmetry; rewrite Z.gtb_ltb; apply Z.ltb_lt; lia).
  rewrite orb_true_r. reflexivity.
Qed.

End Container.

(** * The PNG writer *)

Section PngWriter.
Import Mach Image PngFormat ImageSpec.

Variable img : glyph_image_t.
Hypothesis Himg : rgb_image img.
Hypothesis Hwidth : 1 <= width img.
Hypothesis Hheight : 1 <= height img.
Hypothesis Hsize : zlib_size img <= 2 ^ 31 - 1.

Lemma zlib_stream_blocks :
  exists blocks,
    zlib_stream img
    = [120; 1] ++ stored_stream blocks ++ write_u32_be (adler (List.concat blocks))
    /\ List.concat blocks = raw_stream img
    /\ Forall (fun b => 1 <= len b <= 65535) blocks
    /\ blocks <> []
    /\ len (zlib_stream img) = zlib_size img.
Proof.
  pose proof (raw_size_bound img Hwidth Hheight Hsize) as Hraw.
  pose proof (dimensions_bound img Hwidth Hheight Hsize) as (Hb1 & Hb2 & Hb3).
  pose proof (raw_stream_length img Himg Hwidth Hheight Hsize) as Hlen.
  unfold zlib_stream.
  assert (E1 : size_t (size_t (size_t (width img * 3) + 1) * height img) = raw_size img).
  { unfold size_t, raw_size in *.
    rewrite (Z.mod_small (width img * 3)) by lia.
    rewrite (Z.mod_small (width img * 3 + 1)) by lia.
    rewrite Z.mod_small by lia. lia. }
  rewrite E1.
  assert (E2 : size_t (raw_size img + 65534) = raw_size img + 65534)
    by (unfold size_t; apply Z.mod_small; lia).
  rewrite E2.
  destruct (stored_blocks_stream (raw_stream img)
              (Z.to_nat ((raw_size img + 65534) / 65535)) (raw_size img) 0)
    as (blocks & Hs & Hc & Hf & Hne & Hcount); try lia.
  { rewrite Z2Nat.id by (apply Z.div_pos; lia).
    pose proof (Z.div_mod (raw_size img + 65534) 65535 ltac:(lia)).
    pose proof (Z.mod_pos_bound (raw_size img + 65534) 65535 ltac:(lia)). lia. }
  rewrite drop_0 in Hc.
  exists blocks. rewrite Hs, <- Hlen, slice_all, adler32_is_adler, Hc.
  repeat split; try assumption.
  - apply Hne. lia.
  - cbn [app]. rewrite !len_cons, len_app, stored_stream_length, write_u32_be_length.
    rewrite Hc, Hcount. unfold zlib_size. rewrite Hlen. lia.
Qed.

Lemma zlib_stream_bytes : Forall byte (zlib_stream img).
Proof.
  destruct zlib_stream_blocks as (blocks & Hs & Hc & Hf & _ & _).
  rewrite Hs. apply Forall_app. split.
  - repeat (apply Forall_cons; [unfold byte; lia|]). apply Forall_nil.
  - apply Forall_app. split; [|apply write_u32_be_bytes].
    apply stored_stream_bytes.
    + eapply Forall_impl; [|exact Hf]. cbv beta. intros b Hb. lia.
    + apply Forall_concat. rewrite Hc.
      apply (raw_stream_bytes img Himg Hwidth Hheight Hsize).
Qed.

Lemma png_round_trip_blocks :
  exists blocks,
    Forall (fun b => 1 <= len b <= 65535) blocks
    /\ List.concat blocks = filtered_rows img
    /\ glyph_write_png img
       = png_sig
         ++ chunk tag_IHDR
              (write_u32_be (width img) ++ write_u32_be (height img) ++ [8; 2; 0; 0; 0])
         ++ chunk tag_IDAT
              ([120; 1] ++ stored_stream blocks
               ++ write_u32_be (adler (filtered_rows img)))
         ++ [0; 0; 0; 0; 73; 69; 78; 68; 174; 66; 96; 130]
    /\ png_decode (glyph_write_png img) = Some (width img, height img, data img).
Proof.
  destruct zlib_stream_blocks as (blocks & Hs & Hc & Hf & Hne & Hlen).
  pose proof zlib_stream_bytes as Hb.
  pose proof (dimensions_bound img Hwidth Hheight Hsize) as (Hb1 & Hb2 & Hb3).
  pose proof (raw_stream_filtered img Himg Hwidth Hheight Hsize) as Hraw.
  pose proof (len_nonneg (zlib_stream img)) as Hnn.
  assert (Hlayout : glyph_write_png img
                    = png_sig ++ chunk tag_IHDR (ihdr_data img)
                      ++ chunk tag_IDAT (zlib_stream img) ++ chunk tag_IEND []).
  { apply png_layout; [|exact Hb].
    unfold uint32. apply Z.mod_small. lia. }
  exists blocks. split; [exact Hf|]. split; [congruence|]. split.
  - rewrite Hlayout, Hs, Hc, Hraw. reflexivity.
  - rewrite Hlayout. unfold png_decode.
    rewrite (take_app_n 8 png_sig) by reflexivity.
    rewrite (drop_app_n 8 png_sig) by reflexivity.
    change (list_eqb png_sig [137; 80; 78; 71; 13; 10; 26; 10]) with true. cbn [negb].
    rewrite read_chunk_chunk;
      [|reflexivity|change (len (ihdr_data img)) with 13; lia
       |apply tag_bytes_IHDR|apply ihdr_data_bytes].
    change (list_eqb tag_IHDR [73; 72; 68; 82]) with true. cbn [negb].
    destruct Himg as (Hw & Hh & _).
    rewrite read_ihdr_data by assumption.
    replace ((1 <=? width img) && (width img <=? 2 ^ 31 - 1)
             && (1 <=? height img) && (height img <=? 2 ^ 31 - 1)) with true
      by (symmetry; repeat (apply andb_true_intro; split); apply Z.leb_le; lia).
    assert (Hfuel : exists k, List.length (chunk tag_IDAT (zlib_stream img)
                                           ++ chunk tag_IEND []) = S (S k)).
    { exists (List.length (chunk tag_IDAT (zlib_stream img) ++ chunk tag_IEND []) - 2)%nat.
      pose proof (chunk_length tag_IDAT (zlib_stream img)) as E.
      rewrite length_app. unfold len in E. lia. }
    destruct Hfuel as (k & ->).
    cbn [read_chunks].
    rewrite read_chunk_chunk; [|reflexivity|lia|apply tag_bytes_IDAT|exact Hb].
    change (list_eqb tag_IDAT [73; 68; 65; 84]) with true. cbv iota.
    rewrite <- (app_nil_r (chunk tag_IEND [])).
    rewrite read_chunk_chunk;
      [|reflexivity|cbn; lia
       |repeat (apply Forall_cons; [unfold byte; lia|]); apply Forall_nil
       |apply Forall_nil].
    change (list_eqb tag_IEND [73; 68; 65; 84]) with false.
    change (list_eqb tag_IEND [73; 69; 78; 68]) with true. cbv iota.
    cbn [app]. rewrite Hs.
    rewrite zlib_decompress_stored by assumption.
    rewrite Hc.
    rewrite (unfilter_raw_stream img Himg Hwidth Hheight Hsize). reflexivity.
Qed.

End PngWriter.

(** C1 (as amended): for every RGB image at least one pixel wide and high
    whose zlib stream fits the 31-bit length of a chunk, the file written is
    the PNG signature, the IHDR chunk of a W x H 8-bit RGB image, one IDAT
    chunk that holds the zlib header, stored blocks of 1 to 65535 bytes that
    join to the Sub-filtered row stream, and the Adler-32 of that stream,
    then the empty IEND chunk, whose CRC is the CRC-32 of the four bytes of
    its type; the reference decoder gives back the width, the height and
    the pixel buffer. *)
Theorem png_round_trip (img : Image.glyph_image_t) :
  ImageSpec.rgb_image img ->
  1 <= Image.width img -> 1 <= Image.height img ->
  ImageSpec.zlib_size img <= 2 ^ 31 - 1 ->
  (exists blocks,
      Forall (fun b => 1 <= PngFormat.len b <= 65535) blocks
      /\ List.concat blocks = ImageSpec.filtered_rows img
      /\ Image.glyph_write_png img
         = Image.png_sig
           ++ ImageSpec.chunk Image.tag_IHDR
                (Image.write_u32_be (Image.width img)
                 ++ Image.write_u32_be (Image.height img) ++ [8; 2; 0; 0; 0])
           ++ ImageSpec.chunk Image.tag_IDAT
                ([120; 1] ++ ImageSpec.stored_stream blocks
                 ++ Image.write_u32_be (PngFormat.adler (ImageSpec.filtered_rows img)))
           ++ [0; 0; 0; 0; 73; 69; 78; 68; 174; 66; 96; 130])
  /\ ImageSpec.chunk Image.tag_IEND [] = [0; 0; 0; 0; 73; 69; 78; 68; 174; 66; 96; 130]
  /\ PngFormat.crc [73; 69; 78; 68] = 2923585666
  /\ PngFormat.png_decode (Image.glyph_write_png img)
     = Some (Image.width img, Image.height img, Image.data img).
Proof.
  intros Himg HW HH Hsize.
  destruct (png_round_trip_blocks img Himg HW HH Hsize) as (blocks & Hf & Hc & Hw & Hd).
  split; [exists blocks; repeat split; assumption|].
  split; [vm_compute; reflexivity|].
  split; [vm_compute; reflexivity|].
  exact Hd.
Qed.

Lemma png_round_trip_witness :
  PngFormat.png_decode (Image.glyph_write_png ImageSpec.small_image)
  = Some (2, 2, [10; 20; 30; 40; 50; 60; 1; 2; 3; 250; 251; 252]).
Proof.
  refine (proj2 (proj2 (proj2 (png_round_trip ImageSpec.small_image _ _ _ _)))).
  - unfold ImageSpec.rgb_image. cbn [Image.width Image.height Image.data ImageSpec.small_image].
    split; [lia|]. split; [lia|]. split; [reflexivity|].
    repeat (apply Forall_cons; [unfold ImageSpec.byte; lia|]). apply Forall_nil.
  - vm_compute. discriminate.
  - vm_compute. discriminate.
  - vm_compute. discriminate.
Defined.

(** A width of 2^31 is not a PNG width: the file written for the image
    [wide_image] is refused for its header alone. *)
Lemma png_refused_for_wide_image :
  ImageSpec.rgb_image ImageSpec.wide_image
  /\ 1 <= Image.width ImageSpec.wide_image
  /\ 1 <= Image.height ImageSpec.wide_image
  /\ PngFormat.png_decode (Image.glyph_write_png ImageSpec.wide_image) = None.
Proof.
  assert (Hw : Image.width ImageSpec.wide_image = 2 ^ 31) by reflexivity.
  assert (Hh : Image.height ImageSpec.wide_image = 1) by reflexivity.
  split.
  { unfold ImageSpec.rgb_image. rewrite Hw, Hh.
    split; [lia|]. split; [lia|]. split.
    - unfold ImageSpec.wide_image, PngFormat.len. cbn [Image.data].
      rewrite repeat_length, Z2Nat.id by lia. lia.
    - unfold ImageSpec.wide_image. cbn [Image.data].
      apply Forall_forall. intros x Hx. apply repeat_spec in Hx. subst x.
      unfold ImageSpec.byte. lia. }
  rewrite Hw, Hh. split; [lia|]. split; [lia|].
  destruct (png_header ImageSpec.wide_image) as (rest & ->).
  apply png_decode_refuses_width; rewrite ?Hw, ?Hh; lia.
Qed.

(** C1, as stated, fails: the image [long_image], 715827883 pixels wide and
    one pixel high, is an RGB image with PNG dimensions; its filtered row is
    2147483650 bytes long, the zlib stream 2147647501 bytes, more than the
    2^31 - 1 bytes that the length field of a chunk may announce, and the
    file written for it is refused at its IDAT chunk. *)
Lemma png_refused_for_long_image :
  ImageSpec.rgb_image ImageSpec.long_image
  /\ 1 <= Image.width ImageSpec.long_image <= 2 ^ 31 - 1
  /\ 1 <= Image.height ImageSpec.long_image <= 2 ^ 31 - 1
  /\ ImageSpec.raw_size ImageSpec.long_image = 2147483650
  /\ PngFormat.len (Image.zlib_stream ImageSpec.long_image) = 2147647501
  /\ 2 ^ 31 - 1 < 2147647501
  /\ PngFormat.png_decode (Image.glyph_write_png ImageSpec.long_image) = None.
Proof.
  assert (Hw : Image.width ImageSpec.long_image = 715827883) by reflexivity.
  assert (Hh : Image.height ImageSpec.long_image = 1) by reflexivity.
  assert (Hz : ImageSpec.zlib_size ImageSpec.long_image = 2147647501).
  { unfold ImageSpec.zlib_size, ImageSpec.raw_size. rewrite Hw, Hh. reflexivity. }
  split.
  { unfold ImageSpec.rgb_image. rewrite Hw, Hh.
    split; [lia|]. split; [lia|]. split.
    - unfold ImageSpec.long_image, PngFormat.len. cbn [Image.data].
      rewrite repeat_length, Z2Nat.id by lia. lia.
    - unfold ImageSpec.long_image. cbn [Image.data].
      apply Forall_forall. intros x Hx. apply repeat_spec in Hx. subst x.
      unfold ImageSpec.byte. lia. }
  rewrite Hw, Hh. split; [lia|]. split; [lia|].
  split; [unfold ImageSpec.raw_size; rewrite Hw, Hh; reflexivity|].
  split; [rewrite zlib_stream_length by (rewrite ?Hw, ?Hh; lia); exact Hz|].
  split; [lia|].
  apply png_decode_refuses_length; rewrite ?Hw, ?Hh, ?Hz; lia.
Qed.

(** The reference decoder reads a file of another writer. *)
Example foreign_png_decoded :
  PngFormat.png_decode ImageSpec.foreign_png = Some (3, 2, ImageSpec.foreign_pixels).
Proof. vm_compute. reflexivity. Qed.

(** * Rounding an integer to binary32 *)

Section Rounding.
Import F32.

(** A positive number with [d] binary digits lies in [2^(d-1), 2^d). *)
Lemma digits2_pos_bounds (m : positive) :
  2 ^ (Zpos (digits2_pos m) - 1) <= Zpos m < 2 ^ Zpos (digits2_pos m).
Proof.
  induction m as [m IH|m IH|]; cbn [digits2_pos].
  - rewrite Pos2Z.inj_succ.
    replace (Z.succ (Zpos (digits2_pos m)) - 1) with (Z.succ (Zpos (digits2_pos m) - 1)) by lia.
    rewrite !Z.pow_succ_r by lia. lia.
  - rewrite Pos2Z.inj_succ.
    replace (Z.succ (Zpos (digits2_pos m)) - 1) with (Z.succ (Zpos (digits2_pos m) - 1)) by lia.
    rewrite !Z.pow_succ_r by lia. lia.
  - cbn. lia.
Qed.

Lemma digits2_pos_upper (m : positive) (d : Z) :
  0 <= d -> Zpos m < 2 ^ d -> Zpos (digits2_pos m) <= d.
Proof.
  intros Hd Hm. pose proof (digits2_pos_bounds m) as [Hlo _].
  destruct (Z.le_gt_cases (Zpos (digits2_pos m)) d) as [|Hgt]; [assumption|].
  exfalso.
  assert (2 ^ d <= 2 ^ (Zpos (digits2_pos m) - 1)) by (apply Z.pow_le_mono_r; lia).
  lia.
Qed.

(** One shift halves the mantissa. *)
Lemma shr_1_mantissa (mrs : shr_record) :
  0 <= shr_m mrs -> shr_m (shr_1 mrs) = shr_m mrs / 2.
Proof.
  destruct mrs as [m r s]. cbn [shr_m]. intros Hm.
  destruct m as [|p|p]; [reflexivity| |lia].
  destruct p as [p|p|]; cbn [shr_1 shr_m].
  - rewrite Pos2Z.inj_xI. apply Z.div_unique with 1; lia.
  - rewrite Pos2Z.inj_xO. apply Z.div_unique with 0; lia.
  - reflexivity.
Qed.

Lemma iter_pos_shr_mantissa (n : positive) :
  forall mrs : shr_record,
    0 <= shr_m mrs ->
    0 <= shr_m (iter_pos shr_1 n mrs)
    /\ shr_m (iter_pos shr_1 n mrs) = shr_m mrs / 2 ^ Zpos n.
Proof.
  assert (Hpow : forall k, 0 < 2 ^ Zpos k) by (intros; apply Z.pow_pos_nonneg; lia).
  induction n as [n IH|n IH|]; intros mrs Hm; cbn [iter_pos].
  - pose proof (shr_1_mantissa mrs Hm) as A.
    assert (A0 : 0 <= shr_m (shr_1 mrs)) by (rewrite A; apply Z.div_pos; lia).
    destruct (IH (shr_1 mrs) A0) as [B0 B].
    destruct (IH (iter_pos shr_1 n (shr_1 mrs)) B0) as [C0 C].
    split; [exact C0|]. rewrite C, B, A.
    pose proof (Hpow n).
    rewrite !Z.div_div by lia. f_equal.
    replace (Zpos n~1) with (1 + Zpos n + Zpos n) by lia.
    rewrite !Z.pow_add_r by lia. change (2 ^ 1) with 2. lia.
  - destruct (IH mrs Hm) as [B0 B].
    destruct (IH (iter_pos shr_1 n mrs) B0) as [C0 C].
    split; [exact C0|]. rewrite C, B.
    pose proof (Hpow n).
    rewrite !Z.div_div by lia. f_equal.
    replace (Zpos n~0) with (Zpos n + Zpos n) by lia.
    rewrite !Z.pow_add_r by lia. lia.
  - pose proof (shr_1_mantissa mrs Hm) as A. rewrite A.
    split; [apply Z.div_pos; lia|reflexivity].
Qed.

(** The mantissa and exponent after [shr_fexp]. *)
Lemma shr_mantissa (mrs : shr_record) (e n : Z) :
  0 <= shr_m mrs ->
  shr_m (fst (shr mrs e n)) = shr_m mrs / 2 ^ Z.max 0 n
  /\ snd (shr mrs e n) = e + Z.max 0 n.
Proof.
  intros Hm. destruct n as [|p|p]; cbn [shr fst snd Z.max].
  - cbn. rewrite Z.div_1_r. split; [reflexivity|lia].
  - rewrite (proj2 (iter_pos_shr_mantissa p mrs Hm)).
    replace (Z.max 0 (Zpos p)) with (Zpos p) by lia. split; reflexivity.
  - replace (Z.max 0 (Zneg p)) with 0 by lia.
    rewrite Z.div_1_r. split; [reflexivity|lia].
Qed.

Lemma shr_record_mantissa (m : Z) (l : location) : shr_m (shr_record_of_loc m l) = m.
Proof. destruct l as [|[| |]]; reflexivity. Qed.

Lemma round_nearest_even_bounds (m : Z) (l : location) :
  m <= round_nearest_even m l <= m + 1.
Proof.
  unfold round_nearest_even. destruct l as [|[| |]]; try lia.
  destruct (Z.even m); lia.
Qed.

(** A positive mantissa that is shifted by [shr_fexp] stays positive, and
    the exponent moves by the excess of digits over 24. *)
Lemma shr_fexp_positive (m : positive) (e : Z) (l : location) :
  -149 <= e ->
  let r := shr_fexp prec emax (Zpos m) e l in
  1 <= shr_m (fst r) <= Zpos m
  /\ e <= snd r <= e + Z.max 0 (Zpos (digits2_pos m) - 24)
  /\ -149 <= snd r.
Proof.
  intros He r. subst r. unfold shr_fexp.
  set (n := fexp prec emax (Zdigits2 (Zpos m) + e) - e).
  pose proof (shr_mantissa (shr_record_of_loc (Zpos m) l) e n) as [Hm Hs];
    [rewrite shr_record_mantissa; lia|].
  rewrite shr_record_mantissa in Hm. rewrite Hm, Hs.
  assert (Hn : Z.max 0 n = Z.max 0 (Zpos (digits2_pos m) - 24)).
  { unfold n, fexp, emin, prec, emax. cbn [Zdigits2]. lia. }
  rewrite Hn.
  pose proof (digits2_pos_bounds m) as [Hlo Hhi].
  set (k := Z.max 0 (Zpos (digits2_pos m) - 24)) in *.
  assert (Hk : 0 <= k <= Zpos (digits2_pos m) - 1) by lia.
  assert (Hp : 0 < 2 ^ k) by (apply Z.pow_pos_nonneg; lia).
  assert (Hle : 2 ^ k <= Zpos m).
  { apply Z.le_trans with (2 ^ (Zpos (digits2_pos m) - 1)); [|assumption].
    apply Z.pow_le_mono_r; lia. }
  repeat split; try lia.
  - apply Z.div_le_lower_bound; lia.
  - apply Z.div_le_upper_bound; [lia|]. nia.
Qed.

(** Rounding a positive mantissa of at most 64 digits with an exponent in
    [-149, 0]: the result is a finite number of the sign asked for, the
    same mantissa and exponent for both signs. *)
Lemma binary_round_aux_finite (m : positive) (e : Z) (l : location) :
  -149 <= e <= 0 -> Zpos (digits2_pos m) <= 64 ->
  exists m' e',
    forall sx, binary_round_aux prec emax sx (Zpos m) e l = S754_finite sx m' e'.
Proof.
  intros He Hd. unfold binary_round_aux.
  pose proof (shr_fexp_positive m e l ltac:(lia)) as H1. cbv zeta in H1.
  destruct (shr_fexp prec emax (Zpos m) e l) as [mrs1 e1]. cbn [fst snd] in H1.
  destruct H1 as (Hm1 & He1 & He1').
  pose proof (round_nearest_even_bounds (shr_m mrs1) (loc_of_shr_record mrs1)) as Hr.
  set (m2 := round_nearest_even (shr_m mrs1) (loc_of_shr_record mrs1)) in *.
  destruct m2 as [|p2|p2] eqn:E2; try lia.
  pose proof (shr_fexp_positive p2 e1 loc_Exact ltac:(lia)) as H2. cbv zeta in H2.
  destruct (shr_fexp prec emax (Zpos p2) e1 loc_Exact) as [mrs2 e2]. cbn [fst snd] in H2.
  destruct H2 as (Hm2 & He2 & _).
  destruct (shr_m mrs2) as [|p3|p3] eqn:E3; try lia.
  exists p3, e2. intros sx.
  assert (Hd2 : Zpos (digits2_pos p2) <= 65).
  { apply digits2_pos_upper; [lia|].
    pose proof (digits2_pos_bounds m) as [_ Hhi].
    assert (2 ^ Zpos (digits2_pos m) <= 2 ^ 64) by (apply Z.pow_le_mono_r; lia).
    assert (2 ^ 64 < 2 ^ 65) by (apply Z.pow_lt_mono_r; lia). lia. }
  replace (e2 <=? emax - prec) with true; [reflexivity|].
  symmetry. apply Z.leb_le. unfold emax, prec. lia.
Qed.

Lemma digits2_pos_shift (p : positive) (k : positive) :
  Zpos (Pos.iter xO p k) = Zpos p * 2 ^ Zpos k.
Proof.
  rewrite (Pos.iter_swap_gen _ _ Zpos xO (Z.mul 2)) by reflexivity.
  change (Pos.iter (Z.mul 2) (Zpos p) k) with (Z.shiftl (Zpos p) (Zpos k)).
  apply Z.shiftl_mul_pow2. lia.
Qed.

(** An [int] that is not zero converts to a finite number, and its
    opposite to the opposite number. *)
Lemma of_int_finite (z : Z) :
  1 <= z <= Mach.INT_MAX ->
  exists m e, of_int z = S754_finite false m e
              /\ of_int (- z) = S754_finite true m e.
Proof.
  intros Hz. destruct z as [|p|p]; try lia.
  unfold of_int. cbn [binary_normalize Z.opp]. unfold binary_round.
  assert (Hd : Zpos (digits2_pos p) <= 31).
  { apply digits2_pos_upper; [lia|]. unfold Mach.INT_MAX in Hz. lia. }
  pose proof (digits2_pos_bounds p) as [Hlo Hhi].
  assert (Hd1 : 1 <= Zpos (digits2_pos p)) by lia.
  assert (Hf : fexp prec emax (Zpos (digits2_pos p) + 0) = Zpos (digits2_pos p) - 24)
    by (unfold fexp, emin, prec, emax; lia).
  rewrite Hf.
  assert (Hz' : forall mz ez,
             shl_align p 0 (Zpos (digits2_pos p) - 24) = (mz, ez) ->
             -149 <= ez <= 0 /\ Zpos (digits2_pos mz) <= 64).
  { intros mz ez Es. unfold shl_align in Es.
    remember (Zpos (digits2_pos p)) as dd eqn:Edd.
    destruct (dd - 24 - 0) as [|q|q] eqn:Eq; injection Es as <- <-.
    - split; lia.
    - split; lia.
    - split; [lia|].
      apply digits2_pos_upper; [lia|]. rewrite digits2_pos_shift.
      assert (Zpos q <= 23) by lia.
      assert (2 ^ Zpos q <= 2 ^ 23) by (apply Z.pow_le_mono_r; lia).
      assert (Zpos p < 2 ^ 31).
      { eapply Z.lt_le_trans; [exact Hhi|]. apply Z.pow_le_mono_r; lia. }
      change (2 ^ 64) with (2 ^ 31 * 2 ^ 33).
      assert (2 ^ 23 < 2 ^ 33) by (apply Z.pow_lt_mono_r; lia).
      assert (0 < 2 ^ Zpos q) by (apply Z.pow_pos_nonneg; lia).
      nia. }
  destruct (shl_align p 0 (Zpos (digits2_pos p) - 24)) as [mz ez] eqn:Es.
  specialize (Hz' mz ez eq_refl).
  destruct Hz' as [He Hdz].
  destruct (binary_round_aux_finite mz ez loc_Exact He Hdz) as (m' & e' & Hr).
  exists m', e'. split; apply Hr.
Qed.

End Rounding.

(** * The remapping of the distance field *)

Section DistanceRemap.
Import F32 DistanceField.

(** A finite number divided by itself, or by its opposite, is one or minus
    one. *)
Lemma div_self (s : bool) (m : positive) (e : Z) :
  div (S754_finite s m e) (S754_finite false m e) = S754_finite s 8388608 (-23).
Proof.
  unfold div, SFdiv, SFdiv_core_binary.
  assert (H1 : IntDef.Z.sub (IntDef.Z.add (Zdigits2 (Zpos m)) e)
                            (IntDef.Z.add (Zdigits2 (Zpos m)) e) = 0)
    by apply Z.sub_diag.
  assert (H2 : IntDef.Z.sub e e = 0) by apply Z.sub_diag.
  rewrite H1, !H2. clear H1 H2.
  change (IntDef.Z.sub 0 (IntDef.Z.min (fexp prec emax 0) 0)) with 24.
  change (IntDef.Z.min (fexp prec emax 0) 0) with (-24).
  cbv iota.
  assert (E : IntDef.Z.div_eucl (IntDef.Z.shiftl (Zpos m) 24) (Zpos m) = (2 ^ 24, 0)).
  { change (IntDef.Z.div_eucl (IntDef.Z.shiftl (Zpos m) 24) (Zpos m))
      with (Z.div_eucl (Z.shiftl (Zpos m) 24) (Zpos m)).
    rewrite Z.shiftl_mul_pow2 by lia.
    pose proof (Z.div_eucl_eq (Zpos m * 2 ^ 24) (Zpos m) ltac:(lia)) as H.
    pose proof (Z.mod_pos_bound (Zpos m * 2 ^ 24) (Zpos m) ltac:(lia)) as Hb.
    unfold Z.modulo in Hb.
    destruct (Z.div_eucl (Zpos m * 2 ^ 24) (Zpos m)) as [q r].
    change (2 ^ 24) with 16777216 in *.
    assert (q = 16777216) by (destruct (Z.lt_trichotomy q 16777216) as [|[|]]; nia).
    subst q. f_equal. lia. }
  rewrite E.
  assert (L : new_location (Zpos m) 0 = loc_Exact).
  { unfold new_location, new_location_even, new_location_odd.
    destruct (Z.even (Zpos m)); reflexivity. }
  rewrite L. rewrite xorb_false_r. destruct s; reflexivity.
Qed.

Lemma div_zero (b s : bool) (m : positive) (e : Z) :
  div (S754_zero b) (S754_finite s m e) = S754_zero (xorb b s).
Proof. reflexivity. Qed.

Lemma compare_refl (s : bool) (m : positive) (e : Z) :
  SFcompare (S754_finite s m e) (S754_finite s m e) = Some Eq.
Proof.
  cbn [SFcompare]. rewrite Z.compare_refl.
  assert (Pos.compare_cont Eq m m = Eq) by apply Pos.compare_cont_refl.
  destruct s; rewrite H; reflexivity.
Qed.

Variable spread : Z.
Hypothesis Hspread : 1 <= spread <= Mach.INT_MAX.

Lemma clamp_below (d : spec_float) :
  d = of_int (- spread) \/ ltb d (of_int (- spread)) = true ->
  clamp_distance d spread = of_int (- spread).
Proof.
  destruct (of_int_finite spread Hspread) as (m & e & Hp & Hn).
  unfold clamp_distance, ltb, gtb, SFltb. rewrite Hp, Hn.
  intros [->|H].
  - rewrite compare_refl. reflexivity.
  - rewrite H. reflexivity.
Qed.

Lemma clamp_above (d : spec_float) :
  d = of_int spread \/ gtb d (of_int spread) = true ->
  clamp_distance d spread = of_int spread.
Proof.
  destruct (of_int_finite spread Hspread) as (m & e & Hp & Hn).
  unfold clamp_distance, ltb, gtb, SFltb. rewrite Hp, Hn.
  intros [->|H].
  - change (SFcompare (S754_finite false m e) (S754_finite true m e)) with (Some Gt).
    cbv iota. rewrite compare_refl. reflexivity.
  - destruct d as [b|b| |b m' e']; try (cbn in H; discriminate).
    + destruct b; cbn in H; try discriminate. reflexivity.
    + destruct b; [cbn in H; discriminate|].
      change (SFcompare (S754_finite false m' e') (S754_finite true m e)) with (Some Gt).
      cbv iota. rewrite H. reflexivity.
Qed.

Lemma clamp_zero (b : bool) : clamp_distance (S754_zero b) spread = S754_zero b.
Proof.
  destruct (of_int_finite spread Hspread) as (m & e & Hp & Hn).
  unfold clamp_distance, ltb, gtb, SFltb. rewrite Hp, Hn. reflexivity.
Qed.

Lemma remap_below : remap_distance (of_int (- spread)) spread = 0.
Proof.
  destruct (of_int_finite spread Hspread) as (m & e & Hp & Hn).
  unfold remap_distance. rewrite Hp, Hn, div_self. vm_compute. reflexivity.
Qed.

Lemma remap_above : remap_distance (of_int spread) spread = 255.
Proof.
  destruct (of_int_finite spread Hspread) as (m & e & Hp & Hn).
  unfold remap_distance. rewrite Hp, div_self. vm_compute. reflexivity.
Qed.

Lemma remap_zero (b : bool) : remap_distance (S754_zero b) spread = 127.
Proof.
  destruct (of_int_finite spread Hspread) as (m & e & Hp & Hn).
  unfold remap_distance. rewrite Hp, div_zero. destruct b; vm_compute; reflexivity.
Qed.

End DistanceRemap.

Section DistanceField.
Import F32 DistanceField.

Lemma sdf_bitmap_pixel (bitmap : list Z) (w h spread i : Z) :
  0 <= i < w * h ->
  let mask := threshold_mask bitmap w h in
  Arr.get 0 (glyph_ttf_get_glyph_sdf_bitmap bitmap w h spread) i
  = sdf_pixel (Arr.get 0 mask i)
              (Arr.get zero (inside_field mask w h) i)
              (Arr.get zero (outside_field mask w h) i) spread.
Proof.
  intros Hi mask. unfold glyph_ttf_get_glyph_sdf_bitmap. fold mask.
  rewrite get_map_range by assumption. reflexivity.
Qed.

Lemma sdf_bitmap_length (bitmap : list Z) (w h spread : Z) :
  List.length (glyph_ttf_get_glyph_sdf_bitmap bitmap w h spread) = Z.to_nat (w * h).
Proof.
  unfold glyph_ttf_get_glyph_sdf_bitmap, Arr.range.
  rewrite !length_map, length_seq. f_equal. lia.
Qed.

Lemma mask_pixel (bitmap : list Z) (w h i : Z) :
  0 <= i < w * h ->
  Arr.get 0 (threshold_mask bitmap w h) i = if Arr.get 0 bitmap i >? 127 then 1 else 0.
Proof. intros Hi. unfold threshold_mask. apply get_map_range. assumption. Qed.

End DistanceField.

(** * Byte order *)

Section ByteOrder.
Import Mach Util TrueType.

Lemma lor_disjoint (k hi lo : Z) :
  0 <= k -> 0 <= lo < 2 ^ k -> Z.lor (hi * 2 ^ k) lo = hi * 2 ^ k + lo.
Proof.
  intros Hk Hlo.
  assert (Hand : Z.land (hi * 2 ^ k) lo = 0).
  { apply Z.bits_inj'. intros n Hn. rewrite Z.land_spec, Z.bits_0.
    destruct (Z.lt_ge_cases n k).
    - rewrite Z.mul_pow2_bits_low by lia. reflexivity.
    - replace (Z.testbit lo n) with false; [apply andb_false_r|].
      symmetry. destruct (Z.eq_dec lo 0) as [->|]; [apply Z.bits_0|].
      apply Z.bits_above_log2; [lia|].
      apply Z.lt_le_trans with k; [apply Z.log2_lt_pow2; lia|lia]. }
  rewrite <- Z.lxor_lor by exact Hand.
  symmetry. apply Z.add_nocarry_lxor. exact Hand.
Qed.

Lemma bswap16_bytes (lo hi : Z) :
  0 <= lo < 256 -> 0 <= hi < 256 ->
  glyph__bswap16 (lo + 256 * hi) = hi + 256 * lo.
Proof.
  intros Hlo Hhi. unfold glyph__bswap16, uint16.
  rewrite Z.shiftl_mul_pow2, Z.shiftr_div_pow2 by lia.
  change (2 ^ 8) with 256.
  replace ((lo + 256 * hi) / 256) with hi
    by (apply Z.div_unique with lo; lia).
  change 256 with (2 ^ 8) at 2. rewrite lor_disjoint by (change (2 ^ 8) with 256; lia).
  change (2 ^ 8) with 256. change (2 ^ 16) with 65536.
  replace ((lo + 256 * hi) * 256 + hi) with (hi * 65536 + (hi + 256 * lo)) by ring.
  rewrite Z.add_comm, Z.mod_add by lia. apply Z.mod_small. lia.
Qed.

Lemma mask_byte (v k : Z) :
  0 <= k -> Z.land v (255 * 2 ^ k) = (v / 2 ^ k) mod 256 * 2 ^ k.
Proof.
  intros Hk. rewrite <- land_255, <- Z.shiftr_div_pow2, <- !Z.shiftl_mul_pow2 by lia.
  apply Z.bits_inj'. intros n Hn.
  rewrite Z.land_spec, !Z.shiftl_spec by lia.
  destruct (Z.lt_ge_cases n k).
  - rewrite !(Z.testbit_neg_r _ (n - k)) by lia. apply andb_false_r.
  - rewrite Z.land_spec, Z.shiftr_spec by lia.
    replace (n - k + k) with n by ring. reflexivity.
Qed.

Lemma bswap32_bytes (b0 b1 b2 b3 : Z) :
  0 <= b0 < 256 -> 0 <= b1 < 256 -> 0 <= b2 < 256 -> 0 <= b3 < 256 ->
  glyph__bswap32 (b0 + 256 * b1 + 65536 * b2 + 16777216 * b3)
  = b3 + 256 * b2 + 65536 * b1 + 16777216 * b0.
Proof.
  intros H0 H1 H2 H3. unfold glyph__bswap32, uint32.
  set (v := b0 + 256 * b1 + 65536 * b2 + 16777216 * b3).
  rewrite land_255.
  change 65280 with (255 * 2 ^ 8). change 16711680 with (255 * 2 ^ 16).
  change 4278190080 with (255 * 2 ^ 24).
  rewrite !mask_byte by lia.
  rewrite !Z.shiftl_mul_pow2, !Z.shiftr_div_pow2 by lia.
  assert (E0 : v mod 256 = b0).
  { symmetry. apply Z.mod_unique with (b1 + 256 * b2 + 65536 * b3); unfold v; lia. }
  assert (E1 : (v / 2 ^ 8) mod 256 = b1).
  { replace (v / 2 ^ 8) with (b1 + 256 * b2 + 65536 * b3)
      by (apply Z.div_unique with b0; unfold v; lia).
    symmetry. apply Z.mod_unique with (b2 + 256 * b3); lia. }
  assert (E2 : (v / 2 ^ 16) mod 256 = b2).
  { replace (v / 2 ^ 16) with (b2 + 256 * b3)
      by (apply Z.div_unique with (b0 + 256 * b1); unfold v; lia).
    symmetry. apply Z.mod_unique with b3; lia. }
  assert (E3 : (v / 2 ^ 24) mod 256 = b3).
  { replace (v / 2 ^ 24) with b3
      by (apply Z.div_unique with (b0 + 256 * b1 + 65536 * b2); unfold v; lia).
    apply Z.mod_small. lia. }
  rewrite E0, E1, E2, E3.
  rewrite (Z.mod_small (b0 * 2 ^ 24)) by lia.
  rewrite (Z.mod_small (b1 * 2 ^ 8 * 2 ^ 8)) by lia.
  rewrite Z.div_mul by lia.
  replace (b1 * 2 ^ 8 * 2 ^ 8) with (b1 * 2 ^ 16) by (change (2 ^ 16) with (2 ^ 8 * 2 ^ 8); ring).
  rewrite (lor_disjoint 24 b0 (b1 * 2 ^ 16)) by lia.
  replace (b0 * 2 ^ 24 + b1 * 2 ^ 16) with ((b0 * 256 + b1) * 2 ^ 16)
    by (change (2 ^ 24) with (256 * 2 ^ 16); ring).
  replace (b2 * 2 ^ 16 / 2 ^ 8) with (b2 * 2 ^ 8)
    by (apply Z.div_unique with 0; lia).
  rewrite (lor_disjoint 16 _ (b2 * 2 ^ 8)) by lia.
  replace ((b0 * 256 + b1) * 2 ^ 16 + b2 * 2 ^ 8)
    with (((b0 * 256 + b1) * 256 + b2) * 2 ^ 8)
    by (change (2 ^ 16) with (256 * 2 ^ 8); ring).
  rewrite (lor_disjoint 8 _ b3) by lia.
  rewrite Z.mod_small by lia. lia.
Qed.

Lemma bswap16_involutive (v : Z) :
  0 <= v < 2 ^ 16 -> glyph__bswap16 (glyph__bswap16 v) = v.
Proof.
  intros Hv.
  pose proof (Z.div_mod v 256 ltac:(lia)) as E.
  pose proof (Z.mod_pos_bound v 256 ltac:(lia)).
  assert (0 <= v / 256 < 256).
  { split; [apply Z.div_pos; lia|apply Z.div_lt_upper_bound; lia]. }
  replace v with (v mod 256 + 256 * (v / 256)) at 1 by lia.
  rewrite !bswap16_bytes by lia. lia.
Qed.

Lemma bswap32_involutive (v : Z) :
  0 <= v < 2 ^ 32 -> glyph__bswap32 (glyph__bswap32 v) = v.
Proof.
  intros Hv.
  pose proof (Z.div_mod v 256 ltac:(lia)) as E0.
  pose proof (Z.div_mod (v / 256) 256 ltac:(lia)) as E1.
  pose proof (Z.div_mod (v / 256 / 256) 256 ltac:(lia)) as E2.
  pose proof (Z.mod_pos_bound v 256 ltac:(lia)).
  pose proof (Z.mod_pos_bound (v / 256) 256 ltac:(lia)).
  pose proof (Z.mod_pos_bound (v / 256 / 256) 256 ltac:(lia)).
  assert (0 <= v / 256 / 256 / 256 < 256).
  { split; [repeat apply Z.div_pos; lia|].
    repeat (apply Z.div_lt_upper_bound; [lia|]). lia. }
  replace v with (v mod 256 + 256 * ((v / 256) mod 256)
                  + 65536 * ((v / 256 / 256) mod 256)
                  + 16777216 * (v / 256 / 256 / 256)) at 1 by lia.
  rewrite !bswap32_bytes by lia. lia.
Qed.

Lemma load16_bytes (data : bytes) (o : Z) :
  0 <= data o < 256 -> 0 <= data (o + 1) < 256 ->
  load16 data o = data o + 256 * data (o + 1).
Proof.
  intros H0 H1. unfold load16. rewrite Z.shiftl_mul_pow2 by lia.
  rewrite Z.lor_comm, lor_disjoint by lia. change (2 ^ 8) with 256. lia.
Qed.

Lemma load32_bytes (data : bytes) (o : Z) :
  0 <= data o < 256 -> 0 <= data (o + 1) < 256 ->
  0 <= data (o + 2) < 256 -> 0 <= data (o + 3) < 256 ->
  load32 data o
  = data o + 256 * data (o + 1) + 65536 * data (o + 2) + 16777216 * data (o + 3).
Proof.
  intros H0 H1 H2 H3. unfold load32. rewrite !Z.shiftl_mul_pow2 by lia.
  rewrite (Z.lor_comm (data o)), (lor_disjoint 8) by lia.
  rewrite (Z.lor_comm (data (o + 2) * 2 ^ 16)).
  replace (data (o + 3) * 2 ^ 24) with (data (o + 3) * 256 * 2 ^ 16)
    by (change (2 ^ 24) with (256 * 2 ^ 16); ring).
  rewrite (Z.lor_comm _ (data (o + 2) * 2 ^ 16)).
  assert (E : Z.lor (data (o + 2) * 2 ^ 16) (data (o + 3) * 256 * 2 ^ 16)
              = (data (o + 2) + data (o + 3) * 256) * 2 ^ 16).
  { rewrite <- !Z.shiftl_mul_pow2, <- Z.shiftl_lor by lia. f_equal.
    rewrite Z.lor_comm. change 256 with (2 ^ 8). rewrite lor_disjoint by lia. ring. }
  rewrite E. rewrite Z.lor_comm, lor_disjoint by lia.
  change (2 ^ 16) with 65536. change (2 ^ 8) with 256. lia.
Qed.

Lemma get16u_bytes (data : bytes) (o : Z) :
  0 <= data o < 256 -> 0 <= data (o + 1) < 256 ->
  glyph_ttf__get16u data o = 256 * data o + data (o + 1).
Proof.
  intros H0 H1. unfold glyph_ttf__get16u.
  rewrite load16_bytes, bswap16_bytes by lia. lia.
Qed.

Lemma int16_value (u : Z) :
  0 <= u < 65536 -> int16 u = if u <? 32768 then u else u - 65536.
Proof.
  intros H. unfold int16. change (2 ^ 15) with 32768. change (2 ^ 16) with 65536.
  destruct (Z.ltb_spec u 32768).
  - rewrite Z.mod_small by lia. lia.
  - replace (u + 32768) with (u - 32768 + 1 * 65536) by ring.
    rewrite Z.mod_add, Z.mod_small by lia. lia.
Qed.

Lemma int32_value (u : Z) :
  0 <= u < 4294967296 -> int32 u = if u <? 2147483648 then u else u - 4294967296.
Proof.
  intros H. unfold int32. change (2 ^ 31) with 2147483648.
  change (2 ^ 32) with 4294967296.
  destruct (Z.ltb_spec u 2147483648).
  - rewrite Z.mod_small by lia. lia.
  - replace (u + 2147483648) with (u - 2147483648 + 1 * 4294967296) by ring.
    rewrite Z.mod_add, Z.mod_small by lia. lia.
Qed.

Lemma get16_bytes (data : bytes) (o : Z) :
  0 <= data o < 256 -> 0 <= data (o + 1) < 256 ->
  glyph_ttf__get16 data o
  = let u := 256 * data o + data (o + 1) in if u <? 32768 then u else u - 65536.
Proof.
  intros H0 H1. unfold glyph_ttf__get16.
  fold (glyph_ttf__get16u data o). rewrite get16u_bytes by lia.
  cbv zeta. apply int16_value. lia.
Qed.

Lemma get32_bytes (data : bytes) (o : Z) :
  0 <= data o < 256 -> 0 <= data (o + 1) < 256 ->
  0 <= data (o + 2) < 256 -> 0 <= data (o + 3) < 256 ->
  glyph_ttf__get32 data o
  = let u := 16777216 * data o + 65536 * data (o + 1) + 256 * data (o + 2)
             + data (o + 3) in
    if u <? 2147483648 then u else u - 4294967296.
Proof.
  intros H0 H1 H2 H3. unfold glyph_ttf__get32.
  rewrite load32_bytes, bswap32_bytes by lia. cbv zeta.
  rewrite <- int32_value by lia. f_equal. lia.
Qed.

End ByteOrder.

(** * Table directory, loading and the other character-map formats *)

Section TableDirectory.
Import Mach TrueType FontSpec.

Lemma find_table_loop_first (data : bytes) (tabledir : Z) (tag : string) :
  forall (n : nat) (i k : Z),
    i <= k < i + Z.of_nat n ->
    tag_at data (tabledir + 16 * k) tag = true ->
    (forall j, i <= j < k -> tag_at data (tabledir + 16 * j) tag = false) ->
    find_table_loop data tabledir tag n i = glyph_ttf__get32 data (tabledir + 16 * k + 8).
Proof.
  induction n as [|n IH]; intros i k Hk Ht Hfirst; [lia|].
  cbn [find_table_loop]. destruct (Z.eq_dec i k) as [->|Hne].
  - rewrite Ht. reflexivity.
  - rewrite (Hfirst i) by lia. apply IH; [lia|assumption|].
    intros j Hj. apply Hfirst. lia.
Qed.

Lemma init_outcome (font : glyph_font_t) (d : bytes) (offset : Z) :
  let t := glyph_ttf__find_table d offset in
  let im := cmap_scan d (t "cmap"%string) (Z.to_nat (glyph_ttf__get16u d (t "cmap"%string + 2))) 0 in
  let ok :=
    glyph_ttf__isfont (advance_ptr d offset)
    && truthy (t "cmap"%string) && truthy (t "head"%string) && truthy (t "hhea"%string) && truthy (t "hmtx"%string)
    && (negb (truthy (t "glyf"%string)) || truthy (t "loca"%string))
    && truthy im in
  fst (glyph_ttf_init font d offset) = (if ok then 1 else 0)
  /\ (ok = true ->
      snd (glyph_ttf_init font d offset)
      = mk_font d offset (glyph_ttf__get16u d (t "hhea"%string + 34))
                (t "loca"%string) (t "head"%string) (t "glyf"%string) (t "hhea"%string) (t "hmtx"%string) (t "kern"%string)
                (t "GPOS"%string) (t "cmap"%string) im (glyph_ttf__get16 d (t "head"%string + 50))
                (scale font)).
Proof.
  cbv zeta. unfold glyph_ttf_init.
  destruct (glyph_ttf__isfont (advance_ptr d offset)); cbn [negb andb fst snd];
    [|split; [reflexivity|discriminate]].
  unfold set_source, set_tables, set_indexToLocFormat, set_index_map, set_numGlyphs.
  cbn [cmap head hhea hmtx glyf loca kern gpos data fontstart numGlyphs index_map
       indexToLocFormat scale].
  destruct (truthy (glyph_ttf__find_table d offset "cmap")); cbn [negb andb orb fst snd];
    [|split; [reflexivity|discriminate]].
  destruct (truthy (glyph_ttf__find_table d offset "head")); cbn [negb andb orb fst snd];
    [|split; [reflexivity|discriminate]].
  destruct (truthy (glyph_ttf__find_table d offset "hhea")); cbn [negb andb orb fst snd];
    [|split; [reflexivity|discriminate]].
  destruct (truthy (glyph_ttf__find_table d offset "hmtx")); cbn [negb andb orb fst snd];
    [|split; [reflexivity|discriminate]].
  destruct (truthy (glyph_ttf__find_table d offset "glyf")),
           (truthy (glyph_ttf__find_table d offset "loca"));
    cbn [negb andb orb fst snd]; try (split; [reflexivity|discriminate]).
  all: destruct (truthy (cmap_scan d _ _ 0)); cbn [negb andb orb fst snd];
    split; try reflexivity; try discriminate; intros _; reflexivity.
Qed.

End TableDirectory.

Section OtherFormats.
Import Mach TrueType FontSpec CmapSpec.

Lemma format4_loop_indirect (font : glyph_font_t) (codepoint : Z) :
  forall (n : nat) (i k : Z),
    i <= k < i + Z.of_nat n ->
    covers font k codepoint ->
    (forall j, i <= j < k -> ~ covers font j codepoint) ->
    seg_range_offset font k <> 0 ->
    format4_loop (data font) codepoint (index_map font + 14)
      (index_map font + 14 + segcount font * 2 + 2)
      (index_map font + 14 + segcount font * 2 + 2 + segcount font * 2)
      (index_map font + 14 + segcount font * 2 + 2 + segcount font * 2
       + segcount font * 2) n i
    = let glyphIndex := glyph_ttf__get16u (data font) (glyph_id_slot font k codepoint) in
      if glyphIndex =? 0 then 0
      else (glyphIndex + seg_delta font k) mod 65536.
Proof.
  induction n as [|n IH]; intros i k Hk Hcov Hfirst Hro; [lia|].
  cbn [format4_loop]. destruct (Z.eq_dec i k) as [->|Hne].
  - unfold covers, seg_start, seg_end in Hcov.
    destruct (Z.leb_spec codepoint
                (glyph_ttf__get16u (data font) (index_map font + 14 + k * 2))); [|lia].
    destruct (Z.geb_spec codepoint
                (glyph_ttf__get16u (data font)
                   (index_map font + 14 + segcount font * 2 + 2 + k * 2))); [|lia].
    unfold seg_range_offset in Hro.
    destruct (Z.eqb_spec
                (glyph_ttf__get16u (data font)
                   (index_map font + 14 + segcount font * 2 + 2 + segcount font * 2
                    + segcount font * 2 + k * 2)) 0) as [E|_]; [contradiction|].
    cbv zeta. unfold glyph_id_slot, seg_range_offset, seg_start, seg_delta, truthy.
    match goal with
    | |- context [negb (?a =? 0)] => destruct (Z.eqb_spec a 0) as [E|E]
    end; cbn [negb]; [reflexivity|].
    apply land_65535.
  - rewrite (IH (i + 1) k) by (try assumption; try lia; intros j Hj; apply Hfirst; lia).
    pose proof (Hfirst i ltac:(lia)) as Hi. unfold covers, seg_start, seg_end in Hi.
    destruct (Z.leb_spec codepoint
                (glyph_ttf__get16u (data font) (index_map font + 14 + i * 2)));
      [|reflexivity].
    destruct (Z.geb_spec codepoint
                (glyph_ttf__get16u (data font)
                   (index_map font + 14 + segcount font * 2 + 2 + i * 2)));
      [|reflexivity].
    exfalso. apply Hi. lia.
Qed.

Lemma format4_loop_range (d : bytes) (codepoint e s dl ro : Z) :
  forall (n : nat) (i : Z), 0 <= format4_loop d codepoint e s dl ro n i < 65536.
Proof.
  induction n as [|n IH]; intros i; cbn [format4_loop]; [lia|].
  pose proof (IH (i + 1)).
  repeat match goal with
         | |- context [if ?c then _ else _] => destruct c
         end; rewrite ?land_65535; try lia; apply Z.mod_pos_bound; lia.
Qed.

Lemma format12_loop_none (font : glyph_font_t) (codepoint format : Z) :
  forall (n : nat) (i : Z),
    (forall k, i <= k < i + Z.of_nat n -> ~ in_group font k codepoint) ->
    format12_loop (data font) codepoint (index_map font) format n i = 0.
Proof.
  induction n as [|n IH]; intros i H; cbn [format12_loop]; [reflexivity|].
  pose proof (H i ltac:(lia)) as Hi. unfold in_group, group_start, group_end in Hi.
  destruct (Z.geb_spec codepoint
              (glyph_ttf__get32 (data font) (index_map font + 16 + i * 12)));
    destruct (Z.leb_spec codepoint
                (glyph_ttf__get32 (data font) (index_map font + 16 + i * 12 + 4)));
    cbn [andb]; try (apply IH; intros k Hk; apply H; lia).
  exfalso. apply Hi. lia.
Qed.

Lemma format12_loop_first (font : glyph_font_t) (codepoint format : Z) :
  forall (n : nat) (i k : Z),
    i <= k < i + Z.of_nat n ->
    in_group font k codepoint ->
    (forall j, i <= j < k -> ~ in_group font j codepoint) ->
    format12_loop (data font) codepoint (index_map font) format n i
    = if format =? 12
      then int32 (group_glyph font k + int32 (codepoint - group_start font k))
      else group_glyph font k.
Proof.
  induction n as [|n IH]; intros i k Hk Hin Hfirst; [lia|].
  cbn [format12_loop]. destruct (Z.eq_dec i k) as [->|Hne].
  - unfold in_group, group_start, group_end in Hin.
    destruct (Z.geb_spec codepoint
                (glyph_ttf__get32 (data font) (index_map font + 16 + k * 12))); [|lia].
    destruct (Z.leb_spec codepoint
                (glyph_ttf__get32 (data font) (index_map font + 16 + k * 12 + 4))); [|lia].
    reflexivity.
  - pose proof (Hfirst i ltac:(lia)) as Hi. unfold in_group, group_start, group_end in Hi.
    destruct (Z.geb_spec codepoint
                (glyph_ttf__get32 (data font) (index_map font + 16 + i * 12)));
      destruct (Z.leb_spec codepoint
                  (glyph_ttf__get32 (data font) (index_map font + 16 + i * 12 + 4)));
      cbn [andb];
      try (apply IH; [lia|assumption|intros j Hj; apply Hfirst; lia]).
    exfalso. apply Hi. lia.
Qed.

Lemma find_glyph_index_format12 (font : glyph_font_t) (codepoint : Z) :
  cmap_format font = 12 \/ cmap_format font = 13 ->
  glyph_ttf_find_glyph_index font codepoint
  = format12_loop (data font) codepoint (index_map font) (cmap_format font)
                  (Z.to_nat (group_count font)) 0.
Proof.
  intros Hf. unfold glyph_ttf_find_glyph_index, cmap_format in *.
  destruct Hf as [Hf|Hf]; rewrite Hf; reflexivity.
Qed.

End OtherFormats.

Section GlyphMetrics.
Import Mach TrueType FontSpec CmapSpec.

Lemma get32_range (d : bytes) (o : Z) : - 2 ^ 31 <= glyph_ttf__get32 d o <= INT_MAX.
Proof. apply int32_range. Qed.

Lemma loca_entry_range (font : glyph_font_t) (k : Z) :
  - 2 ^ 31 <= loca_entry font k <= INT_MAX.
Proof.
  unfold loca_entry. destruct (truthy (indexToLocFormat font)).
  - apply get32_range.
  - pose proof (get16u_range (data font) (loca font + k * 2)) as H.
    unfold INT_MAX. change (2 ^ 16) with 65536 in H. change (2 ^ 31) with 2147483648. lia.
Qed.

(** The value that [glyph_ttf__get_glyph_offset] compares and returns for
    entry [k] of the loca table. *)
Lemma glyph_offset_unfold (font : glyph_font_t) (glyph_index : Z) :
  glyph_ttf__get_glyph_offset font glyph_index
  = if int32 (glyf font + loca_entry font glyph_index)
       =? int32 (glyf font + loca_entry font (glyph_index + 1))
    then -1 else int32 (glyf font + loca_entry font glyph_index).
Proof.
  unfold loca_entry, glyph_ttf__get_glyph_offset. cbv zeta.
  rewrite !int32_unsigned_add.
  destruct (truthy (indexToLocFormat font)).
  - replace (loca font + glyph_index * 4 + 4) with (loca font + (glyph_index + 1) * 4) by lia.
    reflexivity.
  - replace (loca font + glyph_index * 2 + 2) with (loca font + (glyph_index + 1) * 2) by lia.
    pose proof (get16u_range (data font) (loca font + glyph_index * 2)) as H1.
    pose proof (get16u_range (data font) (loca font + (glyph_index + 1) * 2)) as H2.
    change (2 ^ 16) with 65536 in H1, H2.
    unfold uint32. change (2 ^ 32) with 4294967296.
    rewrite !Z.mod_small by lia. reflexivity.
Qed.

(** A glyph that is not empty is located at the wrapped sum. *)
Lemma glyph_offset_wrapped (font : glyph_font_t) (glyph_index : Z) :
  ~ empty_glyph font glyph_index ->
  glyph_ttf__get_glyph_offset font glyph_index
  = int32 (glyf font + loca_entry font glyph_index).
Proof.
  intros H. rewrite glyph_offset_unfold.
  destruct (Z.eqb_spec (int32 (glyf font + loca_entry font glyph_index))
                       (int32 (glyf font + loca_entry font (glyph_index + 1))))
    as [E|_]; [|reflexivity].
  exfalso. apply H. unfold empty_glyph.
  apply (int32_add_cancel (glyf font)); [|exact E].
  pose proof (loca_entry_range font glyph_index) as H1.
  pose proof (loca_entry_range font (glyph_index + 1)) as H2.
  unfold INT_MAX in *. change (2 ^ 31) with 2147483648 in *.
  change (2 ^ 32) with 4294967296. lia.
Qed.

Lemma glyph_offset_located (font : glyph_font_t) (glyph_index : Z) :
  ~ empty_glyph font glyph_index ->
  0 <= glyf font + loca_entry font glyph_index <= INT_MAX ->
  glyph_ttf__get_glyph_offset font glyph_index = glyf font + loca_entry font glyph_index.
Proof.
  intros H Hg. rewrite glyph_offset_wrapped by exact H.
  apply int32_fits. lia.
Qed.

(** A sum in the upper half of [unsigned int] wraps to a negative [int]:
    the glyph is taken for an empty one. *)
Lemma glyph_offset_negative (font : glyph_font_t) (glyph_index : Z) :
  INT_MAX < glyf font + loca_entry font glyph_index < 2 ^ 32 ->
  glyph_ttf__get_glyph_offset font glyph_index < 0.
Proof.
  intros Hg. rewrite glyph_offset_unfold.
  assert (E : int32 (glyf font + loca_entry font glyph_index)
              = glyf font + loca_entry font glyph_index - 2 ^ 32).
  { unfold int32, INT_MAX in *. change (2 ^ 31) with 2147483648 in *.
    change (2 ^ 32) with 4294967296 in *.
    rewrite <- (Z.mod_unique (glyf font + loca_entry font glyph_index + 2147483648)
                  4294967296 1
                  (glyf font + loca_entry font glyph_index + 2147483648 - 4294967296))
      by lia.
    lia. }
  destruct (_ =? _); [lia|]. rewrite E. lia.
Qed.

Lemma bbox_keeps_metrics (font : glyph_font_t) (glyph_index : Z) (bbox : glyph_bbox_t) :
  advance (glyph_ttf_get_glyph_bbox font glyph_index bbox) = advance bbox
  /\ left_side_bearing (glyph_ttf_get_glyph_bbox font glyph_index bbox)
     = left_side_bearing bbox.
Proof.
  unfold glyph_ttf_get_glyph_bbox, zero_box.
  destruct (_ >=? _); [split; reflexivity|].
  destruct (_ <? 0); split; reflexivity.
Qed.

Lemma advance_tail (font : glyph_font_t) (glyph_index : Z) :
  long_metrics font <= glyph_index ->
  glyph_ttf_get_glyph_advance font glyph_index
  = glyph_ttf__get16u (data font) (hmtx font + 4 * (long_metrics font - 1)).
Proof.
  intros H. unfold glyph_ttf_get_glyph_advance, long_metrics in *.
  destruct (Z.ltb_spec glyph_index (glyph_ttf__get16u (data font) (hhea font + 34)));
    [lia|reflexivity].
Qed.

Lemma advance_head (font : glyph_font_t) (glyph_index : Z) :
  glyph_index < long_metrics font ->
  glyph_ttf_get_glyph_advance font glyph_index
  = glyph_ttf__get16u (data font) (hmtx font + 4 * glyph_index).
Proof.
  intros H. unfold glyph_ttf_get_glyph_advance, long_metrics in *.
  destruct (Z.ltb_spec glyph_index (glyph_ttf__get16u (data font) (hhea font + 34)));
    [reflexivity|lia].
Qed.

End GlyphMetrics.

(** X1: the two byte swaps exchange the bytes of a 16-bit value and reverse
    the four bytes of a 32-bit value; applied twice they give the value
    back. *)
Theorem byte_swap_round_trip :
  (forall lo hi, 0 <= lo < 256 -> 0 <= hi < 256 ->
     Util.glyph__bswap16 (lo + 256 * hi) = hi + 256 * lo)
  /\ (forall b0 b1 b2 b3,
        0 <= b0 < 256 -> 0 <= b1 < 256 -> 0 <= b2 < 256 -> 0 <= b3 < 256 ->
        Util.glyph__bswap32 (b0 + 256 * b1 + 65536 * b2 + 16777216 * b3)
        = b3 + 256 * b2 + 65536 * b1 + 16777216 * b0)
  /\ (forall v, 0 <= v < 2 ^ 16 -> Util.glyph__bswap16 (Util.glyph__bswap16 v) = v)
  /\ (forall v, 0 <= v < 2 ^ 32 -> Util.glyph__bswap32 (Util.glyph__bswap32 v) = v).
Proof.
  repeat split.
  - apply bswap16_bytes.
  - apply bswap32_bytes.
  - apply bswap16_involutive.
  - apply bswap32_involutive.
Qed.

Lemma byte_swap_round_trip_witness :
  Util.glyph__bswap16 (52 + 256 * 18) = 18 + 256 * 52
  /\ Util.glyph__bswap32 (Util.glyph__bswap32 305419896) = 305419896.
Proof.
  split.
  - apply (proj1 byte_swap_round_trip 52 18); lia.
  - apply (proj2 (proj2 (proj2 byte_swap_round_trip)) 305419896). lia.
Defined.

(** X2: the three readers take the bytes of the buffer most significant
    byte first: [glyph_ttf__get16u] gives the unsigned 16-bit value,
    [glyph_ttf__get16] the same bits as a signed value, and
    [glyph_ttf__get32] the 32 bits as a signed value. *)
Theorem readers_are_big_endian (data : TrueType.bytes) (o : Z) :
  0 <= data o < 256 -> 0 <= data (o + 1) < 256 ->
  (TrueType.glyph_ttf__get16u data o = 256 * data o + data (o + 1)
   /\ TrueType.glyph_ttf__get16 data o
      = (let u := 256 * data o + data (o + 1) in if u <? 32768 then u else u - 65536))
  /\ (0 <= data (o + 2) < 256 -> 0 <= data (o + 3) < 256 ->
      TrueType.glyph_ttf__get32 data o
      = (let u := 16777216 * data o + 65536 * data (o + 1) + 256 * data (o + 2)
                  + data (o + 3) in
         if u <? 2147483648 then u else u - 4294967296)).
Proof.
  intros H0 H1. split; [split|].
  - apply get16u_bytes; assumption.
  - apply get16_bytes; assumption.
  - intros H2 H3. apply get32_bytes; assumption.
Qed.

Lemma readers_are_big_endian_witness :
  TrueType.glyph_ttf__get16u (TrueType.bytes_of_list [255; 254; 0; 1]) 0 = 65534
  /\ TrueType.glyph_ttf__get16 (TrueType.bytes_of_list [255; 254; 0; 1]) 0 = -2
  /\ TrueType.glyph_ttf__get32 (TrueType.bytes_of_list [255; 254; 0; 1]) 0 = -131071.
Proof.
  pose proof (readers_are_big_endian (TrueType.bytes_of_list [255; 254; 0; 1]) 0
                ltac:(vm_compute; split; [discriminate|reflexivity])
                ltac:(vm_compute; split; [discriminate|reflexivity]))
    as [[Hu Hs] Hl].
  split; [exact Hu|split; [exact Hs|]].
  apply Hl; vm_compute; split; try discriminate; reflexivity.
Defined.

(** X3: [glyph_ttf__find_table] gives the offset field of the first
    directory entry that carries the tag, among the [numTables] entries that
    follow the 12-byte header, and 0 when none of them carries it. *)
Theorem find_table_first_match (data : TrueType.bytes) (fontstart : Z) (tag : string) :
  (forall k,
      0 <= k < FontSpec.num_tables data fontstart ->
      TrueType.tag_at data (fontstart + 12 + 16 * k) tag = true ->
      (forall j, 0 <= j < k -> TrueType.tag_at data (fontstart + 12 + 16 * j) tag = false) ->
      TrueType.glyph_ttf__find_table data fontstart tag
      = TrueType.glyph_ttf__get32 data (fontstart + 12 + 16 * k + 8))
  /\ ((forall k, 0 <= k < FontSpec.num_tables data fontstart ->
                 TrueType.tag_at data (fontstart + 12 + 16 * k) tag = false) ->
      TrueType.glyph_ttf__find_table data fontstart tag = 0).
Proof.
  split.
  - intros k Hk Ht Hfirst. unfold TrueType.glyph_ttf__find_table.
    apply find_table_loop_first; [|assumption|assumption].
    unfold FontSpec.num_tables in Hk. lia.
  - intros Hnone. unfold TrueType.glyph_ttf__find_table.
    apply find_table_loop_absent. intros k Hk. apply Hnone.
    unfold FontSpec.num_tables.
    pose proof (get16u_range data (fontstart + 4)). lia.
Qed.

Lemma find_table_first_match_witness :
  TrueType.glyph_ttf__find_table Sample.unicode_font 0 "head" = 144
  /\ TrueType.glyph_ttf__find_table Sample.unicode_font 0 "kern" = 0.
Proof.
  split.
  - refine (eq_trans (proj1 (find_table_first_match Sample.unicode_font 0 "head") 2 _ _ _) _).
    + vm_compute. split; [discriminate|reflexivity].
    + vm_compute. reflexivity.
    + intros j Hj. assert (j = 0 \/ j = 1) as [->| ->] by lia; vm_compute; reflexivity.
    + vm_compute. reflexivity.
  - apply (proj2 (find_table_first_match Sample.unicode_font 0 "kern")).
    intros k Hk. change (FontSpec.num_tables Sample.unicode_font 0) with 6 in Hk.
    assert (k = 0 \/ k = 1 \/ k = 2 \/ k = 3 \/ k = 4 \/ k = 5)
      as [->|[->|[->|[->|[->| ->]]]]] by lia; vm_compute; reflexivity.
Defined.

(** X4: [glyph_ttf_init] returns 1 or 0, and the result does not depend on
    what the handle held.  When it returns 1 the signature is an accepted
    one, the offsets of cmap, head, hhea and hmtx and the selected subtable
    offset are not 0, loca is there when glyf is, and the handle holds the
    buffer, the start offset, the eight table offsets, [indexToLocFormat]
    from head + 50 and [numGlyphs] from hhea + 34; [scale] is the one field
    the function never writes. *)
Theorem init_success_handle (font : TrueType.glyph_font_t) (data : TrueType.bytes)
        (offset : Z) :
  let r := TrueType.glyph_ttf_init font data offset in
  let t := TrueType.glyph_ttf__find_table data offset in
  (fst r = 0 \/ fst r = 1)
  /\ (forall other, fst (TrueType.glyph_ttf_init other data offset) = fst r)
  /\ (fst r = 1 ->
      TrueType.glyph_ttf__isfont (TrueType.advance_ptr data offset) = true
      /\ t "cmap"%string <> 0 /\ t "head"%string <> 0 /\ t "hhea"%string <> 0
      /\ t "hmtx"%string <> 0 /\ (t "glyf"%string <> 0 -> t "loca"%string <> 0)
      /\ TrueType.index_map (snd r) <> 0
      /\ snd r
         = TrueType.mk_font data offset
             (TrueType.glyph_ttf__get16u data (t "hhea"%string + 34))
             (t "loca"%string) (t "head"%string) (t "glyf"%string) (t "hhea"%string)
             (t "hmtx"%string) (t "kern"%string) (t "GPOS"%string) (t "cmap"%string)
             (TrueType.index_map (snd r))
             (TrueType.glyph_ttf__get16 data (t "head"%string + 50))
             (TrueType.scale font)).
Proof.
  intros r t. subst r t.
  pose proof (init_outcome font data offset) as [Hfst Hsnd]. cbv zeta in Hfst, Hsnd.
  split; [|split].
  - rewrite Hfst. destruct (_ && _); [right|left]; reflexivity.
  - intros other. rewrite Hfst.
    pose proof (init_outcome other data offset) as [Hfst' _]. cbv zeta in Hfst'.
    exact Hfst'.
  - intros H1. rewrite Hfst in H1.
    match type of H1 with (if ?c then _ else _) = _ => destruct c eqn:Hok end;
      [|discriminate].
    specialize (Hsnd eq_refl).
    repeat (apply andb_prop in Hok; destruct Hok as [Hok ?]).
    repeat match goal with
           | H : Mach.truthy _ = true |- _ => apply truthy_true in H
           end.
    rewrite Hsnd. cbn [TrueType.index_map].
    repeat split; try assumption.
    intros Hglyf.
    match goal with
    | Hor : (negb _ || _) = true |- _ =>
        apply orb_prop in Hor; destruct Hor as [Hno|Hloca]
    end.
    + apply negb_true_iff in Hno. apply truthy_false in Hno. contradiction.
    + apply truthy_true in Hloca. exact Hloca.
Qed.

Lemma init_success_handle_witness :
  TrueType.index_map (snd (TrueType.glyph_ttf_init FontSpec.stale_handle Sample.unicode_font 0))
  <> 0
  /\ TrueType.glyph_ttf__find_table Sample.unicode_font 0 "hmtx" <> 0.
Proof.
  pose proof (init_success_handle FontSpec.stale_handle Sample.unicode_font 0) as H.
  cbv zeta in H. destruct H as (_ & _ & H).
  destruct (H ltac:(vm_compute; reflexivity)) as (_ & _ & _ & _ & Hh & _ & Hi & _).
  split; assumption.
Defined.

(** X5: in a format-4 character map, a codepoint whose first covering
    segment has a non-zero [idRangeOffset] is looked up in the glyph id
    array, at [idRangeOffset + 2 * (codepoint - start)] bytes from the
    segment's [idRangeOffset] field: a stored id of 0 gives glyph 0, any
    other id gives [(id + idDelta) mod 65536]. *)
Theorem find_glyph_index_indirect (font : TrueType.glyph_font_t) (codepoint i : Z) :
  FontSpec.cmap_format font = 4 ->
  0 <= i < FontSpec.segcount font ->
  FontSpec.covers font i codepoint ->
  (forall j, 0 <= j < i -> ~ FontSpec.covers font j codepoint) ->
  FontSpec.seg_range_offset font i <> 0 ->
  TrueType.glyph_ttf_find_glyph_index font codepoint
  = (let id := TrueType.glyph_ttf__get16u (TrueType.data font)
                 (CmapSpec.glyph_id_slot font i codepoint) in
     if id =? 0 then 0 else (id + FontSpec.seg_delta font i) mod 65536).
Proof.
  intros Hf Hi Hcov Hfirst Hro.
  rewrite find_glyph_index_format4 by exact Hf.
  apply format4_loop_indirect; try assumption. lia.
Qed.

Lemma find_glyph_index_indirect_witness :
  TrueType.glyph_ttf_find_glyph_index (CmapSpec.font_of_subtable CmapSpec.indirect_table) 65
  = 10
  /\ TrueType.glyph_ttf_find_glyph_index (CmapSpec.font_of_subtable CmapSpec.indirect_table) 66
     = 0.
Proof.
  split.
  - refine (eq_trans
              (find_glyph_index_indirect
                 (CmapSpec.font_of_subtable CmapSpec.indirect_table) 65 0 _ _ _ _ _) _).
    + vm_compute. reflexivity.
    + vm_compute. split; [discriminate|reflexivity].
    + vm_compute. split; discriminate.
    + intros j Hj. lia.
    + vm_compute. discriminate.
    + vm_compute. reflexivity.
  - refine (eq_trans
              (find_glyph_index_indirect
                 (CmapSpec.font_of_subtable CmapSpec.indirect_table) 66 0 _ _ _ _ _) _).
    + vm_compute. reflexivity.
    + vm_compute. split; [discriminate|reflexivity].
    + vm_compute. split; discriminate.
    + intros j Hj. lia.
    + vm_compute. discriminate.
    + vm_compute. reflexivity.
Defined.

(** X6: in a format-12 or format-13 character map, the first group (in
    table order) whose range holds the codepoint decides: format 12 gives
    the group's start glyph plus the distance of the codepoint from the
    start of the range, provided the distance and the sum fit [int] (both
    are [int] operations in the source), format 13 gives the group's glyph
    for the whole range; the result is then a value of [int].  A codepoint
    in no group maps to 0. *)
Theorem find_glyph_index_groups (font : TrueType.glyph_font_t) (codepoint : Z) :
  FontSpec.cmap_format font = 12 \/ FontSpec.cmap_format font = 13 ->
  (forall i,
      0 <= i < CmapSpec.group_count font ->
      CmapSpec.in_group font i codepoint ->
      (forall j, 0 <= j < i -> ~ CmapSpec.in_group font j codepoint) ->
      (FontSpec.cmap_format font = 12 ->
       OutlineSpec.fits_int (codepoint - CmapSpec.group_start font i)
       /\ OutlineSpec.fits_int
            (CmapSpec.group_glyph font i + (codepoint - CmapSpec.group_start font i))) ->
      TrueType.glyph_ttf_find_glyph_index font codepoint
      = (if FontSpec.cmap_format font =? 12
         then CmapSpec.group_glyph font i + (codepoint - CmapSpec.group_start font i)
         else CmapSpec.group_glyph font i)
      /\ OutlineSpec.fits_int (TrueType.glyph_ttf_find_glyph_index font codepoint))
  /\ ((forall i, 0 <= i < CmapSpec.group_count font ->
                 ~ CmapSpec.in_group font i codepoint) ->
      TrueType.glyph_ttf_find_glyph_index font codepoint = 0).
Proof.
  intros Hf. rewrite find_glyph_index_format12 by exact Hf. split.
  - intros i Hi Hin Hfirst Hfit.
    rewrite (format12_loop_first font codepoint (FontSpec.cmap_format font)
               (Z.to_nat (CmapSpec.group_count font)) 0 i)
      by (try assumption; lia).
    destruct (Z.eqb_spec (FontSpec.cmap_format font) 12) as [E|E].
    + destruct (Hfit E) as [Hd Hs].
      unfold OutlineSpec.fits_int in Hd, Hs.
      rewrite (int32_fits (codepoint - CmapSpec.group_start font i))
        by (unfold Mach.INT_MAX; exact Hd).
      rewrite int32_fits by (unfold Mach.INT_MAX; exact Hs).
      split; [reflexivity|exact Hs].
    + split; [reflexivity|].
      pose proof (get32_range (TrueType.data font) (TrueType.index_map font + 16 + i * 12 + 8))
        as Hr.
      unfold OutlineSpec.fits_int, CmapSpec.group_glyph, Mach.INT_MAX in *. exact Hr.
  - intros Hnone. apply format12_loop_none. intros k Hk. apply Hnone. lia.
Qed.

Lemma find_glyph_index_groups_witness :
  TrueType.glyph_ttf_find_glyph_index
    (CmapSpec.font_of_subtable (CmapSpec.grouped_table 12)) 128514 = 42
  /\ TrueType.glyph_ttf_find_glyph_index
       (CmapSpec.font_of_subtable (CmapSpec.grouped_table 13)) 128514 = 40
  /\ TrueType.glyph_ttf_find_glyph_index
       (CmapSpec.font_of_subtable (CmapSpec.grouped_table 12)) 100 = 0.
Proof.
  split; [|split].
  - refine (eq_trans
              (proj1 (proj1 (find_glyph_index_groups
                               (CmapSpec.font_of_subtable (CmapSpec.grouped_table 12))
                               128514 _)
                            1 _ _ _ _)) _).
    + left. vm_compute. reflexivity.
    + vm_compute. split; [discriminate|reflexivity].
    + vm_compute. split; discriminate.
    + intros j Hj. assert (j = 0) as -> by lia. vm_compute. intros [_ H]. apply H. reflexivity.
    + intros _. vm_compute. repeat split; discriminate.
    + vm_compute. reflexivity.
  - refine (eq_trans
              (proj1 (proj1 (find_glyph_index_groups
                               (CmapSpec.font_of_subtable (CmapSpec.grouped_table 13))
                               128514 _)
                            1 _ _ _ _)) _).
    + right. vm_compute. reflexivity.
    + vm_compute. split; [discriminate|reflexivity].
    + vm_compute. split; discriminate.
    + intros j Hj. assert (j = 0) as -> by lia. vm_compute. intros [_ H]. apply H. reflexivity.
    + intros H. vm_compute in H. discriminate.
    + vm_compute. reflexivity.
  - apply (proj2 (find_glyph_index_groups
                    (CmapSpec.font_of_subtable (CmapSpec.grouped_table 12)) 100
                    ltac:(left; vm_compute; reflexivity))).
    intros i Hi. change (CmapSpec.group_count _) with 2 in Hi.
    assert (i = 0 \/ i = 1) as [->| ->] by lia; vm_compute.
    + intros [_ H]. apply H. reflexivity.
    + intros [H _]. apply H. reflexivity.
Defined.

(** X7: the remaining formats.  Format 6 maps the codes from [firstCode] to
    [firstCode + entryCount - 1] through its array and every other code to
    0; format 0 maps a code below [length - 6] to the byte stored for it and
    every other code to 0; a subtable of any format other than 0, 4, 6, 12
    and 13 maps every code to 0.  With formats 4 and 6 the result is a
    16-bit value. *)
Theorem find_glyph_index_small_formats (font : TrueType.glyph_font_t) (codepoint : Z) :
  let r := TrueType.glyph_ttf_find_glyph_index font codepoint in
  (FontSpec.cmap_format font = 6 ->
   (CmapSpec.first_code font <= codepoint < CmapSpec.first_code font + CmapSpec.entry_count font ->
    r = TrueType.glyph_ttf__get16u (TrueType.data font)
          (TrueType.index_map font + 10 + (codepoint - CmapSpec.first_code font) * 2))
   /\ (codepoint < CmapSpec.first_code font
       \/ CmapSpec.first_code font + CmapSpec.entry_count font <= codepoint -> r = 0))
  /\ (FontSpec.cmap_format font = 0 ->
      (codepoint < CmapSpec.byte_table_length font - 6 ->
       r = TrueType.data font (TrueType.index_map font + 6 + codepoint))
      /\ (CmapSpec.byte_table_length font - 6 <= codepoint -> r = 0))
  /\ (FontSpec.cmap_format font <> 0 -> FontSpec.cmap_format font <> 4 ->
      FontSpec.cmap_format font <> 6 -> FontSpec.cmap_format font <> 12 ->
      FontSpec.cmap_format font <> 13 -> r = 0)
  /\ (FontSpec.cmap_format font = 4 \/ FontSpec.cmap_format font = 6 -> 0 <= r < 65536).
Proof.
  intros r. subst r.
  unfold TrueType.glyph_ttf_find_glyph_index, FontSpec.cmap_format,
    CmapSpec.first_code, CmapSpec.entry_count, CmapSpec.byte_table_length.
  split; [|split; [|split]].
  - intros Hf. rewrite Hf. cbn [Z.eqb Pos.eqb]. split.
    + intros H.
      destruct (Z.geb_spec codepoint
                  (TrueType.glyph_ttf__get16u (TrueType.data font) (TrueType.index_map font + 6)));
        [|lia].
      destruct (Z.ltb_spec codepoint
                  (TrueType.glyph_ttf__get16u (TrueType.data font) (TrueType.index_map font + 6)
                   + TrueType.glyph_ttf__get16u (TrueType.data font) (TrueType.index_map font + 8)));
        [reflexivity|lia].
    + intros H.
      destruct (Z.geb_spec codepoint
                  (TrueType.glyph_ttf__get16u (TrueType.data font) (TrueType.index_map font + 6)));
        [|reflexivity].
      destruct (Z.ltb_spec codepoint
                  (TrueType.glyph_ttf__get16u (TrueType.data font) (TrueType.index_map font + 6)
                   + TrueType.glyph_ttf__get16u (TrueType.data font) (TrueType.index_map font + 8)));
        [lia|reflexivity].
  - intros Hf. rewrite Hf. cbn [Z.eqb]. split; intros H.
    + destruct (Z.ltb_spec codepoint
                  (TrueType.glyph_ttf__get16u (TrueType.data font) (TrueType.index_map font + 2) - 6));
        [reflexivity|lia].
    + destruct (Z.ltb_spec codepoint
                  (TrueType.glyph_ttf__get16u (TrueType.data font) (TrueType.index_map font + 2) - 6));
        [lia|reflexivity].
  - intros H0 H4 H6 H12 H13.
    repeat match goal with
           | |- context [?a =? ?b] => destruct (Z.eqb_spec a b); [contradiction|]
           end.
    reflexivity.
  - intros [Hf|Hf]; rewrite Hf; cbn [Z.eqb Pos.eqb].
    + apply format4_loop_range.
    + pose proof (get16u_range (TrueType.data font)
                    (TrueType.index_map font + 10
                     + (codepoint
                        - TrueType.glyph_ttf__get16u (TrueType.data font)
                            (TrueType.index_map font + 6)) * 2)).
      destruct (_ && _); lia.
Qed.

Lemma find_glyph_index_small_formats_witness :
  TrueType.glyph_ttf_find_glyph_index (CmapSpec.font_of_subtable CmapSpec.trimmed_table) 33 = 6
  /\ TrueType.glyph_ttf_find_glyph_index (CmapSpec.font_of_subtable CmapSpec.trimmed_table) 35 = 0.
Proof.
  pose proof (find_glyph_index_small_formats
                (CmapSpec.font_of_subtable CmapSpec.trimmed_table) 33) as H33.
  pose proof (find_glyph_index_small_formats
                (CmapSpec.font_of_subtable CmapSpec.trimmed_table) 35) as H35.
  cbv zeta in H33, H35.
  destruct H33 as (H33 & _). destruct H35 as (H35 & _).
  split.
  - refine (eq_trans (proj1 (H33 _) _) _).
    + vm_compute. reflexivity.
    + vm_compute. split; [discriminate|reflexivity].
    + vm_compute. reflexivity.
  - apply (proj2 (H35 ltac:(vm_compute; reflexivity))).
    right. vm_compute. discriminate.
Defined.

(** X8: the bounding-box query never writes the [advance] and
    [left_side_bearing] fields of the box.  The glyph offset is computed in
    [unsigned int] and converted to [int]: for a glyph below the glyph
    count that is not empty, when glyf plus the loca entry lies between 0
    and [INT_MAX] the offset is that sum and the box is the [xMin], [yMin],
    [xMax], [yMax] of the glyph header; when the sum lies above [INT_MAX]
    (and below 2^32) the offset is negative and the box is set to zero, as
    for an empty glyph. *)
Theorem bbox_of_outline (font : TrueType.glyph_font_t) (glyph_index : Z)
        (bbox : TrueType.glyph_bbox_t) :
  let bbox' := TrueType.glyph_ttf_get_glyph_bbox font glyph_index bbox in
  let g := TrueType.glyf font + FontSpec.loca_entry font glyph_index in
  (TrueType.advance bbox' = TrueType.advance bbox
   /\ TrueType.left_side_bearing bbox' = TrueType.left_side_bearing bbox)
  /\ (glyph_index < TrueType.numGlyphs font ->
      ~ FontSpec.empty_glyph font glyph_index ->
      0 <= g <= Mach.INT_MAX ->
      TrueType.glyph_ttf__get_glyph_offset font glyph_index = g
      /\ TrueType.x0 bbox' = FontSpec.xMin font g
      /\ TrueType.y0 bbox' = FontSpec.yMin font g
      /\ TrueType.x1 bbox' = FontSpec.xMax font g
      /\ TrueType.y1 bbox' = FontSpec.yMax font g)
  /\ (Mach.INT_MAX < g < 2 ^ 32 ->
      TrueType.glyph_ttf__get_glyph_offset font glyph_index < 0
      /\ TrueType.x0 bbox' = 0 /\ TrueType.y0 bbox' = 0
      /\ TrueType.x1 bbox' = 0 /\ TrueType.y1 bbox' = 0).
Proof.
  intros bbox' g. subst bbox' g. split; [apply bbox_keeps_metrics|]. split.
  - intros Hn Hne Hg. pose proof (glyph_offset_located font glyph_index Hne Hg) as Hoff.
    split; [exact Hoff|].
    unfold TrueType.glyph_ttf_get_glyph_bbox. rewrite Hoff.
    destruct (Z.geb_spec glyph_index (TrueType.numGlyphs font)); [lia|].
    destruct (Z.ltb_spec (TrueType.glyf font + FontSpec.loca_entry font glyph_index) 0);
      [lia|].
    repeat split.
  - intros Hg. pose proof (glyph_offset_negative font glyph_index Hg) as Hoff.
    split; [exact Hoff|].
    unfold TrueType.glyph_ttf_get_glyph_bbox.
    destruct (_ >=? _); [repeat split|].
    destruct (Z.ltb_spec (TrueType.glyph_ttf__get_glyph_offset font glyph_index) 0);
      [repeat split|lia].
Qed.

Lemma bbox_of_outline_witness :
  (TrueType.x1
     (TrueType.glyph_ttf_get_glyph_bbox Sample.loaded_font 0 (TrueType.mk_bbox 9 9 9 9 9 9))
   = 1000
   /\ TrueType.advance
        (TrueType.glyph_ttf_get_glyph_bbox Sample.loaded_font 0 (TrueType.mk_bbox 9 9 9 9 9 9))
      = 9)
  /\ (TrueType.glyf OutlineSpec.distant_glyph_handle
      + FontSpec.loca_entry OutlineSpec.distant_glyph_handle 0 = 2147483901
      /\ TrueType.glyph_ttf__get_glyph_offset OutlineSpec.distant_glyph_handle 0 < 0
      /\ TrueType.x1
           (TrueType.glyph_ttf_get_glyph_bbox OutlineSpec.distant_glyph_handle 0
              (TrueType.mk_bbox 9 9 9 9 9 9)) = 0).
Proof.
  split.
  - pose proof (bbox_of_outline Sample.loaded_font 0 (TrueType.mk_bbox 9 9 9 9 9 9)) as H.
    cbv zeta in H. destruct H as [[Ha _] [H _]].
    destruct H as (_ & _ & _ & Hx & _).
    + vm_compute. reflexivity.
    + vm_compute. discriminate.
    + vm_compute. split; discriminate.
    + split; [|exact Ha]. rewrite Hx. vm_compute. reflexivity.
  - pose proof (bbox_of_outline OutlineSpec.distant_glyph_handle 0
                  (TrueType.mk_bbox 9 9 9 9 9 9)) as H.
    cbv zeta in H. destruct H as [_ [_ H]].
    destruct H as (Hoff & _ & _ & Hx & _).
    + vm_compute. split; reflexivity.
    + split; [vm_compute; reflexivity|]. split; [exact Hoff|exact Hx].
Defined.

(** X9: the advance width of a glyph below [numOfLongHorMetrics] is its own
    entry of hmtx; every glyph from the last entry on shares the advance of
    that last entry; the result is a 16-bit value. *)
Theorem advance_of_glyph (font : TrueType.glyph_font_t) (glyph_index : Z) :
  (glyph_index < CmapSpec.long_metrics font ->
   TrueType.glyph_ttf_get_glyph_advance font glyph_index
   = TrueType.glyph_ttf__get16u (TrueType.data font) (TrueType.hmtx font + 4 * glyph_index))
  /\ (CmapSpec.long_metrics font - 1 <= glyph_index ->
      TrueType.glyph_ttf_get_glyph_advance font glyph_index
      = TrueType.glyph_ttf_get_glyph_advance font (CmapSpec.long_metrics font - 1))
  /\ 0 <= TrueType.glyph_ttf_get_glyph_advance font glyph_index < 65536.
Proof.
  split; [|split].
  - apply advance_head.
  - intros H. rewrite (advance_head font (CmapSpec.long_metrics font - 1)) by lia.
    destruct (Z.eq_dec glyph_index (CmapSpec.long_metrics font - 1)) as [->|Hne].
    + apply advance_head. lia.
    + apply advance_tail. lia.
  - unfold TrueType.glyph_ttf_get_glyph_advance.
    destruct (_ <? _); apply get16u_range.
Qed.

Lemma advance_of_glyph_witness :
  TrueType.glyph_ttf_get_glyph_advance Sample.loaded_font 1 = 500
  /\ TrueType.glyph_ttf_get_glyph_advance Sample.loaded_font 40 = 1000.
Proof.
  split.
  - refine (eq_trans (proj1 (advance_of_glyph Sample.loaded_font 1) _) _).
    + vm_compute. reflexivity.
    + vm_compute. reflexivity.
  - refine (eq_trans (proj1 (proj2 (advance_of_glyph Sample.loaded_font 40)) _) _).
    + vm_compute. discriminate.
    + vm_compute. reflexivity.
Defined.

(** * Outline decoding *)

Section FlagDecoding.
Import Mach TrueType Outline OutlineSpec.

Lemma repeat_flag_length (flag n_points : Z) :
  forall (count : nat) (r repeat_count : Z) (pf : list Z),
    Z.of_nat (List.length pf) <= n_points ->
    (List.length pf <= List.length (repeat_flag flag n_points count r repeat_count pf))%nat
    /\ Z.of_nat (List.length (repeat_flag flag n_points count r repeat_count pf)) <= n_points.
Proof.
  induction count as [|count IH]; intros r rc pf Hpf; cbn [repeat_flag]; [lia|].
  destruct (r <? rc); cbn [andb]; [|lia].
  destruct (Z.ltb_spec (Z.of_nat (List.length pf)) n_points); [|lia].
  specialize (IH (r + 1) rc (pf ++ [flag])).
  rewrite length_app in IH. cbn [List.length] in IH. lia.
Qed.

Lemma read_flags_length (data : bytes) (n_points : Z) :
  forall (fuel : nat) (pf : list Z) (di : Z),
    Z.of_nat (List.length pf) <= n_points ->
    n_points - Z.of_nat (List.length pf) <= Z.of_nat fuel ->
    Z.of_nat (List.length (fst (read_flags data n_points fuel pf di))) = n_points
    /\ di <= snd (read_flags data n_points fuel pf di)
       <= di + 2 * (n_points - Z.of_nat (List.length pf)).
Proof.
  induction fuel as [|fuel IH]; intros pf di Hpf Hfuel; cbn [read_flags].
  - cbn [fst snd]. lia.
  - destruct (Z.ltb_spec (Z.of_nat (List.length pf)) n_points); cbn [negb fst snd]; [|lia].
    assert (Hlen : Z.of_nat (List.length (pf ++ [data di])) = Z.of_nat (List.length pf) + 1).
    { rewrite length_app. cbn [List.length]. lia. }
    destruct (truthy (Z.land (data di) 8)).
    + pose proof (repeat_flag_length (data di) n_points
                    (Z.to_nat (data (di + 1))) 0 (data (di + 1)) (pf ++ [data di])
                    ltac:(lia)) as [Hlo Hhi].
      specialize (IH (repeat_flag (data di) n_points (Z.to_nat (data (di + 1))) 0
                                  (data (di + 1)) (pf ++ [data di]))
                     (di + 1 + 1) Hhi ltac:(lia)).
      lia.
    + specialize (IH (pf ++ [data di]) (di + 1) ltac:(lia) ltac:(lia)). lia.
Qed.

Lemma read_flags_plain (data : bytes) (n_points : Z) :
  forall (fuel : nat) (pf : list Z) (di : Z),
    Z.of_nat (List.length pf) <= n_points ->
    n_points - Z.of_nat (List.length pf) <= Z.of_nat fuel ->
    (forall j, di <= j < di + (n_points - Z.of_nat (List.length pf)) ->
               Z.land (data j) 8 = 0) ->
    read_flags data n_points fuel pf di
    = (pf ++ map data (Arr.range di (di + (n_points - Z.of_nat (List.length pf)))),
       di + (n_points - Z.of_nat (List.length pf))).
Proof.
  induction fuel as [|fuel IH]; intros pf di Hpf Hfuel Hplain; cbn [read_flags].
  - replace (n_points - Z.of_nat (List.length pf)) with 0 by lia.
    rewrite range_empty by lia. cbn [map]. rewrite app_nil_r, Z.add_0_r. reflexivity.
  - destruct (Z.ltb_spec (Z.of_nat (List.length pf)) n_points); cbn [negb].
    + rewrite (Hplain di) by lia. cbn [truthy Z.eqb negb].
      assert (Hlen : Z.of_nat (List.length (pf ++ [data di])) = Z.of_nat (List.length pf) + 1).
      { rewrite length_app. cbn [List.length]. lia. }
      rewrite IH by (try lia; intros j Hj; apply Hplain; lia).
      rewrite Hlen.
      rewrite (range_cons di) by lia. cbn [map]. rewrite <- app_assoc. cbn [app].
      replace (di + 1 + (n_points - (Z.of_nat (List.length pf) + 1)))
        with (di + (n_points - Z.of_nat (List.length pf))) by lia.
      reflexivity.
    + replace (n_points - Z.of_nat (List.length pf)) with 0 by lia.
      rewrite range_empty by lia. cbn [map]. rewrite app_nil_r, Z.add_0_r. reflexivity.
Qed.

Lemma get16_range (data : bytes) (o : Z) : - 32768 <= glyph_ttf__get16 data o <= 32767.
Proof.
  unfold glyph_ttf__get16, int16. change (2 ^ 15) with 32768. change (2 ^ 16) with 65536.
  pose proof (Z.mod_pos_bound (Util.glyph__bswap16 (load16 data o) + 32768) 65536 ltac:(lia)).
  lia.
Qed.

Lemma read_coords_bounds (data : bytes) (short same : Z) :
  byte_memory data ->
  forall (flags : list Z) (v di : Z),
    List.length (fst (read_coords data short same flags v di)) = List.length flags
    /\ di <= snd (read_coords data short same flags v di)
       <= di + 2 * Z.of_nat (List.length flags)
    /\ (forall k c, nth_error (fst (read_coords data short same flags v di)) k = Some c ->
                    v - 32768 * (Z.of_nat k + 1) <= c <= v + 32767 * (Z.of_nat k + 1)).
Proof.
  intros Hmem. induction flags as [|flag rest IH]; intros v di; cbn [read_coords].
  - cbn [fst snd List.length]. split; [reflexivity|split; [lia|]].
    intros k c H. destruct k; discriminate.
  - set (step :=
           if truthy (Z.land flag short)
           then (v + (if negb (truthy (Z.land flag same)) then - data di else data di),
                 di + 1)
           else if negb (truthy (Z.land flag same))
                then (v + glyph_ttf__get16 data di, di + 2)
                else (v, di)).
    assert (Hstep : v - 32768 <= fst step <= v + 32767 /\ di <= snd step <= di + 2).
    { subst step. pose proof (Hmem di). pose proof (get16_range data di).
      destruct (truthy (Z.land flag short)), (truthy (Z.land flag same));
        cbn [negb fst snd]; lia. }
    destruct step as [v' di'] eqn:Estep. cbn [fst snd] in Hstep.
    specialize (IH v' di'). destruct (read_coords data short same rest v' di') as [cs dj].
    cbn [fst snd] in *. destruct IH as (IHl & IHd & IHc).
    split; [cbn [List.length]; lia|]. split; [cbn [List.length]; lia|].
    intros k c H. destruct k as [|k]; cbn [nth_error] in H.
    + injection H as <-. lia.
    + specialize (IHc k c H). lia.
Qed.

End FlagDecoding.

Section ContourPoints.
Import Mach TrueType Outline OutlineSpec F32.

Variables (point_flags x_coords y_coords : list Z) (xMin yMax : Z).
Variables (scale_x scale_y : spec_float) (start_pt end_pt : Z).

(** The points the loop emits for point [p]. *)
Let emit (p : Z) : list glyph_point_t :=
  let next_p := if p =? end_pt then start_pt else p + 1 in
  let xp := Arr.get 0 x_coords p in
  let yp := Arr.get 0 y_coords p in
  let pt := mk_point (mul (of_int (xp - xMin)) scale_x)
                     (mul (of_int (yMax - yp)) scale_y)
                     (Z.land (Arr.get 0 point_flags p) 1) in
  if negb (truthy (Z.land (Arr.get 0 point_flags p) 1))
     && negb (truthy (Z.land (Arr.get 0 point_flags next_p) 1))
  then
    [pt;
     mk_point
       (mul (sub (mul (of_int (xp + Arr.get 0 x_coords next_p)) half) (of_int xMin))
            scale_x)
       (mul (sub (of_int yMax) (mul (of_int (yp + Arr.get 0 y_coords next_p)) half))
            scale_y)
       1]
  else [pt].

Lemma contour_points_emit :
  contour_points point_flags x_coords y_coords xMin yMax scale_x scale_y start_pt end_pt
  = flat_map emit (Arr.range start_pt (end_pt + 1)).
Proof. reflexivity. Qed.

Lemma emit_length (p : Z) : (1 <= List.length (emit p) <= 2)%nat.
Proof. unfold emit. destruct (_ && _); cbn [List.length]; lia. Qed.

Lemma emit_head (p : Z) (d : glyph_point_t) (rest : list glyph_point_t) :
  on_curve (hd d (emit p ++ rest)) = Z.land (Arr.get 0 point_flags p) 1.
Proof. unfold emit. destruct (_ && _); reflexivity. Qed.

Lemma flat_map_emit_length (ps : list Z) :
  (List.length ps <= List.length (flat_map emit ps) <= 2 * List.length ps)%nat.
Proof.
  induction ps as [|p ps IH]; cbn [flat_map List.length]; [lia|].
  rewrite length_app. pose proof (emit_length p). lia.
Qed.

(** The points emitted for [p .. end_pt], closed by a point that carries
    the flag of [start_pt]. *)
Lemma emit_no_off_pair (closing : glyph_point_t) :
  on_curve closing = Z.land (Arr.get 0 point_flags start_pt) 1 ->
  forall (n : nat) (p : Z),
    p + Z.of_nat n = end_pt + 1 ->
    no_off_pair (flat_map emit (Arr.range p (end_pt + 1))) closing = true.
Proof.
  intros Hclose. induction n as [|n IH]; intros p Hp.
  - rewrite range_empty by lia. reflexivity.
  - rewrite range_cons by lia. cbn [flat_map].
    specialize (IH (p + 1) ltac:(lia)).
    assert (Hnext :
              on_curve (hd closing (flat_map emit (Arr.range (p + 1) (end_pt + 1))))
              = Z.land (Arr.get 0 point_flags (if p =? end_pt then start_pt else p + 1)) 1).
    { destruct (Z.eqb_spec p end_pt) as [->|Hne].
      - rewrite range_empty by lia. cbn [flat_map hd]. exact Hclose.
      - rewrite range_cons by lia. cbn [flat_map]. apply emit_head. }
    set (tail := flat_map emit (Arr.range (p + 1) (end_pt + 1))) in *.
    unfold emit at 1. cbv zeta.
    destruct (truthy (Z.land (Arr.get 0 point_flags p) 1)) eqn:Ep; cbn [negb andb].
    + cbn [app no_off_pair on_curve]. rewrite Ep. cbn [orb andb]. exact IH.
    + destruct (truthy (Z.land (Arr.get 0 point_flags
                                          (if p =? end_pt then start_pt else p + 1)) 1))
        eqn:En; cbn [negb].
      * cbn [app no_off_pair on_curve]. rewrite Hnext, En, Ep. cbn [orb andb]. exact IH.
      * cbn [app no_off_pair on_curve hd]. rewrite Ep.
        change (truthy 1) with true. cbn [orb andb]. exact IH.
Qed.

Lemma contour_points_closed :
  start_pt <= end_pt ->
  closed_without_off_pair
    (contour_points point_flags x_coords y_coords xMin yMax scale_x scale_y
                    start_pt end_pt) = true.
Proof.
  intros Hle. unfold closed_without_off_pair. rewrite contour_points_emit.
  apply emit_no_off_pair with (n := Z.to_nat (end_pt + 1 - start_pt)); [|lia].
  rewrite range_cons by lia. cbn [flat_map]. apply emit_head.
Qed.

Lemma contour_points_length :
  start_pt <= end_pt ->
  end_pt - start_pt + 1
  <= Z.of_nat
       (List.length
          (contour_points point_flags x_coords y_coords xMin yMax scale_x scale_y
                          start_pt end_pt))
  <= 2 * (end_pt - start_pt + 1).
Proof.
  intros Hle. rewrite contour_points_emit.
  pose proof (flat_map_emit_length (Arr.range start_pt (end_pt + 1))) as H.
  rewrite range_length in H. lia.
Qed.

End ContourPoints.

(** * Rasterization *)

Section Rasterizer.
Import Mach TrueType Outline OutlineSpec F32.

Lemma set_nat_length {A} (l : list A) : forall (n : nat) (v : A),
    List.length (Arr.set_nat l n v) = List.length l.
Proof.
  induction l as [|a l IH]; intros n v; [reflexivity|].
  destruct n; cbn [Arr.set_nat List.length]; [reflexivity|]. rewrite IH. reflexivity.
Qed.

Lemma set_length {A} (l : list A) (i : Z) (v : A) :
  List.length (Arr.set l i v) = List.length l.
Proof. unfold Arr.set. destruct (i <? 0); [reflexivity|apply set_nat_length]. Qed.

Lemma fold_left_length {A B} (f : list A -> B -> list A) (n : nat) :
  (forall l b, List.length l = n -> List.length (f l b) = n) ->
  forall (bs : list B) (l : list A),
    List.length l = n -> List.length (fold_left f bs l) = n.
Proof.
  intros Hf. induction bs as [|b bs IH]; intros l Hl; cbn [fold_left]; [exact Hl|].
  apply IH. apply Hf. exact Hl.
Qed.

Lemma add_edge_length (accum : list spec_float) (w h : Z) (x0 y0 x1 y1 : spec_float) :
  List.length (glyph_ttf__add_edge accum w h x0 y0 x1 y1) = List.length accum.
Proof.
  unfold glyph_ttf__add_edge.
  destruct (ltb _ _); [reflexivity|].
  destruct (gtb y0 y1); (destruct (_ || _); [reflexivity|]);
    apply fold_left_length; try reflexivity;
    intros l y Hl; unfold add_edge_row; cbv zeta;
    destruct (_ && _); rewrite ?set_length; exact Hl.
Qed.

(** A segment whose ends are less than 0.001 apart in height, and a
    segment that lies above row 0 or below the last row, leave the
    accumulator as it is. *)
Lemma add_edge_flat (accum : list spec_float) (w h : Z) (x0 y0 x1 y1 : spec_float) :
  ltb (SFabs (sub y1 y0)) (div (of_int 1) (of_int 1000)) = true ->
  glyph_ttf__add_edge accum w h x0 y0 x1 y1 = accum.
Proof. intros H. unfold glyph_ttf__add_edge. rewrite H. reflexivity. Qed.

Lemma flatten_length (w h : Z) (p0 p1 p2 : glyph_point_t) (n : nat) :
  forall (ts : list Z) (st : list spec_float * spec_float * spec_float),
    List.length (fst (fst st)) = n ->
    List.length (fst (fst (fold_left (flatten_step w h p0 p1 p2) ts st))) = n.
Proof.
  induction ts as [|t ts IH]; intros st Hst; cbn [fold_left]; [exact Hst|].
  apply IH. destruct st as [[accum px0] py0]. cbn [fst] in Hst.
  unfold flatten_step. cbv zeta. cbn [fst]. rewrite add_edge_length. exact Hst.
Qed.

Lemma contour_loop_length (w h : Z) (points : list glyph_point_t) (n_points : Z) :
  forall (fuel : nat) (i : Z) (accum : list spec_float),
    List.length (contour_loop w h points n_points fuel i accum) = List.length accum.
Proof.
  induction fuel as [|fuel IH]; intros i accum; cbn [contour_loop]; [reflexivity|].
  destruct (negb (i <? n_points)); [reflexivity|].
  destruct (_ && _).
  - rewrite IH. apply add_edge_length.
  - destruct (_ && _); [|apply IH].
    match goal with
    | |- context [fold_left (flatten_step ?a ?b ?p ?q ?r) ?ts ?st] =>
        pose proof (flatten_length a b p q r (List.length accum) ts st eq_refl) as Hfl;
        destruct (fold_left (flatten_step a b p q r) ts st) as [[acc' qx] qy]
    end.
    cbn [fst] in Hfl. rewrite IH. exact Hfl.
Qed.

Lemma sweep_row_length (cells : list spec_float) :
  forall winding, List.length (sweep_row cells winding) = List.length cells.
Proof.
  induction cells as [|a cells IH]; intros winding; cbn [sweep_row List.length];
    [reflexivity|]. rewrite IH. reflexivity.
Qed.

Lemma sweep_row_bytes (cells : list spec_float) :
  forall winding, Forall ImageSpec.byte (sweep_row cells winding).
Proof.
  induction cells as [|a cells IH]; intros winding; cbn [sweep_row]; constructor.
  - unfold ImageSpec.byte, to_uchar, uint8. apply Z.mod_pos_bound. lia.
  - apply IH.
Qed.

Lemma sweep_row_blank (n : nat) :
  sweep_row (repeat zero n) zero = repeat 0 n.
Proof.
  induction n as [|n IH]; [reflexivity|].
  cbn [repeat sweep_row].
  change (add zero zero) with zero.
  change (to_uchar (mul (if gtb (SFabs zero) one then one else SFabs zero) (of_int 255)))
    with 0.
  rewrite IH. reflexivity.
Qed.

Lemma flat_map_length_uniform {A} (f : Z -> list A) (n : nat) (ys : list Z) :
  (forall y, In y ys -> List.length (f y) = n) ->
  List.length (flat_map f ys) = (List.length ys * n)%nat.
Proof.
  induction ys as [|y ys IH]; intros H; cbn [flat_map List.length]; [reflexivity|].
  rewrite length_app, H, IH by (try (left; reflexivity); intros; apply H; right; assumption).
  lia.
Qed.

Lemma range_in (lo hi y : Z) : In y (Arr.range lo hi) -> lo <= y < hi.
Proof.
  unfold Arr.range. intros H. apply in_map_iff in H. destruct H as (k & <- & Hk).
  apply in_seq in Hk. lia.
Qed.

(** The sweep over an accumulator of [w * h] cells. *)
Lemma sweep_length (w h : Z) (accum : list spec_float) :
  0 <= w -> 0 <= h -> Z.of_nat (List.length accum) = w * h ->
  Z.of_nat
    (List.length
       (flat_map
          (fun y => sweep_row (firstn (Z.to_nat w) (skipn (Z.to_nat (y * w)) accum)) zero)
          (Arr.range 0 h)))
  = w * h.
Proof.
  intros Hw Hh Hlen.
  rewrite (flat_map_length_uniform _ (Z.to_nat w)).
  - rewrite range_length. nia.
  - intros y Hy. apply range_in in Hy.
    rewrite sweep_row_length, length_firstn, length_skipn. nia.
Qed.

Lemma raster_accumulator_length (w h : Z) (contours : list (list glyph_point_t)) :
  forall accum : list spec_float,
    List.length
      (fold_left
         (fun accum points =>
            let n_points := Z.of_nat (List.length points) in
            if n_points <? 2 then accum
            else contour_loop w h points n_points (List.length points) 0 accum)
         contours accum)
    = List.length accum.
Proof.
  induction contours as [|c cs IH]; intros accum; cbn [fold_left]; [reflexivity|].
  rewrite IH. cbv zeta. destruct (_ <? 2); [reflexivity|apply contour_loop_length].
Qed.

Lemma rasterize_shape_length (w h : Z) (contours : list (list glyph_point_t)) :
  0 <= w -> 0 <= h ->
  Z.of_nat (List.length (glyph_ttf__rasterize_shape w h contours)) = w * h.
Proof.
  intros Hw Hh. unfold glyph_ttf__rasterize_shape. cbv zeta.
  apply sweep_length; try assumption.
  rewrite raster_accumulator_length, repeat_length. nia.
Qed.

Lemma rasterize_shape_bytes (w h : Z) (contours : list (list glyph_point_t)) :
  Forall ImageSpec.byte (glyph_ttf__rasterize_shape w h contours).
Proof.
  unfold glyph_ttf__rasterize_shape. cbv zeta.
  apply Forall_flat_map. apply Forall_forall. intros y _. apply sweep_row_bytes.
Qed.

Lemma raster_accumulator_blank (w h : Z) (contours : list (list glyph_point_t)) :
  Forall (fun points => Z.of_nat (List.length points) < 2) contours ->
  forall accum : list spec_float,
    fold_left
      (fun accum points =>
         let n_points := Z.of_nat (List.length points) in
         if n_points <? 2 then accum
         else contour_loop w h points n_points (List.length points) 0 accum)
      contours accum
    = accum.
Proof.
  induction 1 as [|c cs Hc _ IH]; intros accum; cbn [fold_left]; [reflexivity|].
  cbv zeta. destruct (Z.ltb_spec (Z.of_nat (List.length c)) 2); [apply IH|lia].
Qed.

Lemma skipn_repeat_zero {A} (a : A) : forall (k n : nat),
    skipn k (repeat a n) = repeat a (n - k).
Proof.
  induction k as [|k IH]; intros n; [rewrite Nat.sub_0_r; reflexivity|].
  destruct n; [reflexivity|]. cbn [repeat skipn]. apply IH.
Qed.

Lemma firstn_repeat_zero {A} (a : A) : forall (k n : nat),
    (k <= n)%nat -> firstn k (repeat a n) = repeat a k.
Proof.
  induction k as [|k IH]; intros n Hk; [reflexivity|].
  destruct n; [lia|]. cbn [repeat firstn]. rewrite IH by lia. reflexivity.
Qed.

Lemma flat_map_constant {A} (row : list A) (k : nat) (a : A) (ys : list Z) :
  row = repeat a k ->
  flat_map (fun _ => row) ys = repeat a (List.length ys * k).
Proof.
  intros ->. induction ys as [|y ys IH]; [reflexivity|].
  cbn [flat_map List.length]. rewrite IH, <- repeat_app. f_equal.
Qed.

Lemma rasterize_shape_blank (w h : Z) (contours : list (list glyph_point_t)) :
  0 <= w -> 0 <= h ->
  Forall (fun points => Z.of_nat (List.length points) < 2) contours ->
  glyph_ttf__rasterize_shape w h contours = repeat 0 (Z.to_nat (w * h)).
Proof.
  intros Hw Hh Hc. unfold glyph_ttf__rasterize_shape. cbv zeta.
  rewrite raster_accumulator_blank by exact Hc.
  rewrite flat_map_concat_map.
  rewrite (map_ext_in _ (fun _ => repeat 0 (Z.to_nat w))).
  - rewrite <- flat_map_concat_map.
    rewrite (flat_map_constant _ (Z.to_nat w) 0) by reflexivity.
    rewrite range_length. f_equal. nia.
  - intros y Hy. apply range_in in Hy.
    rewrite skipn_repeat_zero, firstn_repeat_zero by nia.
    apply sweep_row_blank.
Qed.

End Rasterizer.

Section BitmapShape.
Import Mach TrueType Outline OutlineSpec F32.

Lemma bytes_of_list_memory (l : list Z) :
  forallb (fun b => (0 <=? b) && (b <? 256)) l = true -> byte_memory (bytes_of_list l).
Proof.
  intros H i. unfold bytes_of_list. destruct (i <? 0); [lia|].
  rewrite forallb_forall in H.
  destruct (nth_in_or_default (Z.to_nat i) l 0) as [Hin | ->]; [|lia].
  apply H in Hin. lia.
Qed.

Lemma bitmap_result_shape (font : glyph_font_t) (glyph_index : Z)
      (scale_x scale_y : spec_float) :
  let r := glyph_ttf_get_glyph_bitmap font glyph_index scale_x scale_y in
  match bitmap r with
  | None => width r = 0 /\ height r = 0 /\ xoff r = 0 /\ yoff r = 0
  | Some cells =>
      1 <= width r /\ 1 <= height r
      /\ Z.of_nat (List.length cells) = width r * height r
      /\ Forall ImageSpec.byte cells
  end.
Proof.
  cbv zeta. unfold glyph_ttf_get_glyph_bitmap.
  destruct (_ <? 0); [cbn; auto|].
  destruct (_ >? 0); [|cbn; auto].
  match goal with
  | |- context [(?w <=? 0) || (?h <=? 0)] =>
      destruct (Z.leb_spec w 0); [cbn; auto|];
      destruct (Z.leb_spec h 0); [cbn; auto|]
  end.
  cbn [orb].
  repeat match goal with
         | |- context [let '(_, _) := ?e in _] => destruct e
         end.
  cbn [bitmap width height].
  split; [lia|]. split; [lia|]. split.
  - apply rasterize_shape_length; lia.
  - apply rasterize_shape_bytes.
Qed.

(** The product of a number with an infinity or a NaN is an infinity or a
    NaN, and so is its [ceilf]; the conversion to [int] gives [INT_MIN]. *)
Lemma to_int_wild_product (a scale : spec_float) :
  not_finite scale = true -> to_int (ceilf (mul a scale)) = INT_MIN.
Proof.
  intros H. destruct scale as [s|s| |s m e]; try discriminate H;
    destruct a as [sa|sa| |sa ma ea]; reflexivity.
Qed.

Lemma bitmap_of_wild_scale (font : glyph_font_t) (glyph_index : Z)
      (scale_x scale_y : spec_float) :
  not_finite scale_x = true \/ not_finite scale_y = true ->
  glyph_ttf_get_glyph_bitmap font glyph_index scale_x scale_y = no_bitmap.
Proof.
  intros H. unfold glyph_ttf_get_glyph_bitmap.
  destruct (_ <? 0); [reflexivity|].
  destruct (_ >? 0); [|reflexivity].
  match goal with
  | |- context [(?w <=? 0) || (?h <=? 0)] =>
      assert (Hwh : (w <=? 0) || (h <=? 0) = true)
  end.
  { destruct H as [H|H].
    - rewrite (to_int_wild_product _ scale_x H). reflexivity.
    - rewrite (to_int_wild_product _ scale_y H). apply orb_true_r. }
  cbv zeta. rewrite Hwh. reflexivity.
Qed.

End BitmapShape.

(** X10: the flag loop fills exactly [n_points] flags, whatever the repeat
    counts in the data say, and reads between 0 and 2 bytes per point; when
    no flag byte asks for a repeat, the flags are the next [n_points] bytes
    of the data. *)
Theorem flags_fill_the_points (data : TrueType.bytes) (n_points start : Z) :
  0 <= n_points ->
  let r := Outline.read_flags data n_points (Z.to_nat n_points) [] start in
  Z.of_nat (List.length (fst r)) = n_points
  /\ start <= snd r <= start + 2 * n_points
  /\ ((forall j, start <= j < start + n_points -> Z.land (data j) 8 = 0) ->
      r = (map data (Arr.range start (start + n_points)), start + n_points)).
Proof.
  intros Hn r. subst r.
  pose proof (read_flags_length data n_points (Z.to_nat n_points) [] start) as H.
  cbn [List.length] in H. specialize (H ltac:(lia) ltac:(lia)).
  split; [apply H|]. split; [lia|].
  intros Hplain.
  pose proof (read_flags_plain data n_points (Z.to_nat n_points) [] start) as P.
  cbn [List.length app] in P. rewrite Z.sub_0_r in P.
  apply P; try lia. exact Hplain.
Qed.

Lemma flags_fill_the_points_witness :
  Outline.read_flags OutlineSpec.packed_outline 5 5 [] 0 = ([9; 9; 9; 9; 1], 3)
  /\ Z.of_nat (List.length (fst (Outline.read_flags OutlineSpec.packed_outline 5 5 [] 0))) = 5.
Proof.
  split; [vm_compute; reflexivity|].
  apply (flags_fill_the_points OutlineSpec.packed_outline 5 0). lia.
Defined.

(** X11: the coordinate loop gives one coordinate per flag and reads
    between 0 and 2 bytes per point; coordinate [k] is at most
    [32768 * (k + 1)] away from the starting value, so with the at most
    65536 points of a glyph the running sum started at 0 stays an [int]. *)
Theorem coordinates_stay_in_int (data : TrueType.bytes) (short same : Z)
        (point_flags : list Z) (data_index : Z) :
  OutlineSpec.byte_memory data ->
  Z.of_nat (List.length point_flags) <= 65536 ->
  let r := Outline.read_coords data short same point_flags 0 data_index in
  List.length (fst r) = List.length point_flags
  /\ data_index <= snd r <= data_index + 2 * Z.of_nat (List.length point_flags)
  /\ Forall OutlineSpec.fits_int (fst r).
Proof.
  intros Hmem Hn r. subst r.
  pose proof (read_coords_bounds data short same Hmem point_flags 0 data_index)
    as (Hl & Hd & Hc).
  split; [exact Hl|]. split; [exact Hd|].
  apply Forall_forall. intros c Hin.
  apply In_nth_error in Hin. destruct Hin as [k Hk].
  pose proof (Hc k c Hk) as Hb.
  assert (k < List.length (fst (Outline.read_coords data short same point_flags 0 data_index)))%nat
    by (apply nth_error_Some; congruence).
  unfold OutlineSpec.fits_int. lia.
Qed.

Lemma coordinates_stay_in_int_witness :
  fst (Outline.read_coords OutlineSpec.packed_outline 2 16 [9; 9; 9; 9; 1] 0 3)
  = [2580; 10300; 10305; 10563; 11335]
  /\ Forall OutlineSpec.fits_int
       (fst (Outline.read_coords OutlineSpec.packed_outline 2 16 [9; 9; 9; 9; 1] 0 3)).
Proof.
  split; [vm_compute; reflexivity|].
  apply (coordinates_stay_in_int OutlineSpec.packed_outline 2 16 [9; 9; 9; 9; 1] 3).
  - apply bytes_of_list_memory. vm_compute. reflexivity.
  - vm_compute. discriminate.
Defined.

(** X12: the points built for a contour from [start_pt] to [end_pt] number
    at least as many as the points of the contour and at most twice as
    many, and, taken as a closed sequence, never hold two off-curve points
    in a row: a midpoint on the curve is inserted between them. *)
Theorem contour_without_off_pairs (point_flags x_coords y_coords : list Z)
        (xMin yMax : Z) (scale_x scale_y : spec_float) (start_pt end_pt : Z) :
  start_pt <= end_pt ->
  let points :=
    Outline.contour_points point_flags x_coords y_coords xMin yMax scale_x scale_y
                           start_pt end_pt in
  end_pt - start_pt + 1 <= Z.of_nat (List.length points) <= 2 * (end_pt - start_pt + 1)
  /\ OutlineSpec.closed_without_off_pair points = true.
Proof.
  intros Hle points. subst points. split.
  - apply contour_points_length. exact Hle.
  - apply contour_points_closed. exact Hle.
Qed.

Lemma contour_without_off_pairs_witness :
  map Outline.on_curve
      (Outline.contour_points OutlineSpec.mixed_flags [0; 10; 20; 30; 40] [0; 5; 0; 5; 0]
                              0 5 F32.one F32.one 0 4)
  = [0; 1; 0; 1; 0; 1]
  /\ OutlineSpec.closed_without_off_pair
       (Outline.contour_points OutlineSpec.mixed_flags [0; 10; 20; 30; 40] [0; 5; 0; 5; 0]
                               0 5 F32.one F32.one 0 4) = true.
Proof.
  split; [vm_compute; reflexivity|].
  apply (contour_without_off_pairs OutlineSpec.mixed_flags [0; 10; 20; 30; 40]
           [0; 5; 0; 5; 0] 0 5 F32.one F32.one 0 4).
  lia.
Defined.



(** X14: what [glyph_ttf_get_glyph_bitmap] hands back.  A scale that is an
    infinity or not a number gives no bitmap: the width is then the
    conversion of a non-finite [float] to [int], which is [INT_MIN] on the
    target, plus 1.  The number of cells is the [int] product
    [width * height]; when it fits [int], the result is one of two things:
    no bitmap, with the width, the height and both offsets set to 0, or a
    bitmap of at least 1 by 1 that holds exactly [width * height] bytes. *)
Theorem bitmap_is_null_or_sized (font : TrueType.glyph_font_t) (glyph_index : Z)
        (scale_x scale_y : spec_float) :
  let r := Outline.glyph_ttf_get_glyph_bitmap font glyph_index scale_x scale_y in
  (OutlineSpec.not_finite scale_x = true \/ OutlineSpec.not_finite scale_y = true ->
   r = Outline.no_bitmap)
  /\ (Outline.width r * Outline.height r <= Mach.INT_MAX ->
      match Outline.bitmap r with
      | None =>
          Outline.width r = 0 /\ Outline.height r = 0
          /\ Outline.xoff r = 0 /\ Outline.yoff r = 0
      | Some cells =>
          1 <= Outline.width r <= Mach.INT_MAX
          /\ 1 <= Outline.height r <= Mach.INT_MAX
          /\ Z.of_nat (List.length cells) = Outline.width r * Outline.height r
          /\ Forall ImageSpec.byte cells
      end).
Proof.
  intros r. split.
  - intros H. apply bitmap_of_wild_scale. exact H.
  - intros Hfit. pose proof (bitmap_result_shape font glyph_index scale_x scale_y) as H.
    cbv zeta in H. fold r in H.
    destruct (Outline.bitmap r) as [cells|]; [|exact H].
    destruct H as (Hw & Hh & Hl & Hb).
    repeat split; try assumption; nia.
Qed.

Lemma bitmap_is_null_or_sized_witness :
  let s := S754_finite false 8589935 (-29) in
  Outline.glyph_ttf_get_glyph_bitmap Sample.loaded_font 0 (S754_infinity false) s
  = Outline.no_bitmap
  /\ match Outline.bitmap (Outline.glyph_ttf_get_glyph_bitmap Sample.loaded_font 0 s s) with
     | None => False
     | Some cells => Z.of_nat (List.length cells) = 289
     end.
Proof.
  intros s. split.
  - apply (proj1 (bitmap_is_null_or_sized Sample.loaded_font 0 (S754_infinity false) s)).
    left. reflexivity.
  - pose proof (proj2 (bitmap_is_null_or_sized Sample.loaded_font 0 s s)) as H.
    cbv zeta in H.
    assert (Hw : Outline.width (Outline.glyph_ttf_get_glyph_bitmap Sample.loaded_font 0 s s)
                 = 17) by (vm_compute; reflexivity).
    assert (Hh : Outline.height (Outline.glyph_ttf_get_glyph_bitmap Sample.loaded_font 0 s s)
                 = 17) by (vm_compute; reflexivity).
    rewrite Hw, Hh in H. specialize (H ltac:(vm_compute; discriminate)).
    destruct (Outline.bitmap (Outline.glyph_ttf_get_glyph_bitmap Sample.loaded_font 0 s s))
      as [cells|] eqn:E.
    + destruct H as (_ & _ & Hl & _). exact Hl.
    + vm_compute in E. discriminate E.
Defined.

(** * Rendering a glyph into an image *)

Section Painting.
Import Mach TrueType Outline Render ChecksumSpec PngFormat.

Lemma set_at_end {A} (pre : list A) (x v : A) (rest : list A) (i : Z) :
  i = Z.of_nat (List.length pre) ->
  Arr.set (pre ++ x :: rest) i v = pre ++ v :: rest.
Proof.
  intros ->. unfold Arr.set.
  destruct (Z.ltb_spec (Z.of_nat (List.length pre)) 0) as [Hneg|_]; [lia|].
  rewrite Nat2Z.id. induction pre as [|a pre IH]; [reflexivity|].
  cbn [app List.length Arr.set_nat]. rewrite IH. reflexivity.
Qed.

Variables (cells : list Z) (w r g b : Z).

(** The three bytes of pixel [k], and the bytes of the first [k] pixels. *)
Let triple (k : Z) : list Z :=
  [shade r (Arr.get 0 cells k); shade g (Arr.get 0 cells k); shade b (Arr.get 0 cells k)].

Let painted (k : Z) : list Z := flat_map triple (Arr.range 0 k).

Lemma painted_length (k : Z) : 0 <= k -> Z.of_nat (List.length (painted k)) = 3 * k.
Proof.
  intros Hk. unfold painted. rewrite flat_map_triple_length by reflexivity.
  rewrite range_length. lia.
Qed.

Lemma painted_step (k : Z) : 0 <= k -> painted (k + 1) = painted k ++ triple k.
Proof.
  intros Hk. unfold painted. rewrite range_snoc by lia.
  rewrite flat_map_app. cbn [flat_map]. rewrite app_nil_r. reflexivity.
Qed.

Variable data0 : list Z.
Variable total : Z.
Hypothesis Hdata0 : Z.of_nat (List.length data0) = 3 * total.

Lemma paint_step (y x : Z) :
  0 <= y * w + x < total ->
  paint cells w r g b y (painted (y * w + x) ++ skipn (Z.to_nat (3 * (y * w + x))) data0) x
  = painted (y * w + x + 1) ++ skipn (Z.to_nat (3 * (y * w + x + 1))) data0.
Proof.
  intros Hk. set (k := y * w + x) in *.
  assert (Hskip : skipn (Z.to_nat (3 * (k + 1))) data0
                  = skipn 3 (skipn (Z.to_nat (3 * k)) data0)).
  { rewrite skipn_skipn. f_equal. lia. }
  assert (Hlen : (3 <= List.length (skipn (Z.to_nat (3 * k)) data0))%nat).
  { rewrite length_skipn. lia. }
  rewrite Hskip. destruct (skipn (Z.to_nat (3 * k)) data0) as [|a [|b' [|c rest]]];
    cbn [List.length] in Hlen; try lia.
  cbn [skipn]. unfold paint. fold k. cbv zeta.
  pose proof (painted_length k ltac:(lia)) as Hp.
  rewrite (set_at_end (painted k)) by lia.
  replace (painted k ++ shade r (Arr.get 0 cells k) :: b' :: c :: rest)
    with ((painted k ++ [shade r (Arr.get 0 cells k)]) ++ b' :: c :: rest)
    by (rewrite <- app_assoc; reflexivity).
  rewrite set_at_end by (rewrite length_app; cbn [List.length]; lia).
  replace ((painted k ++ [shade r (Arr.get 0 cells k)])
           ++ shade g (Arr.get 0 cells k) :: c :: rest)
    with ((painted k ++ [shade r (Arr.get 0 cells k); shade g (Arr.get 0 cells k)])
          ++ c :: rest)
    by (rewrite <- !app_assoc; reflexivity).
  rewrite set_at_end by (rewrite length_app; cbn [List.length]; lia).
  rewrite painted_step by lia. unfold triple. rewrite <- !app_assoc. reflexivity.
Qed.

Lemma paint_row (y : Z) :
  forall (n : nat) (x : Z),
    0 <= y * w + x -> y * w + x + Z.of_nat n <= total ->
    fold_left (paint cells w r g b y) (Arr.range x (x + Z.of_nat n))
              (painted (y * w + x) ++ skipn (Z.to_nat (3 * (y * w + x))) data0)
    = painted (y * w + x + Z.of_nat n)
      ++ skipn (Z.to_nat (3 * (y * w + x + Z.of_nat n))) data0.
Proof.
  induction n as [|n IH]; intros x Hlo Hhi.
  - rewrite range_empty by lia. cbn [fold_left]. rewrite Z.add_0_r. reflexivity.
  - rewrite range_cons by lia. cbn [fold_left].
    rewrite paint_step by lia.
    replace (x + Z.of_nat (S n)) with (x + 1 + Z.of_nat n) by lia.
    replace (y * w + x + 1) with (y * w + (x + 1)) by lia.
    rewrite IH by lia.
    replace (y * w + (x + 1) + Z.of_nat n) with (y * w + x + Z.of_nat (S n)) by lia.
    reflexivity.
Qed.

Lemma paint_rows :
  0 <= w ->
  forall (n : nat) (y : Z),
    0 <= y -> (y + Z.of_nat n) * w <= total ->
    fold_left (fun data y => fold_left (paint cells w r g b y) (Arr.range 0 w) data)
              (Arr.range y (y + Z.of_nat n))
              (painted (y * w) ++ skipn (Z.to_nat (3 * (y * w))) data0)
    = painted ((y + Z.of_nat n) * w)
      ++ skipn (Z.to_nat (3 * ((y + Z.of_nat n) * w))) data0.
Proof.
  intros Hw. induction n as [|n IH]; intros y Hy Hhi.
  - rewrite (range_empty y) by lia. cbn [fold_left]. rewrite Z.add_0_r. reflexivity.
  - rewrite (range_cons y) by lia. cbn [fold_left].
    pose proof (paint_row y (Z.to_nat w) 0) as Hrow.
    rewrite Z2Nat.id, !Z.add_0_r, Z.add_0_l in Hrow by lia.
    rewrite Hrow by nia.
    replace (y * w + w) with ((y + 1) * w) by ring.
    replace (y + Z.of_nat (S n)) with (y + 1 + Z.of_nat n) by lia.
    apply IH; [lia|]. replace (y + 1 + Z.of_nat n) with (y + Z.of_nat (S n)) by lia.
    exact Hhi.
Qed.

Lemma paint_all (h : Z) :
  0 <= w -> 0 <= h -> total = w * h ->
  Z.of_nat (List.length cells) = total ->
  fold_left (fun data y => fold_left (paint cells w r g b y) (Arr.range 0 w) data)
            (Arr.range 0 h) data0
  = shaded cells r g b.
Proof.
  intros Hw Hh Ht Hc.
  pose proof (paint_rows Hw (Z.to_nat h) 0 ltac:(lia)) as H.
  rewrite Z.add_0_l, Z2Nat.id in H by lia.
  change (0 * w) with 0 in H. change (3 * 0) with 0 in H.
  change (painted 0) with (@nil Z) in H. cbn [Z.to_nat skipn app] in H.
  rewrite H by lia.
  rewrite skipn_all2 by lia. rewrite app_nil_r.
  unfold painted, shaded, triple.
  pose proof (slice_all cells) as Hall. unfold Image.slice, len in Hall.
  rewrite Hc, Ht in Hall. cbn [Z.add] in Hall.
  replace (h * w) with (w * h) by ring.
  transitivity
    (flat_map (fun a => [shade r a; shade g a; shade b a])
              (map (fun i => Arr.get 0 cells i) (Arr.range 0 (w * h)))).
  - rewrite !flat_map_concat_map, map_map. reflexivity.
  - rewrite Hall. reflexivity.
Qed.

End Painting.

Section RenderedImage.
Import Mach TrueType Outline Render ChecksumSpec PngFormat.

Lemma shade_range (c a : Z) :
  0 <= c <= 255 -> 0 <= a <= 255 ->
  shade c a = c * a / 255 /\ 0 <= shade c a <= c /\ shade c a <= a.
Proof.
  intros Hc Ha. unfold shade, uint8.
  rewrite Z.quot_div_nonneg by nia.
  assert (0 <= c * a / 255) by (apply Z.div_pos; nia).
  assert (c * a / 255 <= c) by (apply Z.div_le_upper_bound; nia).
  assert (c * a / 255 <= a) by (apply Z.div_le_upper_bound; nia).
  rewrite Z.mod_small by (change (2 ^ 8) with 256; lia). lia.
Qed.

Lemma shaded_bytes (cells : list Z) (r g b : Z) :
  Forall ImageSpec.byte (shaded cells r g b).
Proof.
  unfold shaded. apply Forall_flat_map. apply Forall_forall. intros a _.
  repeat constructor; unfold ImageSpec.byte, shade, uint8; apply Z.mod_pos_bound; lia.
Qed.

Lemma shaded_length (cells : list Z) (r g b : Z) :
  len (shaded cells r g b) = 3 * len cells.
Proof.
  unfold shaded, len. rewrite flat_map_triple_length by reflexivity. lia.
Qed.

Lemma render_of_bitmap (font : glyph_font_t) (glyph_index : Z)
      (scale_x scale_y : spec_float) (r g b : Z) (fresh : Z -> Z) (cells : list Z) :
  let res := glyph_ttf_get_glyph_bitmap font glyph_index scale_x scale_y in
  bitmap res = Some cells ->
  3 * width res * height res <= INT_MAX ->
  glyph_ttf_render_glyph_to_image font glyph_index scale_x scale_y r g b fresh
  = mk_value (width res) (height res) (Some (shaded cells r g b)).
Proof.
  intros res Hb Hsize.
  pose proof (bitmap_result_shape font glyph_index scale_x scale_y) as Hs.
  cbv zeta in Hs. fold res in Hs. rewrite Hb in Hs. destruct Hs as (Hw & Hh & Hl & _).
  unfold glyph_ttf_render_glyph_to_image. fold res. rewrite Hb. cbv zeta.
  unfold glyph_image_create. cbn [value_width value_height value_data option_map].
  unfold INT_MAX in Hsize.
  assert (Hw32 : uint32 (width res) = width res) by (apply Z.mod_small; nia).
  assert (Hh32 : uint32 (height res) = height res) by (apply Z.mod_small; nia).
  rewrite Hw32, Hh32. f_equal. f_equal.
  apply paint_all with (total := width res * height res); try lia.
  rewrite length_map, range_length. unfold size_t.
  rewrite (Z.mod_small (width res * height res)) by nia.
  rewrite Z.mod_small by nia. nia.
Qed.

End RenderedImage.

(** * Checksums in closed form, integer fields *)

Section ClosedForms.
Import Mach Image PngFormat ImageSpec ChecksumSpec Render BmpFormat.

Lemma adler_sums_closed (l : list Z) :
  forall s1 s2,
    0 <= s1 < 65521 -> 0 <= s2 < 65521 ->
    adler_sums l s1 s2
    = ((s1 + byte_sum l) mod 65521, (s2 + len l * s1 + weighted_sum l) mod 65521).
Proof.
  induction l as [|b l IH]; intros s1 s2 H1 H2; cbn [adler_sums byte_sum weighted_sum].
  - unfold len. cbn [List.length Z.of_nat].
    replace (s1 + 0) with s1 by lia. replace (s2 + 0 * s1 + 0) with s2 by lia.
    rewrite !Z.mod_small by lia. reflexivity.
  - rewrite IH by (apply Z.mod_pos_bound; lia).
    rewrite len_cons. f_equal.
    + rewrite Zplus_mod_idemp_l. f_equal. ring.
    + pose proof (Z.div_mod (s1 + b) 65521 ltac:(lia)) as E.
      set (q := (s1 + b) / 65521) in *. set (t := (s1 + b) mod 65521) in *.
      rewrite <- Z.add_assoc, Zplus_mod_idemp_l.
      replace (s2 + t + (len l * t + weighted_sum l))
        with (s2 + (1 + len l) * s1 + ((1 + len l) * b + weighted_sum l)
              + (- q * (1 + len l)) * 65521) by nia.
      apply Z.mod_add. lia.
Qed.

Lemma adler_closed (l : list Z) :
  adler l
  = ((len l + weighted_sum l) mod 65521) * 65536 + (1 + byte_sum l) mod 65521.
Proof.
  unfold adler. rewrite adler_sums_closed by lia.
  rewrite Z.mul_1_r, Z.add_0_l. reflexivity.
Qed.

Lemma le32_bytes_value (v : Z) :
  0 <= v < 2 ^ 32 ->
  Z.land v 255 + 256 * Z.land (Z.shiftr v 8) 255
  + 65536 * Z.land (Z.shiftr v 16) 255 + 16777216 * Z.land (Z.shiftr v 24) 255 = v.
Proof.
  intros H. pose proof (be32_value_write v H) as E.
  unfold be32_value, write_u32_be in E. cbn [fold_left] in E. lia.
Qed.

Lemma write_u32_le_bytes (buf : list Z) (v : Z) :
  4 <= len buf ->
  write_u32_le buf v = le32_bytes v ++ drop 4 buf.
Proof.
  intros H. unfold len in H.
  destruct buf as [|a [|b [|c [|d rest]]]]; cbn [List.length] in H; try lia.
  reflexivity.
Qed.

End ClosedForms.

(** * The BMP file *)

Section BmpFile.
Import Mach Image PngFormat ImageSpec Render BmpFormat.

Lemma get_app_right (pre l : list Z) (j : Z) :
  0 <= j -> Arr.get 0 (pre ++ l) (len pre + j) = Arr.get 0 l j.
Proof.
  intros Hj. unfold len. rewrite !get_nth by lia.
  rewrite app_nth2 by lia. f_equal. lia.
Qed.

Lemma concat_get_uniform (n : Z) :
  0 < n ->
  forall (rows : list (list Z)) (k p : Z),
    (forall row, In row rows -> len row = n) ->
    0 <= k < Z.of_nat (List.length rows) -> 0 <= p < n ->
    Arr.get 0 (List.concat rows) (k * n + p) = Arr.get 0 (nth (Z.to_nat k) rows []) p.
Proof.
  intros Hn. induction rows as [|row rows IH]; intros k p Hrows Hk Hp;
    cbn [List.length] in Hk; [lia|].
  cbn [List.concat]. pose proof (Hrows row ltac:(left; reflexivity)) as Hrow.
  destruct (Z.eq_dec k 0) as [->|Hne].
  - cbn [Z.to_nat nth Z.mul Z.add]. rewrite !get_nth by lia.
    unfold len in Hrow. apply app_nth1. lia.
  - replace (k * n + p) with (len row + ((k - 1) * n + p)) by lia.
    rewrite get_app_right by nia.
    rewrite IH by (try lia; intros r Hr; apply Hrows; right; assumption).
    replace (Z.to_nat k) with (S (Z.to_nat (k - 1))) by lia. reflexivity.
Qed.

Lemma range_app (lo mid hi : Z) :
  lo <= mid <= hi -> Arr.range lo hi = Arr.range lo mid ++ Arr.range mid hi.
Proof.
  intros H. remember (Z.to_nat (mid - lo)) as n eqn:En.
  revert lo H En. induction n as [|n IH]; intros lo H En.
  - replace mid with lo by lia. rewrite (range_empty lo lo) by lia. reflexivity.
  - rewrite (range_cons lo hi), (range_cons lo mid) by lia. cbn [app].
    rewrite (IH (lo + 1)) by lia. reflexivity.
Qed.

(** A grid walked row by row is the range of its cell numbers. *)
Lemma flat_map_grid {A} (g : Z -> list A) (w : Z) :
  0 <= w ->
  forall (n : nat) (y0 : Z),
    flat_map (fun y => flat_map (fun x => g (y * w + x)) (Arr.range 0 w))
             (Arr.range y0 (y0 + Z.of_nat n))
    = flat_map g (Arr.range (y0 * w) ((y0 + Z.of_nat n) * w)).
Proof.
  intros Hw. induction n as [|n IH]; intros y0.
  - rewrite Z.add_0_r, (range_empty y0 y0), (range_empty (y0 * w) (y0 * w)) by lia.
    reflexivity.
  - rewrite (range_cons y0) by lia. cbn [flat_map].
    replace (y0 + Z.of_nat (S n)) with (y0 + 1 + Z.of_nat n) by lia.
    rewrite IH.
    rewrite (range_app (y0 * w) ((y0 + 1) * w) ((y0 + 1 + Z.of_nat n) * w)) by nia.
    rewrite flat_map_app. f_equal.
    rewrite !flat_map_concat_map. f_equal.
    transitivity (map g (Arr.range (0 + y0 * w) (w + y0 * w))).
    + rewrite range_shift. apply map_ext. intros x. f_equal. ring.
    + replace (0 + y0 * w) with (y0 * w) by ring.
      replace (w + y0 * w) with ((y0 + 1) * w) by ring. reflexivity.
Qed.

(** A list of [3 * n] bytes is the list of its [n] triples. *)
Lemma triples_rebuild (d : list Z) :
  forall n : nat,
    len d = 3 * Z.of_nat n ->
    flat_map (fun k => [Arr.get 0 d (3 * k); Arr.get 0 d (3 * k + 1);
                        Arr.get 0 d (3 * k + 2)])
             (Arr.range 0 (Z.of_nat n))
    = d.
Proof.
  intros n Hd.
  assert (H : forall m : nat,
             flat_map (fun k => [Arr.get 0 d (3 * k); Arr.get 0 d (3 * k + 1);
                                 Arr.get 0 d (3 * k + 2)])
                      (Arr.range 0 (Z.of_nat m))
             = map (fun i => Arr.get 0 d (0 + i)) (Arr.range 0 (3 * Z.of_nat m))).
  { induction m as [|m IHm]; [reflexivity|].
    replace (Z.of_nat (S m)) with (Z.of_nat m + 1) by lia.
    rewrite range_snoc by lia. rewrite flat_map_app, IHm. cbn [flat_map app].
    replace (3 * (Z.of_nat m + 1)) with (3 * Z.of_nat m + 1 + 1 + 1) by lia.
    rewrite !range_snoc by lia. rewrite !map_app. cbn [map]. rewrite <- !app_assoc.
    cbn [app Z.add].
    replace (3 * Z.of_nat m + 1 + 1) with (3 * Z.of_nat m + 2) by lia. reflexivity. }
  rewrite H, <- Hd. apply slice_all.
Qed.

End BmpFile.

Section BmpRoundTrip.
Import Mach Image PngFormat ImageSpec Render BmpFormat.

Lemma flat_map_ext_in {A} (f g : Z -> list A) (l : list Z) :
  (forall a, In a l -> f a = g a) -> flat_map f l = flat_map g l.
Proof.
  intros H. rewrite !flat_map_concat_map. f_equal. apply map_ext_in. exact H.
Qed.

(** Where the fields of the two headers lie in a file that starts with
    them. *)
Lemma bmp_header_fields
      (f0 f1 f2 f3 w0 w1 w2 w3 h0 h1 h2 h3 d0 d1 d2 d3 : Z) (rows : list Z) :
  let file :=
    ([66; 77] ++ [f0; f1; f2; f3] ++ [0; 0; 0; 0] ++ [54; 0; 0; 0])
    ++ ([40; 0; 0; 0] ++ [w0; w1; w2; w3] ++ [h0; h1; h2; h3]
        ++ [1; 0; 24; 0] ++ [0; 0; 0; 0] ++ [d0; d1; d2; d3] ++ repeat 0 16)
    ++ rows in
  Arr.get 0 file 0 = 66 /\ Arr.get 0 file 1 = 77
  /\ le32_at file 2 = f0 + 256 * f1 + 65536 * f2 + 16777216 * f3
  /\ le32_at file 6 = 0
  /\ le32_at file 10 = 54
  /\ le32_at file 14 = 40
  /\ le32_at file 18 = w0 + 256 * w1 + 65536 * w2 + 16777216 * w3
  /\ le32_at file 22 = h0 + 256 * h1 + 65536 * h2 + 16777216 * h3
  /\ le16_at file 26 = 1 /\ le16_at file 28 = 24
  /\ le32_at file 30 = 0
  /\ le32_at file 34 = d0 + 256 * d1 + 65536 * d2 + 16777216 * d3
  /\ (forall o, 38 <= o < 54 -> Arr.get 0 file o = 0)
  /\ (exists header, len header = 54 /\ file = header ++ rows).
Proof.
  cbv zeta. repeat (split; [reflexivity|]). split.
  - intros o Ho.
    assert (o = 38 \/ o = 39 \/ o = 40 \/ o = 41 \/ o = 42 \/ o = 43 \/ o = 44 \/ o = 45
            \/ o = 46 \/ o = 47 \/ o = 48 \/ o = 49 \/ o = 50 \/ o = 51 \/ o = 52 \/ o = 53)
      as Hcase by lia.
    repeat (destruct Hcase as [->|Hcase]; [reflexivity|]). subst o. reflexivity.
  - exists (([66; 77] ++ [f0; f1; f2; f3] ++ [0; 0; 0; 0] ++ [54; 0; 0; 0])
            ++ ([40; 0; 0; 0] ++ [w0; w1; w2; w3] ++ [h0; h1; h2; h3]
                ++ [1; 0; 24; 0] ++ [0; 0; 0; 0] ++ [d0; d1; d2; d3] ++ repeat 0 16)).
    split; [reflexivity|]. rewrite <- !app_assoc. reflexivity.
Qed.

Variable img : glyph_image_t.

Let W := width img.
Let H := height img.
Let S := (W * 3 + 3) / 4 * 4.

Hypothesis HW : 0 <= W.
Hypothesis HH : 0 <= H <= INT_MAX.
Hypothesis HWmax : W * 3 + 3 <= INT_MAX.
Hypothesis Hsize : 54 + S * H <= INT_MAX.

Lemma bmp_stride_bounds : 3 * W <= S <= W * 3 + 3 /\ S mod 4 = 0 /\ stride W = S.
Proof.
  unfold S, stride. replace (3 * W) with (W * 3) by ring.
  split; [|split; [apply Z.mod_mul; lia|reflexivity]].
  Z.div_mod_to_equations. lia.
Qed.

Lemma bmp_rows_uniform :
  (forall row, In row (bmp_rows img W H) -> len row = S)
  /\ Z.of_nat (List.length (bmp_rows img W H)) = H
  /\ len (List.concat (bmp_rows img W H)) = S * H.
Proof.
  assert (Hrows : forall row, In row (bmp_rows img W H) -> len row = S).
  { intros row Hin. unfold bmp_rows in Hin.
    apply in_map_iff in Hin. destruct Hin as (y & <- & _).
    apply bmp_row_length. exact HW. }
  assert (Hcount : Z.of_nat (List.length (bmp_rows img W H)) = H).
  { unfold bmp_rows. rewrite length_map, length_rev, range_length. lia. }
  split; [exact Hrows|]. split; [exact Hcount|].
  rewrite (concat_length_uniform _ S Hrows), Hcount. reflexivity.
Qed.

(** The file, with the header fields decoded. *)
Lemma bmp_file_fields :
  let file := glyph_write_bmp img in
  Arr.get 0 file 0 = 66 /\ Arr.get 0 file 1 = 77
  /\ le32_at file 2 = 54 + S * H
  /\ le32_at file 6 = 0
  /\ le32_at file 10 = 54
  /\ le32_at file 14 = 40
  /\ le32_at file 18 = W
  /\ le32_at file 22 = H
  /\ le16_at file 26 = 1 /\ le16_at file 28 = 24
  /\ le32_at file 30 = 0
  /\ le32_at file 34 = S * H
  /\ (forall o, 38 <= o < 54 -> Arr.get 0 file o = 0)
  /\ len file = 54 + S * H
  /\ (exists header, len header = 54 /\ file = header ++ List.concat (bmp_rows img W H)).
Proof.
  cbv zeta. unfold glyph_write_bmp. fold W H.
  unfold INT_MAX in *.
  rewrite (int32_small W) by (unfold INT_MAX; lia).
  rewrite (int32_small H) by (unfold INT_MAX; lia).
  rewrite Z.quot_div_nonneg by lia. fold S.
  assert (0 <= S * H) by (pose proof bmp_stride_bounds; nia).
  unfold le32_bytes.
  match goal with
  | |- context [([66; 77] ++ [?f0; ?f1; ?f2; ?f3] ++ _ ++ _)
                ++ (_ ++ [?w0; ?w1; ?w2; ?w3] ++ [?h0; ?h1; ?h2; ?h3]
                    ++ _ ++ _ ++ [?d0; ?d1; ?d2; ?d3] ++ _) ++ ?rows] =>
      pose proof (bmp_header_fields f0 f1 f2 f3 w0 w1 w2 w3 h0 h1 h2 h3 d0 d1 d2 d3 rows)
        as F
  end.
  cbv zeta in F.
  destruct F as (F0 & F1 & F2 & F6 & F10 & F14 & F18 & F22 & F26 & F28 & F30 & F34 & Fz & Fh).
  rewrite le32_bytes_value in F2, F18, F22, F34 by lia.
  repeat (split; [assumption|]).
  destruct Fh as (header & Hlen & Hfile). split.
  - rewrite Hfile, len_app, Hlen. rewrite (proj2 (proj2 bmp_rows_uniform)). reflexivity.
  - exists header. split; assumption.
Qed.

Lemma bmp_file_pixel (x y : Z) :
  0 <= x < W -> 0 <= y < H ->
  pixel_at (glyph_write_bmp img) (54 + (H - 1 - y) * S + 3 * x)
  = [Arr.get 0 (data img) (3 * (y * W + x));
     Arr.get 0 (data img) (3 * (y * W + x) + 1);
     Arr.get 0 (data img) (3 * (y * W + x) + 2)].
Proof.
  intros Hx Hy. pose proof bmp_file_fields as F. cbv zeta in F.
  destruct F as (_ & _ & _ & _ & _ & _ & _ & _ & _ & _ & _ & _ & _ & _ & header & Hlen & Hfile).
  pose proof bmp_stride_bounds as (Hs & _ & _).
  pose proof bmp_rows_uniform as (Hrows & Hcount & _).
  assert (Hget : forall c, 0 <= c < 3 ->
             Arr.get 0 (glyph_write_bmp img) (54 + (H - 1 - y) * S + 3 * x + c)
             = Arr.get 0 (bmp_row img W y) (3 * x + c)).
  { intros c Hc. rewrite Hfile, <- Hlen.
    replace (len header + (H - 1 - y) * S + 3 * x + c)
      with (len header + ((H - 1 - y) * S + (3 * x + c))) by ring.
    rewrite get_app_right by nia.
    rewrite (concat_get_uniform S) by (try assumption; lia).
    rewrite bmp_rows_nth by lia. f_equal. f_equal. lia. }
  pose proof (bmp_row_pixels img W y x Hx) as (P0 & P1 & P2).
  unfold pixel_at.
  rewrite (Hget 2), (Hget 1) by lia.
  replace (54 + (H - 1 - y) * S + 3 * x) with (54 + (H - 1 - y) * S + 3 * x + 0) by ring.
  rewrite (Hget 0) by lia. rewrite Z.add_0_r.
  rewrite P0, P1, P2.
  replace ((y * W + x) * 3 + 0) with (3 * (y * W + x)) by ring.
  replace ((y * W + x) * 3 + 1) with (3 * (y * W + x) + 1) by ring.
  replace ((y * W + x) * 3 + 2) with (3 * (y * W + x) + 2) by ring.
  reflexivity.
Qed.

Lemma bmp_decode_written :
  len (data img) = W * H * 3 ->
  bmp_decode (glyph_write_bmp img) = Some (W, H, data img).
Proof.
  intros Hdata. pose proof bmp_file_fields as F. cbv zeta in F.
  destruct F as (F0 & F1 & F2 & _ & F10 & F14 & F18 & F22 & F26 & F28 & F30 & _ & _ & Flen & _).
  pose proof bmp_stride_bounds as (Hs & _ & Hstride).
  unfold bmp_decode. rewrite F0, F1, F2, F10, F14, F18, F22, F26, F28, F30, Flen, Hstride.
  rewrite !Z.eqb_refl. unfold INT_MAX in *.
  replace (54 <=? 54) with true by reflexivity.
  replace (W <? 2 ^ 31) with true by (symmetry; apply Z.ltb_lt; lia).
  replace (H <? 2 ^ 31) with true by (symmetry; apply Z.ltb_lt; lia).
  rewrite Z.leb_refl. cbn [andb]. f_equal. f_equal.
  rewrite (flat_map_ext_in _
             (fun y => flat_map
                         (fun x => (fun k => [Arr.get 0 (data img) (3 * k);
                                              Arr.get 0 (data img) (3 * k + 1);
                                              Arr.get 0 (data img) (3 * k + 2)])
                                     (y * W + x))
                         (Arr.range 0 W))).
  - pose proof (flat_map_grid
                  (fun k => [Arr.get 0 (data img) (3 * k);
                             Arr.get 0 (data img) (3 * k + 1);
                             Arr.get 0 (data img) (3 * k + 2)])
                  W HW (Z.to_nat H) 0) as G.
    rewrite Z.add_0_l, Z2Nat.id in G by lia. rewrite G.
    change (0 * W) with 0.
    replace (H * W) with (Z.of_nat (Z.to_nat (W * H))) by nia.
    apply triples_rebuild. rewrite Hdata. nia.
  - intros y Hy. apply range_in in Hy. apply flat_map_ext_in.
    intros x Hx. apply range_in in Hx. apply bmp_file_pixel; lia.
Qed.

End BmpRoundTrip.

Section PngEdges.
Import Mach Image PngFormat ImageSpec Render.

Lemma zlib_stream_no_rows (img : glyph_image_t) :
  height img = 0 -> zlib_stream img = [120; 1; 0; 0; 0; 1].
Proof.
  intros Hh. unfold zlib_stream. rewrite Hh, Z.mul_0_r.
  change (size_t 0) with 0. reflexivity.
Qed.

Lemma png_decode_refuses_empty (img : glyph_image_t) (rest : list Z) :
  0 <= width img < 2 ^ 32 -> 0 <= height img < 2 ^ 32 ->
  width img = 0 \/ height img = 0 ->
  png_decode (png_sig ++ chunk tag_IHDR (ihdr_data img) ++ rest) = None.
Proof.
  intros Hw Hh Hz. unfold png_decode.
  rewrite (take_app_n 8 png_sig) by reflexivity.
  rewrite (drop_app_n 8 png_sig) by reflexivity.
  change (list_eqb png_sig [137; 80; 78; 71; 13; 10; 26; 10]) with true. cbn [negb].
  rewrite read_chunk_chunk;
    [|reflexivity|change (len (ihdr_data img)) with 13; lia
     |apply tag_bytes_IHDR|apply ihdr_data_bytes].
  change (list_eqb tag_IHDR [73; 72; 68; 82]) with true. cbn [negb].
  rewrite read_ihdr_data by lia.
  destruct Hz as [Hz|Hz]; rewrite Hz; cbn [Z.leb Z.compare andb]; [reflexivity|].
  rewrite andb_false_r. reflexivity.
Qed.

Lemma png_file_size (img : glyph_image_t) :
  rgb_image img -> 1 <= width img -> 1 <= height img -> zlib_size img <= 2 ^ 31 - 1 ->
  len (glyph_write_png img) = 57 + zlib_size img.
Proof.
  intros Himg Hw Hh Hsize.
  pose proof (zlib_stream_bytes img Himg Hw Hh Hsize) as Hb.
  pose proof (dimensions_bound img Hw Hh Hsize) as (_ & Hb2 & Hb3).
  pose proof (zlib_stream_length img ltac:(lia) ltac:(lia)) as Hl.
  pose proof (len_nonneg (zlib_stream img)).
  rewrite png_layout by (try assumption; unfold uint32; apply Z.mod_small; lia).
  rewrite !len_app, !chunk_length, Hl.
  change (len png_sig) with 8. change (len tag_IHDR) with 4.
  change (len (ihdr_data img)) with 13. change (len tag_IDAT) with 4.
  change (len tag_IEND) with 4. change (len []) with 0. lia.
Qed.

End PngEdges.

(** X15: [glyph_ttf_render_glyph_to_image] gives the zeroed image, with a
    [NULL] buffer, for a glyph without a bitmap; for a glyph with a bitmap
    whose [3 * width * height] bytes can be indexed by an [int], it gives an
    image of the size of the bitmap in which the three bytes of every pixel
    are [r * alpha / 255], [g * alpha / 255] and [b * alpha / 255] for the
    coverage [alpha] of the pixel: every byte of the allocated buffer is
    written, none keeps what the allocation held. *)
Theorem render_shades_the_bitmap (font : TrueType.glyph_font_t) (glyph_index : Z)
        (scale_x scale_y : spec_float) (r g b : Z) (fresh : Z -> Z) :
  let res := Outline.glyph_ttf_get_glyph_bitmap font glyph_index scale_x scale_y in
  let img := Render.glyph_ttf_render_glyph_to_image font glyph_index scale_x scale_y
                                                     r g b fresh in
  (Outline.bitmap res = None -> img = Render.zero_image)
  /\ (forall cells,
         Outline.bitmap res = Some cells ->
         3 * Outline.width res * Outline.height res <= Mach.INT_MAX ->
         img = Render.mk_value (Outline.width res) (Outline.height res)
                               (Some (ChecksumSpec.shaded cells r g b))
         /\ PngFormat.len (ChecksumSpec.shaded cells r g b)
            = 3 * Outline.width res * Outline.height res).
Proof.
  intros res img. subst img. split.
  - intros Hn. unfold Render.glyph_ttf_render_glyph_to_image. fold res. rewrite Hn.
    reflexivity.
  - intros cells Hb Hsize. split.
    + apply render_of_bitmap; assumption.
    + pose proof (bitmap_result_shape font glyph_index scale_x scale_y) as Hs.
      cbv zeta in Hs. fold res in Hs. rewrite Hb in Hs. destruct Hs as (_ & _ & Hl & _).
      rewrite shaded_length. unfold PngFormat.len. lia.
Qed.

Lemma render_shades_the_bitmap_witness :
  Render.value_width
    (Render.glyph_ttf_render_glyph_to_image
       Sample.loaded_font 0
       (Outline.glyph_ttf_scale_for_pixel_height Sample.loaded_font (F32.of_int 16))
       (Outline.glyph_ttf_scale_for_pixel_height Sample.loaded_font (F32.of_int 16))
       255 128 0 (fun _ => 77)) = 17
  /\ Render.glyph_ttf_render_glyph_to_image Sample.loaded_font 1 F32.one F32.one
                                            255 128 0 (fun _ => 77)
     = Render.zero_image.
Proof.
  split.
  - pose proof (render_shades_the_bitmap
                  Sample.loaded_font 0
                  (Outline.glyph_ttf_scale_for_pixel_height Sample.loaded_font (F32.of_int 16))
                  (Outline.glyph_ttf_scale_for_pixel_height Sample.loaded_font (F32.of_int 16))
                  255 128 0 (fun _ => 77)) as H.
    cbv zeta in H. destruct H as [_ H].
    destruct (Outline.bitmap
                (Outline.glyph_ttf_get_glyph_bitmap
                   Sample.loaded_font 0
                   (Outline.glyph_ttf_scale_for_pixel_height Sample.loaded_font (F32.of_int 16))
                   (Outline.glyph_ttf_scale_for_pixel_height Sample.loaded_font (F32.of_int 16))))
      as [cells|] eqn:E; [|vm_compute in E; discriminate].
    destruct (H cells eq_refl ltac:(vm_compute; discriminate)) as [Himg _].
    rewrite Himg. vm_compute. reflexivity.
  - apply (proj1 (render_shades_the_bitmap Sample.loaded_font 1 F32.one F32.one
                    255 128 0 (fun _ => 77))).
    vm_compute. reflexivity.
Defined.

(** X16: the byte [(c * alpha) / 255] of a rendered pixel, for a colour
    component and a coverage between 0 and 255, is the integer quotient; it
    exceeds neither the component nor the coverage, it is the coverage
    itself for the component 255 and the component itself for the coverage
    255, and it does not decrease when the coverage grows. *)
Theorem shade_never_brightens (c alpha : Z) :
  0 <= c <= 255 -> 0 <= alpha <= 255 ->
  Render.shade c alpha = c * alpha / 255
  /\ 0 <= Render.shade c alpha <= c
  /\ Render.shade c alpha <= alpha
  /\ Render.shade 255 alpha = alpha
  /\ Render.shade c 255 = c
  /\ (forall beta, alpha <= beta <= 255 -> Render.shade c alpha <= Render.shade c beta).
Proof.
  intros Hc Ha. pose proof (shade_range c alpha Hc Ha) as (E & Hlo & Hhi).
  split; [exact E|]. split; [exact Hlo|]. split; [exact Hhi|].
  split; [|split].
  - rewrite (proj1 (shade_range 255 alpha ltac:(lia) Ha)).
    rewrite Z.mul_comm. apply Z.div_mul. lia.
  - rewrite (proj1 (shade_range c 255 Hc ltac:(lia))). apply Z.div_mul. lia.
  - intros beta Hb. rewrite E, (proj1 (shade_range c beta Hc ltac:(lia))).
    apply Z.div_le_mono; [lia|nia].
Qed.

Lemma shade_never_brightens_witness :
  Render.shade 200 128 = 100 /\ Render.shade 255 128 = 128.
Proof.
  destruct (shade_never_brightens 200 128 ltac:(lia) ltac:(lia)) as (E & _ & _ & Hw & _).
  split; [rewrite E; reflexivity|exact Hw].
Defined.

(** X17: both writers return -1 without opening the file when the image
    pointer is [NULL] or the image has no buffer, as after
    [glyph_image_free] and as for the image rendered from a glyph without a
    bitmap; they return -1 when the file cannot be opened; in every other
    case they return 0 and the file holds what the writer produces. *)
Theorem writers_refuse_missing_image (opened : bool) :
  Render.glyph_write_png_call None opened = (-1, None)
  /\ Render.glyph_write_bmp_call None opened = (-1, None)
  /\ (forall v,
         Render.glyph_write_png_call (Some (Render.glyph_image_free v)) opened = (-1, None)
         /\ Render.glyph_write_bmp_call (Some (Render.glyph_image_free v)) opened = (-1, None))
  /\ (forall font glyph_index scale_x scale_y r g b fresh,
         Outline.bitmap (Outline.glyph_ttf_get_glyph_bitmap font glyph_index scale_x scale_y)
         = None ->
         Render.glyph_write_png_call
           (Some (Render.glyph_ttf_render_glyph_to_image font glyph_index scale_x scale_y
                                                         r g b fresh)) opened
         = (-1, None)
         /\ Render.glyph_write_bmp_call
              (Some (Render.glyph_ttf_render_glyph_to_image font glyph_index scale_x scale_y
                                                            r g b fresh)) opened
            = (-1, None))
  /\ (forall w h data,
         Render.glyph_write_png_call (Some (Render.mk_value w h (Some data))) opened
         = (if opened then (0, Some (Image.glyph_write_png (Image.mk_image w h data)))
            else (-1, None))
         /\ Render.glyph_write_bmp_call (Some (Render.mk_value w h (Some data))) opened
            = (if opened then (0, Some (Image.glyph_write_bmp (Image.mk_image w h data)))
               else (-1, None))).
Proof.
  split; [reflexivity|]. split; [reflexivity|]. split; [intros v; split; reflexivity|].
  split.
  - intros font glyph_index scale_x scale_y r g b fresh Hn.
    unfold Render.glyph_ttf_render_glyph_to_image. rewrite Hn. split; reflexivity.
  - intros w h data. split; reflexivity.
Qed.

Lemma writers_refuse_missing_image_witness :
  Render.glyph_write_png_call
    (Some (Render.glyph_ttf_render_glyph_to_image Sample.loaded_font 1 F32.one F32.one
                                                  255 255 255 (fun _ => 0))) true
  = (-1, None).
Proof.
  apply (proj1 (proj2 (proj2 (proj2 (writers_refuse_missing_image true))))
               Sample.loaded_font 1 F32.one F32.one 255 255 255 (fun _ => 0)).
  vm_compute. reflexivity.
Defined.

(** X18: a glyph rendered into an image and written as a PNG file or as a
    BMP file is read back, by the reference readers of the two formats, as
    an image of the size of the bitmap whose pixels are the shaded
    coverage. *)
Theorem rendered_glyph_round_trip (font : TrueType.glyph_font_t) (glyph_index : Z)
        (scale_x scale_y : spec_float) (r g b : Z) (fresh : Z -> Z) (cells : list Z) :
  let res := Outline.glyph_ttf_get_glyph_bitmap font glyph_index scale_x scale_y in
  let v := Render.glyph_ttf_render_glyph_to_image font glyph_index scale_x scale_y
                                                   r g b fresh in
  let W := Outline.width res in
  let H := Outline.height res in
  Outline.bitmap res = Some cells ->
  ImageSpec.zlib_size (Image.mk_image W H (ChecksumSpec.shaded cells r g b)) <= 2 ^ 31 - 1 ->
  54 + (W * 3 + 3) / 4 * 4 * H <= Mach.INT_MAX ->
  (exists file,
      Render.glyph_write_png_call (Some v) true = (0, Some file)
      /\ PngFormat.png_decode file = Some (W, H, ChecksumSpec.shaded cells r g b))
  /\ (exists file,
         Render.glyph_write_bmp_call (Some v) true = (0, Some file)
         /\ BmpFormat.bmp_decode file = Some (W, H, ChecksumSpec.shaded cells r g b)).
Proof.
  intros res v W H Hb Hz Hbmp. subst v.
  pose proof (bitmap_result_shape font glyph_index scale_x scale_y) as Hs.
  cbv zeta in Hs. fold res in Hs. rewrite Hb in Hs. fold W H in Hs.
  destruct Hs as (HW & HH & Hl & _).
  assert (Hraw : (3 * W + 1) * H <= 2147483641).
  { unfold ImageSpec.zlib_size, ImageSpec.raw_size in Hz.
    cbn [Image.width Image.height] in Hz.
    assert (0 <= ((3 * W + 1) * H + 65534) / 65535) by (apply Z.div_pos; nia).
    change (2 ^ 31) with 2147483648 in Hz. lia. }
  assert (Hrow : 3 * W + 1 <= (3 * W + 1) * H) by nia.
  assert (Hcol : H <= (3 * W + 1) * H) by nia.
  assert (Hsize : 3 * W * H <= Mach.INT_MAX).
  { assert (3 * W * H + H = (3 * W + 1) * H) by ring.
    unfold Mach.INT_MAX. change (2 ^ 31) with 2147483648. lia. }
  set (img := Image.mk_image W H (ChecksumSpec.shaded cells r g b)) in *.
  assert (Himg : ImageSpec.rgb_image img).
  { unfold ImageSpec.rgb_image, img. cbn [Image.width Image.height Image.data].
    change (2 ^ 32) with 4294967296.
    split; [lia|]. split; [lia|]. split.
    - rewrite shaded_length. unfold PngFormat.len. lia.
    - apply shaded_bytes. }
  rewrite (render_of_bitmap font glyph_index scale_x scale_y r g b fresh cells Hb Hsize).
  fold W H. split.
  - exists (Image.glyph_write_png img). split; [reflexivity|].
    destruct (png_round_trip_blocks img Himg HW HH Hz) as (_ & _ & _ & _ & Hd).
    exact Hd.
  - exists (Image.glyph_write_bmp img). split; [reflexivity|].
    unfold Mach.INT_MAX in *. change (2 ^ 31) with 2147483648 in *.
    apply (bmp_decode_written img); unfold Mach.INT_MAX;
      change (2 ^ 31) with 2147483648;
      cbn [Image.width Image.height Image.data img].
    + lia.
    + lia.
    + lia.
    + exact Hbmp.
    + rewrite shaded_length. unfold PngFormat.len. lia.
Qed.

Lemma rendered_glyph_round_trip_witness :
  exists file,
    Render.glyph_write_png_call
      (Some (Render.glyph_ttf_render_glyph_to_image
               Sample.loaded_font 0
               (Outline.glyph_ttf_scale_for_pixel_height Sample.loaded_font (F32.of_int 16))
               (Outline.glyph_ttf_scale_for_pixel_height Sample.loaded_font (F32.of_int 16))
               255 255 255 (fun _ => 0))) true
    = (0, Some file)
    /\ exists pixels, PngFormat.png_decode file = Some (17, 17, pixels).
Proof.
  destruct (Outline.bitmap
              (Outline.glyph_ttf_get_glyph_bitmap
                 Sample.loaded_font 0
                 (Outline.glyph_ttf_scale_for_pixel_height Sample.loaded_font (F32.of_int 16))
                 (Outline.glyph_ttf_scale_for_pixel_height Sample.loaded_font (F32.of_int 16))))
    as [cells|] eqn:E; [|vm_compute in E; discriminate].
  pose proof (rendered_glyph_round_trip
                Sample.loaded_font 0
                (Outline.glyph_ttf_scale_for_pixel_height Sample.loaded_font (F32.of_int 16))
                (Outline.glyph_ttf_scale_for_pixel_height Sample.loaded_font (F32.of_int 16))
                255 255 255 (fun _ => 0) cells) as H.
  cbv zeta in H.
  destruct (H E ltac:(vm_compute; discriminate) ltac:(vm_compute; discriminate))
    as [(file & Hcall & Hdec) _].
  exists file. split; [exact Hcall|].
  exists (ChecksumSpec.shaded cells 255 255 255). rewrite Hdec.
  assert (Hw : Outline.width
                 (Outline.glyph_ttf_get_glyph_bitmap
                    Sample.loaded_font 0
                    (Outline.glyph_ttf_scale_for_pixel_height Sample.loaded_font (F32.of_int 16))
                    (Outline.glyph_ttf_scale_for_pixel_height Sample.loaded_font (F32.of_int 16)))
               = 17) by (vm_compute; reflexivity).
  assert (Hh : Outline.height
                 (Outline.glyph_ttf_get_glyph_bitmap
                    Sample.loaded_font 0
                    (Outline.glyph_ttf_scale_for_pixel_height Sample.loaded_font (F32.of_int 16))
                    (Outline.glyph_ttf_scale_for_pixel_height Sample.loaded_font (F32.of_int 16)))
               = 17) by (vm_compute; reflexivity).
  rewrite Hw, Hh. reflexivity.
Defined.

(** X19: on bytes, the table-driven [crc32] is the CRC-32 of the PNG
    standard computed bit by bit (polynomial 0xEDB88320, register preset to
    all ones, result complemented); the result is a 32-bit value, and the
    check input, the digits 1 to 9, gives 0xCBF43926. *)
Theorem crc32_is_standard_crc :
  (forall l, Forall ImageSpec.byte l ->
             Image.crc32 l = PngFormat.crc l /\ 0 <= Image.crc32 l < 2 ^ 32)
  /\ Image.crc32 ChecksumSpec.check_input = 3421780262.
Proof.
  split.
  - intros l Hl. rewrite crc32_is_crc by exact Hl. split; [reflexivity|].
    apply crc_range. exact Hl.
  - vm_compute. reflexivity.
Qed.

Lemma crc32_is_standard_crc_witness :
  Image.crc32 [73; 69; 78; 68] = PngFormat.crc [73; 69; 78; 68].
Proof.
  apply (proj1 crc32_is_standard_crc [73; 69; 78; 68]).
  repeat (apply Forall_cons; [unfold ImageSpec.byte; lia|]). apply Forall_nil.
Defined.

(** X20: [adler32] in closed form.  The low half is one plus the sum of the
    bytes, the high half is the number of bytes plus the sum in which the
    byte at position [i] of [n] counts [n - i] times, both modulo 65521; the
    result is a 32-bit value, and 1 for the empty input. *)
Theorem adler32_closed_form (l : list Z) :
  Image.adler32 l
  = ((PngFormat.len l + ChecksumSpec.weighted_sum l) mod 65521) * 65536
    + (1 + ChecksumSpec.byte_sum l) mod 65521
  /\ 0 <= Image.adler32 l < 2 ^ 32
  /\ Image.adler32 [] = 1.
Proof.
  split; [|split].
  - rewrite adler32_is_adler. apply adler_closed.
  - rewrite adler32_is_adler. apply adler_range.
  - reflexivity.
Qed.

(** X21: the two integer encoders.  [write_u32_be] gives four bytes that
    read back, most significant byte first, as the value; [write_u32_le]
    overwrites the first four bytes of the buffer with the same bytes in the
    opposite order, which read back as the value least significant byte
    first, and leaves the rest of the buffer and its length alone. *)
Theorem u32_encoders_round_trip (v : Z) :
  0 <= v < 2 ^ 32 ->
  PngFormat.be32_value (Image.write_u32_be v) = v
  /\ Forall ImageSpec.byte (Image.write_u32_be v)
  /\ (forall buf,
         4 <= PngFormat.len buf ->
         Render.write_u32_le buf v = rev (Image.write_u32_be v) ++ PngFormat.drop 4 buf
         /\ BmpFormat.le32_at (Render.write_u32_le buf v) 0 = v
         /\ PngFormat.len (Render.write_u32_le buf v) = PngFormat.len buf).
Proof.
  intros Hv. split; [apply be32_value_write; exact Hv|].
  split; [apply write_u32_be_bytes|].
  intros buf Hbuf. rewrite write_u32_le_bytes by exact Hbuf.
  split; [reflexivity|]. split.
  - unfold BmpFormat.le32_at, Image.le32_bytes. cbn [app].
    change (Arr.get 0 (?a :: _) 0) with a.
    apply (le32_bytes_value v Hv).
  - rewrite len_app. unfold PngFormat.len, PngFormat.drop, Image.le32_bytes in *.
    rewrite length_skipn. cbn [List.length]. lia.
Qed.

Lemma u32_encoders_round_trip_witness :
  Render.write_u32_le [9; 9; 9; 9; 9; 9] 305419896 = [120; 86; 52; 18; 9; 9]
  /\ Image.write_u32_be 305419896 = [18; 52; 86; 120].
Proof.
  destruct (u32_encoders_round_trip 305419896 ltac:(lia)) as (_ & _ & H).
  destruct (H [9; 9; 9; 9; 9; 9] ltac:(vm_compute; discriminate)) as (E & _ & _).
  split; [rewrite E|]; vm_compute; reflexivity.
Defined.

(** X22: the headers of the BMP file, for an image whose sizes fit the
    writer's [int] arithmetic: the signature BM, the file size (which is the
    length of the file), the pixel offset 54, the header size 40, the width
    and the height, one plane, 24 bits per pixel, no compression, the size
    of the pixel data, and zero in every other field. *)
Theorem bmp_headers (img : Image.glyph_image_t) :
  let W := Image.width img in
  let H := Image.height img in
  let S := (W * 3 + 3) / 4 * 4 in
  let file := Image.glyph_write_bmp img in
  0 <= W -> 0 <= H <= Mach.INT_MAX ->
  W * 3 + 3 <= Mach.INT_MAX ->
  54 + S * H <= Mach.INT_MAX ->
  Arr.get 0 file 0 = 66 /\ Arr.get 0 file 1 = 77
  /\ BmpFormat.le32_at file 2 = 54 + S * H
  /\ BmpFormat.le32_at file 6 = 0
  /\ BmpFormat.le32_at file 10 = 54
  /\ BmpFormat.le32_at file 14 = 40
  /\ BmpFormat.le32_at file 18 = W
  /\ BmpFormat.le32_at file 22 = H
  /\ BmpFormat.le16_at file 26 = 1 /\ BmpFormat.le16_at file 28 = 24
  /\ BmpFormat.le32_at file 30 = 0
  /\ BmpFormat.le32_at file 34 = S * H
  /\ (forall o, 38 <= o < 54 -> Arr.get 0 file o = 0)
  /\ PngFormat.len file = BmpFormat.le32_at file 2.
Proof.
  intros W H S file HW HH HWmax Hsize.
  pose proof (bmp_file_fields img HW HH HWmax Hsize) as F. cbv zeta in F.
  fold W H S file in F.
  destruct F as (F0 & F1 & F2 & F6 & F10 & F14 & F18 & F22 & F26 & F28 & F30 & F34
                 & Fz & Flen & _).
  repeat (split; [assumption|]). rewrite F2. exact Flen.
Qed.

Lemma bmp_headers_witness :
  BmpFormat.le32_at (Image.glyph_write_bmp ImageSpec.small_image) 2 = 70
  /\ BmpFormat.le32_at (Image.glyph_write_bmp ImageSpec.small_image) 18 = 2.
Proof.
  pose proof (bmp_headers ImageSpec.small_image) as F. cbv zeta in F.
  destruct F as (_ & _ & F2 & _ & _ & _ & F18 & _);
    try (vm_compute; try split; discriminate).
  split; [rewrite F2; reflexivity|exact F18].
Defined.

(** X23: the BMP file written for an RGB image whose sizes fit the writer's
    [int] arithmetic is read back by the reference BMP reader as the same
    width, height and pixel buffer. *)
Theorem bmp_round_trip (img : Image.glyph_image_t) :
  let W := Image.width img in
  let H := Image.height img in
  0 <= W -> 0 <= H <= Mach.INT_MAX ->
  W * 3 + 3 <= Mach.INT_MAX ->
  54 + (W * 3 + 3) / 4 * 4 * H <= Mach.INT_MAX ->
  PngFormat.len (Image.data img) = W * H * 3 ->
  BmpFormat.bmp_decode (Image.glyph_write_bmp img) = Some (W, H, Image.data img).
Proof.
  intros W H HW HH HWmax Hsize Hdata.
  apply bmp_decode_written; assumption.
Qed.

Lemma bmp_round_trip_witness :
  BmpFormat.bmp_decode (Image.glyph_write_bmp ImageSpec.small_image)
  = Some (2, 2, [10; 20; 30; 40; 50; 60; 1; 2; 3; 250; 251; 252]).
Proof.
  apply (bmp_round_trip ImageSpec.small_image);
    vm_compute; try split; try discriminate; reflexivity.
Defined.

(** X24: the PNG file is never smaller than the pixels it holds.  For an
    image within the bounds of the round trip its length is 57 bytes of
    signature and chunk framing plus the zlib stream, that is 63 bytes plus
    the [(3 * W + 1) * H] filtered bytes plus 5 bytes for every block of
    65535. *)
Theorem png_file_size_formula (img : Image.glyph_image_t) :
  ImageSpec.rgb_image img ->
  1 <= Image.width img -> 1 <= Image.height img ->
  ImageSpec.zlib_size img <= 2 ^ 31 - 1 ->
  let R := (3 * Image.width img + 1) * Image.height img in
  PngFormat.len (Image.glyph_write_png img) = 63 + R + 5 * ((R + 65534) / 65535)
  /\ PngFormat.len (Image.data img) < PngFormat.len (Image.glyph_write_png img).
Proof.
  intros Himg Hw Hh Hsize R. subst R.
  pose proof (png_file_size img Himg Hw Hh Hsize) as E.
  unfold ImageSpec.zlib_size, ImageSpec.raw_size in E.
  set (R := (3 * Image.width img + 1) * Image.height img) in *.
  split; [lia|].
  destruct Himg as (_ & _ & Hlen & _). rewrite Hlen, E.
  assert (0 <= (R + 65534) / 65535) by (apply Z.div_pos; unfold R; nia).
  assert (Image.width img * Image.height img * 3 <= R) by (unfold R; nia).
  lia.
Qed.

Lemma png_file_size_formula_witness :
  PngFormat.len (Image.glyph_write_png ImageSpec.small_image) = 82.
Proof.
  refine (eq_trans (proj1 (png_file_size_formula ImageSpec.small_image _ _ _ _)) _).
  - unfold ImageSpec.rgb_image. cbn [Image.width Image.height Image.data ImageSpec.small_image].
    split; [lia|]. split; [lia|]. split; [reflexivity|].
    repeat (apply Forall_cons; [unfold ImageSpec.byte; lia|]). apply Forall_nil.
  - vm_compute. discriminate.
  - vm_compute. discriminate.
  - vm_compute. discriminate.
  - vm_compute. reflexivity.
Defined.

(** X25: an image without rows or without columns.  With a height of 0
    (and an allocator that returns a block for a request of 0 bytes, so that
    the writer goes on) the zlib stream holds the header and the Adler-32 of
    nothing but no block at all, and the file is 63 bytes long; with a width
    or a height of 0 the file written is refused by the reference
    decoder. *)
Theorem png_of_empty_image (img : Image.glyph_image_t) :
  0 <= Image.width img < 2 ^ 32 -> 0 <= Image.height img < 2 ^ 32 ->
  (Image.height img = 0 ->
   Image.zlib_stream img = [120; 1; 0; 0; 0; 1]
   /\ PngFormat.len (Image.glyph_write_png img) = 63)
  /\ (Image.width img = 0 \/ Image.height img = 0 ->
      PngFormat.png_decode (Image.glyph_write_png img) = None).
Proof.
  intros Hw Hh. split.
  - intros Hz. pose proof (zlib_stream_no_rows img Hz) as Es. split; [exact Es|].
    rewrite png_layout.
    + rewrite Es. rewrite !len_app, !chunk_length. reflexivity.
    + rewrite Es. reflexivity.
    + rewrite Es. repeat (apply Forall_cons; [unfold ImageSpec.byte; lia|]). apply Forall_nil.
  - intros Hz. destruct (png_header img) as (rest & ->).
    apply png_decode_refuses_empty; assumption.
Qed.

Lemma png_of_empty_image_witness :
  PngFormat.len (Image.glyph_write_png (Image.mk_image 5 0 [])) = 63
  /\ PngFormat.png_decode (Image.glyph_write_png (Image.mk_image 5 0 [])) = None.
Proof.
  destruct (png_of_empty_image (Image.mk_image 5 0 [])
              ltac:(vm_compute; split; [discriminate|reflexivity])
              ltac:(vm_compute; split; [discriminate|reflexivity])) as [H0 Hd].
  split.
  - apply (proj2 (H0 eq_refl)).
  - apply Hd. right. reflexivity.
Defined.

(** * The distance field of a bitmap without an edge *)

Section SmallIntegers.
Import F32.

(** Rounding a mantissa below 2^24: the exponent moves by at most one. *)
Lemma binary_round_aux_small (m : positive) (e : Z) (l : location) :
  -149 <= e <= 0 -> Zpos m < 2 ^ 24 ->
  exists m' e',
    (forall sx, binary_round_aux prec emax sx (Zpos m) e l = S754_finite sx m' e')
    /\ e' <= e + 1.
Proof.
  intros He Hm. unfold binary_round_aux.
  assert (Hd : Zpos (digits2_pos m) <= 24) by (apply digits2_pos_upper; lia).
  pose proof (shr_fexp_positive m e l ltac:(lia)) as H1. cbv zeta in H1.
  destruct (shr_fexp prec emax (Zpos m) e l) as [mrs1 e1]. cbn [fst snd] in H1.
  destruct H1 as (Hm1 & He1 & He1').
  pose proof (round_nearest_even_bounds (shr_m mrs1) (loc_of_shr_record mrs1)) as Hr.
  set (m2 := round_nearest_even (shr_m mrs1) (loc_of_shr_record mrs1)) in *.
  destruct m2 as [|p2|p2] eqn:E2; try lia.
  assert (Hd2 : Zpos (digits2_pos p2) <= 25).
  { apply digits2_pos_upper; [lia|].
    change (2 ^ 24) with 16777216 in Hm. change (2 ^ 25) with 33554432. lia. }
  pose proof (shr_fexp_positive p2 e1 loc_Exact ltac:(lia)) as H2. cbv zeta in H2.
  destruct (shr_fexp prec emax (Zpos p2) e1 loc_Exact) as [mrs2 e2]. cbn [fst snd] in H2.
  destruct H2 as (Hm2 & He2 & _).
  destruct (shr_m mrs2) as [|p3|p3] eqn:E3; try lia.
  exists p3, e2. split; [|lia]. intros sx.
  replace (e2 <=? emax - prec) with true; [reflexivity|].
  symmetry. apply Z.leb_le. unfold emax, prec. lia.
Qed.

(** An [int] between 1 and 2^24 - 1 converts to a finite number with an
    exponent of at most 1, and its opposite to the opposite number. *)
Lemma of_int_small (z : Z) :
  1 <= z < 2 ^ 24 ->
  exists m e, of_int z = S754_finite false m e
              /\ of_int (- z) = S754_finite true m e
              /\ e <= 1.
Proof.
  intros Hz. destruct z as [|p|p]; try lia.
  unfold of_int. cbn [binary_normalize Z.opp]. unfold binary_round.
  assert (Hd : Zpos (digits2_pos p) <= 24) by (apply digits2_pos_upper; lia).
  pose proof (digits2_pos_bounds p) as [Hlo Hhi].
  assert (Hf : fexp prec emax (Zpos (digits2_pos p) + 0) = Zpos (digits2_pos p) - 24)
    by (unfold fexp, emin, prec, emax; lia).
  rewrite Hf.
  assert (Hz' : forall mz ez,
             shl_align p 0 (Zpos (digits2_pos p) - 24) = (mz, ez) ->
             -149 <= ez <= 0 /\ Zpos mz < 2 ^ 24).
  { intros mz ez Es. unfold shl_align in Es.
    remember (Zpos (digits2_pos p)) as dd eqn:Edd.
    destruct (dd - 24 - 0) as [|q|q] eqn:Eq; injection Es as <- <-.
    - split; lia.
    - split; lia.
    - split; [lia|]. rewrite digits2_pos_shift.
      assert (Hq : Zpos q = 24 - dd) by lia.
      assert (Hpow : 2 ^ dd * 2 ^ Zpos q = 2 ^ 24).
      { rewrite <- Z.pow_add_r by lia. f_equal. lia. }
      assert (0 < 2 ^ Zpos q) by (apply Z.pow_pos_nonneg; lia).
      nia. }
  destruct (shl_align p 0 (Zpos (digits2_pos p) - 24)) as [mz ez] eqn:Es.
  specialize (Hz' mz ez eq_refl). destruct Hz' as [He Hmz].
  destruct (binary_round_aux_small mz ez loc_Exact He Hmz) as (m' & e' & Hr & Hb).
  exists m', e'. split; [apply Hr|]. split; [apply Hr|lia].
Qed.

End SmallIntegers.

Section UniformField.
Import Mach F32 DistanceField.

Lemma fold_left_fixed {A B} (f : A -> B -> A) (a : A) (l : list B) :
  (forall x, In x l -> f a x = a) -> fold_left f l a = a.
Proof.
  induction l as [|x l IH]; intros H; cbn [fold_left]; [reflexivity|].
  rewrite (H x) by (left; reflexivity). apply IH. intros y Hy. apply H. right. exact Hy.
Qed.

Lemma set_nat_same {A} (d : A) (l : list A) :
  forall k : nat, (k < List.length l)%nat -> Arr.set_nat l k (nth k l d) = l.
Proof.
  induction l as [|a l IH]; intros k Hk; cbn [List.length] in Hk; [lia|].
  destruct k; cbn [Arr.set_nat nth]; [reflexivity|]. rewrite IH by lia. reflexivity.
Qed.

Variables (w h : Z) (dt : list spec_float).
Hypothesis Hlen : Z.of_nat (List.length dt) = w * h.
Hypothesis Hfar : forall i, 0 <= i < w * h -> Arr.get zero dt i = far.

Lemma relax_far (idx nidx : Z) :
  0 <= idx < w * h -> 0 <= nidx < w * h -> relax dt idx nidx = dt.
Proof.
  intros Hi Hn. unfold relax. rewrite (Hfar idx Hi), (Hfar nidx Hn).
  change (fminf far (add far one)) with far.
  pose proof (Hfar idx Hi) as E. rewrite get_nth in E by lia.
  unfold Arr.set. destruct (Z.ltb_spec idx 0); [lia|].
  rewrite <- E. apply set_nat_same. lia.
Qed.

Lemma distance_passes_far : 0 <= w -> 0 <= h -> distance_passes w h dt = dt.
Proof.
  intros Hw Hh. unfold distance_passes. cbv zeta.
  match goal with
  | |- fold_left _ _ (fold_left ?rows ?ys dt) = dt =>
      assert (Hrows : fold_left rows ys dt = dt)
  end.
  { apply fold_left_fixed. intros y Hy. apply range_in in Hy.
    rewrite (fold_left_fixed _ dt (Arr.range 0 w)).
    - apply fold_left_fixed. intros x Hx. rewrite <- in_rev in Hx. apply range_in in Hx.
      destruct (x <? w - 1) eqn:E; [|reflexivity].
      apply Z.ltb_lt in E. apply relax_far; nia.
    - intros x Hx. apply range_in in Hx.
      destruct (x >? 0) eqn:E; [|reflexivity].
      rewrite Z.gtb_ltb in E. apply Z.ltb_lt in E. apply relax_far; nia. }
  rewrite Hrows.
  apply fold_left_fixed. intros x Hx. apply range_in in Hx.
  rewrite (fold_left_fixed _ dt (Arr.range 0 h)).
  - apply fold_left_fixed. intros y Hy. rewrite <- in_rev in Hy. apply range_in in Hy.
    destruct (y <? h - 1) eqn:E; [|reflexivity].
    apply Z.ltb_lt in E. apply relax_far; nia.
  - intros y Hy. apply range_in in Hy.
    destruct (y >? 0) eqn:E; [|reflexivity].
    rewrite Z.gtb_ltb in E. apply Z.ltb_lt in E. apply relax_far; nia.
Qed.

End UniformField.

Section UniformBitmap.
Import Mach F32 DistanceField.

Variables (bitmap : list Z) (w h spread : Z).
Hypothesis Hw : 0 <= w.
Hypothesis Hh : 0 <= h.
Hypothesis Hspread : 1 <= spread < 2 ^ 24.

Lemma spread_is_int : 1 <= spread <= INT_MAX.
Proof. unfold INT_MAX. change (2 ^ 24) with 16777216 in Hspread. lia. Qed.

Lemma far_above_spread : gtb far (of_int spread) = true.
Proof.
  destruct (of_int_small spread Hspread) as (m & e & Hp & _ & He).
  unfold gtb, SFltb. rewrite Hp.
  change far with (S754_finite false 15625000 6). cbn [SFcompare].
  destruct (Z.compare_spec e 6); try lia; reflexivity.
Qed.

Lemma far_below_spread : ltb (SFopp far) (of_int (- spread)) = true.
Proof.
  destruct (of_int_small spread Hspread) as (m & e & _ & Hn & He).
  unfold ltb, SFltb. rewrite Hn.
  change (SFopp far) with (S754_finite true 15625000 6). cbn [SFcompare].
  destruct (Z.compare_spec 6 e); try lia; reflexivity.
Qed.

Lemma constant_field (c : spec_float) :
  let field := map (fun _ : Z => c) (Arr.range 0 (w * h)) in
  Z.of_nat (List.length field) = w * h
  /\ forall i, 0 <= i < w * h -> Arr.get zero field i = c.
Proof.
  cbv zeta. split.
  - rewrite length_map, range_length. nia.
  - intros i Hi. apply get_map_range. exact Hi.
Qed.

Lemma far_field_stays :
  distance_passes w h (map (fun _ : Z => far) (Arr.range 0 (w * h)))
  = map (fun _ : Z => far) (Arr.range 0 (w * h)).
Proof.
  pose proof (constant_field far) as [Hl Hf]. cbv zeta in Hl, Hf.
  apply distance_passes_far; assumption.
Qed.

Lemma mask_uniform (v : Z) :
  (forall i, 0 <= i < w * h -> (if Arr.get 0 bitmap i >? 127 then 1 else 0) = v) ->
  threshold_mask bitmap w h = map (fun _ : Z => v) (Arr.range 0 (w * h)).
Proof.
  intros H. unfold threshold_mask. apply map_ext_in. intros i Hi.
  apply range_in in Hi. apply H. exact Hi.
Qed.

Lemma map_constant {A} (c : Z) (l : list A) :
  map (fun _ => c) l = repeat c (List.length l).
Proof. induction l as [|a l IH]; cbn [map List.length repeat]; [|rewrite IH]; reflexivity. Qed.

Lemma sdf_blank :
  (forall i, 0 <= i < w * h -> Arr.get 0 bitmap i <= 127) ->
  glyph_ttf_get_glyph_sdf_bitmap bitmap w h spread = repeat 255 (Z.to_nat (w * h)).
Proof.
  intros Hb. unfold glyph_ttf_get_glyph_sdf_bitmap.
  rewrite (mask_uniform 0)
    by (intros i Hi; specialize (Hb i Hi);
        destruct (Z.gtb_spec (Arr.get 0 bitmap i) 127); [lia|reflexivity]).
  unfold outside_field. rewrite map_map.
  change (fun x : Z => if truthy 0 then zero else far) with (fun _ : Z => far).
  rewrite far_field_stays.
  rewrite (map_ext_in _ (fun _ : Z => 255)).
  - rewrite map_constant, range_length. f_equal. lia.
  - intros i Hi. apply range_in in Hi.
    rewrite !get_map_range by exact Hi. unfold sdf_pixel.
    change (truthy 0) with false. cbv iota.
    rewrite (clamp_above spread spread_is_int) by (right; exact far_above_spread).
    apply remap_above. exact spread_is_int.
Qed.

Lemma sdf_full :
  (forall i, 0 <= i < w * h -> 127 < Arr.get 0 bitmap i) ->
  glyph_ttf_get_glyph_sdf_bitmap bitmap w h spread = repeat 0 (Z.to_nat (w * h)).
Proof.
  intros Hb. unfold glyph_ttf_get_glyph_sdf_bitmap.
  rewrite (mask_uniform 1)
    by (intros i Hi; specialize (Hb i Hi);
        destruct (Z.gtb_spec (Arr.get 0 bitmap i) 127); [reflexivity|lia]).
  unfold inside_field. rewrite (map_map _ (fun m : Z => if truthy m then far else zero)).
  change (fun x : Z => if truthy 1 then far else zero) with (fun _ : Z => far).
  rewrite far_field_stays.
  rewrite (map_ext_in _ (fun _ : Z => 0)).
  - rewrite map_constant, range_length. f_equal. lia.
  - intros i Hi. apply range_in in Hi.
    rewrite !(get_map_range _ (fun _ : Z => far)) by exact Hi.
    rewrite (get_map_range 0 (fun _ : Z => 1)) by exact Hi.
    unfold sdf_pixel. change (truthy 1) with true. cbv iota.
    rewrite (clamp_below spread spread_is_int) by (right; exact far_below_spread).
    apply remap_below. exact spread_is_int.
Qed.

End UniformBitmap.



(** X27: [glyph_ttf_scale_for_pixel_height] does not guard the division:
    with [unitsPerEm] equal to 0 the scale of a pixel height that is not
    zero is an infinity of the sign of the height, and the scale of a zero
    height is not a number. *)
Theorem scale_without_units (font : TrueType.glyph_font_t) (pixels : spec_float) :
  FontSpec.unitsPerEm font = 0 ->
  Outline.glyph_ttf_scale_for_pixel_height font pixels
  = match pixels with
    | S754_finite s _ _ => S754_infinity s
    | S754_infinity s => S754_infinity s
    | S754_zero _ => S754_nan
    | S754_nan => S754_nan
    end.
Proof.
  intros H0. unfold Outline.glyph_ttf_scale_for_pixel_height.
  unfold FontSpec.unitsPerEm in H0. rewrite H0.
  change (F32.of_int 0) with (S754_zero false).
  destruct pixels as [s|s| |s m e]; cbn [F32.div SFdiv]; try reflexivity;
    unfold F32.div; cbn [SFdiv]; rewrite ?xorb_false_r; reflexivity.
Qed.

Lemma scale_without_units_witness :
  Outline.glyph_ttf_scale_for_pixel_height Sample.blank_handle (F32.of_int 16)
  = S754_infinity false.
Proof.
  apply (scale_without_units Sample.blank_handle (F32.of_int 16)).
  vm_compute. reflexivity.
Defined.

(** * Integers that are binary32 numbers *)

Section ExactNumbers.
Import Mach F32 FloatSpec.

Lemma digits2_pos_unique (m : positive) (d : Z) :
  2 ^ (d - 1) <= Zpos m < 2 ^ d -> Zpos (digits2_pos m) = d.
Proof.
  intros [Hlo Hhi]. pose proof (digits2_pos_bounds m) as [Blo Bhi].
  assert (Hd : 0 < d).
  { destruct (Z.lt_ge_cases 0 d) as [|Hd]; [assumption|]. exfalso.
    assert (2 ^ d <= 2 ^ 0) by (apply Z.pow_le_mono_r; lia).
    change (2 ^ 0) with 1 in *. lia. }
  destruct (Z.lt_trichotomy (Zpos (digits2_pos m)) d) as [H|[H|H]]; [|assumption|]; exfalso.
  - assert (2 ^ Zpos (digits2_pos m) <= 2 ^ (d - 1)) by (apply Z.pow_le_mono_r; lia). lia.
  - assert (2 ^ d <= 2 ^ (Zpos (digits2_pos m) - 1)) by (apply Z.pow_le_mono_r; lia). lia.
Qed.

(** Shifting out zero bits leaves an exact record. *)
Lemma shr_1_exact (a : Z) :
  0 <= a ->
  shr_1 {| shr_m := 2 * a; shr_r := false; shr_s := false |}
  = {| shr_m := a; shr_r := false; shr_s := false |}.
Proof. intros Ha. destruct a as [|p|p]; [reflexivity|reflexivity|lia]. Qed.

Lemma iter_shr_exact (n : positive) :
  forall a, 0 <= a ->
    iter_pos shr_1 n {| shr_m := a * 2 ^ Zpos n; shr_r := false; shr_s := false |}
    = {| shr_m := a; shr_r := false; shr_s := false |}.
Proof.
  assert (Hpow : forall k, 0 < 2 ^ Zpos k) by (intros; apply Z.pow_pos_nonneg; lia).
  induction n as [n IH|n IH|]; intros a Ha; cbn [iter_pos].
  - replace (a * 2 ^ Zpos n~1) with (2 * ((a * 2 ^ Zpos n) * 2 ^ Zpos n)).
    + pose proof (Hpow n). rewrite shr_1_exact by nia.
      rewrite IH by nia. apply IH. exact Ha.
    + replace (Zpos n~1) with (1 + Zpos n + Zpos n) by lia.
      rewrite !Z.pow_add_r by lia. change (2 ^ 1) with 2. ring.
  - replace (a * 2 ^ Zpos n~0) with ((a * 2 ^ Zpos n) * 2 ^ Zpos n).
    + pose proof (Hpow n). rewrite IH by nia. apply IH. exact Ha.
    + replace (Zpos n~0) with (Zpos n + Zpos n) by lia.
      rewrite !Z.pow_add_r by lia. ring.
  - change (2 ^ 1) with 2. replace (a * 2) with (2 * a) by ring.
    apply shr_1_exact. exact Ha.
Qed.

(** A mantissa of 24 digits with the exact location is kept by the
    rounding. *)
Lemma binary_round_aux_exact (s : bool) (m : positive) (e : Z) :
  2 ^ 23 <= Zpos m < 2 ^ 24 -> -149 <= e <= 104 ->
  binary_round_aux prec emax s (Zpos m) e loc_Exact = S754_finite s m e.
Proof.
  intros Hm He. unfold binary_round_aux, shr_fexp.
  assert (Hd : Zdigits2 (Zpos m) = 24)
    by (cbn [Zdigits2]; apply digits2_pos_unique; exact Hm).
  assert (Hf : fexp prec emax (24 + e) - e = 0)
    by (unfold fexp, emin, prec, emax; lia).
  rewrite Hd, Hf.
  cbn [shr shr_record_of_loc shr_m loc_of_shr_record round_nearest_even].
  rewrite Hd, Hf. cbn [shr shr_m].
  replace (e <=? emax - prec) with true; [reflexivity|].
  symmetry. apply Z.leb_le. unfold emax, prec. lia.
Qed.

(** Normalisation of a mantissa that holds, at another exponent, a number
    of 24 digits. *)
Lemma binary_round_exact (s : bool) (n : positive) (e0 : Z) (m : positive) (e : Z) :
  2 ^ 23 <= Zpos m < 2 ^ 24 -> -149 <= e <= 104 ->
  (e0 <= e /\ Zpos n = Zpos m * 2 ^ (e - e0))
  \/ (e <= e0 /\ Zpos n * 2 ^ (e0 - e) = Zpos m) ->
  binary_round prec emax s n e0 = S754_finite s m e.
Proof.
  intros Hm He Hn. unfold binary_round.
  assert (Hd : Zpos (digits2_pos n) = 24 + (e - e0)).
  { apply digits2_pos_unique. destruct Hn as [[Hle Hn]|[Hle Hn]].
    - rewrite Hn.
      replace (24 + (e - e0) - 1) with (23 + (e - e0)) by lia.
      rewrite !Z.pow_add_r by lia.
      assert (0 < 2 ^ (e - e0)) by (apply Z.pow_pos_nonneg; lia). nia.
    - assert (Hp : 0 < 2 ^ (e0 - e)) by (apply Z.pow_pos_nonneg; lia).
      assert (Hk : e0 - e < 24).
      { destruct (Z.lt_ge_cases (e0 - e) 24) as [|Hge]; [assumption|]. exfalso.
        assert (2 ^ 24 <= 2 ^ (e0 - e)) by (apply Z.pow_le_mono_r; lia). nia. }
      assert (E1 : 2 ^ 23 = 2 ^ (24 + (e - e0) - 1) * 2 ^ (e0 - e)).
      { rewrite <- Z.pow_add_r by lia. f_equal. lia. }
      assert (E2 : 2 ^ 24 = 2 ^ (24 + (e - e0)) * 2 ^ (e0 - e)).
      { rewrite <- Z.pow_add_r by lia. f_equal. lia. }
      assert (0 < 2 ^ (24 + (e - e0) - 1)) by (apply Z.pow_pos_nonneg; lia).
      assert (0 < 2 ^ (24 + (e - e0))) by (apply Z.pow_pos_nonneg; lia).
      split; nia. }
  rewrite Hd.
  assert (Hf : fexp prec emax (24 + (e - e0) + e0) = e)
    by (unfold fexp, emin, prec, emax; lia).
  rewrite Hf. unfold shl_align.
  destruct (e - e0) as [|p|p] eqn:Ek.
  - assert (e0 = e) by lia. subst e0.
    assert (Zpos n = Zpos m) as Hnm.
    { destruct Hn as [[_ Hn]|[_ Hn]]; rewrite ?Z.sub_diag in Hn;
        change (2 ^ 0) with 1 in Hn; lia. }
    injection Hnm as ->. apply binary_round_aux_exact; assumption.
  - destruct Hn as [[_ Hn]|[Hle _]]; [|lia].
    unfold binary_round_aux, shr_fexp. cbn [Zdigits2]. rewrite Hd.
    replace (fexp prec emax (24 + Zpos p + e0) - e0) with (Zpos p)
      by (unfold fexp, emin, prec, emax; lia).
    cbn [shr shr_record_of_loc]. rewrite Hn.
    rewrite iter_shr_exact by lia.
    cbn [shr_m loc_of_shr_record round_nearest_even].
    assert (Hdm : Zdigits2 (Zpos m) = 24)
      by (cbn [Zdigits2]; apply digits2_pos_unique; exact Hm).
    rewrite Hdm.
    replace (fexp prec emax (24 + (e0 + Zpos p)) - (e0 + Zpos p)) with 0
      by (unfold fexp, emin, prec, emax; lia).
    cbn [shr shr_m].
    replace (e0 + Zpos p <=? emax - prec) with true
      by (symmetry; apply Z.leb_le; unfold emax, prec; lia).
    f_equal. lia.
  - destruct Hn as [[Hle _]|[_ Hn]]; [lia|].
    replace (e0 - e) with (Zpos p) in Hn by lia.
    assert (Hs : Pos.iter xO n p = m).
    { apply Pos2Z.inj. rewrite digits2_pos_shift. exact Hn. }
    rewrite Hs. apply binary_round_aux_exact; assumption.
Qed.

(** An integer that is a binary32 number converts to it, and its opposite
    to the opposite number. *)
Lemma of_int_exact (z : Z) (m : positive) (e : Z) :
  exact24 z m e ->
  of_int z = S754_finite false m e /\ of_int (- z) = S754_finite true m e.
Proof.
  intros (Hm & He & Hz).
  assert (Hp : 0 < 2 ^ (e + 23)) by (apply Z.pow_pos_nonneg; lia).
  change (2 ^ 23) with 8388608 in *. change (2 ^ 24) with 16777216 in *.
  destruct z as [|p|p]; [nia| |nia].
  unfold of_int. cbn [binary_normalize Z.opp].
  assert (Hn : (0 <= e /\ Zpos p = Zpos m * 2 ^ (e - 0))
               \/ (e <= 0 /\ Zpos p * 2 ^ (0 - e) = Zpos m)).
  { destruct (Z.le_gt_cases 0 e) as [H0|H0]; [left|right]; (split; [lia|]).
    - rewrite Z.sub_0_r. rewrite Z.pow_add_r in Hz by lia.
      change (2 ^ 23) with 8388608 in Hz. lia.
    - assert (E : 8388608 = 2 ^ (e + 23) * 2 ^ (0 - e)).
      { rewrite <- Z.pow_add_r by lia. replace (e + 23 + (0 - e)) with 23 by lia.
        reflexivity. }
      assert (0 < 2 ^ (0 - e)) by (apply Z.pow_pos_nonneg; lia).
      nia. }
  split; apply binary_round_exact; try assumption; change (2 ^ 23) with 8388608;
    change (2 ^ 24) with 16777216; lia.
Qed.

(** Every integer from 1 to 2^24 - 1 is a binary32 number. *)
Lemma small_exact (z : Z) :
  1 <= z < 2 ^ 24 -> exists m e, exact24 z m e /\ e <= 0.
Proof.
  intros Hz. destruct z as [|p|p]; try lia.
  pose proof (digits2_pos_bounds p) as [Hlo Hhi].
  set (d := Zpos (digits2_pos p)) in *.
  assert (Hd : 1 <= d <= 24).
  { split; [unfold d; lia|]. apply digits2_pos_upper; lia. }
  assert (Hp : 0 < 2 ^ (24 - d)) by (apply Z.pow_pos_nonneg; lia).
  exists (Z.to_pos (Zpos p * 2 ^ (24 - d))), (d - 24).
  assert (E : Zpos (Z.to_pos (Zpos p * 2 ^ (24 - d))) = Zpos p * 2 ^ (24 - d))
    by (apply Z2Pos.id; nia).
  split; [|lia]. unfold exact24. rewrite E. split; [|split; [lia|]].
  - assert (E1 : 2 ^ 23 = 2 ^ (d - 1) * 2 ^ (24 - d)).
    { rewrite <- Z.pow_add_r by lia. f_equal. lia. }
    assert (E2 : 2 ^ 24 = 2 ^ d * 2 ^ (24 - d)).
    { rewrite <- Z.pow_add_r by lia. f_equal. lia. }
    rewrite E1, E2. split; nia.
  - rewrite <- Z.mul_assoc. rewrite <- Z.pow_add_r by lia.
    f_equal. f_equal. lia.
Qed.

Lemma far_exact : exact24 FAR 15625000 6.
Proof. unfold exact24, FAR. repeat split; vm_compute; discriminate || reflexivity. Qed.

(** A held distance that is not zero is a binary32 number. *)
Lemma held_exact (v : Z) : held v -> v <> 0 -> exists m e, exact24 v m e.
Proof.
  intros [Hv| ->] Hnz.
  - destruct (small_exact v ltac:(lia)) as (m & e & H & _). exists m, e. exact H.
  - exists 15625000%positive, 6. exact far_exact.
Qed.

(** Comparison of two binary32 integers of the same sign. *)
Lemma exact_compare (a : Z) (ma : positive) (ea : Z) (b : Z) (mb : positive) (eb : Z) :
  exact24 a ma ea -> exact24 b mb eb ->
  SFcompare (S754_finite false ma ea) (S754_finite false mb eb) = Some (a ?= b)
  /\ SFcompare (S754_finite true ma ea) (S754_finite true mb eb) = Some (b ?= a).
Proof.
  intros (Hma & Hea & Ha) (Hmb & Heb & Hb).
  change (2 ^ 23) with 8388608 in *. change (2 ^ 24) with 16777216 in *.
  assert (Hpa : 0 < 2 ^ (ea + 23)) by (apply Z.pow_pos_nonneg; lia).
  assert (Hpb : 0 < 2 ^ (eb + 23)) by (apply Z.pow_pos_nonneg; lia).
  cbn [SFcompare].
  destruct (Z.compare_spec ea eb) as [E|E|E].
  - subst eb.
    assert (Hc : Pos.compare_cont Eq ma mb = (a ?= b)).
    { change (Pos.compare_cont Eq ma mb) with (Zpos ma ?= Zpos mb).
      destruct (Z.compare_spec (Zpos ma) (Zpos mb)) as [C|C|C]; symmetry.
      - apply Z.compare_eq_iff. nia.
      - apply Z.compare_lt_iff. nia.
      - apply Z.compare_gt_iff. nia. }
    rewrite Hc. split; [reflexivity|]. rewrite (Z.compare_antisym a b). reflexivity.
  - assert (Hlt : a < b).
    { assert (2 * 2 ^ (ea + 23) <= 2 ^ (eb + 23)).
      { replace (2 * 2 ^ (ea + 23)) with (2 ^ (ea + 23 + 1))
          by (rewrite Z.pow_add_r by lia; change (2 ^ 1) with 2; ring).
        apply Z.pow_le_mono_r; lia. }
      nia. }
    split; f_equal; symmetry.
    + apply Z.compare_lt_iff. exact Hlt.
    + apply Z.compare_gt_iff. exact Hlt.
  - assert (Hlt : b < a).
    { assert (2 * 2 ^ (eb + 23) <= 2 ^ (ea + 23)).
      { replace (2 * 2 ^ (eb + 23)) with (2 ^ (eb + 23 + 1))
          by (rewrite Z.pow_add_r by lia; change (2 ^ 1) with 2; ring).
        apply Z.pow_le_mono_r; lia. }
      nia. }
    split; f_equal; symmetry.
    + apply Z.compare_gt_iff. exact Hlt.
    + apply Z.compare_lt_iff. exact Hlt.
Qed.

Lemma exact_positive (z : Z) (m : positive) (e : Z) : exact24 z m e -> 0 < z.
Proof.
  intros (Hm & He & Hz).
  assert (0 < 2 ^ (e + 23)) by (apply Z.pow_pos_nonneg; lia).
  change (2 ^ 23) with 8388608 in *. nia.
Qed.

(** The conversion of integers keeps their order, for integers whose
    magnitude is held. *)
Lemma compare_of_int (a b : Z) :
  held (Z.abs a) -> held (Z.abs b) ->
  SFcompare (of_int a) (of_int b) = Some (a ?= b).
Proof.
  intros Ha Hb.
  assert (Hcase : forall z, held (Z.abs z) ->
            z = 0
            \/ (0 < z /\ exists m e, exact24 z m e /\ of_int z = S754_finite false m e)
            \/ (z < 0 /\ exists m e, exact24 (- z) m e /\ of_int z = S754_finite true m e)).
  { intros z Hz. destruct (Z.lt_trichotomy z 0) as [Hn|[H0|Hp]].
    - right. right. split; [exact Hn|].
      rewrite Z.abs_neq in Hz by lia.
      destruct (held_exact (- z) Hz ltac:(lia)) as (m & e & Hx).
      exists m, e. split; [exact Hx|].
      pose proof (proj2 (of_int_exact (- z) m e Hx)) as H.
      rewrite Z.opp_involutive in H. exact H.
    - left. exact H0.
    - right. left. split; [exact Hp|].
      rewrite Z.abs_eq in Hz by lia.
      destruct (held_exact z Hz ltac:(lia)) as (m & e & Hx).
      exists m, e. split; [exact Hx|]. apply (of_int_exact z m e Hx). }
  destruct (Hcase a Ha) as [->|[(Hpa & ma & ea & Hxa & Ea)|(Hna & ma & ea & Hxa & Ea)]];
    destruct (Hcase b Hb) as [->|[(Hpb & mb & eb & Hxb & Eb)|(Hnb & mb & eb & Hxb & Eb)]];
    rewrite ?Ea, ?Eb; change (of_int 0) with (S754_zero false).
  - reflexivity.
  - cbn [SFcompare]. f_equal. symmetry. apply Z.compare_lt_iff. lia.
  - cbn [SFcompare]. f_equal. symmetry. apply Z.compare_gt_iff. lia.
  - cbn [SFcompare]. f_equal. symmetry. apply Z.compare_gt_iff. lia.
  - apply (exact_compare a ma ea b mb eb Hxa Hxb).
  - cbn [SFcompare]. f_equal. symmetry. apply Z.compare_gt_iff. lia.
  - cbn [SFcompare]. f_equal. symmetry. apply Z.compare_lt_iff. lia.
  - cbn [SFcompare]. f_equal. symmetry. apply Z.compare_lt_iff. lia.
  - rewrite (proj2 (exact_compare (- a) ma ea (- b) mb eb Hxa Hxb)).
    f_equal. apply Z.compare_opp.
Qed.

Lemma ltb_of_int (a b : Z) :
  held (Z.abs a) -> held (Z.abs b) -> SFltb (of_int a) (of_int b) = (a <? b).
Proof.
  intros Ha Hb. unfold SFltb. rewrite compare_of_int by assumption.
  unfold Z.ltb. destruct (a ?= b); reflexivity.
Qed.

(** The opposite of a converted integer is the converted opposite, except
    for zero. *)
Lemma opp_of_int (v : Z) : held v -> v <> 0 -> SFopp (of_int v) = of_int (- v).
Proof.
  intros Hv Hnz. destruct (held_exact v Hv Hnz) as (m & e & Hx).
  destruct (of_int_exact v m e Hx) as [Hp Hn]. rewrite Hp, Hn. reflexivity.
Qed.

(** [fminf] of two held distances is the smaller one. *)
Lemma fminf_of_int (u v : Z) :
  held u -> held v -> fminf (of_int u) (of_int v) = of_int (Z.min u v).
Proof.
  intros Hu Hv.
  assert (Hau : held (Z.abs u)) by (rewrite Z.abs_eq; [exact Hu|destruct Hu; unfold FAR in *; lia]).
  assert (Hav : held (Z.abs v)) by (rewrite Z.abs_eq; [exact Hv|destruct Hv; unfold FAR in *; lia]).
  pose proof (ltb_of_int v u Hav Hau) as Hlt.
  assert (Hnan : forall z, held z -> of_int z <> S754_nan).
  { intros z Hz. destruct (Z.eq_dec z 0) as [->|Hnz]; [discriminate|].
    destruct (held_exact z Hz Hnz) as (m & e & Hx).
    rewrite (proj1 (of_int_exact z m e Hx)). discriminate. }
  pose proof (Hnan u Hu) as Nu. pose proof (Hnan v Hv) as Nv.
  unfold fminf.
  destruct (of_int u) as [su|su| |su mu eu] eqn:Eu; try (exfalso; apply Nu; reflexivity);
    destruct (of_int v) as [sv|sv| |sv mv ev] eqn:Ev; try (exfalso; apply Nv; reflexivity);
    rewrite Hlt; destruct (Z.ltb_spec v u);
    rewrite ?Z.min_r by lia; rewrite ?Z.min_l by lia; congruence.
Qed.

(** Adding 1.0 to a count below 2^24 - 1 gives the next count; adding it
    to 1e9 gives 1e9 back. *)
Lemma add_one_of_int (v : Z) :
  0 <= v < 2 ^ 24 - 1 -> add (of_int v) one = of_int (v + 1).
Proof.
  intros Hv. destruct (Z.eq_dec v 0) as [->|Hnz]; [reflexivity|].
  destruct (small_exact v ltac:(lia)) as (m & e & Hx & He).
  destruct (small_exact (v + 1) ltac:(lia)) as (m' & e' & Hx' & He').
  rewrite (proj1 (of_int_exact v m e Hx)), (proj1 (of_int_exact (v + 1) m' e' Hx')).
  change one with (S754_finite false 8388608 (-23)).
  destruct Hx as (Hm & Hee & Hz). destruct Hx' as (Hm' & Hee' & Hz').
  unfold add, SFadd.
  replace (IntDef.Z.min e (-23)) with (-23) by (change IntDef.Z.min with Z.min; lia).
  assert (Hs : Zpos (fst (shl_align m e (-23))) = Zpos m * 2 ^ (e + 23)).
  { unfold shl_align. destruct (-23 - e) as [|p|p] eqn:Ek; cbn [fst].
    - replace (e + 23) with 0 by lia. change (2 ^ 0) with 1. lia.
    - lia.
    - rewrite digits2_pos_shift. f_equal. f_equal. lia. }
  cbn [cond_Zopp]. rewrite Hs.
  change (Zpos (fst (shl_align 8388608 (-23) (-23)))) with 8388608.
  change (2 ^ 23) with 8388608 in *. change (2 ^ 24) with 16777216 in *.
  assert (Hp : 0 < 2 ^ (e + 23)) by (apply Z.pow_pos_nonneg; lia).
  assert (Hp' : 0 < 2 ^ (e' + 23)) by (apply Z.pow_pos_nonneg; lia).
  destruct (Zpos m * 2 ^ (e + 23) + 8388608) as [|n|n] eqn:En; try nia.
  cbn [binary_normalize]. apply binary_round_exact.
  - change (2 ^ 23) with 8388608. change (2 ^ 24) with 16777216. lia.
  - lia.
  - left. split; [lia|]. replace (e' - -23) with (e' + 23) by lia. nia.
Qed.

Lemma add_one_far : add (of_int FAR) one = of_int FAR.
Proof. vm_compute. reflexivity. Qed.

Lemma to_int_in_range (s : bool) (m : positive) (e : Z) :
  INT_MIN <= truncate s m e <= INT_MAX ->
  to_int (S754_finite s m e) = truncate s m e.
Proof.
  intros H. unfold to_int.
  destruct (Z.leb_spec INT_MIN (truncate s m e)); [|lia].
  destruct (Z.leb_spec (truncate s m e) INT_MAX); [reflexivity|lia].
Qed.

(** The conversion back to [int] of a converted integer below 2^24 in
    magnitude. *)
Lemma to_int_of_int (z : Z) : - 2 ^ 24 < z < 2 ^ 24 -> to_int (of_int z) = z.
Proof.
  intros Hz.
  assert (Hpos : forall v m e, 1 <= v < 2 ^ 24 -> exact24 v m e -> e <= 0 ->
                   floor_scaled (Zpos m) e = v).
  { intros v m e Hv (Hm & He & Hx) He0. unfold floor_scaled.
    assert (Hp : 0 < 2 ^ (- e)) by (apply Z.pow_pos_nonneg; lia).
    assert (E : 2 ^ 23 = 2 ^ (e + 23) * 2 ^ (- e)).
    { rewrite <- Z.pow_add_r by lia. f_equal. lia. }
    assert (0 < 2 ^ (e + 23)) by (apply Z.pow_pos_nonneg; lia).
    assert (Hmv : Zpos m = v * 2 ^ (- e)) by nia.
    destruct (Z.leb_spec 0 e).
    - assert (e = 0) by lia. subst e. change (2 ^ (- 0)) with 1 in Hmv.
      change (2 ^ 0) with 1. lia.
    - rewrite Hmv. apply Z.div_mul. lia. }
  change (2 ^ 24) with 16777216 in *.
  destruct (Z.lt_trichotomy z 0) as [Hn|[->|Hp]]; [| reflexivity |].
  - destruct (small_exact (- z) ltac:(change (2 ^ 24) with 16777216; lia)) as (m & e & Hx & He).
    pose proof (proj2 (of_int_exact (- z) m e Hx)) as E.
    rewrite Z.opp_involutive in E. rewrite E.
    assert (Ht : truncate true m e = z).
    { unfold truncate, ceil_scaled. change (- Zneg m) with (Zpos m).
      rewrite (Hpos (- z) m e) by (try assumption; change (2 ^ 24) with 16777216; lia).
      lia. }
    rewrite to_int_in_range; rewrite Ht; [reflexivity|].
    unfold INT_MIN, INT_MAX. change (2 ^ 31) with 2147483648. lia.
  - destruct (small_exact z ltac:(change (2 ^ 24) with 16777216; lia)) as (m & e & Hx & He).
    rewrite (proj1 (of_int_exact z m e Hx)).
    assert (Ht : truncate false m e = z).
    { unfold truncate.
      apply Hpos; try assumption; change (2 ^ 24) with 16777216; lia. }
    rewrite to_int_in_range; rewrite Ht; [reflexivity|].
    unfold INT_MIN, INT_MAX. change (2 ^ 31) with 2147483648. lia.
Qed.

End ExactNumbers.

(** * The ceiling of a product, bitmap dimensions *)

Section CeilingOfProduct.
Import Mach F32 FloatSpec.

(** After [shr_fexp] a positive mantissa has at most 24 digits. *)
Lemma shr_fexp_small (m : positive) (e : Z) (l : location) :
  0 <= shr_m (fst (shr_fexp prec emax (Zpos m) e l)) < 2 ^ 24.
Proof.
  unfold shr_fexp.
  set (n := fexp prec emax (Zdigits2 (Zpos m) + e) - e).
  pose proof (shr_mantissa (shr_record_of_loc (Zpos m) l) e n) as [Hm _];
    [rewrite shr_record_mantissa; lia|].
  rewrite shr_record_mantissa in Hm. rewrite Hm.
  pose proof (digits2_pos_bounds m) as [_ Hhi].
  assert (Hn : Zpos (digits2_pos m) - 24 <= Z.max 0 n)
    by (unfold n, fexp, emin, prec, emax; cbn [Zdigits2]; lia).
  set (d := Zpos (digits2_pos m)) in *.
  set (k := Z.max 0 n) in *.
  assert (Hk : 0 <= k) by (unfold k; lia).
  assert (Hp : 0 < 2 ^ k) by (apply Z.pow_pos_nonneg; lia).
  split; [apply Z.div_pos; lia|].
  apply Z.div_lt_upper_bound; [lia|].
  assert (Hle : 2 ^ d <= 2 ^ (k + 24)) by (apply Z.pow_le_mono_r; lia).
  rewrite Z.pow_add_r in Hle by lia. lia.
Qed.

Lemma shr_fexp_zero (e : Z) :
  shr_m (fst (shr_fexp prec emax 0 e loc_Exact)) = 0.
Proof.
  unfold shr_fexp.
  set (n := fexp prec emax (Zdigits2 0 + e) - e).
  pose proof (shr_mantissa (shr_record_of_loc 0 loc_Exact) e n) as [Hm _];
    [cbn; lia|].
  rewrite Hm. reflexivity.
Qed.

(** A rounded result is a binary32 number: its mantissa has at most 24
    digits. *)
Lemma binary_round_aux_canonical (s : bool) (m : positive) (e : Z) (l : location) :
  canonical (binary_round_aux prec emax s (Zpos m) e l).
Proof.
  unfold binary_round_aux.
  pose proof (shr_fexp_small m e l) as H1.
  destruct (shr_fexp prec emax (Zpos m) e l) as [mrs1 e1]. cbn [fst] in H1.
  pose proof (round_nearest_even_bounds (shr_m mrs1) (loc_of_shr_record mrs1)) as Hr.
  destruct (round_nearest_even (shr_m mrs1) (loc_of_shr_record mrs1)) as [|p2|p2];
    [| |lia].
  - pose proof (shr_fexp_zero e1) as H2.
    destruct (shr_fexp prec emax 0 e1 loc_Exact) as [mrs2 e2]. cbn [fst] in H2.
    rewrite H2. exact I.
  - pose proof (shr_fexp_small p2 e1 loc_Exact) as H2.
    destruct (shr_fexp prec emax (Zpos p2) e1 loc_Exact) as [mrs2 e2]. cbn [fst] in H2.
    destruct (shr_m mrs2) as [|p3|p3]; try exact I.
    destruct (e2 <=? emax - prec); [|exact I].
    cbn [canonical]. lia.
Qed.

Lemma mul_canonical (x y : spec_float) : canonical (mul x y).
Proof.
  unfold mul, SFmul.
  destruct x as [sx|sx| |sx mx ex]; destruct y as [sy|sy| |sy my ey]; try exact I.
  apply binary_round_aux_canonical.
Qed.

(** [(int)ceilf(x)], when the conversion is defined and not [INT_MIN], is
    the ceiling of [x]. *)
Lemma ceiling_of_canonical (x : spec_float) :
  canonical x -> INT_MIN < to_int (ceilf x) -> ceiling x (to_int (ceilf x)).
Proof.
  intros Hc Hn. destruct x as [s|s| |s m e].
  - cbn. unfold ceiling, le_int. lia.
  - cbn in Hn. lia.
  - cbn in Hn. lia.
  - cbn [canonical] in Hc. unfold ceilf in *. unfold ceiling, le_int.
    destruct (Z.leb_spec 0 e) as [He|He].
    + unfold to_int in *.
      destruct ((INT_MIN <=? truncate s m e) && (truncate s m e <=? INT_MAX)); [|lia].
      assert (Ht : truncate s m e = signed s m * 2 ^ e).
      { unfold truncate, ceil_scaled, floor_scaled, signed.
        destruct (Z.leb_spec 0 e); [|lia]. destruct s; [|reflexivity].
        change (- Zneg m) with (Zpos m). lia. }
      rewrite Ht. lia.
    + set (k := - e) in *.
      assert (Hk : 0 < 2 ^ k) by (apply Z.pow_pos_nonneg; lia).
      assert (H2 : 2 <= 2 ^ k).
      { change 2 with (2 ^ 1) at 1. apply Z.pow_le_mono_r; lia. }
      assert (Hz : ceil_scaled (signed s m) e = - ((- signed s m) / 2 ^ k)).
      { unfold ceil_scaled, floor_scaled. destruct (Z.leb_spec 0 e); [lia|reflexivity]. }
      pose proof (Z.div_mod (- signed s m) (2 ^ k) ltac:(lia)) as Hdm.
      pose proof (Z.mod_pos_bound (- signed s m) (2 ^ k) ltac:(lia)) as Hr.
      set (q := (- signed s m) / 2 ^ k) in *.
      set (r := (- signed s m) mod 2 ^ k) in *.
      assert (Hsg : - 2 ^ 24 < signed s m < 2 ^ 24) by (unfold signed; destruct s; lia).
      change (2 ^ 24) with 16777216 in *.
      assert (Hq : - 16777216 < q < 16777216) by nia.
      rewrite Hz in *.
      destruct (Z.eqb_spec (- q) 0) as [E|E].
      * cbn [to_int]. split; nia.
      * rewrite to_int_of_int by (change (2 ^ 24) with 16777216; lia).
        split; nia.
Qed.

End CeilingOfProduct.

Section BitmapCeiling.
Import Mach TrueType FontSpec Outline F32 FloatSpec.

(** A returned bitmap is one cell wider than the ceiling of the product of
    the box width and the scale, and one cell higher than the ceiling of
    the product of the box height and the scale. *)
Lemma bitmap_size_ceiling (font : glyph_font_t) (glyph_index : Z)
      (scale_x scale_y : spec_float) :
  let g := glyph_ttf__get_glyph_offset font glyph_index in
  let r := glyph_ttf_get_glyph_bitmap font glyph_index scale_x scale_y in
  bitmap r <> None ->
  ceiling (mul (of_int (xMax font g - xMin font g)) scale_x) (width r - 1)
  /\ ceiling (mul (of_int (yMax font g - yMin font g)) scale_y) (height r - 1)
  /\ 1 <= width r /\ 1 <= height r.
Proof.
  intros g r Hb.
  pose proof (bitmap_size font glyph_index scale_x scale_y Hb) as [Hw Hh].
  fold g r in Hw, Hh.
  pose proof (bitmap_result_shape font glyph_index scale_x scale_y) as Hs.
  cbv zeta in Hs. fold r in Hs.
  destruct (bitmap r) as [cells|]; [|exfalso; apply Hb; reflexivity].
  destruct Hs as (Hw1 & Hh1 & _).
  assert (Ew : width r - 1
               = to_int (ceilf (mul (of_int (xMax font g - xMin font g)) scale_x))) by lia.
  assert (Eh : height r - 1
               = to_int (ceilf (mul (of_int (yMax font g - yMin font g)) scale_y))) by lia.
  rewrite Ew, Eh.
  assert (Hmin : INT_MIN < 0) by (vm_compute; reflexivity).
  split; [|split; [|split; assumption]].
  - apply ceiling_of_canonical; [apply mul_canonical|lia].
  - apply ceiling_of_canonical; [apply mul_canonical|lia].
Qed.

Lemma units_per_em_bytes (font : glyph_font_t) :
  OutlineSpec.byte_memory (data font) ->
  unitsPerEm font = 256 * data font (head font + 18) + data font (head font + 19).
Proof.
  intros Hb. unfold unitsPerEm.
  rewrite get16u_bytes by apply Hb.
  replace (head font + 18 + 1) with (head font + 19) by lia. reflexivity.
Qed.

End BitmapCeiling.

(** C8: the scale for a pixel height is the [float] quotient of the pixels by
    [unitsPerEm], the 16-bit big-endian field at offset 18 of the head
    table.  A bitmap that is returned (its cell count [width * height]
    fitting [int]) has a width of at least 1 such that [width - 1] is the
    ceiling of the [float] product [(xMax - xMin) * scale_x], and a height
    of at least 1 such that [height - 1] is the ceiling of
    [(yMax - yMin) * scale_y].  In the sample font (box (0,0)-(1000,1000),
    1000 units per em) at 16 pixels the scale is the binary32 number
    nearest to 0.016, the product is exactly 16 and the bitmap is 17 by 17;
    at 16.25 pixels the product is 16.25 and the bitmap is 18 by 18. *)
Theorem bitmap_dimensions :
  (forall (font : TrueType.glyph_font_t) (pixels : spec_float),
      Outline.glyph_ttf_scale_for_pixel_height font pixels
      = F32.div pixels (F32.of_int (FontSpec.unitsPerEm font))
      /\ (OutlineSpec.byte_memory (TrueType.data font) ->
          FontSpec.unitsPerEm font
          = 256 * TrueType.data font (TrueType.head font + 18)
            + TrueType.data font (TrueType.head font + 19)))
  /\ (forall (font : TrueType.glyph_font_t) (glyph_index : Z)
             (scale_x scale_y : spec_float),
         let g := TrueType.glyph_ttf__get_glyph_offset font glyph_index in
         let r := Outline.glyph_ttf_get_glyph_bitmap font glyph_index scale_x scale_y in
         Outline.bitmap r <> None ->
         Outline.width r * Outline.height r <= Mach.INT_MAX ->
         FloatSpec.ceiling
           (F32.mul (F32.of_int (FontSpec.xMax font g - FontSpec.xMin font g)) scale_x)
           (Outline.width r - 1)
         /\ FloatSpec.ceiling
              (F32.mul (F32.of_int (FontSpec.yMax font g - FontSpec.yMin font g)) scale_y)
              (Outline.height r - 1)
         /\ 1 <= Outline.width r <= Mach.INT_MAX
         /\ 1 <= Outline.height r <= Mach.INT_MAX)
  /\ (let font := Sample.loaded_font in
      let g := TrueType.glyph_ttf__get_glyph_offset font 0 in
      let s := Outline.glyph_ttf_scale_for_pixel_height font (F32.of_int 16) in
      let r := Outline.glyph_ttf_get_glyph_bitmap font 0 s s in
      let s' := Outline.glyph_ttf_scale_for_pixel_height font
                  (F32.div (F32.of_int 65) (F32.of_int 4)) in
      let r' := Outline.glyph_ttf_get_glyph_bitmap font 0 s' s' in
      FontSpec.unitsPerEm font = 1000
      /\ (FontSpec.xMin font g, FontSpec.yMin font g,
          FontSpec.xMax font g, FontSpec.yMax font g) = (0, 0, 1000, 1000)
      /\ s = S754_finite false 8589935 (-29)
      /\ 2 * Z.abs (8589935 * 1000 - 16 * 2 ^ 29) <= 1000
      /\ F32.mul (F32.of_int 1000) s = F32.of_int 16
      /\ Outline.bitmap r <> None
      /\ Outline.width r = 17
      /\ Outline.height r = 17
      /\ F32.mul (F32.of_int 1000) s' = F32.div (F32.of_int 65) (F32.of_int 4)
      /\ Outline.bitmap r' <> None
      /\ Outline.width r' = 18
      /\ Outline.height r' = 18).
Proof.
  split; [|split].
  - intros font pixels. split; [reflexivity|apply units_per_em_bytes].
  - intros font glyph_index scale_x scale_y g r Hb Hfit.
    destruct (bitmap_size_ceiling font glyph_index scale_x scale_y Hb)
      as (Hw & Hh & Hw1 & Hh1).
    fold g r in Hw, Hh, Hw1, Hh1.
    split; [exact Hw|]. split; [exact Hh|]. split; split; try assumption; nia.
  - vm_compute. repeat split; try reflexivity; discriminate.
Qed.

Lemma bitmap_dimensions_witness :
  let font := Sample.loaded_font in
  let s := S754_finite false 8724152 (-29) in
  let r := Outline.glyph_ttf_get_glyph_bitmap font 0 s s in
  Outline.bitmap r <> None
  /\ FloatSpec.ceiling (S754_finite false 8519680 (-19)) (Outline.width r - 1)
  /\ Outline.width r = 18.
Proof.
  intros font s r. subst r.
  assert (H : Outline.bitmap (Outline.glyph_ttf_get_glyph_bitmap font 0 s s) <> None)
    by (vm_compute; discriminate).
  assert (Hw : Outline.width (Outline.glyph_ttf_get_glyph_bitmap font 0 s s) = 18)
    by (vm_compute; reflexivity).
  assert (Hh : Outline.height (Outline.glyph_ttf_get_glyph_bitmap font 0 s s) = 18)
    by (vm_compute; reflexivity).
  split; [exact H|]. split; [|exact Hw].
  assert (Hfit : Outline.width (Outline.glyph_ttf_get_glyph_bitmap font 0 s s)
                 * Outline.height (Outline.glyph_ttf_get_glyph_bitmap font 0 s s)
                 <= Mach.INT_MAX)
    by (rewrite Hw, Hh; vm_compute; discriminate).
  exact (proj1 (proj1 (proj2 bitmap_dimensions) font 0 s s H Hfit)).
Defined.

(** * The distance passes *)

Section FieldCells.
Import Mach F32 FloatSpec DistanceField DistanceSpec.

Lemma nth_set_nat_same {A} (d : A) (l : list A) :
  forall (k : nat) (v : A), (k < List.length l)%nat -> nth k (Arr.set_nat l k v) d = v.
Proof.
  induction l as [|a l IH]; intros k v Hk; cbn [List.length] in Hk; [lia|].
  destruct k; cbn [Arr.set_nat nth]; [reflexivity|]. apply IH. lia.
Qed.

Lemma nth_set_nat_other {A} (d : A) (l : list A) :
  forall (k j : nat) (v : A), j <> k -> nth j (Arr.set_nat l k v) d = nth j l d.
Proof.
  induction l as [|a l IH]; intros k j v Hjk; [reflexivity|].
  destruct k; destruct j; cbn [Arr.set_nat nth]; try reflexivity; try lia.
  apply IH. lia.
Qed.

Lemma get_set_same {A} (d : A) (l : list A) (i : Z) (v : A) :
  0 <= i < Z.of_nat (List.length l) -> Arr.get d (Arr.set l i v) i = v.
Proof.
  intros Hi. unfold Arr.get, Arr.set. destruct (Z.ltb_spec i 0); [lia|].
  apply nth_set_nat_same. lia.
Qed.

Lemma get_set_other {A} (d : A) (l : list A) (i j : Z) (v : A) :
  j <> i -> Arr.get d (Arr.set l i v) j = Arr.get d l j.
Proof.
  intros Hji. unfold Arr.get, Arr.set.
  destruct (Z.ltb_spec j 0); [reflexivity|].
  destruct (Z.ltb_spec i 0); [reflexivity|].
  apply nth_set_nat_other. lia.
Qed.

Lemma far_is_large : FAR = 1000000000 /\ 2 ^ 24 = 16777216.
Proof. split; reflexivity. Qed.

(** One relaxation, on the distances that the field holds. *)
Lemma relax_holds (L : Z) (A : Z -> Z) (dt : list spec_float) (idx nidx : Z) :
  holds L A dt -> 0 <= idx < L -> 0 <= nidx < L ->
  (A nidx = FAR \/ A nidx + 1 <= 2 ^ 24 - 2) ->
  holds L (fun i => if i =? idx then Z.min (A idx) (carried (A nidx) 1) else A i)
        (relax dt idx nidx).
Proof.
  intros [Hlen Hcells] Hidx Hnidx Hnext. destruct far_is_large as [HF HP].
  unfold holds, relax. split; [rewrite set_length; exact Hlen|].
  intros i Hi.
  destruct (Hcells idx Hidx) as [Ei Bi]. destruct (Hcells nidx Hnidx) as [En Bn].
  destruct (Z.eqb_spec i idx) as [->|Hne].
  - rewrite get_set_same by lia. rewrite Ei, En.
    assert (Hadd : add (of_int (A nidx)) one = of_int (carried (A nidx) 1)).
    { unfold carried. destruct Hnext as [Hf|Hs].
      - rewrite Hf. rewrite Z.min_l by lia. apply add_one_far.
      - destruct Bn as [Hf|Bn]; [rewrite Hf in Hs; lia|].
        rewrite Z.min_r by lia. apply add_one_of_int. lia. }
    rewrite Hadd.
    assert (Hc : carried (A nidx) 1 = FAR \/ 0 <= carried (A nidx) 1 <= 2 ^ 24 - 2).
    { unfold carried. destruct Hnext as [Hf|Hs].
      - left. rewrite Hf. lia.
      - right. destruct Bn as [Hf|Bn]; [rewrite Hf in Hs; lia|]. lia. }
    split.
    + apply fminf_of_int; unfold held; lia.
    + lia.
  - rewrite get_set_other by exact Hne. apply Hcells. exact Hi.
Qed.

Lemma fold_left_ext_in {A B} (f g : A -> B -> A) (l : list B) :
  (forall a x, In x l -> f a x = g a x) ->
  forall a, fold_left f l a = fold_left g l a.
Proof.
  induction l as [|x l IH]; intros H a; cbn [fold_left]; [reflexivity|].
  rewrite (H a x) by (left; reflexivity).
  apply IH. intros a' y Hy. apply H. right. exact Hy.
Qed.

Lemma fold_left_map {A B C} (f : A -> B -> A) (g : C -> B) (l : list C) :
  forall a, fold_left f (map g l) a = fold_left (fun a c => f a (g c)) l a.
Proof. induction l as [|c l IH]; intros a; cbn [map fold_left]; [reflexivity|apply IH]. Qed.

Lemma rev_range (n : Z) :
  rev (Arr.range 0 n) = map (fun k => n - 1 - k) (Arr.range 0 n).
Proof.
  destruct (Z.le_gt_cases n 0) as [Hn|Hn].
  - rewrite range_empty by lia. reflexivity.
  - replace n with (Z.of_nat (Z.to_nat n)) by lia.
    induction (Z.to_nat n) as [|m IH]; [reflexivity|].
    rewrite Nat2Z.inj_succ. unfold Z.succ. set (M := Z.of_nat m) in *.
    transitivity (M :: map (fun k => M - 1 - k) (Arr.range 0 M)).
    + rewrite (range_snoc 0 M) by lia.
      rewrite rev_app_distr. cbn [rev app]. rewrite IH. reflexivity.
    + rewrite (range_cons 0 (M + 1)) by lia. cbn [map].
      f_equal; [lia|].
      rewrite (range_shift _ 0 M 1).
      apply range_map_ext. intros i Hi. lia.
Qed.

End FieldCells.

Section Sweep.
Import Mach F32 FloatSpec DistanceField DistanceSpec.

Variables (L n b : Z) (ix : Z -> Z).
Variable step : list spec_float -> Z -> list spec_float.
Hypothesis Hix : forall k, 0 <= k < n -> 0 <= ix k < L.
Hypothesis Hinj : forall j k, 0 <= j < n -> 0 <= k < n -> ix j = ix k -> j = k.
Hypothesis Hstep :
  forall dt k, 0 <= k < n ->
    step dt k = if k >? 0 then relax dt (ix k) (ix (k - 1)) else dt.
Hypothesis Hb : 0 <= b /\ b + n <= 2 ^ 24 - 1.

Variables (A : Z -> Z) (dt : list spec_float).
Hypothesis Hholds : holds L A dt.
Hypothesis Hline : forall k, 0 <= k < n -> A (ix k) = FAR \/ 0 <= A (ix k) <= b.

(** The state after the first [m] cells of the line: cell [k] holds the
    least of the distances of the cells before it, carried to it. *)
Lemma sweep_prefix (m : nat) :
  Z.of_nat m <= n ->
  exists A',
    holds L A' (fold_left step (Arr.range 0 (Z.of_nat m)) dt)
    /\ (forall i, (forall k, 0 <= k < Z.of_nat m -> i <> ix k) -> A' i = A i)
    /\ (forall k, 0 <= k < Z.of_nat m ->
          least_of (fun j => carried (A (ix j)) (k - j)) 0 (k + 1) (A' (ix k))).
Proof.
  destruct far_is_large as [HF HP].
  induction m as [|m IH]; intros Hm.
  - exists A. cbn. split; [exact Hholds|]. split; [reflexivity|]. intros k Hk. lia.
  - destruct (IH ltac:(lia)) as (A' & Hh' & Hun & Hle).
    rewrite Nat2Z.inj_succ. unfold Z.succ.
    rewrite (range_snoc 0 (Z.of_nat m)) by lia.
    rewrite fold_left_app. cbn [fold_left].
    set (M := Z.of_nat m) in *.
    set (dt' := fold_left step (Arr.range 0 M) dt) in *.
    rewrite (Hstep dt' M) by lia.
    assert (HAM : A' (ix M) = A (ix M)).
    { apply Hun. intros k Hk E. apply Hinj in E; lia. }
    pose proof (Hline M ltac:(lia)) as HbM.
    destruct (Z.gtb_spec M 0) as [Hpos|Hzero].
    + pose proof (Hle (M - 1) ltac:(lia)) as (Dfar & Dlb & Datt).
      replace (M - 1 + 1) with M in Dlb, Datt by lia.
      set (D := A' (ix (M - 1))) in *.
      assert (HD : D = FAR \/ 0 <= D <= b + (M - 1)).
      { destruct Datt as [Hf|(j & Hj & Hf)]; [left; exact Hf|].
        pose proof (proj2 Hh' (ix (M - 1)) ltac:(apply Hix; lia)) as [_ Hd]. fold D in Hd.
        destruct (Hline j ltac:(lia)) as [Ej|Ej].
        - left. rewrite Hf. unfold carried. rewrite Ej. lia.
        - right. unfold carried in Hf. lia. }
      exists (fun i => if i =? ix M then Z.min (A' (ix M)) (carried (A' (ix (M - 1))) 1)
                       else A' i).
      split; [|split].
      * apply relax_holds; try assumption; try (apply Hix; lia). fold D. lia.
      * intros i Hi. destruct (Z.eqb_spec i (ix M)) as [E|E].
        -- exfalso. apply (Hi M); [lia|exact E].
        -- apply Hun. intros k Hk. apply Hi. lia.
      * intros k Hk. destruct (Z.eq_dec k M) as [->|Hne].
        -- rewrite Z.eqb_refl. fold D. rewrite HAM.
           unfold least_of, carried in *. split; [lia|]. split.
           ++ intros j Hj. destruct (Z.eq_dec j M) as [->|Hjm]; [lia|].
              pose proof (Dlb j ltac:(lia)). lia.
           ++ destruct (Z.le_gt_cases (A (ix M)) (Z.min FAR (D + 1))) as [Hc|Hc].
              ** rewrite Z.min_l by lia.
                 destruct HbM as [Hf|Hf]; [left; exact Hf|].
                 right. exists M. split; [lia|]. lia.
              ** rewrite Z.min_r by lia.
                 destruct Datt as [Hf|(j & Hj & Hf)]; [left; lia|].
                 right. exists j. split; [lia|]. lia.
        -- destruct (Z.eqb_spec (ix k) (ix M)) as [E|E].
           ++ apply Hinj in E; lia.
           ++ apply Hle. lia.
    + assert (M = 0) by lia.
      exists A'. split; [exact Hh'|]. split.
      * intros i Hi. apply Hun. intros k Hk. apply Hi. lia.
      * intros k Hk. assert (k = 0) by lia. subst k.
        replace (ix 0) with (ix M) by (f_equal; lia). rewrite HAM.
        unfold least_of, carried. split; [lia|]. split.
        -- intros j Hj. assert (j = 0) by lia. subst j.
           replace (ix 0) with (ix M) by (f_equal; lia). lia.
        -- destruct HbM as [Hf|Hf]; [left; exact Hf|].
           right. exists 0. split; [lia|].
           replace (ix 0) with (ix M) by (f_equal; lia). lia.
Qed.

(** The whole sweep. *)
Lemma sweep_line :
  0 <= n ->
  exists A',
    holds L A' (fold_left step (Arr.range 0 n) dt)
    /\ (forall i, (forall k, 0 <= k < n -> i <> ix k) -> A' i = A i)
    /\ (forall k, 0 <= k < n ->
          least_of (fun j => carried (A (ix j)) (k - j)) 0 (k + 1) (A' (ix k))).
Proof.
  intros Hn. pose proof (sweep_prefix (Z.to_nat n) ltac:(lia)) as H.
  rewrite Z2Nat.id in H by lia. exact H.
Qed.

End Sweep.

Section Lines.
Import Mach F32 FloatSpec DistanceField DistanceSpec.

Lemma least_of_ext (f g : Z -> Z) (lo hi D : Z) :
  (forall j, lo <= j < hi -> f j = g j) -> least_of f lo hi D -> least_of g lo hi D.
Proof.
  intros He (Hf & Hl & Ha). split; [exact Hf|]. split.
  - intros j Hj. rewrite <- He by exact Hj. apply Hl. exact Hj.
  - destruct Ha as [Ha|(j & Hj & Ha)]; [left; exact Ha|].
    right. exists j. split; [exact Hj|]. rewrite <- He by exact Hj. exact Ha.
Qed.

(** The cells of line [c] are [cur c 0 .. cur c (n - 1)]; [prev] and [next]
    are the index expressions of the neighbours in the source. *)
Variables (cur prev next : Z -> Z -> Z) (N n L b : Z).
Hypothesis Hprev : forall c k, prev c k = cur c (k - 1).
Hypothesis Hnext : forall c k, next c k = cur c (k + 1).
Hypothesis Hcell : forall c k, 0 <= c < N -> 0 <= k < n -> 0 <= cur c k < L.
Hypothesis Hinj :
  forall c k c' k', 0 <= c < N -> 0 <= k < n -> 0 <= c' < N -> 0 <= k' < n ->
    cur c k = cur c' k' -> c = c' /\ k = k'.
Hypothesis Hn : 0 <= n.
Hypothesis Hb : 0 <= b /\ b + 2 * n <= 2 ^ 24 - 1.

(** The forward and the backward sweep of one line leave in each cell the
    least of the distances of the line, each carried to the cell. *)
Lemma line_pass (c : Z) (A : Z -> Z) (dt : list spec_float) :
  0 <= c < N -> holds L A dt ->
  (forall k, 0 <= k < n -> A (cur c k) = FAR \/ 0 <= A (cur c k) <= b) ->
  exists A',
    holds L A'
      (fold_left (fun dt k => if k <? n - 1 then relax dt (cur c k) (next c k) else dt)
         (rev (Arr.range 0 n))
         (fold_left (fun dt k => if k >? 0 then relax dt (cur c k) (prev c k) else dt)
            (Arr.range 0 n) dt))
    /\ (forall i, (forall k, 0 <= k < n -> i <> cur c k) -> A' i = A i)
    /\ (forall k, 0 <= k < n ->
          least_of (fun j => carried (A (cur c j)) (Z.abs (k - j))) 0 n (A' (cur c k))).
Proof.
  intros Hc Hh Hline. destruct far_is_large as [HF HP].
  (* forward *)
  destruct (sweep_line L n b (cur c)
              (fun dt k => if k >? 0 then relax dt (cur c k) (prev c k) else dt)
              ltac:(intros; apply Hcell; assumption)
              ltac:(intros j k Hj Hk E; apply (Hinj c j c k Hc Hj Hc Hk E))
              ltac:(intros d k Hk; cbv beta; rewrite Hprev; reflexivity)
              ltac:(lia) A dt Hh Hline Hn)
    as (A1 & Hh1 & Hun1 & Hle1).
  set (dt1 := fold_left (fun dt k => if k >? 0 then relax dt (cur c k) (prev c k) else dt)
                (Arr.range 0 n) dt) in *.
  assert (Hline1 : forall k, 0 <= k < n ->
             A1 (cur c (n - 1 - k)) = FAR \/ 0 <= A1 (cur c (n - 1 - k)) <= b + n).
  { intros k Hk.
    pose proof (proj2 Hh1 (cur c (n - 1 - k)) ltac:(apply Hcell; lia)) as [_ Hv].
    destruct (Hle1 (n - 1 - k) ltac:(lia)) as (_ & _ & [Hf|(j & Hj & Hf)]);
      [left; exact Hf|].
    destruct (Hline j ltac:(lia)) as [Ej|Ej].
    - left. rewrite Hf. unfold carried. rewrite Ej. lia.
    - right. unfold carried in Hf. lia. }
  (* backward *)
  rewrite rev_range, fold_left_map.
  destruct (sweep_line L n (b + n) (fun k => cur c (n - 1 - k))
              (fun dt k => if n - 1 - k <? n - 1
                           then relax dt (cur c (n - 1 - k)) (next c (n - 1 - k)) else dt)
              ltac:(intros; apply Hcell; lia)
              ltac:(intros j k Hj Hk E;
                    destruct (Hinj c (n - 1 - j) c (n - 1 - k) Hc ltac:(lia) Hc ltac:(lia) E);
                    lia)
              ltac:(intros d k Hk; cbv beta; rewrite Hnext;
                    replace (n - 1 - k + 1) with (n - 1 - (k - 1)) by lia;
                    destruct (Z.ltb_spec (n - 1 - k) (n - 1));
                    destruct (Z.gtb_spec k 0); try lia; reflexivity)
              ltac:(lia) A1 dt1 Hh1 Hline1 Hn)
    as (A2 & Hh2 & Hun2 & Hle2).
  exists A2. split; [exact Hh2|]. split.
  - intros i Hi. rewrite Hun2.
    + apply Hun1. exact Hi.
    + intros k Hk. apply Hi. lia.
  - intros x Hx.
    pose proof (Hle2 (n - 1 - x) ltac:(lia)) as (Gfar & Glb & Gatt).
    replace (n - 1 - (n - 1 - x)) with x in * by lia.
    replace (n - 1 - x + 1) with (n - x) in * by lia.
    set (G := A2 (cur c x)) in *.
    assert (Hlb : forall j, 0 <= j < n -> G <= carried (A (cur c j)) (Z.abs (x - j))).
    { intros j Hj. destruct (Z.le_gt_cases j x) as [Hjx|Hjx].
      - pose proof (Glb (n - 1 - x) ltac:(lia)) as H1.
        replace (n - 1 - (n - 1 - x)) with x in H1 by lia.
        destruct (Hle1 x Hx) as (_ & L1 & _).
        pose proof (L1 j ltac:(lia)) as H2.
        unfold carried in *. lia.
      - pose proof (Glb (n - 1 - j) ltac:(lia)) as H1.
        replace (n - 1 - (n - 1 - j)) with j in H1 by lia.
        destruct (Hle1 j Hj) as (_ & L1 & _).
        pose proof (L1 j ltac:(lia)) as H2.
        unfold carried in *. lia. }
    split; [exact Gfar|]. split; [exact Hlb|].
    destruct Gatt as [Hf|(j2 & Hj2 & Hf)]; [left; exact Hf|].
    destruct (Hle1 (n - 1 - j2) ltac:(lia)) as (F1 & _ & [Ef|(j & Hj & Ef)]).
    + left. rewrite Hf, Ef. unfold carried. lia.
    + right. exists j. split; [lia|].
      pose proof (Hlb j ltac:(lia)) as Hl.
      rewrite Ef in Hf. unfold carried in *. lia.
Qed.

(** All the lines, one after the other. *)
Lemma lines_prefix (A : Z -> Z) (dt : list spec_float) :
  holds L A dt ->
  (forall c k, 0 <= c < N -> 0 <= k < n -> A (cur c k) = FAR \/ 0 <= A (cur c k) <= b) ->
  forall m : nat, Z.of_nat m <= N ->
    exists A',
      holds L A'
        (fold_left
           (fun dt c =>
              fold_left (fun dt k => if k <? n - 1 then relax dt (cur c k) (next c k) else dt)
                (rev (Arr.range 0 n))
                (fold_left (fun dt k => if k >? 0 then relax dt (cur c k) (prev c k) else dt)
                   (Arr.range 0 n) dt))
           (Arr.range 0 (Z.of_nat m)) dt)
      /\ (forall i, (forall c k, 0 <= c < Z.of_nat m -> 0 <= k < n -> i <> cur c k) ->
            A' i = A i)
      /\ (forall c k, 0 <= c < Z.of_nat m -> 0 <= k < n ->
            least_of (fun j => carried (A (cur c j)) (Z.abs (k - j))) 0 n (A' (cur c k))).
Proof.
  intros Hh Hbound. induction m as [|m IH]; intros Hm.
  - exists A. cbn. split; [exact Hh|]. split; [reflexivity|]. intros c k Hc. lia.
  - destruct (IH ltac:(lia)) as (A' & Hh' & Hun & Hle).
    rewrite Nat2Z.inj_succ. unfold Z.succ.
    rewrite (range_snoc 0 (Z.of_nat m)) by lia.
    rewrite fold_left_app. cbn [fold_left].
    set (M := Z.of_nat m) in *.
    assert (Hsame : forall k, 0 <= k < n -> A' (cur M k) = A (cur M k)).
    { intros k Hk. apply Hun. intros c k' Hc Hk' E.
      destruct (Hinj M k c k' ltac:(lia) Hk ltac:(lia) Hk' E). lia. }
    destruct (line_pass M A' _ ltac:(lia) Hh'
                ltac:(intros k Hk; rewrite Hsame by exact Hk; apply Hbound; lia))
      as (A2 & Hh2 & Hun2 & Hle2).
    exists A2. split; [exact Hh2|]. split; [|].
    + intros i Hi. rewrite Hun2.
      * apply Hun. intros c k Hc Hk. apply Hi; lia.
      * intros k Hk. apply Hi; lia.
    + intros c k Hc Hk. destruct (Z.eq_dec c M) as [->|Hne].
      * apply (least_of_ext (fun j => carried (A' (cur M j)) (Z.abs (k - j)))).
        -- intros j Hj. rewrite Hsame by exact Hj. reflexivity.
        -- apply Hle2. exact Hk.
      * rewrite Hun2.
        -- apply Hle; lia.
        -- intros k' Hk' E.
           destruct (Hinj c k M k' ltac:(lia) Hk ltac:(lia) Hk' E). lia.
Qed.

Lemma all_lines (A : Z -> Z) (dt : list spec_float) :
  0 <= N -> holds L A dt ->
  (forall c k, 0 <= c < N -> 0 <= k < n -> A (cur c k) = FAR \/ 0 <= A (cur c k) <= b) ->
  exists A',
    holds L A'
      (fold_left
         (fun dt c =>
            fold_left (fun dt k => if k <? n - 1 then relax dt (cur c k) (next c k) else dt)
              (rev (Arr.range 0 n))
              (fold_left (fun dt k => if k >? 0 then relax dt (cur c k) (prev c k) else dt)
                 (Arr.range 0 n) dt))
         (Arr.range 0 N) dt)
    /\ (forall c k, 0 <= c < N -> 0 <= k < n ->
          least_of (fun j => carried (A (cur c j)) (Z.abs (k - j))) 0 n (A' (cur c k))).
Proof.
  intros HN Hh Hbound.
  destruct (lines_prefix A dt Hh Hbound (Z.to_nat N) ltac:(lia)) as (A' & H1 & _ & H3).
  rewrite Z2Nat.id in H1, H3 by lia.
  exists A'. split; assumption.
Qed.

End Lines.

Section LeastMember.
Import Mach FloatSpec DistanceSpec.

Lemma least_le_far (l : list Z) : least l <= FAR.
Proof. induction l as [|a l IH]; cbn [least fold_right]; [lia|]. fold (least l). lia. Qed.

Lemma least_le_in (l : list Z) (v : Z) : In v l -> least l <= v.
Proof.
  induction l as [|a l IH]; intros H; [contradiction|].
  cbn [least fold_right]. fold (least l). destruct H as [->|H]; [lia|].
  specialize (IH H). lia.
Qed.

Lemma least_attained (l : list Z) : least l = FAR \/ In (least l) l.
Proof.
  induction l as [|a l IH]; [left; reflexivity|].
  cbn [least fold_right]. fold (least l).
  destruct (Z.le_gt_cases a (least l)) as [H|H].
  - right. left. lia.
  - rewrite Z.min_r by lia. destruct IH as [IH|IH]; [left; exact IH|right; right; exact IH].
Qed.

Lemma least_unique (l : list Z) (D : Z) :
  D <= FAR -> (forall v, In v l -> D <= v) -> (D = FAR \/ In D l) -> D = least l.
Proof.
  intros Hf Hl Ha.
  assert (H1 : least l <= D).
  { destruct Ha as [->|Ha]; [apply least_le_far|apply least_le_in; exact Ha]. }
  assert (H2 : D <= least l).
  { destruct (least_attained l) as [E|E]; [rewrite E; exact Hf|apply Hl; exact E]. }
  lia.
Qed.

Lemma in_range (lo hi y : Z) : lo <= y < hi -> In y (Arr.range lo hi).
Proof.
  intros H. unfold Arr.range. apply in_map_iff. exists (Z.to_nat (y - lo)).
  split; [lia|]. apply in_seq. lia.
Qed.

(** The least over the cells of one kind, as the least over all cells of
    the distances carried from the cells that start at 0. *)
Lemma least_filter (p : Z -> bool) (s : Z -> Z) (l : list Z) :
  (forall j, In j l -> 0 <= s j < FAR) ->
  least (map (fun j => carried (if p j then 0 else FAR) (s j)) l)
  = least (map s (filter p l)).
Proof.
  induction l as [|a l IH]; intros H; [reflexivity|].
  cbn [map filter]. pose proof (H a ltac:(left; reflexivity)) as Ha.
  specialize (IH ltac:(intros j Hj; apply H; right; exact Hj)).
  cbn [least fold_right]. fold (least (map (fun j => carried (if p j then 0 else FAR) (s j)) l)).
  rewrite IH. pose proof (least_le_far (map s (filter p l))) as Hl.
  unfold carried. destruct (p a).
  - cbn [map least fold_right]. fold (least (map s (filter p l))). lia.
  - lia.
Qed.

End LeastMember.

Section Transform.
Import Mach F32 FloatSpec DistanceField DistanceSpec.

Variables (w h : Z).
Hypothesis Hw : 1 <= w.
Hypothesis Hh : 1 <= h.
Hypothesis Hsize : w + h <= 2 ^ 23.

Lemma cell_in_grid (y x : Z) : 0 <= y < h -> 0 <= x < w -> 0 <= y * w + x < w * h.
Proof. intros Hy Hx. nia. Qed.

Lemma cell_unique (y x y' x' : Z) :
  0 <= x < w -> 0 <= x' < w -> y * w + x = y' * w + x' -> y = y' /\ x = x'.
Proof.
  intros Hx Hx' E.
  assert (y = y').
  { destruct (Z.lt_trichotomy y y') as [H|[H|H]]; [exfalso|assumption|exfalso]; nia. }
  subst y'. split; [reflexivity|lia].
Qed.

Lemma cell_coords (y x : Z) :
  0 <= x < w -> (y * w + x) mod w = x /\ (y * w + x) / w = y.
Proof.
  intros Hx. split.
  - rewrite Z.add_comm, Z_mod_plus_full. apply Z.mod_small. exact Hx.
  - rewrite Z.div_add_l by lia. rewrite Z.div_small by exact Hx. lia.
Qed.

Lemma cell_split (i : Z) :
  0 <= i < w * h ->
  i = (i / w) * w + i mod w /\ 0 <= i / w < h /\ 0 <= i mod w < w.
Proof.
  intros Hi. pose proof (Z.div_mod i w ltac:(lia)) as E.
  pose proof (Z.mod_pos_bound i w ltac:(lia)) as Hm.
  split; [lia|]. split; [|exact Hm]. split.
  - apply Z.div_pos; lia.
  - apply Z.div_lt_upper_bound; lia.
Qed.

Lemma steps_bound (i j : Z) :
  0 <= i < w * h -> 0 <= j < w * h -> 0 <= steps w i j < FAR.
Proof.
  intros Hi Hj. destruct (cell_split i Hi) as (_ & Hy & Hx).
  destruct (cell_split j Hj) as (_ & Hy' & Hx').
  destruct far_is_large as [HF HP]. change (2 ^ 23) with 8388608 in Hsize.
  unfold steps. lia.
Qed.

Lemma steps_positive (i j : Z) :
  0 <= i < w * h -> 0 <= j < w * h -> i <> j -> 1 <= steps w i j.
Proof.
  intros Hi Hj Hne. destruct (cell_split i Hi) as (Ei & Hy & Hx).
  destruct (cell_split j Hj) as (Ej & Hy' & Hx').
  unfold steps.
  destruct (Z.eq_dec (i mod w) (j mod w)) as [Em|Em]; [|lia].
  destruct (Z.eq_dec (i / w) (j / w)) as [Ed|Ed]; [|lia].
  exfalso. apply Hne. rewrite Ei, Ej, Em, Ed. reflexivity.
Qed.

(** The four passes leave in each cell the least, over all cells, of the
    distance the cell started with carried over the steps between the two
    cells. *)
Lemma distance_passes_holds (A : Z -> Z) (dt : list spec_float) :
  holds (w * h) A dt ->
  (forall i, 0 <= i < w * h -> A i = FAR \/ A i = 0) ->
  exists A',
    holds (w * h) A' (distance_passes w h dt)
    /\ forall i, 0 <= i < w * h ->
         A' i = least (map (fun j => carried (A j) (steps w i j)) (Arr.range 0 (w * h))).
Proof.
  intros Hholds Hinit. destruct far_is_large as [HF HP].
  change (2 ^ 23) with 8388608 in Hsize.
  unfold distance_passes. cbv zeta.
  destruct (all_lines (fun y x => y * w + x) (fun y x => y * w + x - 1)
              (fun y x => y * w + x + 1) h w (w * h) 0
              ltac:(intros; cbv beta; lia) ltac:(intros; cbv beta; lia)
              ltac:(intros c k Hc Hk; apply cell_in_grid; assumption)
              ltac:(intros c k c' k' Hc Hk Hc' Hk' E; exact (cell_unique c k c' k' Hk Hk' E))
              ltac:(lia) ltac:(lia) A dt ltac:(lia) Hholds
              ltac:(intros c k Hc Hk;
                    destruct (Hinit (c * w + k) (cell_in_grid c k Hc Hk)) as [E|E];
                    [left; exact E|right; lia]))
    as (A1 & Hh1 & Hle1).
  cbv beta in Hh1, Hle1.
  assert (Hb1 : forall c k, 0 <= c < w -> 0 <= k < h ->
            A1 (k * w + c) = FAR \/ 0 <= A1 (k * w + c) <= w - 1).
  { intros c k Hc Hk.
    pose proof (proj2 Hh1 (k * w + c) (cell_in_grid k c Hk Hc)) as [_ Hv].
    destruct (Hle1 k c Hk Hc) as (_ & _ & [Hf|(j & Hj & Hf)]); [left; exact Hf|].
    destruct (Hinit (k * w + j) (cell_in_grid k j Hk Hj)) as [E|E].
    - left. rewrite Hf, E. unfold carried. lia.
    - right. rewrite E in Hf. unfold carried in Hf. lia. }
  destruct (all_lines (fun x y => y * w + x) (fun x y => (y - 1) * w + x)
              (fun x y => (y + 1) * w + x) w h (w * h) (w - 1)
              ltac:(intros; cbv beta; f_equal; lia) ltac:(intros; cbv beta; f_equal; lia)
              ltac:(intros c k Hc Hk; apply cell_in_grid; assumption)
              ltac:(intros c k c' k' Hc Hk Hc' Hk' E;
                    destruct (cell_unique k c k' c' Hc Hc' E); split; assumption)
              ltac:(lia) ltac:(lia) A1 _ ltac:(lia) Hh1 Hb1)
    as (A2 & Hh2 & Hle2).
  cbv beta in Hh2, Hle2.
  exists A2. split; [exact Hh2|].
  intros i Hi. destruct (cell_split i Hi) as (Ei & Hy & Hx).
  set (x := i mod w) in *. set (y := i / w) in *.
  destruct (Hle2 x y Hx Hy) as (Dfar & Dlb & Datt).
  rewrite <- Ei in Dfar, Dlb, Datt.
  apply least_unique.
  - exact Dfar.
  - intros v Hv. apply in_map_iff in Hv. destruct Hv as (j & <- & Hj).
    apply range_in in Hj. destruct (cell_split j Hj) as (Ej & Hy' & Hx').
    pose proof (Dlb (j / w) Hy') as H1.
    destruct (Hle1 (j / w) x Hy' Hx) as (_ & L1 & _).
    pose proof (L1 (j mod w) Hx') as H2. rewrite <- Ej in H2.
    unfold steps. fold x y. unfold carried in *. lia.
  - destruct Datt as [Hf|(y' & Hy' & Hf)]; [left; exact Hf|].
    destruct (Hle1 y' x Hy' Hx) as (_ & _ & [Ef|(x' & Hx' & Ef)]).
    + left. rewrite Hf, Ef. unfold carried. lia.
    + right. apply in_map_iff. exists (y' * w + x'). split.
      * destruct (cell_coords y' x' Hx') as [Em Ed].
        unfold steps. rewrite Em, Ed. fold x y.
        rewrite Hf, Ef.
        pose proof (proj2 Hholds (y' * w + x') (cell_in_grid y' x' Hy' Hx')) as [_ Hv].
        unfold carried. lia.
      * apply in_range. apply cell_in_grid; assumption.
Qed.

End Transform.

Section SignedDistance.
Import Mach F32 FloatSpec DistanceField DistanceSpec.

Variables (bitmap : list Z) (w h : Z).
Hypothesis Hw : 1 <= w.
Hypothesis Hh : 1 <= h.
Hypothesis Hsize : w + h <= 2 ^ 23.

Lemma mask_truthy (i : Z) :
  0 <= i < w * h -> truthy (Arr.get 0 (threshold_mask bitmap w h) i) = inside bitmap i.
Proof.
  intros Hi. rewrite mask_pixel by exact Hi. unfold inside.
  destruct (Arr.get 0 bitmap i >? 127); reflexivity.
Qed.

(** The two fields before the passes: 0 in the cells of the kind that is
    looked for, 1e9 in the others. *)
Lemma initial_field_holds (kind : bool) :
  holds (w * h) (fun j => if Bool.eqb (inside bitmap j) kind then 0 else FAR)
        (map (fun m => if Bool.eqb (truthy m) kind then zero else far)
             (threshold_mask bitmap w h)).
Proof.
  destruct far_is_large as [HF HP]. unfold holds. split.
  - unfold threshold_mask. rewrite !length_map, range_length. nia.
  - intros i Hi. split.
    + pose proof (mask_truthy i Hi) as Hm.
      unfold threshold_mask in *. rewrite map_map.
      rewrite get_map_range by exact Hi. rewrite get_map_range in Hm by exact Hi.
      rewrite Hm. destruct (Bool.eqb (inside bitmap i) kind); reflexivity.
    + destruct (Bool.eqb (inside bitmap i) kind); lia.
Qed.

Lemma field_of_kind (kind : bool) (i : Z) :
  0 <= i < w * h ->
  exists A,
    holds (w * h) A
      (distance_passes w h
         (map (fun m => if Bool.eqb (truthy m) kind then zero else far)
              (threshold_mask bitmap w h)))
    /\ A i = nearest bitmap w h kind i.
Proof.
  intros Hi.
  destruct (distance_passes_holds w h Hw Hh Hsize _ _ (initial_field_holds kind))
    as (A & HA & Hval).
  { intros j Hj. cbv beta. destruct (Bool.eqb (inside bitmap j) kind); [right|left]; reflexivity. }
  exists A. split; [exact HA|].
  rewrite (Hval i Hi). unfold nearest.
  apply (least_filter (fun j => Bool.eqb (inside bitmap j) kind) (steps w i)).
  intros j Hj. apply range_in in Hj. apply (steps_bound w h Hw Hsize); assumption.
Qed.

(** The outside field holds, in each cell, the distance to the nearest
    inside cell, and the inside field the distance to the nearest outside
    cell. *)
Lemma outside_field_cell (i : Z) :
  0 <= i < w * h ->
  Arr.get zero (outside_field (threshold_mask bitmap w h) w h) i
  = of_int (nearest bitmap w h true i).
Proof.
  intros Hi. destruct (field_of_kind true i Hi) as (A & [_ HA] & Hval).
  unfold outside_field.
  rewrite (map_ext (fun m : Z => if truthy m then zero else far)
                   (fun m => if Bool.eqb (truthy m) true then zero else far))
    by (intros m; destruct (truthy m); reflexivity).
  rewrite (proj1 (HA i Hi)), Hval. reflexivity.
Qed.

Lemma inside_field_cell (i : Z) :
  0 <= i < w * h ->
  Arr.get zero (inside_field (threshold_mask bitmap w h) w h) i
  = of_int (nearest bitmap w h false i).
Proof.
  intros Hi. destruct (field_of_kind false i Hi) as (A & [_ HA] & Hval).
  unfold inside_field.
  rewrite (map_ext (fun m : Z => if truthy m then far else zero)
                   (fun m => if Bool.eqb (truthy m) false then zero else far))
    by (intros m; destruct (truthy m); reflexivity).
  rewrite (proj1 (HA i Hi)), Hval. reflexivity.
Qed.

(** A distance is 1e9 or a number of steps inside the grid. *)
Lemma nearest_range (kind : bool) (i : Z) :
  0 <= i < w * h ->
  nearest bitmap w h kind i = FAR \/ 0 <= nearest bitmap w h kind i < w + h.
Proof.
  intros Hi. unfold nearest.
  destruct (least_attained
              (map (steps w i)
                   (filter (fun j => Bool.eqb (inside bitmap j) kind) (Arr.range 0 (w * h)))))
    as [E|E]; [left; exact E|right].
  apply in_map_iff in E. destruct E as (j & E & Hj). rewrite <- E.
  apply filter_In in Hj. destruct Hj as [Hj _]. apply range_in in Hj.
  destruct (cell_split w h Hw i Hi) as (_ & Hy & Hx).
  destruct (cell_split w h Hw j Hj) as (_ & Hy' & Hx').
  unfold steps. lia.
Qed.

(** The distance of a cell to the cells of the other kind is at least 1,
    and the distance to its own kind is 0. *)
Lemma nearest_other (kind : bool) (i : Z) :
  0 <= i < w * h -> inside bitmap i <> kind -> 1 <= nearest bitmap w h kind i.
Proof.
  intros Hi Hk. unfold nearest. destruct far_is_large as [HF _].
  destruct (least_attained
              (map (steps w i)
                   (filter (fun j => Bool.eqb (inside bitmap j) kind) (Arr.range 0 (w * h)))))
    as [E|E]; [rewrite E; lia|].
  apply in_map_iff in E. destruct E as (j & E & Hj). rewrite <- E.
  apply filter_In in Hj. destruct Hj as [Hj Hp]. apply range_in in Hj.
  apply (steps_positive w h Hw); try assumption.
  intros ->. apply Hk. apply eqb_prop. exact Hp.
Qed.

Lemma nearest_own (kind : bool) (i : Z) :
  0 <= i < w * h -> inside bitmap i = kind -> nearest bitmap w h kind i = 0.
Proof.
  intros Hi Hk.
  destruct (nearest_range kind i Hi) as [E|E].
  - exfalso. unfold nearest in E.
    pose proof (least_le_in
                  (map (steps w i)
                       (filter (fun j => Bool.eqb (inside bitmap j) kind)
                               (Arr.range 0 (w * h))))
                  (steps w i i)) as H.
    rewrite E in H. destruct far_is_large as [HF _].
    assert (Hs : steps w i i = 0) by (unfold steps; lia).
    rewrite Hs in H. assert (FAR <= 0); [|lia].
    apply H. apply in_map_iff. exists i. split; [exact Hs|].
    apply filter_In. split; [apply in_range; exact Hi|].
    rewrite Hk. apply eqb_reflx.
  - assert (Hle : nearest bitmap w h kind i <= 0); [|lia].
    unfold nearest.
    replace 0 with (steps w i i) at 2 by (unfold steps; lia).
    apply least_le_in. apply in_map_iff. exists i. split; [reflexivity|].
    apply filter_In. split; [apply in_range; exact Hi|].
    rewrite Hk. apply eqb_reflx.
Qed.

Lemma signed_distance_range (i : Z) :
  0 <= i < w * h ->
  let d := signed_distance bitmap w h i in
  held (Z.abs d)
  /\ (inside bitmap i = true -> d <= -1)
  /\ (inside bitmap i = false -> 1 <= d).
Proof.
  intros Hi d. subst d. unfold signed_distance. destruct far_is_large as [HF HP].
  change (2 ^ 23) with 8388608 in Hsize.
  destruct (inside bitmap i) eqn:E.
  - pose proof (nearest_other false i Hi ltac:(rewrite E; discriminate)) as H1.
    destruct (nearest_range false i Hi) as [H2|H2]; unfold held;
      (split; [lia|split; [lia|discriminate]]).
  - pose proof (nearest_other true i Hi ltac:(rewrite E; discriminate)) as H1.
    destruct (nearest_range true i Hi) as [H2|H2]; unfold held;
      (split; [lia|split; [discriminate|lia]]).
Qed.

End SignedDistance.

Section ClampAndRemap.
Import Mach F32 FloatSpec DistanceField DistanceSpec.

(** The clamp of the source, on a whole distance. *)
Lemma clamp_of_int (spread d : Z) :
  1 <= spread < 2 ^ 24 -> held (Z.abs d) ->
  clamp_distance (of_int d) spread = of_int (clamp spread d).
Proof.
  intros Hs Hd. destruct far_is_large as [HF HP].
  assert (Hsp : held (Z.abs spread)) by (unfold held; lia).
  assert (Hsn : held (Z.abs (- spread))) by (unfold held; lia).
  unfold clamp_distance, ltb, gtb, clamp.
  rewrite (ltb_of_int d (- spread) Hd Hsn).
  destruct (Z.ltb_spec d (- spread)) as [H1|H1].
  - rewrite (ltb_of_int spread (- spread) Hsp Hsn).
    destruct (Z.ltb_spec spread (- spread)); [lia|]. f_equal. lia.
  - rewrite (ltb_of_int spread d Hsp Hd).
    destruct (Z.ltb_spec spread d); f_equal; lia.
Qed.

(** Each cell of the distance field is the remap of the clamped signed
    distance of the cell. *)
Lemma sdf_cell (bitmap : list Z) (w h spread i : Z) :
  1 <= w -> 1 <= h -> w + h <= 2 ^ 23 -> 1 <= spread < 2 ^ 24 -> 0 <= i < w * h ->
  Arr.get 0 (glyph_ttf_get_glyph_sdf_bitmap bitmap w h spread) i
  = remap_distance (of_int (clamp spread (signed_distance bitmap w h i))) spread.
Proof.
  intros Hw Hh Hsize Hs Hi.
  rewrite sdf_bitmap_pixel by exact Hi. cbv zeta. unfold sdf_pixel.
  rewrite (mask_truthy bitmap w h i Hi).
  rewrite (inside_field_cell bitmap w h Hw Hh Hsize i Hi).
  rewrite (outside_field_cell bitmap w h Hw Hh Hsize i Hi).
  destruct (signed_distance_range bitmap w h Hw Hsize i Hi) as (Hheld & Hin & Hout).
  cbv zeta in Hheld, Hin, Hout.
  rewrite <- (clamp_of_int spread _ Hs Hheld).
  unfold signed_distance in *. destruct far_is_large as [HF HP].
  destruct (inside bitmap i); [|reflexivity].
  specialize (Hin eq_refl). f_equal. f_equal. apply opp_of_int.
  - rewrite Z.abs_neq in Hheld by lia. rewrite Z.opp_involutive in Hheld. exact Hheld.
  - lia.
Qed.

Lemma remap_checked_128 : remap_checked 128 = true.
Proof. vm_compute. reflexivity. Qed.

Lemma remap_checked_linear (N spread d : Z) :
  remap_checked N = true ->
  1 <= spread <= N -> - spread <= d <= spread ->
  let v := remap_distance (of_int d) spread in
  2 * spread * v <= 255 * (d + spread) <= 2 * spread * (v + 1).
Proof.
  intros H Hs Hd v. subst v. unfold remap_checked in H.
  rewrite forallb_forall in H.
  specialize (H spread (in_range 1 (N + 1) spread ltac:(lia))).
  rewrite forallb_forall in H.
  specialize (H d (in_range (- spread) (spread + 1) d ltac:(lia))).
  unfold linear_within_one in H. apply andb_true_iff in H. destruct H as [H1 H2].
  apply Z.leb_le in H1. apply Z.leb_le in H2. lia.
Qed.

(** For a spread up to 128 the remap of a whole distance is the linear map
    [255 * (d + spread) / (2 * spread)], rounded down, or 1 less. *)
Lemma remap_linear (spread d : Z) :
  1 <= spread <= 128 -> - spread <= d <= spread ->
  let v := remap_distance (of_int d) spread in
  2 * spread * v <= 255 * (d + spread) <= 2 * spread * (v + 1).
Proof.
  intros Hs Hd. apply (remap_checked_linear 128); [exact remap_checked_128| |]; assumption.
Qed.

End ClampAndRemap.



